(* ===== verification/_CoqProject ===== *)
-Q . S2P
Prelude.v
RustStr.v
Entities.v
Database.v
Error.v
Http.v
Cache.v
Env.v
Config.v
Launcher.v
LauncherFacts.v
Auth.v
Proxy.v
Routes.v
Json.v
Api.v
Client.v
Server.v
Migrations.v
Sample.v
RoutesFacts.v
Access.v
ProxyFacts.v
DispatchFacts.v
AuthFacts.v
ServerFacts.v
Startup.v
System.v
SystemFacts.v
Wire.v
WireFacts.v
Runtime.v
Liveness.v
Registry.v
Termination.v
Session.v
TestUtils.v
RouteTests.v
UnitTests.v
Witnesses.v
