(* ===== verification/Prelude.v ===== *)
(** * spark-plug: a verification development

    spark-plug is a server that launches Spark Connect sessions on behalf of its users
    and proxies their gRPC traffic to the drivers.  A user creates an application
    through a REST API; the server inserts a row, starts [spark-submit] and answers with
    a token; the driver reports its address over a callback that bears this token; from
    then on requests for the path [/spark.connect.SparkConnectService] that bear the
    token are forwarded to that address by a dispatcher, one task per token.  Two
    maintenance commands delete old rows and give up on unreachable applications.

    ** The parts of the program and the files that model them

    - [Prelude] (this file): Rust's [Result] and [Option] operations, the tactics and the
      lemmas on lists and maps that the other files share.
    - [RustStr]: the functions on [str] the server uses.
    - [Entities] ([server/src/entities/application.rs]): the life cycle [State], the row
      [Model], the partial row [ActiveModel].
    - [Database]: the statements the code hands to sea-orm as data ([DbStmt], [Query]),
      and the contract [db_post] between the table before, the response and the table
      after.  [MemDb] is a database in memory that meets it.
    - [Error] ([server/src/error.rs]), [Http]: errors with their text; requests,
      responses and the interface [HttpLib] to http, hyper and reqwest.
    - [Cache] ([server/src/proxy.rs], [UpstreamConnectionCache]): the state behind the
      mutex; one function per critical section, and [drop_receiver] for a dispatcher
      that ends.
    - [Env]: effects, programs, traces, the program logic [wp], and the interface [Env]
      to the environment a program runs in.
    - [Config] ([server/src/config.rs]): the configuration, its defaults and templates.
    - [Launcher], [LauncherFacts] ([server/src/launcher.rs]): the trait [Launcher] as a
      class, its implementation by [SparkLauncher], and what it guarantees.
    - [Auth], [AuthFacts] ([server/src/auth.rs]): the four authentication methods, their
      construction from the configuration, the layers [UserAuth] and [TokenAuth].
    - [Proxy], [ProxyFacts], [DispatchFacts] ([server/src/proxy.rs]): from an incoming
      request to the queue of its dispatcher ([call], [dispatch_request], [sender_for]),
      the dispatcher ([upstream_connection], [handle_message]), address resolution,
      connection attempts, session messages and error replies.
    - [Routes], [RoutesFacts], [Access] ([server/src/routes.rs]): the handlers of the
      REST API, the task [create_app] leaves behind, the layers in front ([serve]).
    - [Json], [Api] ([server/src/routes.rs]): the wire format of the API's records; the
      routing table ([get_router]), the extractors, and the way from method, path, query,
      headers and body to the handler and back ([serve_request]).
    - [Client] ([clients/rust/src/lib.rs]): the Rust client.
    - [Server], [ServerFacts] ([server/src/lib.rs]): [prune], [check], the health check,
      and the accept loop with its graceful shutdown as a state machine.
    - [Startup] ([server/src/lib.rs], [server/src/main.rs]): [Server::from_config], TLS,
      the listener and the shutdown signal, the Kerberos task, [main].
    - [Migrations] ([server/migration/src]): the migrations of the schema.
    - [System], [SystemFacts]: all of the server at once; [Registry]: the specification it
      refines.
    - [Wire], [WireFacts], [Liveness], [Runtime]: the system with the contents of its
      channels, what holds of it and what can always happen in it, and a scheduler that
      executes it.
    - [Termination]: how many effects each program takes.
    - [Session]: the client, the server, the driver and the dispatcher in one session.
    - [TestUtils], [RouteTests], [UnitTests]: the fixtures and the unit tests of the source
      ([mod test] of routes.rs, launcher.rs, proxy.rs and lib.rs), run on the model to see
      that it behaves as the program is expected to.
    - [Sample], [Witnesses]: a concrete environment, and each property with hypotheses
      applied in it.

    ** How code is represented

    Pure code is a Rocq function; [Result] is [result] and [?] its bind [<-?].  A panic is
    a value where start-up code panics on bad configuration ([Panic]).  Integers are [Z];
    where the width matters the cast or saturation is written out ([u64_as_i64],
    [saturating_sub], [i32]).

    Effectful code is a [prog], a tree whose nodes are single effects ([Eff]): one
    database statement, one critical section of the cache, one channel or network
    operation, one process.  An effect is what happens between two points at which the
    scheduler may run another task.  The same program is used in three ways.  [run]
    executes it alone in an environment, and the functional theorems of [RoutesFacts] and
    [ServerFacts] say what comes out, branch by branch.  [trace] is any run, finished or
    not, against any responses the databases and the rest of the world may give; [wp]
    proves what holds at every effect of every trace, so the safety theorems hold
    whatever other tasks do in between.  [System.sys_step] interleaves any number of
    programs over one table and one cache, and the theorems of [SystemFacts] are
    invariants of every state it reaches; [Wire.net_step] does so with the contents of the
    channels, which [System] leaves open.

    The row of the source's table [application] is a [Model], the table a finite map from
    ids to rows; [UpstreamConnectionCache.connections] is [Cache.connections]; a channel is a
    number, with the set [Cache.closed] of those whose receiver is gone.

    ** What the theorems show

    - Isolation.  A request runs on the authority its layer found, a user or a bearer
      token ([serve_needs_authority]); each effect it performs is within that authority
      ([serve_scoped]); so it neither changes nor reveals rows of others
      ([tenant_isolation]).  A dispatcher forwards a request only if it bears its own
      token, and only to where the application of that token was seen running
      ([dispatcher_guarded], [call_guarded], [queued_with_own_token]); and a response that
      comes back is the answer to the request it comes back for ([responses_not_mixed]).
    - The life cycle.  Every reachable state is well formed ([system_invariant]) and
      every step treats rows as the life cycle allows ([system_step_rows]); seen through
      [registry], the server is a registry of applications each of whose changes is one
      of five ([system_refines_registry]).
    - A session.  What the client creates is found where its driver reports to be, until
      the client stops it ([session_end_to_end]).
    - Termination and progress.  Every request, command and watching task ends after a
      bounded number of effects ([requests_terminate]); in every reachable state a request to
      a running application can be carried through ([running_application_served]).
    - The handlers.  [create_app_spec], [delete_app_spec], [list_apps_spec],
      [get_app_spec], [app_callback_spec], [app_callback_delete_spec], [launch_watch_spec]
      give the complete behaviour of each, errors included: the reply as a function of how
      the launch or the stop message came out, the rows, the cache, and the events in order.
    - The dispatcher.  One per token at a time, started by the request that registers
      first ([single_flight], [sender_for_spec], [reconnect_fresh]); one answer per request, in order ([dispatcher_answers_once]);
      a bounded number of connection attempts ([connect_attempts_bounded]); polling ends
      with the launch ([resolve_polls_until_launched]); error texts survive the gRPC
      header ([proxy_error_response_message]).
    - Launching.  The layering of configurations key by key ([build_conf_lookup]), the
      command line read back ([submit_command_conf]), the screen on the user's files
      ([validate_file_configs_spec]), no process without it
      ([launch_spawns_only_validated]).
    - Maintenance and shutdown.  [prune_spec], [check_spec], [health_check_attempts],
      [graceful_shutdown], [shutdown_completes].  The signal channel closes on a signal and
      also when the task that waits for one panics, and the theorems count both.
    - Start-up and the rest of the API.  [server_from_config_spec],
      [user_auth_from_config_spec], [find_version_spec]; the migrations from an empty or an
      older database and back ([migrations_round_trip]); the client speaks the server's API ([create_application_meets_api],
      [stop_application_meets_api]) and hands the token on
      ([connection_string_reads_back]); a request is routed to a handler registered for its
      route and method ([extract_endpoint]); the listener and the signal ([run_setup_spec],
      [signal_channel_spec]).
    - Validation.  The model, with the sample libraries, passes the tests the source has
      ([route_tests_pass], [unit_tests_pass]): examples, not properties.
    - Behaviour that looks unintended, proved as it is: [prune_wraps],
      [handshake_stops_server], [conf_key_injection], [deleted_app_comes_back],
      [validate_accepts_local_path], a clause of [validate_file_configs_spec].

    ** Interfaces and laws

    Code outside the repository is a class whose members are what the source calls:
    [HttpLib], [RouterLib], [QueryLib], [ConfigLib], [HostLib], [AuthLib], [TimeLib],
    [StartupLib], [ClientLib], [SchemaDb], [MigratorLib], and [Env] for effects.  Laws are kept apart and small: header names
    compare without case and visible ASCII makes a header value ([HttpLaws]); which paths
    match a route and what they capture, which methods a handler serves, [HEAD] without a
    body ([RouterLaws]); a
    [HashMap] yields each entry once in some order ([HostLaws]); a timestamp exists for a
    range of years ([TimeLaws]); the schema statements do what they say ([SchemaLaws]);
    the runner applies the migrations that are not yet applied and remembers them in a
    table of its own ([MigratorLaws]);
    a statement meets [db_post] and the cache is changed by its own operations only
    ([EnvLaws]).  The trait [Launcher] is a class with [LauncherLaws], against which the
    routes are proved; [SparkLauncher] has an instance of both.  Each class has a
    concrete instance, and each set of laws an instance for it: in a module next to the
    class, in [Sample] for [Env], in [TestUtils] for [QueryLib] and the text of timestamps.

    ** Fuel and bounds

    The attempts to connect and to check health are structural recursions on the
    attempts left, so they need no fuel.  [resolve_upstream_address] polls for as long as
    an application launches, the dispatcher takes messages for as long as its channel is
    open, and the Kerberos task renews for ever: these take a number of rounds, and the
    theorems about them hold for every number, so for every finite prefix of a run.
    [resolve_polls_until_launched] shows that running out of rounds means that every
    round found the application still launching.  [trim] recurses on the length of the
    string, which bounds what it can remove.

    ** What is not modelled, and why

    The byte level of HTTP and TLS, and what a connection does between two requests belong
    to tokio, hyper and rustls; JSON text is serde_json's, the text of query strings
    serde_urlencoded's.  What axum answers when no route takes a request is left open, and
    how it matches, decodes and dispatches is the interface [RouterLib].
    Logging and the counter that only numbers log lines are left out.  The Python client
    and the Scala plugin are in other languages; the server sees the plugin only through
    the callback routes and session messages.  The integration test needs a running
    Spark; deployment has no logic of its own.

    ** What would come next

    Progress under a fair scheduler instead of along some run; progress for a request to a
    dispatcher that is already busy; the command-line arguments, the unpacking of the
    embedded plugin, and the state of one HTTP connection in [ProxyService]. *)

From stdpp Require Import base option list strings gmap sets pretty.

(** ** Results: Rust's [Result<A, E>] *)

Inductive result (A E : Type) : Type :=
| Ok (a : A)
| Err (e : E).
Arguments Ok {A E} a.
Arguments Err {A E} e.

Declare Scope rust_scope.
Delimit Scope rust_scope with rust.

(** [x <-? r ;; k] is Rust's [let x = r?; k] on a pure result. *)
Notation "x <-? r ;; k" :=
  (match r with Ok x => k | Err e => Err e end)
  (at level 100, r at next level, right associativity) : rust_scope.

Definition is_ok {A E} (r : result A E) : bool :=
  match r with Ok _ => true | Err _ => false end.

Definition is_err {A E} (r : result A E) : bool := negb (is_ok r).

(** [Option::ok_or]. *)
Definition ok_or {A E} (o : option A) (e : E) : result A E :=
  match o with Some a => Ok a | None => Err e end.

(** [Result::map_err]. *)
Definition map_err {A E F} (f : E -> F) (r : result A E) : result A F :=
  match r with Ok a => Ok a | Err e => Err (f e) end.

(** [Result::ok]. *)
Definition ok {A E} (r : result A E) : option A :=
  match r with Ok a => Some a | Err _ => None end.

(** [Option<Result<A, E>>::transpose]. *)
Definition transpose {A E} (o : option (result A E)) : result (option A) E :=
  match o with
  | None => Ok None
  | Some (Ok a) => Ok (Some a)
  | Some (Err e) => Err e
  end.

(** [Option::unwrap_or]. *)
Definition unwrap_or {A} (o : option A) (d : A) : A := default d o.

#[export] Instance result_eq_dec {A E} `{!EqDecision A, !EqDecision E} :
  EqDecision (result A E).
Proof. solve_decision. Defined.

Lemma ok_or_Ok {A E} (o : option A) (e : E) a : ok_or o e = Ok a <-> o = Some a.
Proof. destruct o; naive_solver. Qed.

Lemma ok_or_Err {A E} (o : option A) (e e' : E) : ok_or o e = Err e' <-> o = None /\ e = e'.
Proof. destruct o; naive_solver. Qed.

Lemma map_err_Ok {A E F} (f : E -> F) (r : result A E) a : map_err f r = Ok a <-> r = Ok a.
Proof. destruct r; naive_solver. Qed.

Lemma is_ok_spec {A E} (r : result A E) : is_ok r = true <-> exists a, r = Ok a.
Proof. destruct r; naive_solver. Qed.

Create HintDb plug.
#[export] Hint Constructors result : plug.

(** ** Tactics of the development *)

(** Case analysis on the innermost scrutinee of the goal, keeping the equation. *)
Ltac case_scrutinee :=
  match goal with
  | |- context [match ?x with _ => _ end] =>
      lazymatch x with
      | context [match _ with _ => _ end] => fail
      | _ => let E := fresh "E" in destruct x eqn:E
      end
  end.

Ltac case_scrutinee_in H :=
  match type of H with
  | context [match ?x with _ => _ end] =>
      lazymatch x with
      | context [match _ with _ => _ end] => fail
      | _ => let E := fresh "E" in destruct x eqn:E
      end
  end.

(** ** Lists and maps *)

Lemma list_find_Some_first {A} (P : A -> Prop) `{!forall x, Decision (P x)} (l : list A) i x :
  list_find P l = Some (i, x) ->
  P x /\ x ∈ l /\ forall j y, l !! j = Some y -> (j < i)%nat -> ~ P y.
Proof.
  intros (Hi & HP & Hmin)%list_find_Some. split_and!; [done | |].
  - by eapply list_elem_of_lookup_2.
  - intros j y Hj Hlt. by eapply Hmin.
Qed.

(** Folding insertions of a list with distinct keys: the last word on key [k] is
    the list's own binding, if it has one. *)
Lemma foldl_insert_lookup {V} (f : string -> option V -> V -> V)
    (l : list (string * V)) (m : gmap string V) k :
  NoDup l.*1 ->
  foldl (fun acc kv => <[kv.1 := f kv.1 (acc !! kv.1) kv.2]> acc) m l !! k =
  match (list_to_map l : gmap string V) !! k with
  | Some v => Some (f k (m !! k) v)
  | None => m !! k
  end.
Proof.
  revert m. induction l as [|[k' v'] l IH]; intros m Hnd; simpl in *.
  { by rewrite lookup_empty. }
  apply NoDup_cons in Hnd as [Hk' Hnd]. rewrite IH by done. simpl.
  destruct (decide (k = k')) as [->|Hne].
  - rewrite lookup_insert_eq. rewrite (not_elem_of_list_to_map_1 l k') by done.
    by rewrite lookup_insert_eq.
  - rewrite lookup_insert_ne by done. rewrite lookup_insert_ne by done. done.
Qed.

Lemma NoDup_fst_perm {V} (l : list (string * V)) (m : gmap string V) :
  l ≡ₚ map_to_list m -> NoDup l.*1.
Proof. intros ->. apply NoDup_fst_map_to_list. Qed.

Lemma list_to_map_perm {V} (l : list (string * V)) (m : gmap string V) :
  l ≡ₚ map_to_list m -> (list_to_map l : gmap string V) = m.
Proof.
  intros Hl. rewrite (list_to_map_proper l (map_to_list m)); [by rewrite list_to_map_to_list| |done].
  by eapply NoDup_fst_perm.
Qed.
