(* ===== verification/RustStr.v ===== *)
(** * The string functions of Rust's standard library the server uses

    A Rust [str] is its sequence of UTF-8 bytes, a Rocq [string].  Modelled here:
    [starts_with], [strip_prefix], [contains], [split(char)], [split_once(char)],
    [trim], [is_empty], slicing at a byte index and [str::get(..n)], each with the
    lemma that says what it computes. *)

From stdpp Require Import base option list strings gmap sets.
From Stdlib Require Import Ascii.
From S2P Require Import Prelude.

Definition is_empty (s : string) : bool := bool_decide (s = "").

(** [str::strip_prefix]; the prefix patterns of the source are ASCII, so a byte
    comparison is a character comparison. *)
Fixpoint strip_prefix (p s : string) : option string :=
  match p, s with
  | EmptyString, _ => Some s
  | String a p, String b s => if decide (a = b) then strip_prefix p s else None
  | String _ _, EmptyString => None
  end.

(** [str::starts_with]. *)
Definition starts_with (p s : string) : bool := bool_decide (is_Some (strip_prefix p s)).

(** [str::contains] for a string pattern. *)
Fixpoint contains (n h : string) : bool :=
  starts_with n h || match h with EmptyString => false | String _ h => contains n h end.

(** [str::split(char)]: always at least one piece. *)
Fixpoint split (c : ascii) (s : string) : list string :=
  match s with
  | EmptyString => [""]
  | String a s =>
      if decide (a = c) then "" :: split c s
      else match split c s with
           | p :: ps => String a p :: ps
           | [] => [String a ""]
           end
  end.

(** [str::split_once(char)]. *)
Fixpoint split_once (c : ascii) (s : string) : option (string * string) :=
  match s with
  | EmptyString => None
  | String a s =>
      if decide (a = c) then Some ("", s)
      else match split_once c s with
           | Some (x, y) => Some (String a x, y)
           | None => None
           end
  end.

Fixpoint has_char (c : ascii) (s : string) : bool :=
  match s with
  | EmptyString => false
  | String a s => bool_decide (a = c) || has_char c s
  end.

(** ** [str::trim]

    The UTF-8 encodings of the code points with the Unicode property White_Space. *)
Definition bytes (l : list nat) : string :=
  foldr (fun n s => String (ascii_of_nat n) s) "" l.

Definition whitespace : list string :=
  bytes <$>
  [ [9]; [10]; [11]; [12]; [13]; [32]; [194; 133]; [194; 160]; [225; 154; 128];
    [226; 128; 128]; [226; 128; 129]; [226; 128; 130]; [226; 128; 131];
    [226; 128; 132]; [226; 128; 133]; [226; 128; 134]; [226; 128; 135];
    [226; 128; 136]; [226; 128; 137]; [226; 128; 138]; [226; 128; 168];
    [226; 128; 169]; [226; 128; 175]; [226; 129; 159]; [227; 128; 128] ].

(** The rest of [s] after its first character, if that character is one of [ws]. *)
Fixpoint strip_one (ws : list string) (s : string) : option string :=
  match ws with
  | [] => None
  | w :: ws => match strip_prefix w s with Some r => Some r | None => strip_one ws s end
  end.

Fixpoint strip_all (ws : list string) (fuel : nat) (s : string) : string :=
  match fuel with
  | O => s
  | S fuel => match strip_one ws s with Some r => strip_all ws fuel r | None => s end
  end.

Definition trim_start (s : string) : string := strip_all whitespace (String.length s) s.

(** [trim_end] reads the bytes backwards: UTF-8 is self-synchronising, so the last
    bytes of a string are an encoding exactly when they are its last character. *)
Definition trim_end (s : string) : string :=
  String.rev (strip_all (String.rev <$> whitespace) (String.length s) (String.rev s)).

Definition trim (s : string) : string := trim_end (trim_start s).

(** [&s[n..]] for an index on a character boundary. *)
Fixpoint slice_from (n : nat) (s : string) : string :=
  match n, s with
  | O, _ => s
  | S n, String _ s => slice_from n s
  | S _, EmptyString => ""
  end.

Fixpoint slice_to (n : nat) (s : string) : string :=
  match n, s with
  | S n, String a s => String a (slice_to n s)
  | _, _ => ""
  end.

(** [str::is_char_boundary]: the end of the string, or a byte that does not
    continue a multi-byte character. *)
Definition is_char_boundary (n : nat) (s : string) : bool :=
  match String.get n s with
  | Some b => negb ((128 <=? nat_of_ascii b)%nat && (nat_of_ascii b <? 192)%nat)
  | None => (n =? String.length s)%nat
  end.

(** [str::get(..n)]. *)
Definition get_to (n : nat) (s : string) : option string :=
  if is_char_boundary n s then Some (slice_to n s) else None.

(** ** What they compute *)

Lemma append_nil_r s : s +:+ "" = s.
Proof. induction s; simpl; [done|]. unfold String.append in *. by f_equal. Qed.

Lemma append_assoc a b c : a +:+ (b +:+ c) = (a +:+ b) +:+ c.
Proof. induction a as [|x a IH]; [done|]. change (String x (a +:+ (b +:+ c)) = String x ((a +:+ b) +:+ c)). by f_equal. Qed.

Lemma append_cons x a b : String x a +:+ b = String x (a +:+ b).
Proof. done. Qed.

Lemma length_append a b : String.length (a +:+ b) = (String.length a + String.length b)%nat.
Proof. induction a as [|x a IH]; [done|]. rewrite append_cons. simpl. by rewrite IH. Qed.

Lemma strip_prefix_Some p s r : strip_prefix p s = Some r <-> s = p +:+ r.
Proof.
  revert s. induction p as [|a p IH]; intros s; simpl.
  { split; [by intros [= ->]|by intros ->]. }
  destruct s as [|b s]; [done|]. case_decide as Hab; subst.
  - rewrite IH. rewrite append_cons. naive_solver.
  - rewrite append_cons. naive_solver.
Qed.

Lemma strip_prefix_app p r : strip_prefix p (p +:+ r) = Some r.
Proof. by apply strip_prefix_Some. Qed.

Lemma starts_with_spec p s : starts_with p s = true <-> exists r, s = p +:+ r.
Proof.
  unfold starts_with. rewrite bool_decide_eq_true.
  split; intros [r Hr]; exists r; by apply strip_prefix_Some.
Qed.

Lemma contains_spec n h : contains n h = true <-> exists a b, h = a +:+ (n +:+ b).
Proof.
  induction h as [|x h IH]; simpl; rewrite orb_true_iff, starts_with_spec.
  - split.
    + intros [[r Hr]|?]; [|done]. exists "", r. done.
    + intros (a & b & Hab). left. destruct a; [by exists b|done].
  - rewrite IH. split.
    + intros [[r Hr]|(a & b & ->)]; [by exists "", r|by exists (String x a), b].
    + intros ([|y a] & b & Hab); [left; by exists b|].
      right. rewrite append_cons in Hab. injection Hab as -> ->. by exists a, b.
Qed.

Lemma has_char_app c a b : has_char c (a +:+ b) = has_char c a || has_char c b.
Proof. induction a as [|x a IH]; [done|]. rewrite append_cons. simpl. by rewrite IH, orb_assoc. Qed.

Lemma split_once_Some c s a b :
  split_once c s = Some (a, b) <-> s = a +:+ String c b /\ has_char c a = false.
Proof.
  revert a. induction s as [|x s IH]; intros a; simpl.
  { split; [done|]. intros [H _]. by destruct a. }
  case_decide as Hx.
  - subst. split.
    + by intros [= <- <-].
    + intros [H Hc]. destruct a as [|y a]; [by injection H as ->|].
      rewrite append_cons in H. injection H as <- _. simpl in Hc. by rewrite bool_decide_true in Hc.
  - split.
    + destruct (split_once c s) as [[a' b']|] eqn:E; [|done]. intros [= <- <-].
      destruct (proj1 (IH a') eq_refl) as [-> Hc]. rewrite append_cons. simpl. by rewrite bool_decide_false.
    + intros [H Hc]. destruct a as [|y a].
      { by injection H as -> _. }
      rewrite append_cons in H. injection H as <- H. simpl in Hc.
      apply orb_false_iff in Hc as [_ Hc].
      by rewrite (proj2 (IH a) (conj H Hc)).
Qed.

Lemma split_once_None c s : split_once c s = None <-> has_char c s = false.
Proof.
  induction s as [|x s IH]; simpl; [done|]. case_decide.
  - rewrite bool_decide_true by done. done.
  - rewrite bool_decide_false by done. simpl. rewrite <- IH.
    destruct (split_once c s) as [[??]|]; naive_solver.
Qed.

(** Joining pieces with the separator; [split] is its inverse. *)
Fixpoint join (c : ascii) (l : list string) : string :=
  match l with
  | [] => ""
  | [p] => p
  | p :: ps => p +:+ String c (join c ps)
  end.

Lemma split_ne_nil c s : split c s <> [].
Proof. induction s; simpl; repeat case_decide; repeat case_match; done. Qed.

Lemma join_split c s : join c (split c s) = s.
Proof.
  induction s as [|x s IH]; simpl; [done|].
  pose proof (split_ne_nil c s). destruct (split c s) as [|p ps] eqn:E; [done|].
  case_decide as Hx; [subst x; by rewrite <- IH|].
  rewrite <- IH. by destruct ps.
Qed.

Lemma split_no_sep c s : Forall (fun p => has_char c p = false) (split c s).
Proof.
  induction s as [|x s IH]; simpl; [by repeat constructor|].
  case_decide; [by constructor|].
  destruct (split c s) as [|p ps]; simpl in *.
  - constructor; [|done]. simpl. by rewrite bool_decide_false.
  - inversion IH; subst. constructor; [|done]. simpl. by rewrite bool_decide_false.
Qed.

Lemma slice_from_app p s : slice_from (String.length p) (p +:+ s) = s.
Proof. induction p as [|x p IH]; [by destruct s|]. done. Qed.

(** [trim] only removes whitespace characters, from both ends. *)
Fixpoint concat (l : list string) : string :=
  match l with [] => "" | s :: l => s +:+ concat l end.

Lemma strip_one_Some ws s r : strip_one ws s = Some r -> exists w, w ∈ ws /\ s = w +:+ r.
Proof.
  induction ws as [|w ws IH]; simpl; [done|].
  destruct (strip_prefix w s) eqn:E.
  - intros [= <-]. exists w. split; [set_solver|]. by apply strip_prefix_Some.
  - intros (w' & ? & ?)%IH. exists w'. split; [set_solver|done].
Qed.

Lemma strip_one_None ws s : strip_one ws s = None -> forall w, w ∈ ws -> starts_with w s = false.
Proof.
  induction ws as [|w ws IH]; simpl; [set_solver|].
  destruct (strip_prefix w s) eqn:E; [done|]. intros Hn w' [->|Hw']%elem_of_cons; [|by apply IH].
  unfold starts_with. rewrite E. apply bool_decide_false. by intros [? ?].
Qed.

Lemma strip_all_spec ws fuel s :
  exists l, Forall (fun w => w ∈ ws) l /\ s = concat l +:+ strip_all ws fuel s.
Proof.
  revert s. induction fuel as [|fuel IH]; intros s; simpl; [by exists []|].
  destruct (strip_one ws s) eqn:E; [|by exists []].
  apply strip_one_Some in E as (w & Hw & ->).
  destruct (IH s0) as (l & Hl & Heq). exists (w :: l). split; [by constructor|].
  simpl. rewrite <- append_assoc. by f_equal.
Qed.

Lemma strip_all_stop ws fuel s :
  Forall (fun w => w <> "") ws -> (String.length s <= fuel)%nat ->
  forall w, w ∈ ws -> starts_with w (strip_all ws fuel s) = false.
Proof.
  intros Hne. revert s. induction fuel as [|fuel IH]; intros s Hlen w Hw; simpl.
  - destruct s; [|simpl in *; lia]. rewrite Forall_forall in Hne. specialize (Hne w).
    destruct w; [by destruct Hne|]. done.
  - destruct (strip_one ws s) as [r|] eqn:E; [|by eapply strip_one_None].
    apply IH; [|done]. apply strip_one_Some in E as (w' & Hw' & ->).
    rewrite length_append in Hlen. rewrite Forall_forall in Hne. specialize (Hne w').
    destruct w'; [by destruct Hne|]. simpl in Hlen. lia.
Qed.

Lemma whitespace_ne : Forall (fun w => w <> "") whitespace.
Proof. repeat constructor; done. Qed.

Lemma trim_start_spec s :
  (exists l, Forall (fun w => w ∈ whitespace) l /\ s = concat l +:+ trim_start s) /\
  forall w, w ∈ whitespace -> starts_with w (trim_start s) = false.
Proof.
  split; [apply strip_all_spec|].
  apply strip_all_stop; [apply whitespace_ne|done].
Qed.

(** Reversal, for [trim_end]. *)
Lemma rev_app_append a b c : String.rev_app (a +:+ b) c = String.rev_app b (String.rev_app a c).
Proof. revert c. induction a as [|x a IH]; intros c; [done|]. apply IH. Qed.

Lemma rev_app_rev a b : String.rev_app a b = String.rev a +:+ b.
Proof.
  unfold String.rev. revert b. induction a as [|x a IH]; intros b; simpl; [done|].
  rewrite IH, (IH (String x "")), <- append_assoc. done.
Qed.

Lemma rev_append a b : String.rev (a +:+ b) = String.rev b +:+ String.rev a.
Proof. unfold String.rev at 1. by rewrite rev_app_append, rev_app_rev. Qed.

Lemma rev_involutive s : String.rev (String.rev s) = s.
Proof.
  induction s as [|x s IH]; [done|].
  change (String x s) with (String x "" +:+ s). rewrite rev_append, rev_append, IH. done.
Qed.

Lemma strip_all_none ws fuel s : strip_one ws s = None -> strip_all ws fuel s = s.
Proof. destruct fuel; simpl; [done|]. by intros ->. Qed.

(** A string that neither starts nor ends with whitespace is its own trimming. *)
Lemma trim_id s :
  strip_one whitespace s = None ->
  strip_one (String.rev <$> whitespace) (String.rev s) = None -> trim s = s.
Proof.
  intros Hs He. unfold trim, trim_start. rewrite (strip_all_none _ _ s) by done.
  unfold trim_end. rewrite strip_all_none by done. apply rev_involutive.
Qed.

Lemma split_nosep c s : has_char c s = false -> split c s = [s].
Proof.
  induction s as [|a s IH]; simpl; [done|]. intros [Ha Hs]%orb_false_iff.
  apply bool_decide_eq_false in Ha. case_decide; [done|]. by rewrite IH.
Qed.
