(* ===== verification/Entities.v ===== *)
(** * The application entity ([server/src/entities/application.rs])

    [application.State] is the life-cycle enum with its string encoding,
    [application.Model] a row of the table, [application.ActiveModel] the partial
    row that inserts and updates are written with. *)

From stdpp Require Import base option strings gmap.
From S2P Require Import Prelude.

Module application.

(** Life-cycle of an application. *)
Inductive State := LAUNCHING | RUNNING | FAILED | FINISHED.

#[global] Instance State_eq_dec : EqDecision State.
Proof. solve_decision. Defined.

(** [ActiveEnum::to_value], with [rename_all = "UPPERCASE"]. *)
Definition to_value (s : State) : string :=
  match s with
  | LAUNCHING => "LAUNCHING"
  | RUNNING => "RUNNING"
  | FAILED => "FAILED"
  | FINISHED => "FINISHED"
  end.

(** [ActiveEnum::try_from_value]: an error for every other string. *)
Definition try_from_value (v : string) : result State unit :=
  if decide (v = "LAUNCHING") then Ok LAUNCHING
  else if decide (v = "RUNNING") then Ok RUNNING
  else if decide (v = "FAILED") then Ok FAILED
  else if decide (v = "FINISHED") then Ok FINISHED
  else Err tt.

(** The derived [Debug] rendering of the variant. *)
Definition State_debug (s : State) : string := to_value s.

(** A row.  [id] is an [i32]; [created_at] counts nanoseconds from the epoch. *)
Record Model := mkModel {
  id : Z;
  created_at : Z;
  username : string;
  name : option string;
  state : State;
  token : string;
  address : option string;
  application_id : option string
}.

#[global] Instance Model_eq_dec : EqDecision Model.
Proof. solve_decision. Defined.

(** [ActiveValue::Set] and [ActiveValue::NotSet]. *)
Inductive ActiveValue (A : Type) := AvSet (a : A) | NotSet.
Arguments AvSet {A} a.
Arguments NotSet {A}.

Record ActiveModel := mkActiveModel {
  am_id : ActiveValue Z;
  am_created_at : ActiveValue Z;
  am_username : ActiveValue string;
  am_name : ActiveValue (option string);
  am_state : ActiveValue State;
  am_token : ActiveValue string;
  am_address : ActiveValue (option string);
  am_application_id : ActiveValue (option string)
}.

(** [..Default::default()]: every column is left unset. *)
Definition am_default : ActiveModel :=
  mkActiveModel NotSet NotSet NotSet NotSet NotSet NotSet NotSet NotSet.

(** The value a column has after a write that may leave it unset. *)
Definition av_or {A} (v : ActiveValue A) (old : A) : A :=
  match v with AvSet a => a | NotSet => old end.

(** The row an active model turns [m] into. *)
Definition am_apply (am : ActiveModel) (m : Model) : Model :=
  {| id := av_or (am_id am) (id m);
     created_at := av_or (am_created_at am) (created_at m);
     username := av_or (am_username am) (username m);
     name := av_or (am_name am) (name m);
     state := av_or (am_state am) (state m);
     token := av_or (am_token am) (token m);
     address := av_or (am_address am) (address m);
     application_id := av_or (am_application_id am) (application_id m) |}.

(** The values [try_from_value] accepts are exactly the ones [to_value] writes. *)
Lemma try_from_value_Ok v s : try_from_value v = Ok s <-> v = to_value s.
Proof.
  unfold try_from_value. split.
  - repeat case_decide; try done; by intros [= <-].
  - intros ->. by destruct s.
Qed.

Lemma try_from_to_value s : try_from_value (to_value s) = Ok s.
Proof. by apply try_from_value_Ok. Qed.

End application.

Export application (State(..), ActiveValue(..)).
