(* ===== verification/Database.v ===== *)
(** * The database behind [sea_orm]: statements, their contract, an instance

    The server talks to its store through a handful of statements on one table.
    A statement is data ([DbStmt]); what it does is the database's business and
    appears here only as a contract ([db_post]) between the table before, the
    response and the table after.  A table maps the primary key to its row.  [MemDb]
    is a concrete database that meets the contract; it runs the examples. *)

From stdpp Require Import base option list strings gmap sets.
From S2P Require Import Prelude Entities.
Import application.

Abbreviation Table := (gmap Z Model).

(** An error of the database driver, by its [Display] text. *)
Inductive DbErr := DbErrMsg (msg : string).

#[export] Instance DbErr_eq_dec : EqDecision DbErr.
Proof. solve_decision. Defined.

(** ** Statements *)

(** The conditions of the source's [filter] calls, one constructor per column and
    operator used; [AnyOf] is [Condition::any()]. *)
Inductive Filter :=
| IdEq (v : Z)
| UsernameEq (v : string)
| TokenEq (v : string)
| StateEq (v : State)
| StateIsIn (v : list State)
| CreatedAtGte (v : Z)
| CreatedAtLte (v : Z)
| AnyOf (fs : list Filter).

(** Successive [filter] calls are a conjunction. *)
Definition Query := list Filter.

(** [col_expr(Column, Expr::value(v))]. *)
Inductive ColExpr :=
| SetAddress (v : option string)
| SetState (v : State)
| SetApplicationId (v : option string).

Inductive DbStmt :=
| Insert (am : ActiveModel)
| One (q : Query)
| All (q : Query)
| UpdateMany (cols : list ColExpr) (q : Query)
| Update (am : ActiveModel)
| DeleteMany (q : Query).

Definition db_resp (s : DbStmt) : Type :=
  result match s with
         | Insert _ | Update _ => Model
         | One _ => option Model
         | All _ => list Model
         | UpdateMany _ _ | DeleteMany _ => Z
         end DbErr.

(** ** What the columns and operators mean *)

Fixpoint sat_filter (f : Filter) (m : Model) : bool :=
  match f with
  | IdEq v => bool_decide (id m = v)
  | UsernameEq v => bool_decide (username m = v)
  | TokenEq v => bool_decide (token m = v)
  | StateEq v => bool_decide (state m = v)
  | StateIsIn v => bool_decide (state m ∈ v)
  | CreatedAtGte v => bool_decide (v <= created_at m)%Z
  | CreatedAtLte v => bool_decide (created_at m <= v)%Z
  | AnyOf fs => existsb (fun f => sat_filter f m) fs
  end.

Definition sat (q : Query) (m : Model) : bool := forallb (fun f => sat_filter f m) q.

Definition set_col (c : ColExpr) (m : Model) : Model :=
  match c with
  | SetAddress v => mkModel (id m) (created_at m) (username m) (name m) (state m) (token m) v (application_id m)
  | SetState v => mkModel (id m) (created_at m) (username m) (name m) v (token m) (address m) (application_id m)
  | SetApplicationId v => mkModel (id m) (created_at m) (username m) (name m) (state m) (token m) (address m) v
  end.

Definition set_cols (cols : list ColExpr) (m : Model) : Model := foldl (fun m c => set_col c m) m cols.

(** The rows a query selects. *)
Definition selected (q : Query) (t : Table) : Table := filter (fun km => sat q km.2 = true) t.

Definition update_rows (cols : list ColExpr) (q : Query) (t : Table) : Table :=
  (fun m => if sat q m then set_cols cols m else m) <$> t.

Definition delete_rows (q : Query) (t : Table) : Table := filter (fun km => sat q km.2 = false) t.

(** Columns an insert leaves unset are NULL where they may be; the key is the
    database's and [created_at] defaults to the current timestamp. *)
Definition insert_matches (am : ActiveModel) (m : Model) : Prop :=
  am_apply am m = m /\
  (am_name am = NotSet -> name m = None) /\
  (am_address am = NotSet -> address m = None) /\
  (am_application_id am = NotSet -> application_id m = None).

(** The primary key of every row is its key in the table. *)
Definition keyed (t : Table) : Prop := forall k m, t !! k = Some m -> id m = k.

(** ** The contract of a statement

    A statement that reports an error has left the table alone. *)
Definition db_post (s : DbStmt) (t : Table) : db_resp s -> Table -> Prop :=
  match s return db_resp s -> Table -> Prop with
  | Insert am => fun r t' =>
      match r with
      | Ok m => t !! id m = None /\ insert_matches am m /\ t' = <[id m := m]> t
      | Err _ => t' = t
      end
  | One q => fun r t' =>
      t' = t /\
      match r with
      | Ok (Some m) => t !! id m = Some m /\ sat q m = true
      | Ok None => selected q t = ∅
      | Err _ => True
      end
  | All q => fun r t' =>
      t' = t /\
      match r with
      | Ok l => l ≡ₚ (map_to_list (selected q t)).*2
      | Err _ => True
      end
  | UpdateMany cols q => fun r t' =>
      match r with
      | Ok n => n = Z.of_nat (size (selected q t)) /\ t' = update_rows cols q t
      | Err _ => t' = t
      end
  | Update am => fun r t' =>
      match r with
      | Ok m' => exists m, am_id am = AvSet (id m) /\ t !! id m = Some m /\
                           m' = am_apply am m /\ t' = <[id m := m']> t
      | Err _ => t' = t
      end
  | DeleteMany q => fun r t' =>
      match r with
      | Ok n => n = Z.of_nat (size (selected q t)) /\ t' = delete_rows q t
      | Err _ => t' = t
      end
  end.

(** A statement that the database has no reason to refuse: an insert leaves the key
    to the database, an update by primary key finds its row. *)
Definition applicable (s : DbStmt) (t : Table) : Prop :=
  match s with
  | Insert am => am_id am = NotSet
  | Update am => exists k m, am_id am = AvSet k /\ t !! k = Some m
  | _ => True
  end.

(** The part of the contract that speaks of the response alone. *)
Definition db_lawful (s : DbStmt) : db_resp s -> Prop :=
  match s return db_resp s -> Prop with
  | One q => fun r => match r with Ok (Some m) => sat q m = true | _ => True end
  | All q => fun r => match r with Ok l => Forall (fun m => sat q m = true) l | _ => True end
  | Insert am => fun r => match r with Ok m => insert_matches am m | _ => True end
  | _ => fun _ => True
  end.

(** ** Lemmas on tables *)

Lemma selected_lookup q t k m : selected q t !! k = Some m <-> t !! k = Some m /\ sat q m = true.
Proof. unfold selected. by rewrite map_lookup_filter_Some. Qed.

Lemma selected_empty q t : selected q t = ∅ <-> forall k m, t !! k = Some m -> sat q m = false.
Proof.
  unfold selected. split.
  - intros He k m Hm. destruct (sat q m) eqn:E; [|done].
    assert (Hs : selected q t !! k = Some m) by (by apply selected_lookup).
    unfold selected in Hs. by rewrite He in Hs.
  - intros H. apply map_empty. intros k. apply eq_None_not_Some. intros [m Hm].
    change (selected q t !! k = Some m) in Hm. apply selected_lookup in Hm as [Hm Hs].
    by rewrite (H k m Hm) in Hs.
Qed.

Lemma selected_size q t : size (selected q t) = 0 <-> selected q t = ∅.
Proof. by rewrite map_size_empty_iff. Qed.

Lemma in_selected q t m : keyed t ->
  m ∈ (map_to_list (selected q t)).*2 <-> t !! id m = Some m /\ sat q m = true.
Proof.
  intros Hk. rewrite list_elem_of_fmap. split.
  - intros ([k m'] & -> & Hin). apply elem_of_map_to_list, selected_lookup in Hin as [Hm Hs].
    simpl in *. by rewrite (Hk _ _ Hm).
  - intros [Hm Hs]. exists (id m, m). split; [done|].
    by apply elem_of_map_to_list, selected_lookup.
Qed.

Lemma update_rows_lookup cols q t k :
  update_rows cols q t !! k = (fun m => if sat q m then set_cols cols m else m) <$> t !! k.
Proof. unfold update_rows. by rewrite lookup_fmap. Qed.

Lemma delete_rows_lookup q t k m :
  delete_rows q t !! k = Some m <-> t !! k = Some m /\ sat q m = false.
Proof. unfold delete_rows. by rewrite map_lookup_filter_Some. Qed.

Lemma set_col_fixed c m :
  id (set_col c m) = id m /\ created_at (set_col c m) = created_at m /\
  username (set_col c m) = username m /\ name (set_col c m) = name m /\
  token (set_col c m) = token m.
Proof. by destruct c. Qed.

(** A set of column expressions never touches key, owner, name, token or time. *)
Lemma set_cols_fixed cols m :
  id (set_cols cols m) = id m /\ created_at (set_cols cols m) = created_at m /\
  username (set_cols cols m) = username m /\ name (set_cols cols m) = name m /\
  token (set_cols cols m) = token m.
Proof.
  unfold set_cols. revert m. induction cols as [|c cols IH]; intros m; simpl; [done|].
  destruct (IH (set_col c m)) as (-> & -> & -> & -> & ->). apply set_col_fixed.
Qed.

Lemma set_cols_id cols m : id (set_cols cols m) = id m.
Proof. apply set_cols_fixed. Qed.

Lemma keyed_update_rows cols q t : keyed t -> keyed (update_rows cols q t).
Proof.
  intros Hk k m. rewrite update_rows_lookup, fmap_Some. intros (m0 & Hm0 & ->).
  case_match; [rewrite set_cols_id|]; by apply Hk.
Qed.

Lemma keyed_delete_rows q t : keyed t -> keyed (delete_rows q t).
Proof. intros Hk k m [Hm _]%delete_rows_lookup. by apply Hk. Qed.

Lemma keyed_insert t m : keyed t -> keyed (<[id m := m]> t).
Proof.
  intros Hk k m' [[<- <-]|[_ Hm']]%lookup_insert_Some; [done|]. by apply Hk.
Qed.

Lemma db_post_lawful s t r t' : keyed t -> db_post s t r t' -> db_lawful s r.
Proof.
  intros Hk. destruct s; simpl; try done.
  - destruct r as [m|e]; simpl; [|done]. by intros (? & ? & ?).
  - intros [_ H]. destruct r as [[m|]|e]; simpl in *; [|done|done]. by destruct H.
  - intros [_ H]. destruct r as [l|]; [|done]. apply Forall_forall. intros m Hm.
    rewrite H in Hm. by apply in_selected in Hm as [_ ?].
Qed.

#[export] Hint Resolve keyed_update_rows keyed_delete_rows keyed_insert : plug.

(** ** A concrete database

    The table, the clock that stamps inserts, and for each statement to come whether
    it fails ([[]] means it does not). *)
Record MemDb := mkMemDb {
  table : Table;
  table_keyed : keyed table;
  clock : Z;
  faults : list bool
}.

Definition next_id (t : Table) : Z := map_fold (fun k _ acc => Z.max (k + 1) acc) 1%Z t.

Definition mem_insert_row (am : ActiveModel) (now : Z) (t : Table) : Model :=
  am_apply am (mkModel (next_id t) now "" None LAUNCHING "" None None).

Definition mem_answer {A} (db : MemDb) (a : A) (t : Table) (H : keyed t) : result A DbErr * MemDb :=
  match faults db with
  | true :: fs => (Err (DbErrMsg "connection lost"), mkMemDb (table db) (table_keyed db) (clock db) fs)
  | fs => (Ok a, mkMemDb t H (clock db + 1) (tail fs))
  end.

Definition mem_refuse {A} (db : MemDb) : result A DbErr * MemDb :=
  (Err (DbErrMsg "none of the records are updated"),
   mkMemDb (table db) (table_keyed db) (clock db) (tail (faults db))).

Definition mem_exec (s : DbStmt) (db : MemDb) : db_resp s * MemDb :=
  let t := table db in
  match s return db_resp s * MemDb with
  | Insert am =>
      let m := mem_insert_row am (clock db) t in
      match t !! id m with
      | Some _ => mem_refuse db
      | None => mem_answer db m (<[id m := m]> t) (keyed_insert t m (table_keyed db))
      end
  | One q => mem_answer db (head (map_to_list (selected q t)).*2) t (table_keyed db)
  | All q => mem_answer db (map_to_list (selected q t)).*2 t (table_keyed db)
  | UpdateMany cols q =>
      mem_answer db (Z.of_nat (size (selected q t))) (update_rows cols q t)
        (keyed_update_rows cols q t (table_keyed db))
  | Update am =>
      match am_id am with
      | NotSet => mem_refuse db
      | AvSet k =>
          match t !! k with
          | None => mem_refuse db
          | Some m =>
              let m' := am_apply am m in
              mem_answer db m' (<[id m' := m']> t) (keyed_insert t m' (table_keyed db))
          end
      end
  | DeleteMany q =>
      mem_answer db (Z.of_nat (size (selected q t))) (delete_rows q t)
        (keyed_delete_rows q t (table_keyed db))
  end.

Lemma mem_answer_ind {A} (db : MemDb) (a : A) t H (P : result A DbErr * MemDb -> Prop) :
  (forall c fs, P (Ok a, mkMemDb t H c fs)) ->
  (forall e c fs, P (Err e, mkMemDb (table db) (table_keyed db) c fs)) ->
  P (mem_answer db a t H).
Proof. intros HOk HErr. unfold mem_answer. destruct (faults db) as [|[] fs]; auto. Qed.

Lemma next_id_fresh t k m : t !! k = Some m -> (k < next_id t)%Z.
Proof.
  unfold next_id. revert k m.
  apply (map_fold_weak_ind (fun acc t => forall k m, t !! k = Some m -> (k < acc)%Z)).
  - intros k m. by rewrite lookup_empty.
  - intros i x t' acc Hi IH k m [[-> _]|[_ Hm]]%lookup_insert_Some; [lia|].
    specialize (IH k m Hm). lia.
Qed.

Ltac mem_case :=
  match goal with
  | |- context [mem_answer ?db ?a ?t ?H] =>
      pattern (mem_answer db a t H); apply mem_answer_ind; intros; cbn
  end.

Lemma am_apply_idemp am m : am_apply am (am_apply am m) = am_apply am m.
Proof. unfold am_apply. simpl. by destruct am as [[] [] [] [] [] [] [] []]. Qed.

Lemma mem_insert_matches am now t : insert_matches am (mem_insert_row am now t).
Proof.
  split; [apply am_apply_idemp|]. unfold mem_insert_row. simpl.
  split_and!; by intros ->.
Qed.

(** The concrete database meets the contract. *)
Lemma mem_exec_post s db : db_post s (table db) (mem_exec s db).1 (table (mem_exec s db).2).
Proof.
  destruct s as [am|q|q|cols q|am|q]; unfold mem_exec; try by mem_case.
  - set (m := mem_insert_row am (clock db) (table db)).
    destruct (table db !! id m) eqn:E; [done|]. mem_case; [|done].
    split_and!; try done; apply mem_insert_matches.
  - mem_case; split; try done.
    destruct (map_to_list (selected q (table db))).*2 as [|m l] eqn:E; cbn.
    + apply map_to_list_empty_iff. by destruct (map_to_list _).
    + apply in_selected; [apply table_keyed|]. rewrite E. set_solver.
  - destruct (am_id am) as [k|] eqn:Ek; [|done].
    destruct (table db !! k) as [m|] eqn:Em; [|done].
    pose proof (table_keyed db _ _ Em) as Hid. mem_case; [|done].
    rewrite Ek. cbn. exists m. by rewrite Hid.
Qed.

Lemma mem_exec_faults s db : faults db = [] -> faults (mem_exec s db).2 = [].
Proof.
  intros Hf. destruct s as [am|q|q|cols q|am|q]; unfold mem_exec, mem_answer, mem_refuse;
    repeat case_match; simplify_eq/=; by rewrite ?Hf.
Qed.

(** With no fault scheduled, every applicable statement is answered. *)
Lemma mem_exec_up s db :
  faults db = [] -> applicable s (table db) ->
  (exists a, (mem_exec s db).1 = Ok a) /\ faults (mem_exec s db).2 = [].
Proof.
  intros Hf Ha. destruct s as [am|q|q|cols q|am|q]; unfold mem_exec, mem_answer;
    try (rewrite Hf; cbn; by eauto).
  - destruct (table db !! _) as [m|] eqn:E; [|rewrite Hf; cbn; by eauto].
    exfalso. apply next_id_fresh in E. unfold mem_insert_row in E. cbn in Ha, E.
    rewrite Ha in E. cbn in E. lia.
  - destruct Ha as (k & m & -> & ->). rewrite Hf. cbn. by eauto.
Qed.
