(* ===== verification/Error.v ===== *)
(** * Errors ([server/src/error.rs])

    Library errors appear by the text of their [Display] implementation, [io::Error]
    together with its kind.  [Error.to_string] is the [Display] that the [error]
    attributes of the source derive. *)

From stdpp Require Import base option list strings.
From S2P Require Import Prelude Entities Database.

Inductive IoErrorKind := NotFound | InvalidInput | PermissionDenied | OtherKind.

#[export] Instance IoErrorKind_eq_dec : EqDecision IoErrorKind.
Proof. solve_decision. Defined.

Inductive IoError := mkIoError (kind : IoErrorKind) (msg : string).

#[export] Instance IoError_eq_dec : EqDecision IoError.
Proof. solve_decision. Defined.

Inductive HyperError := HyperErrorMsg (msg : string).

#[export] Instance HyperError_eq_dec : EqDecision HyperError.
Proof. solve_decision. Defined.

Inductive Error :=
| Authorization (msg : string)
| MissingAuthorizationHeader
| InvalidAuthorizationHeader (msg : string)
| InvalidAuthorizationScheme
| InvalidAuthorizationToken
| ApplicationNotFound
| MissingApplicationAddress
| InvalidApplicationState (s : application.State)
| DatabaseError (e : DbErr)
| UpstreamConnect (e : IoError)
| UpstreamHandshake (e : HyperError)
| InvalidUpstreamUri (e : string)
| UpstreamRequest (e : HyperError)
| Internal (msg : string).

#[export] Instance Error_eq_dec : EqDecision Error.
Proof. solve_decision. Defined.

Definition DbErr_display (e : DbErr) : string := let 'DbErrMsg m := e in m.
Definition IoError_display (e : IoError) : string := let 'mkIoError _ m := e in m.
Definition HyperError_display (e : HyperError) : string := let 'HyperErrorMsg m := e in m.

Definition to_string (e : Error) : string :=
  match e with
  | Authorization m => "authorization error: " +:+ m
  | MissingAuthorizationHeader => "missing authorization header"
  | InvalidAuthorizationHeader m => "invalid authorization header: " +:+ m
  | InvalidAuthorizationScheme => "unsupported authorization scheme"
  | InvalidAuthorizationToken => "invalid authorization token"
  | ApplicationNotFound => "application not found for provided token"
  | MissingApplicationAddress => "application has no upstream address"
  | InvalidApplicationState s => "application is not ready for proxying: " +:+ application.State_debug s
  | DatabaseError e => "database error: " +:+ DbErr_display e
  | UpstreamConnect e => "failed to connect to upstream: " +:+ IoError_display e
  | UpstreamHandshake e => "failed to establish upstream HTTP/2 session: " +:+ HyperError_display e
  | InvalidUpstreamUri e => "invalid upstream URI: " +:+ e
  | UpstreamRequest e => "upstream request failed: " +:+ HyperError_display e
  | Internal m => "internal error: " +:+ m
  end.
