(* ===== verification/Http.v ===== *)
(** * HTTP vocabulary and the interface to the HTTP libraries

    [HttpLib] collects what the server asks of the [http], [hyper] and [reqwest]
    crates: header maps, URIs and the error test on a response.  Requests, responses
    and status codes are plain data. *)

From stdpp Require Import base option list strings gmap.
From S2P Require Import Prelude RustStr.

Class HttpLib := {
  HeaderMap : Type;
  HeaderValue : Type;
  Uri : Type;
  (** [HeaderMap::get]: the first value stored under a name. *)
  header_get : HeaderMap -> string -> option HeaderValue;
  (** [HeaderValue::to_str]; the error carries its [Display] text. *)
  to_str : HeaderValue -> result string string;
  (** [HeaderValue::from_str] succeeds on this text. *)
  header_value_ok : string -> bool;
  (** [Uri::path], [Uri::path_and_query] as text, [str::parse::<Uri>]. *)
  uri_path : Uri -> string;
  uri_path_and_query : Uri -> option string;
  uri_parse : string -> result Uri string;
  (** [reqwest::Response::error_for_status] on the status code. *)
  error_for_status : Z -> result unit string
}.

(** What the code relies on: header names compare without regard to case, and the
    visible ASCII characters make a header value. *)
Class HttpLaws `{HttpLib} : Prop := {
  header_get_case h : header_get h "Authorization" = header_get h "authorization";
  header_value_visible s :
    (forall a, has_char a s = true -> (32 <= Ascii.nat_of_ascii a < 127)%nat) ->
    header_value_ok s = true
}.

(** The status codes the handlers answer with. *)
Inductive StatusCode :=
| OK
| BAD_REQUEST
| UNAUTHORIZED
| NOT_FOUND
| INTERNAL_SERVER_ERROR.

#[export] Instance StatusCode_eq_dec : EqDecision StatusCode.
Proof. solve_decision. Defined.

(** [http::Method]; the methods the code does not name by their names. *)
Inductive Method := GET | HEAD | POST | DELETE | OtherMethod (name : string).

#[export] Instance Method_eq_dec : EqDecision Method.
Proof. solve_decision. Defined.

(** [hyper::Request<Incoming>]; the body is a handle that is passed along. *)
Record Request `{HttpLib} := mkRequest {
  req_method : Method;
  req_uri : Uri;
  req_headers : HeaderMap;
  req_body : nat
}.

(** [*req.uri_mut() = uri]. *)
Definition with_uri `{HttpLib} (u : Uri) (r : Request) : Request :=
  mkRequest _ (req_method r) u (req_headers r) (req_body r).

(** [Response<Body>]: [None] is the empty body. *)
Record Response := mkResponse {
  res_status : Z;
  res_headers : list (string * string);
  res_body : option nat
}.

(** The request [send_session_message] posts. *)
Record SessionPost := mkSessionPost {
  post_url : string;
  post_bearer : string;
  post_headers : list (string * string)
}.

(** ** A concrete library for the examples

    Headers are an association list with lower-case names; a value is visible when
    its bytes are; a URI is a path with an optional query. *)
Module SampleHttp.

Definition lower_char (a : Ascii.ascii) : Ascii.ascii :=
  let n := Ascii.nat_of_ascii a in
  if (65 <=? n)%nat && (n <=? 90)%nat then Ascii.ascii_of_nat (n + 32) else a.

Fixpoint lower (s : string) : string :=
  match s with EmptyString => "" | String a s => String (lower_char a) (lower s) end.

Fixpoint get (h : list (string * string)) (n : string) : option string :=
  match h with
  | [] => None
  | (k, v) :: h => if decide (lower k = lower n) then Some v else get h n
  end.

Fixpoint visible (s : string) : bool :=
  match s with
  | EmptyString => true
  | String a s => (32 <=? Ascii.nat_of_ascii a)%nat && (Ascii.nat_of_ascii a <? 127)%nat && visible s
  end.

#[export] Instance sample : HttpLib := {
  HeaderMap := list (string * string);
  HeaderValue := string;
  Uri := string;
  header_get := get;
  to_str v := if visible v then Ok v else Err "failed to convert header to a str";
  header_value_ok := visible;
  uri_path u := u;
  uri_path_and_query u := Some u;
  uri_parse s := if is_empty s then Err "empty string" else Ok s;
  error_for_status n := if (400 <=? n)%Z && (n <? 600)%Z then Err "HTTP status error" else Ok tt
}.

#[export] Instance sample_laws : HttpLaws.
Proof.
  split.
  - intros h. unfold header_get, sample. induction h as [|[k v] h IH]; [done|].
    cbn [get]. change (lower "Authorization") with (lower "authorization"). by rewrite IH.
  - intros s. unfold header_value_ok, sample. induction s as [|a s IH]; intros Hs; [done|].
    cbn [visible]. rewrite IH by (intros b Hb; apply Hs; simpl; by rewrite Hb, orb_true_r).
    destruct (Hs a) as [H1 H2]; [simpl; by rewrite bool_decide_true|].
    apply Nat.leb_le in H1. apply Nat.ltb_lt in H2. by rewrite H1, H2.
Qed.

End SampleHttp.
