(* ===== verification/Cache.v ===== *)
(** * The shared state of the upstream connection cache
    ([server/src/proxy.rs], [UpstreamConnectionCache])

    [Cache.State] is what the mutex protects together with the channels it refers
    to: the map from tokens to dispatcher channels, the channels whose receiver is
    gone, and for every channel the token its dispatcher was started for.  Each
    critical section of the source is one function on that state. *)

From stdpp Require Import base option list strings gmap sets.
From S2P Require Import Prelude.

Module Cache.

(** An [mpsc] channel by number: the order in which it was created. *)
Abbreviation chan := nat.

Record State := mkState {
  connections : gmap string chan;
  closed : gset chan;
  workers : gmap chan string;
  next_chan : chan
}.

(** [UpstreamConnectionCache::new]. *)
Definition new : State := mkState ∅ ∅ ∅ 0.

(** [sender.is_closed()]: the receiving half has been dropped. *)
Definition is_closed (c : chan) (s : State) : bool := bool_decide (c ∈ closed s).

(** The section at the head of [sender_for]: the cached channel, if it is open. *)
Definition lookup_open (token : string) (s : State) : option chan :=
  match connections s !! token with
  | Some c => if negb (is_closed c s) then Some c else None
  | None => None
  end.

(** The section at the end of [sender_for]: re-examine the map, and only if there is
    still no open channel create one, register it and start its dispatcher. *)
Definition get_or_insert (token : string) (s : State) : (chan * bool) * State :=
  match lookup_open token s with
  | Some c => ((c, false), s)
  | None =>
      let c := next_chan s in
      ((c, true),
       mkState (<[token := c]> (connections s)) (closed s) (<[c := token]> (workers s)) (S c))
  end.

(** [remove_closed]. *)
Definition remove_closed (token : string) (s : State) : State :=
  match connections s !! token with
  | Some c =>
      if is_closed c s then mkState (delete token (connections s)) (closed s) (workers s) (next_chan s)
      else s
  | None => s
  end.

(** [invalidate]; the flag says whether there was an entry. *)
Definition invalidate (token : string) (s : State) : bool * State :=
  (bool_decide (is_Some (connections s !! token)),
   mkState (delete token (connections s)) (closed s) (workers s) (next_chan s)).

(** A dispatcher that returns drops its receiver. *)
Definition drop_receiver (c : chan) (s : State) : State :=
  mkState (connections s) ({[c]} ∪ closed s) (workers s) (next_chan s).

(** The critical sections as data, and their responses. *)
Inductive Op :=
| LookupOpen (token : string)
| GetOrInsert (token : string)
| RemoveClosed (token : string)
| Invalidate (token : string)
| DropReceiver (c : chan).

Definition op_resp (o : Op) : Type :=
  match o with
  | LookupOpen _ => option chan
  | GetOrInsert _ => chan * bool
  | RemoveClosed _ => unit
  | Invalidate _ => bool
  | DropReceiver _ => unit
  end.

Definition step (o : Op) (s : State) : op_resp o * State :=
  match o return op_resp o * State with
  | LookupOpen t => (lookup_open t s, s)
  | GetOrInsert t => get_or_insert t s
  | RemoveClosed t => (tt, remove_closed t s)
  | Invalidate t => invalidate t s
  | DropReceiver c => (tt, drop_receiver c s)
  end.

Definition steps (os : list Op) (s : State) : State := foldl (fun s o => (step o s).2) s os.

(** ** Well-formed caches

    Channels are numbered below [next_chan]; every registered channel has a
    dispatcher, and it serves the token it is registered under. *)
Record wf (s : State) : Prop := {
  wf_conn t c : connections s !! t = Some c -> workers s !! c = Some t;
  wf_work c t : workers s !! c = Some t -> (c < next_chan s)%nat;
  wf_closed c : c ∈ closed s -> (c < next_chan s)%nat
}.

Lemma new_wf : wf new.
Proof. split; simpl; [done|done|set_solver]. Qed.

Lemma lookup_open_Some t s c :
  lookup_open t s = Some c <-> connections s !! t = Some c /\ c ∉ closed s.
Proof.
  unfold lookup_open, is_closed. destruct (connections s !! t) as [c'|]; [|naive_solver].
  case_bool_decide; naive_solver.
Qed.

Lemma get_or_insert_wf t s : wf s -> wf (get_or_insert t s).2.
Proof.
  intros Hwf. unfold get_or_insert. destruct (lookup_open t s); [done|].
  split; simpl.
  - intros t' c [[<- <-]|[Hne Hc]]%lookup_insert_Some; [by rewrite lookup_insert_eq|].
    pose proof (wf_conn _ Hwf _ _ Hc) as Hw. pose proof (wf_work _ Hwf _ _ Hw).
    rewrite lookup_insert_ne by lia. done.
  - intros c t' [[<- <-]|[Hne Hc]]%lookup_insert_Some; [lia|].
    pose proof (wf_work _ Hwf _ _ Hc). lia.
  - intros c Hc. pose proof (wf_closed _ Hwf _ Hc). lia.
Qed.

Lemma delete_wf t s :
  wf s -> wf (mkState (delete t (connections s)) (closed s) (workers s) (next_chan s)).
Proof.
  intros Hwf. split; simpl; [|apply Hwf|apply Hwf].
  intros t' c [_ Hc]%lookup_delete_Some. by apply Hwf.
Qed.

(** A channel number that was never handed out is not dropped. *)
Definition op_ok (o : Op) (s : State) : Prop :=
  match o with DropReceiver c => is_Some (workers s !! c) | _ => True end.

Lemma step_wf o s : op_ok o s -> wf s -> wf (step o s).2.
Proof.
  intros Hok Hwf. destruct o as [t|t|t|t|c]; simpl.
  - done.
  - by apply get_or_insert_wf.
  - unfold remove_closed. repeat case_match; try done. by apply delete_wf.
  - by apply delete_wf.
  - destruct Hok as [t Ht]. split; simpl; [apply Hwf|apply Hwf|].
    intros c' [->%elem_of_singleton|Hc']%elem_of_union; [|by apply Hwf].
    by eapply wf_work.
Qed.

(** A fresh channel is open. *)
Lemma get_or_insert_open t s :
  wf s -> lookup_open t (get_or_insert t s).2 = Some (get_or_insert t s).1.1.
Proof.
  intros Hwf. unfold get_or_insert. destruct (lookup_open t s) as [c|] eqn:E; simpl; [done|].
  apply lookup_open_Some. simpl. rewrite lookup_insert_eq. split; [done|].
  intros Hc. pose proof (wf_closed _ Hwf _ Hc). lia.
Qed.

Lemma get_or_insert_other t t' s :
  t <> t' -> lookup_open t' (get_or_insert t s).2 = lookup_open t' s.
Proof.
  intros Hne. unfold get_or_insert. destruct (lookup_open t s) eqn:E; [done|].
  unfold lookup_open, is_closed. simpl. by rewrite lookup_insert_ne.
Qed.

Lemma invalidate_gone t s : connections (invalidate t s).2 !! t = None.
Proof. apply lookup_delete_eq. Qed.

Lemma invalidate_other t t' s : t <> t' -> connections (invalidate t s).2 !! t' = connections s !! t'.
Proof. intros. by apply lookup_delete_ne. Qed.

#[export] Hint Resolve new_wf step_wf get_or_insert_wf delete_wf : plug.

End Cache.
