(* ===== verification/Env.v ===== *)
(** * Effects, handlers as programs, and the environment they run in

    Everything a handler asks of the outside is an [Eff]: a database statement, a
    critical section of the cache, a channel operation, a call of the HTTP client, a
    process to start.  A handler is a [prog], a tree of effects, so that the points at
    which an [await] lets other tasks run are visible.  [run] executes a program alone
    in an environment; [trace] lists the effects of any, possibly unfinished, run
    against any responses; [wp] is the program logic in which guarantees that hold at
    every effect of every trace are proved.  The environment itself is the interface
    [Env], with the laws [EnvLaws]. *)

From stdpp Require Import base option list strings gmap sets.
From S2P Require Import Prelude RustStr Entities Database Error Http Cache.

Abbreviation Child := nat (only parsing).
Abbreviation JoinHandle := nat (only parsing).
Abbreviation Stream := nat (only parsing).
Abbreviation SendRequest := nat (only parsing).

Section effects.
Context `{HttpLib}.

(** Background tasks, as the data their closures capture. *)
Inductive Task :=
| LaunchWatch (child : JoinHandle) (app_id : Z)
| TrackLaunch (child : Child) (launch_timeout : Z)
| UpstreamConnection (rx : Cache.chan) (token : string)
| ConnectionDriver (io : Stream)
| DeliverResponse (response : nat) (tx : nat)
(* a task that only sleeps: what the launcher of the tests starts *)
| SleepTask (seconds : Z).

Inductive Eff :=
| Db (s : DbStmt)
| CacheOp (o : Cache.Op)
| NewV4
(* the schema migrations, and the clock in seconds from the epoch *)
| MigrateUp
| SystemNow
| Spawn (t : Task)
| AwaitHandle (h : JoinHandle)
| Sleep (millis : Z)
(* processes *)
| Tempdir (prefix : string)
| CommandStatus (program : string) (args : list string)
| CommandSpawn (program : string) (args : list string) (env : gmap string string)
(* the HTTP client *)
| BuildClient
| HttpPost (req : SessionPost)
(* channels: the dispatcher's queue and the reply of one request *)
| QueueSend (c : Cache.chan) (m : Request * nat)
| QueueRecv (c : Cache.chan)
| QueueIsClosed (c : Cache.chan)
| OneshotNew
| OneshotSend (tx : nat) (reply : result Response Error)
| OneshotRecv (rx : nat)
(* the upstream connection *)
| TcpConnect (address : string)
| Http2Handshake (io : Stream)
| SenderReady (s : SendRequest)
| SenderSend (s : SendRequest) (req : Request)
| AwaitResponse (r : nat).

Definition resp (e : Eff) : Type :=
  match e with
  | Db s => db_resp s
  | CacheOp o => Cache.op_resp o
  | NewV4 => string
  | MigrateUp => result unit DbErr
  | SystemNow => result Z string
  | Spawn _ => JoinHandle
  | AwaitHandle _ => unit
  | Sleep _ => unit
  | Tempdir _ => result string IoError
  | CommandStatus _ _ => result bool IoError
  | CommandSpawn _ _ _ => result Child IoError
  | BuildClient => result unit string
  | HttpPost _ => result Z string
  | QueueSend _ _ => result unit unit
  | QueueRecv _ => option (Request * nat)
  | QueueIsClosed _ => bool
  | OneshotNew => nat
  | OneshotSend _ _ => bool
  | OneshotRecv _ => option (result Response Error)
  | TcpConnect _ => result Stream IoError
  | Http2Handshake _ => result SendRequest HyperError
  | SenderReady _ => result unit HyperError
  | SenderSend _ _ => nat
  | AwaitResponse _ => result Response HyperError
  end.

(** ** Programs *)

Inductive prog (A : Type) : Type :=
| Ret (a : A)
| Do (e : Eff) (k : resp e -> prog A).

Arguments Ret {A} a.
Arguments Do {A} e k.

Fixpoint bind {A B} (p : prog A) (k : A -> prog B) : prog B :=
  match p with
  | Ret a => k a
  | Do e k' => Do e (fun r => bind (k' r) k)
  end.

(** Perform one effect. *)
Definition do (e : Eff) : prog (resp e) := Do e Ret.

(** [p.await.map_err(f)]. *)
Definition map_err_m {A X Y} (f : X -> Y) (p : prog (result A X)) : prog (result A Y) :=
  bind p (fun r => Ret (map_err f r)).

(** [p.await?]. *)
Definition try_bind {A B X} (p : prog (result A X)) (k : A -> prog (result B X)) : prog (result B X) :=
  bind p (fun r => match r with Ok a => k a | Err e => Ret (Err e) end).

(** A loop run for at most [fuel] rounds: [inl] goes round again, [inr] leaves. *)
Fixpoint loop {S R} (fuel : nat) (body : S -> prog (S + R)) (s : S) : prog (option R) :=
  match fuel with
  | O => Ret None
  | Datatypes.S fuel =>
      bind (body s) (fun o => match o with inl s' => loop fuel body s' | inr r => Ret (Some r) end)
  end.

(** ** Traces *)

(** An effect together with the response it got. *)
Record ev := Ev { ev_eff : Eff; ev_resp : resp ev_eff }.

(** [trace p h o]: [p] performs the events [h]; then it has returned [o], or is still
    running when [o] is [None]. *)
Inductive trace {A} : prog A -> list ev -> option A -> Prop :=
| trace_ret a : trace (Ret a) [] (Some a)
| trace_stop p : trace p [] None
| trace_do e k r h o : trace (k r) h o -> trace (Do e k) (Ev e r :: h) o.

Lemma trace_inv {A} (p : prog A) t o : trace p t o ->
  match p with
  | Ret a => t = [] /\ (o = Some a \/ o = None)
  | Do e k => (t = [] /\ o = None) \/ exists r t', t = Ev e r :: t' /\ trace (k r) t' o
  end.
Proof. intros [a|[a|e k]|e k r h o' Ht]; eauto 10. Qed.

(** A finished run has performed the first effect. *)
Lemma trace_done {A} e (k : resp e -> prog A) t a :
  trace (Do e k) t (Some a) -> exists r t', t = Ev e r :: t' /\ trace (k r) t' (Some a).
Proof. by intros [[_ ?]|?]%trace_inv. Qed.

Lemma trace_returned {A} (a b : A) t : trace (Ret a) t (Some b) -> t = [] /\ a = b.
Proof. intros [-> [[= <-]|?]]%trace_inv; done. Qed.

(** The responses the databases can give. *)
Definition lawful (e : Eff) : resp e -> Prop :=
  match e return resp e -> Prop with
  | Db s => fun r => db_lawful s r
  | _ => fun _ => True
  end.

Definition lawful_ev (x : ev) : Prop := lawful (ev_eff x) (ev_resp x).

(** ** The logic of guarantees

    [wp G Q h p]: running after the history [h], every effect [p] performs satisfies
    [G] at the history it is performed in, and its result satisfies [Q]. *)
Fixpoint wp {A} (G : list ev -> Eff -> Prop) (Q : A -> list ev -> Prop) (h : list ev) (p : prog A) : Prop :=
  match p with
  | Ret a => Q a h
  | Do e k => G h e /\ forall r, lawful e r -> wp G Q (h ++ [Ev e r]) (k r)
  end.

(** Guarantees that do not look at the history. *)
Definition safe {A} (G : Eff -> Prop) (p : prog A) : Prop := wp (fun _ => G) (fun _ _ => True) [] p.

Lemma wp_mono {A} (G G' : list ev -> Eff -> Prop) (Q Q' : A -> list ev -> Prop) h p :
  (forall h e, G h e -> G' h e) -> (forall a h, Q a h -> Q' a h) ->
  wp G Q h p -> wp G' Q' h p.
Proof.
  intros HG HQ. revert h. induction p as [a|e k IH]; intros h; simpl; [by apply HQ|].
  intros [He Hk]. split; [by apply HG|]. intros r Hr. by apply IH, Hk.
Qed.

Lemma wp_post {A} G (Q Q' : A -> list ev -> Prop) h p :
  wp G Q h p -> (forall a h, Q a h -> Q' a h) -> wp G Q' h p.
Proof. intros Hp HQ. revert Hp. by apply wp_mono. Qed.

Lemma wp_bind {A B} G (Q : B -> list ev -> Prop) h (p : prog A) (k : A -> prog B) :
  wp G (fun a h => wp G Q h (k a)) h p -> wp G Q h (bind p k).
Proof.
  revert h. induction p as [a|e k' IH]; intros h; simpl; [done|].
  intros [He Hk]. split; [done|]. intros r Hr. by apply IH, Hk.
Qed.

Lemma wp_do {A} G (Q : A -> list ev -> Prop) h e (k : resp e -> prog A) :
  G h e -> (forall r, lawful e r -> wp G Q (h ++ [Ev e r]) (k r)) -> wp G Q h (bind (do e) k).
Proof. intros HG Hk. split; [done|]. intros r Hr. by apply Hk. Qed.

Lemma wp_eff G e (Q : resp e -> list ev -> Prop) h :
  G h e -> (forall r, lawful e r -> Q r (h ++ [Ev e r])) -> wp G Q h (do e).
Proof. intros HG Hk. split; [done|]. intros r Hr. by apply Hk. Qed.

Lemma wp_map_err {A X Y} G (Q : result A Y -> list ev -> Prop) h (f : X -> Y) (p : prog (result A X)) :
  wp G (fun r h => Q (map_err f r) h) h p -> wp G Q h (map_err_m f p).
Proof. intros Hp. unfold map_err_m. by apply wp_bind. Qed.

Lemma wp_try {A B X} G (Q : result B X -> list ev -> Prop) h (p : prog (result A X)) k :
  wp G (fun r h => match r with Ok a => wp G Q h (k a) | Err e => Q (Err e) h end) h p ->
  wp G Q h (try_bind p k).
Proof.
  intros Hp. unfold try_bind. apply wp_bind. eapply wp_post; [exact Hp|].
  intros [a|e] h'; done.
Qed.

(** A loop keeps its invariant. *)
Lemma wp_loop {S R} G (I : S -> list ev -> Prop) (Q : R -> list ev -> Prop) fuel body h (s : S) :
  (forall s h, I s h -> wp G (fun o h => match o with inl s' => I s' h | inr r => Q r h end) h (body s)) ->
  I s h -> wp G (fun o h => match o with Some r => Q r h | None => True end) h (loop fuel body s).
Proof.
  intros Hbody. revert s h. induction fuel as [|fuel IH]; intros s h HI; simpl; [done|].
  apply wp_bind. eapply wp_post; [by apply Hbody|].
  intros [s'|r] h'; [apply IH|done].
Qed.

(** The logic is adequate: the guarantee holds at every event of every trace with
    lawful responses, and the postcondition at every result. *)
Lemma wp_trace {A} G (Q : A -> list ev -> Prop) h p t o :
  wp G Q h p -> trace p t o -> Forall lawful_ev t ->
  (forall t1 x t2, t = t1 ++ x :: t2 -> G (h ++ t1) (ev_eff x)) /\
  (forall a, o = Some a -> Q a (h ++ t)).
Proof.
  intros Hwp Ht. revert h Hwp. induction Ht as [a|p|e k r t o Ht IH]; intros h Hwp Hl; simpl in *.
  - split; [by intros [] ? ?|]. intros a' [= <-]. by rewrite app_nil_r.
  - split; [by intros [] ? ?|done].
  - destruct Hwp as [HG Hk]. inversion Hl as [|? ? Hr Hl']; subst.
    destruct (IH (h ++ [Ev e r]) (Hk r Hr) Hl') as [IHG IHQ]. split.
    + intros [|y t1] x t2 Heq; simplify_eq/=.
      * by rewrite app_nil_r.
      * specialize (IHG t1 x t2 eq_refl). by rewrite <- app_assoc in IHG.
    + intros a Ha. specialize (IHQ a Ha). by rewrite <- app_assoc in IHQ.
Qed.

(** A weaker history does not matter to [safe] programs. *)
Lemma safe_wp {A} (G : Eff -> Prop) (p : prog A) h h' :
  wp (fun _ => G) (fun _ _ => True) h p -> wp (fun _ => G) (fun _ _ => True) h' p.
Proof.
  revert h h'. induction p as [a|e k IH]; intros h h'; simpl; [done|].
  intros [HG Hk]. split; [done|]. intros r Hr. eapply IH. by apply Hk.
Qed.

Lemma safe_bind {A B} (G : Eff -> Prop) (p : prog A) (k : A -> prog B) :
  safe G p -> (forall a, safe G (k a)) -> safe G (bind p k).
Proof.
  intros Hp Hk. apply wp_bind. eapply wp_post; [exact Hp|].
  intros a h _. eapply safe_wp, Hk.
Qed.

Lemma safe_do {A} (G : Eff -> Prop) e (k : resp e -> prog A) :
  G e -> (forall r, lawful e r -> safe G (k r)) -> safe G (Do e k).
Proof. intros HG Hk. split; [done|]. intros r Hr. by eapply safe_wp, Hk. Qed.

Lemma safe_mono {A} (G G' : Eff -> Prop) (p : prog A) :
  (forall e, G e -> G' e) -> safe G p -> safe G' p.
Proof. intros HG. apply wp_mono; auto. Qed.

Lemma safe_loop {S R} (G : Eff -> Prop) fuel (body : S -> prog (S + R)) s :
  (forall s, safe G (body s)) -> safe G (loop fuel body s).
Proof.
  intros Hb. revert s. induction fuel as [|fuel IH]; intros s; simpl; [done|].
  apply safe_bind; [done|]. intros [s'|r]; [apply IH|done].
Qed.

(** The history only grows. *)
Lemma wp_prefix {A} G (Q : A -> list ev -> Prop) h0 h p :
  h0 `prefix_of` h -> wp G Q h p ->
  wp (fun h e => G h e /\ h0 `prefix_of` h) (fun a h => Q a h /\ h0 `prefix_of` h) h p.
Proof.
  revert h. induction p as [a|e k IH]; intros h Hh; simpl; [done|].
  intros [HG Hk]. split; [done|]. intros r Hr. apply IH; [|by apply Hk].
  by apply prefix_app_r.
Qed.

Lemma wp_grow {A} G (Q : A -> list ev -> Prop) h p :
  wp G Q h p -> wp G (fun a h' => Q a h' /\ h `prefix_of` h') h p.
Proof.
  intros Hp. apply (wp_prefix _ _ h) in Hp; [|done]. revert Hp. apply wp_mono; [by intros ? ? []|done].
Qed.

(** A [safe] program keeps, at any history, every guarantee its effects satisfy
    whatever the history. *)
Lemma wp_safe {A} (G : Eff -> Prop) (G' : list ev -> Eff -> Prop) h (p : prog A) :
  (forall h' e, h `prefix_of` h' -> G e -> G' h' e) -> safe G p ->
  wp G' (fun _ h' => h `prefix_of` h') h p.
Proof.
  intros HG Hp. apply (safe_wp _ _ _ h), (wp_prefix _ _ h) in Hp; [|done].
  revert Hp. apply wp_mono; [|by intros a h' [_ ?]]. intros h' e [He Hh]. by apply HG.
Qed.

(** ** Environments *)

Class Env (W : Type) := exec : forall e : Eff, W -> resp e * W.

Fixpoint run {W} `{!Env W} {A} (p : prog A) (w : W) : A * W :=
  match p with
  | Ret a => (a, w)
  | Do e k => let '(r, w') := exec e w in run (k r) w'
  end.

(** The events of that run. *)
Fixpoint run_trace {W} `{!Env W} {A} (p : prog A) (w : W) : list ev :=
  match p with
  | Ret a => []
  | Do e k => let '(r, w') := exec e w in Ev e r :: run_trace (k r) w'
  end.

(** What a theorem may look at in an environment: the table of the database, the
    state of the cache, and whether the database is answering. *)
Class View (W : Type) := {
  rows : W -> Table;
  cache : W -> Cache.State;
  healthy : W -> Prop
}.

(** The laws: the database meets its contract, the cache runs its critical sections,
    no other effect changes either, a fresh token is new, a healthy database answers. *)
Class EnvLaws (W : Type) `{!Env W} `{!View W} : Prop := {
  rows_keyed w : keyed (rows w);
  exec_db s w : db_post s (rows w) (exec (Db s) w).1 (rows (exec (Db s) w).2);
  exec_db_healthy s w : healthy w -> applicable s (rows w) -> exists a, (exec (Db s) w).1 = Ok a;
  exec_cache o w : ((exec (CacheOp o) w).1, cache (exec (CacheOp o) w).2) = Cache.step o (cache w);
  exec_rows e w : (forall s, e <> Db s) -> rows (exec e w).2 = rows w;
  exec_cache_frame e w : (forall o, e <> CacheOp o) -> cache (exec e w).2 = cache w;
  exec_healthy e w : healthy w -> healthy (exec e w).2;
  exec_new_v4 w k m : rows w !! k = Some m -> application.token m <> (exec NewV4 w).1
}.

Section run_lemmas.
Context {W : Type} `{!Env W} `{!View W} `{!EnvLaws W}.

Lemma run_bind {A B} (p : prog A) (k : A -> prog B) w :
  run (bind p k) w = run (k (run p w).1) (run p w).2.
Proof.
  revert w. induction p as [a|e k' IH]; intros w; simpl; [done|].
  destruct (exec e w) as [r w']. apply IH.
Qed.

Lemma run_map_err {A X Y} (f : X -> Y) (p : prog (result A X)) w :
  run (map_err_m f p) w = (map_err f (run p w).1, (run p w).2).
Proof. unfold map_err_m. by rewrite run_bind. Qed.

Lemma run_try {A B X} (p : prog (result A X)) (k : A -> prog (result B X)) w :
  run (try_bind p k) w =
  match (run p w).1 with
  | Ok a => run (k a) (run p w).2
  | Err e => (Err e, (run p w).2)
  end.
Proof. unfold try_bind. rewrite run_bind. by destruct (run p w).1. Qed.

(** A statement of the database, with everything its laws say. *)
Lemma exec_db_cases s w :
  exists r w', exec (Db s) w = (r, w') /\ db_post s (rows w) r (rows w') /\ cache w' = cache w /\
    (healthy w -> healthy w') /\ (healthy w -> applicable s (rows w) -> exists a, r = Ok a).
Proof.
  pose proof (exec_db s w) as Hp. pose proof (exec_cache_frame (Db s) w) as Hc.
  pose proof (exec_healthy (Db s) w) as Hh. pose proof (exec_db_healthy s w) as Ha.
  destruct (exec (Db s) w) as [r w'] eqn:E. simpl in *.
  exists r, w'. split_and!; auto.
Qed.

(** Any other effect leaves the table alone, and the cache unless it is a critical
    section of it. *)
Lemma exec_cache_cases o w :
  exists w', exec (CacheOp o) w = ((Cache.step o (cache w)).1, w') /\
    cache w' = (Cache.step o (cache w)).2 /\ rows w' = rows w /\ (healthy w -> healthy w').
Proof.
  pose proof (exec_cache o w) as Hp. pose proof (exec_rows (CacheOp o) w) as Hr.
  pose proof (exec_healthy (CacheOp o) w) as Hh.
  destruct (exec (CacheOp o) w) as [r w'] eqn:E. simpl in *. exists w'.
  destruct (Cache.step o (cache w)) as [r' c']. simplify_eq/=. split_and!; auto.
Qed.

Lemma exec_lawful e w : lawful e (exec e w).1.
Proof.
  destruct e; simpl; try done.
  eapply db_post_lawful; [apply (rows_keyed w)|apply exec_db].
Qed.

(** A run is a trace with lawful responses. *)
Lemma run_is_trace {A} (p : prog A) w : trace p (run_trace p w) (Some (run p w).1).
Proof.
  revert w. induction p as [a|e k IH]; intros w; simpl; [constructor|].
  destruct (exec e w) as [r w']. constructor. apply IH.
Qed.

Lemma run_trace_lawful {A} (p : prog A) w : Forall lawful_ev (run_trace p w).
Proof.
  revert w. induction p as [a|e k IH]; intros w; simpl; [constructor|].
  pose proof (exec_lawful e w) as Hl. destruct (exec e w) as [r w']. by constructor.
Qed.

Lemma run_trace_bind {A B} (p : prog A) (k : A -> prog B) w :
  run_trace (bind p k) w = run_trace p w ++ run_trace (k (run p w).1) (run p w).2.
Proof.
  revert w. induction p as [a|e k' IH]; intros w; simpl; [done|].
  destruct (exec e w) as [r w']. simpl. by rewrite IH.
Qed.

(** A program whose effects all keep a property of the environment keeps it. *)
Lemma run_invariant {A} (I : W -> Prop) (G : Eff -> Prop) (p : prog A) w :
  (forall e w, G e -> I w -> I (exec e w).2) -> safe G p -> I w -> I (run p w).2.
Proof.
  intros HG Hp. revert w. induction p as [a|e k IH]; intros w HI; simpl; [done|].
  destruct Hp as [He Hk]. pose proof (exec_lawful e w) as Hl.
  specialize (HG e w He HI). destruct (exec e w) as [r w']. simpl in *.
  apply IH; [|done]. eapply safe_wp. by apply Hk.
Qed.

(** A program without database statements leaves the table alone. *)
Definition no_db (e : Eff) : Prop := match e with Db _ => False | _ => True end.
Definition no_cache (e : Eff) : Prop := match e with CacheOp _ => False | _ => True end.

Lemma run_rows {A} (p : prog A) w : safe no_db p -> rows (run p w).2 = rows w.
Proof.
  intros Hp. apply (run_invariant (fun w' => rows w' = rows w) no_db); [|done|done].
  intros e w' He <-. apply exec_rows. intros s ->. done.
Qed.

Lemma run_cache {A} (p : prog A) w : safe no_cache p -> cache (run p w).2 = cache w.
Proof.
  intros Hp. apply (run_invariant (fun w' => cache w' = cache w) no_cache); [|done|done].
  intros e w' He <-. apply exec_cache_frame. intros s ->. done.
Qed.

Lemma run_healthy {A} (p : prog A) w : healthy w -> healthy (run p w).2.
Proof.
  revert w. induction p as [a|e k IH]; intros w Hw; simpl; [done|].
  pose proof (exec_healthy e w Hw). destruct (exec e w) as [r w']. by apply IH.
Qed.

End run_lemmas.

End effects.

Create HintDb run.
#[export] Hint Rewrite @run_bind @run_try @run_map_err : run.

(** The next awaited effect of a program, in the logic of guarantees. *)
Ltac wp_await :=
  cbn [map_err];
  lazymatch goal with
  | |- wp _ _ _ (try_bind (map_err_m _ _) _) => apply wp_try, wp_map_err, wp_eff
  | |- wp _ _ _ (try_bind _ _) => apply wp_try, wp_eff
  | |- wp _ _ _ (bind _ _) => apply wp_do
  end.

(** Runs a program to its next effect. *)
Ltac run_simpl := autorewrite with run; unfold do; cbn [run fst snd].

(** Runs one database statement at the head of a program. *)
Ltac run_db w r w' :=
  run_simpl;
  match goal with
  | |- context [exec (Db ?s) w] =>
      let Hp := fresh "Hpost" in let Hc := fresh "Hcache" in
      let Hh := fresh "Hhealthy" in let Ha := fresh "Hanswer" in
      destruct (exec_db_cases s w) as (r & w' & -> & Hp & Hc & Hh & Ha)
  end.

Arguments Ret {_ A} a.
Arguments Do {_ A} e k.
Arguments Env {_} W.
Arguments EnvLaws {_} W {_ _}.

Notation "x <- p ;; k" := (bind p (fun x => k))
  (at level 100, p at next level, right associativity) : rust_scope.
Notation "p ;; k" := (bind p (fun _ => k))
  (at level 100, k at level 200, right associativity) : rust_scope.
Notation "x <-! p ;; k" := (try_bind p (fun x => k))
  (at level 100, p at next level, right associativity) : rust_scope.
