(* ===== verification/Config.v ===== *)
(** * Configuration ([server/src/config.rs])

    The configuration records, the defaults applied when a value is missing and the
    URL templates.  Loading ([figment]), the local address and the template engine
    are the interface [ConfigLib]. *)

From stdpp Require Import base option list strings gmap pretty.
From S2P Require Import Prelude RustStr.

Record SparkVersion := mkSparkVersion {
  version_name : string;
  home : string;
  master : option string;
  deploy_mode : option string;
  proxy_user : option bool;
  version_env : option (gmap string string);
  default_configs : option (gmap string string);
  merge_configs : option (gmap string string);
  override_configs : option (gmap string string);
  python_executable : option string
}.

(** [SparkVersion { name, home, python_executable, ..Default::default() }]. *)
Definition plain_version (name home : string) (python : option string) : SparkVersion :=
  mkSparkVersion name home None None None None None None None python.

Record KerberosConfig := mkKerberosConfig {
  keytab : string;
  principal : string;
  renewal_interval : option Z
}.

Record TlsConfig := mkTlsConfig { tls_key : string; tls_cert : string }.

Record AuthConfig := mkAuthConfig {
  auth_name : string;
  auth_options : option (gmap string string)
}.

Record ProxyConfig := mkProxyConfig {
  bind_host : option string;
  bind_port : option Z;
  callback_address : option string;
  ui_url_template : option string;
  log_url_template : option string;
  config_plugin_path : option string;
  config_launch_timeout : option Z;
  config_session_timeout : option Z;
  store : option string;
  kerberos_config : option KerberosConfig;
  tls : option TlsConfig;
  spark_versions : option (list SparkVersion);
  auth_methods : option (list AuthConfig)
}.

Definition default_config : ProxyConfig :=
  mkProxyConfig None None None None None None None None None None None None None.

(** A panic, by its message. *)
Inductive Panic := mkPanic (msg : string).

#[export] Instance Panic_eq_dec : EqDecision Panic.
Proof. solve_decision. Defined.

(** What [figment] is given to merge. *)
Inductive Provider := YamlFile (path : string) | EnvPrefixed (prefix : string).

Class ConfigLib := {
  (** [Figment::merge] over the providers in order, then [extract]. *)
  figment_extract : list Provider -> result ProxyConfig string;
  (** [local_ip_address::local_ip], rendered. *)
  local_ip : result string string;
  (** [minijinja::render!(tpl, application_id => id)]. *)
  render : string -> string -> string
}.

Definition DEFAULT_PORT : Z := 8100.

Section config.
Context `{ConfigLib}.

(** [ProxyConfig::create]. *)
Definition create (path : option string) : result ProxyConfig Panic :=
  let figment := match path with Some path => [YamlFile path] | None => [] end in
  map_err mkPanic (figment_extract (figment ++ [EnvPrefixed "SPARK_PLUG_"])).

Definition get_bind_port (c : ProxyConfig) : Z := unwrap_or (bind_port c) DEFAULT_PORT.

Definition get_callback_addr (c : ProxyConfig) : result string Panic :=
  match callback_address c with
  | Some a => Ok a
  | None =>
      let callback_scheme := if decide (is_Some (tls c)) then "https" else "http" in
      match local_ip with
      | Ok ip => Ok (callback_scheme +:+ "://" +:+ ip +:+ ":" +:+ pretty (get_bind_port c))
      | Err e => Err (mkPanic e)
      end
  end.

Definition render_ui_url (c : ProxyConfig) (application_id : option string) : option string :=
  tpl ← ui_url_template c;
  app_id ← application_id;
  if is_empty app_id then None else Some (render tpl app_id).

Definition render_log_url (c : ProxyConfig) (application_id : option string) : option string :=
  tpl ← log_url_template c;
  app_id ← application_id;
  if is_empty app_id then None else Some (render tpl app_id).

(** A URL is rendered exactly when there is a template and a non-empty id. *)
Lemma render_ui_url_Some c a u :
  render_ui_url c a = Some u <->
  exists tpl i, ui_url_template c = Some tpl /\ a = Some i /\ i <> "" /\ u = render tpl i.
Proof.
  unfold render_ui_url, is_empty. destruct (ui_url_template c), a; simpl; try naive_solver.
  case_bool_decide; naive_solver.
Qed.

End config.

(** ** A concrete library for the examples: a template is a prefix. *)
Module SampleConfig.

#[export] Instance sample : ConfigLib := {
  figment_extract _ := Ok default_config;
  local_ip := Ok "10.0.0.1";
  render tpl i := tpl +:+ i
}.

End SampleConfig.
