(* ===== verification/Launcher.v ===== *)
(** * Launching Spark sessions ([server/src/launcher.rs])

    [build_conf] layers the configuration of a session, [validate_file_configs]
    screens what the user sent, [build_submit_command] makes the command line of
    [spark-submit], [launch] runs it.  [Launcher] is the trait, [LauncherLaws] what
    the rest of the server relies on. *)

From stdpp Require Import base option list strings gmap pretty.
From Stdlib Require Import Ascii.
From S2P Require Import Prelude RustStr Entities Database Error Http Cache Env Config.

Open Scope rust_scope.

Definition SPARK_HOME : string := "SPARK_HOME".
Definition APP_NAME_CONFIG : string := "spark.app.name".
Definition TOKEN_CONFIG : string := "spark.connect.authenticate.token".
Definition CALLBACK_CONFIG : string := "spark.plug.callback".
Definition TIMEOUT_CONFIG : string := "spark.plug.idle.timeout".
Definition LISTENER_CONFIG : string := "spark.extraListeners".
Definition INTERCEPTOR_CONFIG : string := "spark.connect.grpc.interceptor.classes".
Definition GRPC_PORT_CONFIG : string := "spark.connect.grpc.binding.port".

Definition LISTENER_CLASS : string := "org.apache.spark.sql.sparkplug.SparkPlugListener".
Definition INTERCEPTOR_CLASS : string := "org.apache.spark.sql.sparkplug.SparkPlugInterceptor".
Definition SERVER_CLASS : string := "org.apache.spark.sql.sparkplug.SparkPlugServer".

(** The process environment [from_config] and [launch] read, and the order in which a
    [HashMap] yields its entries, which Rust leaves open. *)
Class HostLib := {
  which : string -> option string;
  env_var : string -> option string;
  (** standard output of a command as UTF-8 text *)
  command_stdout : string -> result string string;
  path_exists : string -> bool;
  path_parent : string -> option string;
  (** where the embedded plugin was unpacked; [None] without the [embed-plugin] feature *)
  embedded_plugin : option (result string string);
  cargo_manifest_dir : string;
  hash_map_iter : gmap string string -> list (string * string)
}.

Class HostLaws `{HostLib} : Prop :=
  hash_map_iter_perm m : hash_map_iter m ≡ₚ map_to_list m.

Record SparkLauncher := mkSparkLauncher {
  versions : list SparkVersion;
  (* asserted by the constructor *)
  versions_ne : versions <> [];
  callback_addr : string;
  launch_timeout : Z;
  session_timeout : Z;
  plugin_path : string;
  plugin_temp_path : option string
}.

(** [HashMap::extend]: the new entries win. *)
Definition extend (m new : gmap string string) : gmap string string := new ∪ m.

(** [PathBuf::join] of a relative component. *)
Definition path_join (a b : string) : string :=
  if is_empty a || bool_decide (String.get (String.length a - 1) a = Some "/"%char)
  then a +:+ b else a +:+ "/" +:+ b.

Section launcher.
Context `{HttpLib} `{ConfigLib} `{HostLib}.

(** ** Construction *)

Definition find_default_spark_home : result string Panic :=
  match which "find_spark_home.py" with
  | Some find_spark_home =>
      path <-? map_err mkPanic (command_stdout find_spark_home);;
      Ok (trim_end path)
  | None =>
      match which "spark-submit" with
      | Some submit_path =>
          parent <-? ok_or (path_parent submit_path) (mkPanic "Failed to get parent of spark-submit command");;
          ok_or (path_parent parent) (mkPanic "Failed to get parent of spark-submit command")
      | None => Err (mkPanic "Unable to find a default Spark installation")
      end
  end.

Definition default_versions : result (list SparkVersion) Panic :=
  let python_executable := which "python3" in
  match env_var SPARK_HOME with
  | Some home => Ok [plain_version "default" home python_executable]
  | None =>
      home <-? find_default_spark_home;;
      Ok [plain_version "default" home python_executable]
  end.

Fixpoint check_homes (vs : list SparkVersion) : result unit Panic :=
  match vs with
  | [] => Ok tt
  | v :: vs =>
      if path_exists (home v) then check_homes vs
      else Err (mkPanic ("Home directory not found for version " +:+ version_name v +:+ ": " +:+ home v))
  end.

Definition from_config (config : ProxyConfig) : result SparkLauncher Panic :=
  versions <-? match spark_versions config with Some vs => Ok vs | None => default_versions end;;
  callback_addr <-? get_callback_addr config;;
  match decide (versions = []) with
  | left _ => Err (mkPanic "No Spark versions provided")
  | right non_empty =>
  _ <-? check_homes versions;;
  plugin <-? match embedded_plugin with
             | Some (Ok path) => Ok (path, Some path)
             | Some (Err e) => Err (mkPanic e)
             | None =>
                 Ok (unwrap_or (config_plugin_path config)
                       (cargo_manifest_dir +:+ "/../plugin/target/scala-2.13/spark-plug_2.13-0.1.0.jar"),
                     None)
             end;;
  Ok {| versions := versions;
        versions_ne := non_empty;
        callback_addr := callback_addr;
        launch_timeout := unwrap_or (config_launch_timeout config) 300%Z;
        session_timeout := unwrap_or (config_session_timeout config) 3600%Z;
        plugin_path := plugin.1;
        plugin_temp_path := plugin.2 |}
  end.

(** ** The configuration of a session *)

(** One round of the merge loop. *)
Definition merge_entry (configs : gmap string string) (kv : string * string) : gmap string string :=
  let '(key, value) := kv in
  match configs !! key with
  | Some existing => <[key := existing +:+ "," +:+ value]> configs
  | None => <[key := value]> configs
  end.

Definition build_conf (version : SparkVersion) (user_config : gmap string string) : gmap string string :=
  let configs := default ∅ (default_configs version) in
  let configs := extend configs user_config in
  let configs := match merge_configs version with
                 | Some merge_configs => foldl merge_entry configs (hash_map_iter merge_configs)
                 | None => configs
                 end in
  match override_configs version with
  | Some override_configs => extend configs override_configs
  | None => configs
  end.

(** ** Screening the user's files *)

Definition file_config_keys : list string := ["spark.files"; "spark.archives"; "spark.submit.pyFiles"].

(** The loop over the comma-separated paths of one key. *)
Fixpoint validate_paths (key : string) (paths : list string) : result unit IoError :=
  match paths with
  | [] => Ok tt
  | file_path :: paths =>
      let trimmed := trim file_path in
      if is_empty trimmed then validate_paths key paths
      else if negb (contains "://" trimmed) then
        Err (mkIoError InvalidInput
               ("Config " +:+ key +:+ " contains file path without protocol: " +:+ trimmed))
      else if starts_with "file://" trimmed then
        Err (mkIoError PermissionDenied
               ("Config " +:+ key +:+ " cannot use file:// protocol: " +:+ trimmed))
      else validate_paths key paths
  end.

Fixpoint validate_keys (keys : list string) (configs : gmap string string) : result unit IoError :=
  match keys with
  | [] => Ok tt
  | key :: keys =>
      _ <-? match configs !! key with
            | Some value => validate_paths key (split ","%char value)
            | None => Ok tt
            end;;
      validate_keys keys configs
  end.

Definition validate_file_configs (configs : gmap string string) : result unit IoError :=
  validate_keys file_config_keys configs.

(** ** The command line *)

(** The session's own settings, put on top of the layered configuration. *)
Definition session_configs (L : SparkLauncher) (session_id : Z) (app_name : option string)
    (token : string) (configs : gmap string string) : gmap string string :=
  let configs := match app_name with
                 | Some app_name => <[APP_NAME_CONFIG := app_name]> configs
                 | None =>
                     if decide (is_Some (configs !! APP_NAME_CONFIG)) then configs
                     else <[APP_NAME_CONFIG := "spark-plug-session-" +:+ pretty session_id]> configs
                 end in
  let configs := <[TOKEN_CONFIG := token]> configs in
  let configs := <[CALLBACK_CONFIG := callback_addr L]> configs in
  let configs := <[TIMEOUT_CONFIG := pretty (session_timeout L)]> configs in
  let configs := <[LISTENER_CONFIG := LISTENER_CLASS]> configs in
  let configs := <[INTERCEPTOR_CONFIG := INTERCEPTOR_CLASS]> configs in
  <[GRPC_PORT_CONFIG := "0"]> configs.

(** The packed Python environment, if there is one. *)
Definition add_venv (venv_tarball : option string) (configs : gmap string string) : gmap string string :=
  match venv_tarball with
  | None => configs
  | Some venv_tarball =>
      let venv_archive := venv_tarball +:+ "#environment" in
      let configs :=
        match configs !! "spark.archives" with
        | Some archives =>
            if negb (is_empty archives)
            then <["spark.archives" := archives +:+ "," +:+ venv_archive]> configs
            else <["spark.archives" := venv_archive]> configs
        | None => <["spark.archives" := venv_archive]> configs
        end in
      <["spark.sql.execution.pyspark.python" := "../environment/bin/python"]> configs
  end.

Definition conf_args (l : list (string * string)) : list string :=
  l ≫= fun kv => ["--conf"; kv.1 +:+ "=" +:+ kv.2].

Definition build_submit_command (L : SparkLauncher) (version : SparkVersion) (session_id : Z)
    (app_name : option string) (username token : string) (user_config : gmap string string)
    (venv_tarball : option string) : result (string * list string) IoError :=
  _ <-? validate_file_configs user_config;;
  let configs := build_conf version user_config in
  let configs := session_configs L session_id app_name token configs in
  let submit_path := path_join (path_join (home version) "bin") "spark-submit" in
  let args := [] in
  let args := args ++ match master version with Some m => ["--master"; m] | None => [] end in
  let args := args ++ match deploy_mode version with Some d => ["--deploy-mode"; d] | None => [] end in
  let configs := add_venv venv_tarball configs in
  let args := args ++ conf_args (hash_map_iter configs) in
  let args := args ++ ["--class"; SERVER_CLASS] in
  let args := args ++ (if default false (proxy_user version) then ["--proxy-user"; username] else []) in
  let args := args ++ [plugin_path L] in
  Ok (submit_path, args).

(** ** Running it *)

Definition build_python_venv (python_executable : option string) (packages : list string)
    : prog (result string IoError) :=
  match python_executable with
  | None =>
      Ret (Err (mkIoError NotFound "No python executable specified for creating virtual environment"))
  | Some python =>
      venv_path <-! do (Tempdir "spark-plug-venv");;
      status <-! do (CommandStatus "uv" ["venv"; "--python"; python; venv_path]);;
      if negb status then
        Ret (Err (mkIoError OtherKind ("Failed to create virtual environment with uv using " +:+ python)))
      else
      let venv_python := venv_path +:+ "/bin/python" in
      status <-! do (CommandStatus "uv"
                       (["pip"; "install"; "--python"; venv_python; "venv-pack"] ++ packages));;
      if negb status then
        Ret (Err (mkIoError OtherKind "Failed to install packages in virtual environment"))
      else
      status <-! do (CommandStatus (venv_path +:+ "/bin/venv-pack")
                       ["-p"; venv_path; "-o"; venv_path +:+ ".tgz"; "--exclude"; "*/venv-pack/*"]);;
      if negb status then
        Ret (Err (mkIoError OtherKind "Failed to install packages in virtual environment"))
      else Ret (Ok (venv_path +:+ ".tgz"))
  end.

(** [versions[0]], which a launcher has: [from_config] asserts it. *)
Definition first_version (L : SparkLauncher) : SparkVersion :=
  match versions L as vs return vs <> [] -> SparkVersion with
  | v :: _ => fun _ => v
  | [] => fun non_empty => match non_empty eq_refl with end
  end (versions_ne L).

Definition find_version (L : SparkLauncher) (version_name : option string) : result SparkVersion IoError :=
  match version_name with
  | Some name =>
      match list_find (fun v => Config.version_name v = name) (versions L) with
      | Some (_, v) => Ok v
      | None => Err (mkIoError NotFound ("Version named " +:+ name +:+ " not found"))
      end
  | None => Ok (first_version L)
  end.

Definition spark_launch (L : SparkLauncher) (version_name : option string) (session_id : Z)
    (app_name : option string) (username token : string) (user_config : gmap string string)
    (python_packages : option (list string)) : prog (result JoinHandle IoError) :=
  match find_version L version_name with
  | Err e => Ret (Err e)
  | Ok version =>
      let env := <[SPARK_HOME := home version]> (default ∅ (version_env version)) in
      venv_tarball <-! match python_packages with
                       | Some (p :: ps) =>
                           tarball <-! build_python_venv (python_executable version) (p :: ps);;
                           Ret (Ok (Some tarball))
                       | _ => Ret (Ok None)
                       end;;
      match build_submit_command L version session_id app_name username token user_config venv_tarball with
      | Err e => Ret (Err e)
      | Ok (submit_path, args) =>
          child <-! do (CommandSpawn submit_path args env);;
          handle <- do (Spawn (TrackLaunch child (launch_timeout L)));;
          Ret (Ok handle)
      end
  end.

Definition get_version_names (L : SparkLauncher) : list string := version_name <$> versions L.

End launcher.

(** ** [track_launch]

    The two futures of the [select!] as the events that complete them. *)
Inductive LaunchEvent :=
| ChildWait (status : result bool IoError)
| TimeoutElapsed.

(** [child.wait().await.is_ok_and(|s| s.success())]. *)
Definition launch_success (status : result bool IoError) : bool :=
  match status with Ok success => success | Err _ => false end.

(** Whether the tracking task has finished after these events.  The child's branch
    only matches [false]; a success disables it, and the timeout is left to wait for. *)
Fixpoint track_launch (child_branch : bool) (events : list LaunchEvent) : bool :=
  match events with
  | [] => false
  | ChildWait status :: events =>
      if child_branch then
        if launch_success status then track_launch false events else true
      else track_launch child_branch events
  | TimeoutElapsed :: _ => true
  end.

(** ** The trait *)

Class Launcher `{HttpLib} (L : Type) := {
  get_versions : L -> list string;
  launch : L -> option string -> Z -> option string -> string -> string -> gmap string string ->
           option (list string) -> prog (result JoinHandle IoError)
}.

(** What launching may do: start processes and tasks, nothing with the database, the
    cache, the network or the queues. *)
Definition launch_effect `{HttpLib} (e : Eff) : Prop :=
  match e with
  | Tempdir _ | CommandStatus _ _ | CommandSpawn _ _ _ => True
  | Spawn (TrackLaunch _ _) | Spawn (SleepTask _) => True
  | _ => False
  end.

Class LauncherLaws `{HttpLib} (L : Type) `{!Launcher L} : Prop :=
  launch_safe (l : L) v i n u t c p : safe launch_effect (launch l v i n u t c p).

#[export] Instance SparkLauncher_Launcher `{HttpLib} `{HostLib} : Launcher SparkLauncher := {
  get_versions := get_version_names;
  launch := spark_launch
}.

Lemma build_python_venv_safe `{HttpLib} py ps : safe launch_effect (build_python_venv py ps).
Proof.
  unfold build_python_venv. destruct py as [py|]; [|done].
  repeat first [ progress (apply safe_do; [done|intros [|] _; simpl]) | case_match | done ].
Qed.

#[export] Instance SparkLauncher_laws `{HttpLib} `{HostLib} : LauncherLaws SparkLauncher.
Proof.
  intros L v i n u t c p. unfold launch, SparkLauncher_Launcher, spark_launch.
  destruct (find_version L v) as [ver|]; [|done].
  apply safe_bind.
  - destruct p as [[|p ps]|]; [done| |done].
    apply safe_bind; [apply build_python_venv_safe|]. intros []; done.
  - intros [tb|]; [|done].
    destruct (build_submit_command _ _ _ _ _ _ _ _) as [[path args]|]; [|done].
    apply safe_do; [done|]. intros [] _; [|done].
    apply safe_do; [done|]. done.
Qed.

(** ** A concrete host for the examples *)
Module SampleHost.

#[export] Instance sample : HostLib := {
  which p := if decide (p = "spark-submit") then Some "/opt/spark/bin/spark-submit" else None;
  env_var _ := None;
  command_stdout _ := Err "no such file";
  path_exists p := starts_with "/opt" p;
  path_parent p := if decide (p = "/opt/spark/bin/spark-submit") then Some "/opt/spark/bin" else Some "/opt/spark";
  embedded_plugin := None;
  cargo_manifest_dir := "/src/server";
  hash_map_iter m := map_to_list m
}.

#[export] Instance sample_laws : HostLaws.
Proof. by intros m. Qed.

Definition version : SparkVersion :=
  mkSparkVersion "4.0" "/opt/spark" (Some "yarn") (Some "cluster") (Some true) None
    (Some {["a" := "default"; "b" := "default"]})
    (Some {["c" := "merge"; "e" := "merge-only"]})
    (Some {["d" := "override"]}) (Some "python3").

Definition launcher : SparkLauncher :=
  mkSparkLauncher [version] ltac:(done) "http://localhost:8100" 60 60 "/path/to/plugin" None.

End SampleHost.
