(* ===== verification/LauncherFacts.v ===== *)
(** * What the launcher guarantees

    The layering of configurations, the screen on the user's files and where it
    leaks, the command line and how it reads back, the runs of [launch]. *)

From stdpp Require Import base option list strings gmap pretty.
From Stdlib Require Import Ascii.
From S2P Require Import Prelude RustStr Entities Database Error Http Cache Env Config Launcher.

Section facts.
Context `{HttpLib} `{ConfigLib} `{HostLib}.

(** ** Layered configuration *)

Section layered.
Context `{!HostLaws}.

Definition merged (existing : option string) (value : string) : string :=
  match existing with Some e => e +:+ "," +:+ value | None => value end.

Lemma merge_loop_lookup (l : list (string * string)) (m : gmap string string) k :
  NoDup l.*1 ->
  foldl merge_entry m l !! k =
  match (list_to_map l : gmap string string) !! k with
  | Some v => Some (merged (m !! k) v)
  | None => m !! k
  end.
Proof.
  intros Hnd. rewrite <- (foldl_insert_lookup (fun _ => merged)) by done. f_equal.
  clear Hnd. revert m. induction l as [|[k' v'] l IH]; intros m; [done|]. simpl. rewrite IH.
  f_equal. unfold merged. by destruct (m !! k').
Qed.

Definition layer (o : option (gmap string string)) (k : string) : option string :=
  default ∅ o !! k.

Lemma extend_lookup m n k :
  extend m n !! k = match n !! k with Some v => Some v | None => m !! k end.
Proof. unfold extend. rewrite lookup_union. by destruct (n !! k), (m !! k). Qed.

(** C14. The configuration of a session, key by key: an override of the version wins;
    otherwise the version's merge value is appended, after a comma, to what the user
    or else the default gives; the order in which the hash map yields the merge
    entries has no influence. *)
Theorem build_conf_lookup (version : SparkVersion) (user_config : gmap string string) (k : string) :
  build_conf version user_config !! k =
  match layer (override_configs version) k with
  | Some v => Some v
  | None =>
      let base := match user_config !! k with
                  | Some v => Some v
                  | None => layer (default_configs version) k
                  end in
      match layer (merge_configs version) k with
      | Some v => Some (merged base v)
      | None => base
      end
  end.
Proof.
  unfold build_conf, layer.
  destruct (override_configs version) as [o|]; simpl; rewrite ?extend_lookup, ?lookup_empty;
    [destruct (o !! k); [done|]|];
    (destruct (merge_configs version) as [mc|]; simpl;
     [rewrite merge_loop_lookup by (eapply NoDup_fst_perm, hash_map_iter_perm);
      rewrite (list_to_map_perm _ _ (hash_map_iter_perm mc)), extend_lookup; done
     |rewrite lookup_empty, extend_lookup; done]).
Qed.

End layered.

(** ** The screen on files *)

(** What the screen asks of one path. *)
Definition path_ok (p : string) : bool :=
  is_empty (trim p) || (contains "://" (trim p) && negb (starts_with "file://" (trim p))).

Lemma path_ok_spec p :
  path_ok p = true <->
  trim p = "" \/ ((exists a b, trim p = a +:+ ("://" +:+ b)) /\ ~ (exists r, trim p = "file://" +:+ r)).
Proof.
  unfold path_ok, is_empty. rewrite orb_true_iff, andb_true_iff, negb_true_iff, bool_decide_eq_true.
  rewrite contains_spec, <- starts_with_spec. by rewrite not_true_iff_false.
Qed.

Lemma validate_paths_Ok key ps : validate_paths key ps = Ok tt <-> Forall (fun p => path_ok p = true) ps.
Proof.
  induction ps as [|p ps IH]; simpl; [done|]. rewrite Forall_cons, <- IH. unfold path_ok.
  destruct (is_empty _), (contains _ _), (starts_with _ _); simpl; naive_solver.
Qed.

Lemma validate_paths_Err key ps k m :
  validate_paths key ps = Err (mkIoError k m) -> k = InvalidInput \/ k = PermissionDenied.
Proof.
  induction ps as [|p ps IH]; simpl; [done|].
  destruct (is_empty _); [done|]. destruct (contains _ _); simpl; [|naive_solver].
  destruct (starts_with _ _); naive_solver.
Qed.

Lemma validate_keys_Ok keys c :
  validate_keys keys c = Ok tt <->
  forall key value, key ∈ keys -> c !! key = Some value ->
  Forall (fun p => path_ok p = true) (split "," value).
Proof.
  induction keys as [|key keys IH]; simpl; [set_solver|].
  destruct (c !! key) as [v|] eqn:E.
  - destruct (validate_paths key (split "," v)) as [[]|e] eqn:Ev.
    + rewrite IH. apply validate_paths_Ok in Ev. split.
      * intros Hk k v' [->|Hin]%elem_of_cons; [congruence|by apply Hk].
      * intros Hk k v' Hin. apply Hk. set_solver.
    + split; [done|]. intros Hk. exfalso.
      assert (validate_paths key (split "," v) = Ok tt); [|congruence].
      apply validate_paths_Ok, (Hk key); set_solver.
  - rewrite IH. split.
    + intros Hk k v' [->|Hin]%elem_of_cons; [congruence|by apply Hk].
    + intros Hk k v' Hin. apply Hk. set_solver.
Qed.

(** The protocol test is a substring test, so an absolute local path passes the
    screen once a protocol separator is appended to its fragment: the path named by the
    user is still a file of the launching host. *)
Lemma validate_accepts_local_path (path : string) :
  has_char "," path = false ->
  validate_file_configs {["spark.files" := "/" +:+ path +:+ "#://"]} = Ok tt.
Proof.
  intros Hp. unfold validate_file_configs, file_config_keys, validate_keys.
  rewrite lookup_singleton_eq, !lookup_singleton_ne by done.
  rewrite split_nosep by (rewrite !has_char_app, Hp; done). cbn [validate_paths].
  rewrite trim_id; [|done|].
  - assert (contains "://" ("/" +:+ path +:+ "#://") = true) as ->; [|done].
    apply contains_spec. exists ("/" +:+ path +:+ "#"), "". by rewrite <- !append_assoc.
  - rewrite !rev_append. done.
Qed.

(** C15. The screen accepts a configuration exactly when every comma-separated piece
    of the three file settings is blank or, trimmed, contains "://" somewhere and does not
    start with "file://"; otherwise it reports an invalid input or a denied permission.
    This is less than the comment in the source says, that every file is qualified with a
    protocol: an absolute local path passes once "#://" is appended to it. *)
Theorem validate_file_configs_spec (configs : gmap string string) :
  (validate_file_configs configs = Ok tt <->
   forall key value piece, key ∈ file_config_keys -> configs !! key = Some value ->
     piece ∈ split "," value ->
     trim piece = "" \/
     ((exists a b, trim piece = a +:+ ("://" +:+ b)) /\ ~ (exists r, trim piece = "file://" +:+ r))) /\
  (forall kind msg, validate_file_configs configs = Err (mkIoError kind msg) ->
   kind = InvalidInput \/ kind = PermissionDenied) /\
  (forall path, has_char "," path = false ->
     validate_file_configs {["spark.files" := "/" +:+ path +:+ "#://"]} = Ok tt).
Proof.
  split_and!; [| |apply validate_accepts_local_path].
  - unfold validate_file_configs. rewrite validate_keys_Ok.
    setoid_rewrite Forall_forall. split.
    + intros Hv key value p Hk Hc Hp. apply path_ok_spec. by eapply Hv.
    + intros Hv key value Hk Hc p Hp. apply path_ok_spec. by eapply Hv.
  - unfold validate_file_configs. generalize file_config_keys as keys.
    induction keys as [|key keys IH]; simpl; [done|]. intros kind msg.
    destruct (configs !! key) as [v|]; [|by apply IH].
    destruct (validate_paths key (split "," v)) as [[]|[k m]] eqn:E; [by apply IH|].
    intros [= <- <-]. by eapply validate_paths_Err.
Qed.

(** ** The command line, read back *)

Section command.
Context `{!HostLaws}.

(** Reading [spark-submit]'s options: every option takes a value, and the value of
    [--conf] is a property, an equals sign and the property's value. *)
Fixpoint conf_pairs (args : list string) : list (string * string) :=
  match args with
  | flag :: value :: args =>
      (if decide (flag = "--conf") then option_list (split_once "=" value) else []) ++ conf_pairs args
  | _ => []
  end.

Definition no_eq (m : gmap string string) : Prop := forall k v, m !! k = Some v -> has_char "=" k = false.

Lemma split_once_key k v : has_char "=" k = false -> split_once "=" (k +:+ "=" +:+ v) = Some (k, v).
Proof. intros Hk. by apply split_once_Some. Qed.

Lemma conf_pairs_app l args :
  Forall (fun kv => has_char "=" kv.1 = false) l -> conf_pairs (conf_args l ++ args) = l ++ conf_pairs args.
Proof.
  induction 1 as [|[k v] l Hk Hl IH]; simpl; [done|].
  unfold conf_args in *. simpl in *. rewrite split_once_key by done. simpl. by f_equal.
Qed.

Lemma no_eq_insert m k v : has_char "=" k = false -> no_eq m -> no_eq (<[k := v]> m).
Proof. intros Hk Hm k' v' [[<- _]|[_ Hv]]%lookup_insert_Some; [done|]. by eapply Hm. Qed.

Definition version_no_eq (v : SparkVersion) : Prop :=
  no_eq (default ∅ (default_configs v)) /\ no_eq (default ∅ (merge_configs v)) /\
  no_eq (default ∅ (override_configs v)).

Lemma build_conf_no_eq v u : version_no_eq v -> no_eq u -> no_eq (build_conf v u).
Proof.
  intros (Hd & Hm & Ho) Hu k x. rewrite build_conf_lookup. unfold layer.
  destruct (default ∅ (override_configs v) !! k) eqn:Eo; [intros _; by eapply Ho|].
  destruct (default ∅ (merge_configs v) !! k) eqn:Em; [intros _; by eapply Hm|].
  destruct (u !! k) eqn:Eu; [intros _; by eapply Hu|]. by apply Hd.
Qed.

Lemma session_configs_no_eq L i a t m : no_eq m -> no_eq (session_configs L i a t m).
Proof.
  intros Hm. unfold session_configs. do 6 (apply no_eq_insert; [done|]).
  destruct a; [by apply no_eq_insert|]. case_decide; [done|by apply no_eq_insert].
Qed.

Lemma add_venv_no_eq v m : no_eq m -> no_eq (add_venv v m).
Proof.
  intros Hm. unfold add_venv. destruct v; [|done]. apply no_eq_insert; [done|].
  repeat case_match; by apply no_eq_insert.
Qed.

(** The settings of the proxy itself. *)
Definition internal_configs (L : SparkLauncher) (token : string) : list (string * string) :=
  [(TOKEN_CONFIG, token); (CALLBACK_CONFIG, callback_addr L);
   (TIMEOUT_CONFIG, pretty (session_timeout L)); (LISTENER_CONFIG, LISTENER_CLASS);
   (INTERCEPTOR_CONFIG, INTERCEPTOR_CLASS); (GRPC_PORT_CONFIG, "0")].

Lemma session_configs_internal L i a t m k v :
  (k, v) ∈ internal_configs L t -> session_configs L i a t m !! k = Some v.
Proof.
  intros Hin. unfold session_configs.
  repeat (apply elem_of_cons in Hin as [[= -> ->]|Hin];
          [rewrite ?lookup_insert_ne by done; apply lookup_insert_eq|]).
  set_solver.
Qed.

Lemma add_venv_other v m k :
  k <> "spark.archives" -> k <> "spark.sql.execution.pyspark.python" -> add_venv v m !! k = m !! k.
Proof.
  intros Hk1 Hk2. unfold add_venv. destruct v; [|done]. rewrite lookup_insert_ne by done.
  repeat case_match; by rewrite lookup_insert_ne.
Qed.

Lemma internal_not_venv L t k v :
  (k, v) ∈ internal_configs L t -> k <> "spark.archives" /\ k <> "spark.sql.execution.pyspark.python".
Proof.
  intros Hin. repeat (apply elem_of_cons in Hin as [[= -> _]|Hin]; [done|]). set_solver.
Qed.

(** The final configuration of a session. *)
Definition final_conf (L : SparkLauncher) (version : SparkVersion) (session_id : Z)
    (app_name : option string) (token : string) (user_config : gmap string string)
    (venv : option string) : gmap string string :=
  add_venv venv (session_configs L session_id app_name token (build_conf version user_config)).

Lemma build_submit_args L version i a u t uc venv cmd args :
  build_submit_command L version i a u t uc venv = Ok (cmd, args) ->
  validate_file_configs uc = Ok tt /\
  forall P : list (string * string) -> Prop,
    (forall rest, conf_pairs rest = [] -> last rest = Some (plugin_path L) ->
       P (conf_pairs (conf_args (hash_map_iter (final_conf L version i a t uc venv)) ++ rest))) ->
    P (conf_pairs args) /\ last args = Some (plugin_path L).
Proof.
  unfold build_submit_command. destruct (validate_file_configs uc) as [[]|]; [|done].
  intros [= <- <-]. split; [done|]. intros P HP. split; [|apply last_snoc].
  rewrite <- !app_assoc.
  specialize (HP (["--class"; SERVER_CLASS] ++
    (if default false (proxy_user version) then ["--proxy-user"; u] else []) ++ [plugin_path L])).
  destruct (master version), (deploy_mode version), (default false (proxy_user version)); by apply HP.
Qed.

(** C13. The command line carries the final configuration exactly, provided no property
    name holds an equals sign: read back, the [--conf] options are the final
    configuration, each entry once; every setting of the proxy itself (token, callback,
    timeout, listener, interceptor, port) has the proxy's value whatever the user and
    the version configure; and the plugin is the last argument. *)
Theorem submit_command_conf (L : SparkLauncher) version session_id app_name username token
    user_config venv cmd args :
  version_no_eq version -> no_eq user_config ->
  build_submit_command L version session_id app_name username token user_config venv = Ok (cmd, args) ->
  conf_pairs args ≡ₚ map_to_list (final_conf L version session_id app_name token user_config venv) /\
  (forall k v v', (k, v) ∈ internal_configs L token -> ((k, v') ∈ conf_pairs args <-> v' = v)) /\
  last args = Some (plugin_path L).
Proof.
  intros Hv Hu Hb. apply build_submit_args in Hb as [_ Hargs].
  set (final := final_conf _ _ _ _ _ _ _) in *.
  assert (Hfin : no_eq final) by (by apply add_venv_no_eq, session_configs_no_eq, build_conf_no_eq).
  destruct (Hargs (fun l => l ≡ₚ map_to_list final)) as [Hperm Hlast].
  { intros rest Hrest _. rewrite conf_pairs_app, Hrest, app_nil_r; [apply hash_map_iter_perm|].
    apply Forall_forall. intros [k v] Hin. rewrite (hash_map_iter_perm final) in Hin.
    apply elem_of_map_to_list in Hin. by eapply Hfin. }
  split_and!; [done| |done]. intros k v v' Hin. rewrite Hperm, elem_of_map_to_list.
  destruct (internal_not_venv _ _ _ _ Hin) as [Hk1 Hk2]. unfold final, final_conf.
  rewrite add_venv_other, (session_configs_internal _ _ _ _ _ _ _ Hin) by done. naive_solver.
Qed.

Lemma elem_of_conf_pairs k v x l rest :
  (k, v) ∈ l -> split_once "=" (k +:+ "=" +:+ v) = Some x -> x ∈ conf_pairs (conf_args l ++ rest).
Proof.
  intros Hin Hx. induction l as [|[k' v'] l IH]; [by apply elem_of_nil in Hin|].
  change (conf_args ((k', v') :: l)) with (["--conf"; k' +:+ "=" +:+ v'] ++ conf_args l).
  cbn [app conf_pairs]. rewrite decide_True by done.
  apply elem_of_cons in Hin as [[= <- <-]|Hin].
  - rewrite Hx. set_solver.
  - apply elem_of_app. right. by apply IH.
Qed.

Lemma session_configs_other L i a t m k x :
  m !! k = Some x -> k <> APP_NAME_CONFIG -> k ∉ (internal_configs L t).*1 ->
  session_configs L i a t m !! k = Some x.
Proof.
  intros Hm Ha Hi. unfold session_configs. cbn in Hi.
  rewrite !not_elem_of_cons in Hi. destruct_and!. rewrite !(lookup_insert_ne _ _ k) by done.
  destruct a; [by rewrite lookup_insert_ne|]. case_decide; [done|by rewrite lookup_insert_ne].
Qed.

Lemma build_conf_user v u k : is_Some (u !! k) -> is_Some (build_conf v u !! k).
Proof.
  intros [x Hx]. rewrite build_conf_lookup, Hx. destruct (layer (override_configs v) k); [by eexists|].
  destruct (layer (merge_configs v) k); by eexists.
Qed.

(** The proviso of the previous theorem is needed: a user setting whose name is
    the token property followed by an equals sign passes the screen, names no setting
    of the proxy, and reads back from the command line as a second value for the token
    property, chosen by the user. *)
Theorem conf_key_injection (L : SparkLauncher) version session_id app_name username token venv (evil : string) :
  let user_config : gmap string string := {[TOKEN_CONFIG +:+ "=" +:+ evil := ""]} in
  (forall k v, (k, v) ∈ internal_configs L token -> user_config !! k = None) /\
  exists cmd args x,
    build_submit_command L version session_id app_name username token user_config venv = Ok (cmd, args) /\
    (TOKEN_CONFIG, evil +:+ x) ∈ conf_pairs args.
Proof.
  set (key := TOKEN_CONFIG +:+ "=" +:+ evil). intros user_config.
  assert (Hne : forall k, has_char "=" k = false -> k <> key).
  { intros k Hk ->. unfold key in Hk. rewrite !has_char_app in Hk. done. }
  assert (Hval : validate_file_configs user_config = Ok tt).
  { unfold validate_file_configs, file_config_keys, validate_keys, user_config.
    by rewrite !lookup_singleton_ne by (by apply not_eq_sym, Hne). }
  split.
  { intros k v Hin. unfold user_config. apply lookup_singleton_ne, not_eq_sym, Hne.
    repeat (apply elem_of_cons in Hin as [[= -> _]|Hin]; [done|]). set_solver. }
  destruct (build_conf_user version user_config key) as [v0 Hv0]; [unfold user_config; by rewrite lookup_singleton_eq|].
  destruct (build_submit_command L version session_id app_name username token user_config venv)
    as [[cmd args]|e] eqn:Hb.
  2:{ exfalso. unfold build_submit_command in Hb. by rewrite Hval in Hb. }
  exists cmd, args, ("=" +:+ v0). split; [done|].
  apply build_submit_args in Hb as [_ Hargs].
  apply (Hargs (fun l => (TOKEN_CONFIG, evil +:+ "=" +:+ v0) ∈ l)). intros rest _ _.
  apply (elem_of_conf_pairs key v0).
  - rewrite hash_map_iter_perm, elem_of_map_to_list. unfold final_conf.
    rewrite add_venv_other by (by apply not_eq_sym, Hne).
    apply session_configs_other; [done|by apply not_eq_sym, Hne|].
    cbn. rewrite !not_elem_of_cons. split_and!; try (by apply not_eq_sym, Hne). apply not_elem_of_nil.
  - unfold key. rewrite <- !append_assoc. by apply split_once_Some.
Qed.

End command.

(** ** Runs of [launch] *)

Definition is_spawn (e : Eff) : bool := match e with CommandSpawn _ _ _ => true | _ => false end.
Definition spawned (h : list ev) : bool := existsb (fun x => is_spawn (ev_eff x)) h.

(** The process was started, and [handle] is that of the task that tracks it. *)
Definition started (L : SparkLauncher) (h : list ev) (handle : JoinHandle) : Prop :=
  exists path args env child, Ev (CommandSpawn path args env) (Ok child) ∈ h /\
    Ev (Spawn (TrackLaunch child (launch_timeout L))) handle ∈ h.

(** What [spark_launch] may start, given its arguments. *)
Definition submit_guard (L : SparkLauncher) vn sid app usr tok uc (h : list ev) (e : Eff) : Prop :=
  match e with
  | CommandSpawn path args env =>
      spawned h = false /\ validate_file_configs uc = Ok tt /\
      exists version venv, find_version L vn = Ok version /\
        build_submit_command L version sid app usr tok uc venv = Ok (path, args) /\
        env !! SPARK_HOME = Some (home version)
  | _ => True
  end.

Lemma spawned_snoc h e r : spawned (h ++ [Ev e r]) = spawned h || is_spawn e.
Proof. unfold spawned. rewrite existsb_app. simpl. by rewrite orb_false_r. Qed.

Lemma build_python_venv_wp G h py ps :
  spawned h = false -> (forall h e, is_spawn e = false -> G h e) ->
  wp G (fun _ h => spawned h = false) h (build_python_venv py ps).
Proof.
  intros Hh HG. unfold build_python_venv. destruct py as [py|]; [|done].
  repeat match goal with
    | |- wp _ _ _ (try_bind _ _) => wp_await; [by apply HG|]; intros [?|?] _; cbv beta iota
    | |- wp _ _ _ (if ?b then _ else _) => destruct b
    | |- wp _ _ _ (let _ := _ in _) => cbv zeta
    end; cbn -[spawned]; by rewrite ?spawned_snoc, ?Hh.
Qed.

Lemma spark_launch_wp L vn sid app usr tok uc pkgs :
  wp (submit_guard L vn sid app usr tok uc)
     (fun r h => match r with Ok handle => started L h handle | Err _ => True end) []
     (spark_launch L vn sid app usr tok uc pkgs).
Proof.
  unfold spark_launch. destruct (find_version L vn) as [version|] eqn:Ev; [|done].
  apply wp_try.
  assert (Hv : wp (submit_guard L vn sid app usr tok uc)
     (fun (r : result (option string) IoError) h => spawned h = false) []
     match pkgs with
     | Some (p :: ps) => try_bind (build_python_venv (python_executable version) (p :: ps))
                           (fun tarball => Ret (Ok (Some tarball)))
     | _ => Ret (Ok None)
     end).
  { destruct pkgs as [[|p ps]|]; [done| |done]. apply wp_try.
    eapply wp_post; [apply build_python_venv_wp; [done|]|by intros []].
    by intros h []. }
  eapply wp_post; [exact Hv|]. intros [venv|] h Hh; [|done].
  destruct (build_submit_command _ _ _ _ _ _ _ _) as [[path args]|] eqn:Eb; [|done].
  wp_await.
  - split; [done|]. pose proof (build_submit_args _ _ _ _ _ _ _ _ _ _ Eb) as [Hval _].
    split; [done|]. exists version, venv. split_and!; [done..|]. apply lookup_insert_eq.
  - intros [c|] _; [|done]. split; [done|]. intros r _.
    exists path, args, (<[SPARK_HOME := home version]> (default ∅ (version_env version))), c. set_solver.
Qed.

(** C16. In every run of a launch, whatever the processes answer: at most one
    [spark-submit] is tried, and only for a user configuration that passed the screen,
    with the command line of the requested version and that version's home in the
    environment; and a launch that reports success has started it, the operating system
    having answered with the child, and answers with the task that tracks this child. *)
Theorem launch_spawns_only_validated (L : SparkLauncher) vn sid app usr tok uc pkgs t o :
  trace (spark_launch L vn sid app usr tok uc pkgs) t o -> Forall lawful_ev t ->
  (forall t1 path args env r t2, t = t1 ++ Ev (CommandSpawn path args env) r :: t2 ->
     spawned t1 = false /\ validate_file_configs uc = Ok tt /\
     exists version venv, find_version L vn = Ok version /\
       build_submit_command L version sid app usr tok uc venv = Ok (path, args) /\
       env !! SPARK_HOME = Some (home version)) /\
  (forall handle, o = Some (Ok handle) -> started L t handle).
Proof.
  intros Ht Hl.
  destruct (wp_trace _ _ _ _ _ _ (spark_launch_wp L vn sid app usr tok uc pkgs) Ht Hl) as [HG HQ].
  split.
  - intros t1 path args env r t2 Heq. apply (HG t1 _ t2 Heq).
  - intros handle Ho. apply (HQ _ Ho).
Qed.

(** [versions[0]] is the first version. *)
Lemma first_version_head (L : SparkLauncher) : exists vs, versions L = first_version L :: vs.
Proof.
  unfold first_version. generalize (versions_ne L). destruct (versions L) as [|v vs]; [done|]. intros _. by exists vs.
Qed.

(** A launcher built from a configuration has a version and every home exists. *)
Lemma from_config_checked config L :
  from_config config = Ok L -> versions L <> [] /\ check_homes (versions L) = Ok tt.
Proof.
  unfold from_config. intros Hf.
  destruct (match spark_versions config with Some _ => _ | None => _ end) as [vs|]; [|done].
  destruct (get_callback_addr config) as [addr|]; [|done].
  destruct (decide (vs = [])) as [|Hvs]; [done|].
  destruct (check_homes vs) as [[]|] eqn:Eh; [|done].
  destruct (match embedded_plugin with Some _ => _ | None => _ end) as [pl|]; [|done].
  by injection Hf as <-.
Qed.

(** A launcher built from a configuration always finds its default version, finds
    the first version of a name that is configured, and refuses any other name. *)
Theorem find_version_spec config L :
  from_config config = Ok L ->
  (exists v vs, versions L = v :: vs /\ find_version L None = Ok v) /\
  forall name,
    match find_version L (Some name) with
    | Ok v => exists i, versions L !! i = Some v /\ version_name v = name /\
                forall j v', versions L !! j = Some v' -> (j < i)%nat -> version_name v' <> name
    | Err e => e = mkIoError NotFound ("Version named " +:+ name +:+ " not found") /\
               forall v, v ∈ versions L -> version_name v <> name
    end.
Proof.
  intros [Hf _]%from_config_checked. split.
  - destruct (first_version_head L) as [vs Hvs]. by exists (first_version L), vs.
  - intros name. unfold find_version.
    destruct (list_find _ _) as [[i v]|] eqn:E.
    + apply list_find_Some in E as (Hi & Hn & Hmin). exists i. split_and!; [done..|].
      intros j v' Hj Hlt. by apply (Hmin j v').
    + split; [done|]. apply list_find_None in E. by apply Forall_forall.
Qed.

(** The task that tracks a launch ends exactly when the timeout has elapsed or the
    child's wait, whose first result is the only one, has not been a success: a child
    that exits successfully leaves the timeout running. *)
Theorem track_launch_done (events : list LaunchEvent) :
  track_launch true events = true <->
  TimeoutElapsed ∈ events \/
  exists before status after, events = before ++ ChildWait status :: after /\
    Forall (fun e => e = TimeoutElapsed) before /\ launch_success status = false.
Proof.
  assert (Hoff : forall evs, track_launch false evs = true <-> TimeoutElapsed ∈ evs).
  { induction evs as [|[st|] evs IH]; simpl; [set_solver|rewrite IH; set_solver|set_solver]. }
  destruct events as [|[st|] evs]; simpl.
  - split; [done|]. intros [?%elem_of_nil|([] & ? & ? & ? & _)]; done.
  - destruct (launch_success st) eqn:Est.
    + rewrite Hoff. split; [set_solver|]. intros [?|(before & st' & after & Heq & Hb & Hs)]; [set_solver|].
      destruct before; [simplify_eq/=; congruence|]. inversion Hb; by simplify_eq/=.
    + split; [|done]. intros _. right. by exists [], st, evs.
  - split; [|done]. intros _. left. set_solver.
Qed.

End facts.

(** ** The theorems at concrete inputs *)
Section examples.
Import SampleHttp SampleConfig SampleHost.

Example build_conf_example :
  build_conf version {["a" := "user"; "c" := "user"; "d" := "user"]} =
  {["a" := "user"; "b" := "default"; "c" := "user,merge"; "d" := "override"; "e" := "merge-only"]}.
Proof. vm_compute. reflexivity. Qed.

End examples.
