(* ===== verification/Auth.v ===== *)
(** * Authentication ([server/src/auth.rs])

    The methods that find out who the user is, the layer that tries them in order
    ([UserAuth]) and the layer that only picks up a bearer token ([TokenAuth]).
    Verifying a JWT is the business of [jsonwebtoken] and [jwks], the interface
    [AuthLib]. *)

From stdpp Require Import base option list strings gmap.
From Stdlib Require Import Ascii.
From S2P Require Import Prelude RustStr Http Config.

Open Scope rust_scope.

Class AuthLib := {
  DecodingKey : Type;
  Validation : Type;
  Algorithm : Type;
  RS256 : Algorithm;
  (** [whoami::username] *)
  whoami_username : result string string;
  (** [fs::read_to_string] *)
  read_to_string : string -> result string string;
  from_rsa_pem : string -> result DecodingKey string;
  from_ec_pem : string -> result DecodingKey string;
  from_ed_pem : string -> result DecodingKey string;
  algorithm_from_str : string -> result Algorithm string;
  validation_new : Algorithm -> Validation;
  set_audience : Validation -> string -> Validation;
  (** [decode::<JWTClaims>]: the subject of a token that verifies *)
  decode_sub : string -> DecodingKey -> Validation -> result string string;
  (** [decode_header]: the key id and the algorithm *)
  decode_header : string -> result (option string * Algorithm) string;
  (** [Jwks::from_jwks_url] and [Jwks::from_oidc_url]: the keys by their id *)
  jwks_from_jwks_url : string -> result (gmap string DecodingKey) string;
  jwks_from_oidc_url : string -> result (gmap string DecodingKey) string
}.

Section auth.
Context `{HttpLib} `{AuthLib}.

Inductive UserId := mkUserId (name : string).
Inductive BearerToken := mkBearerToken (token : string).

(** The bearer token of the [Authorization] header, if it is one. *)
Definition extract_bearer_token (header_map : HeaderMap) : result (option string) string :=
  h <-? transpose (to_str <$> header_get header_map "Authorization");;
  Ok (match h with
      | Some h => if starts_with "Bearer " h then Some (slice_from 7 h) else None
      | None => None
      end).

(** The implementations of [UserAuthMethod]. *)
Inductive UserAuthMethod :=
| CurrentUserAuth
| RemoteUserAuth (header : string)
| JWTAuth (key : DecodingKey) (validation : Validation)
| JWKSAuth (jwks : gmap string DecodingKey) (audience : option string).

Definition authorize_current : result (option string) string :=
  match whoami_username with Ok u => Ok (Some u) | Err e => Err e end.

Definition authorize_remote (header : string) (header_map : HeaderMap) : result (option string) string :=
  Ok (h ← header_get header_map header; ok (to_str h)).

Definition authorize_jwt (key : DecodingKey) (validation : Validation) (header_map : HeaderMap)
    : result (option string) string :=
  token <-? extract_bearer_token header_map;;
  match token with
  | Some token =>
      sub <-? decode_sub token key validation;;
      Ok (Some sub)
  | None => Ok None
  end.

Definition authorize_jwks (jwks : gmap string DecodingKey) (audience : option string) (header_map : HeaderMap)
    : result (option string) string :=
  token <-? extract_bearer_token header_map;;
  match token with
  | Some token =>
      header <-? decode_header token;;
      kid <-? ok_or header.1 "authorization error: jwt header should have a kid";;
      jwk <-? ok_or (jwks !! kid) "authorization error: jwt refer to a unknown key id";;
      let validation := validation_new header.2 in
      let validation := match audience with Some a => set_audience validation a | None => validation end in
      sub <-? decode_sub token jwk validation;;
      Ok (Some sub)
  | None => Ok None
  end.

Definition authorize_user (m : UserAuthMethod) (header_map : HeaderMap) : result (option string) string :=
  match m with
  | CurrentUserAuth => authorize_current
  | RemoteUserAuth header => authorize_remote header header_map
  | JWTAuth key validation => authorize_jwt key validation header_map
  | JWKSAuth jwks audience => authorize_jwks jwks audience header_map
  end.

(** ** Construction from the options *)

Definition remote_user_create (options : gmap string string) : result UserAuthMethod Panic :=
  match options !! "header" with
  | Some header => Ok (RemoteUserAuth header)
  | None => Err (mkPanic "'header' option must be set for remote_user authentication")
  end.

Definition jwt_create (options : gmap string string) : result UserAuthMethod Panic :=
  pem_content <-?
    match options !! "pem", options !! "pem_file" with
    | Some _, Some _ => Err (mkPanic "pem and pem_file cannot both be defined")
    | Some pem, None => Ok pem
    | None, Some pem_file => map_err (fun _ => mkPanic "Failed to read pem content from {pem_file}") (read_to_string pem_file)
    | None, None => Err (mkPanic "One of pem or pem_file must be defined for JWT auth")
    end;;
  let t := unwrap_or (options !! "pem_type") "rsa" in
  key <-?
    (if decide (t = "rsa") then map_err (fun _ => mkPanic "Failed to load RSA pem") (from_rsa_pem pem_content)
     else if decide (t = "ec") then map_err (fun _ => mkPanic "Failed to load EC pem") (from_ec_pem pem_content)
     else if decide (t = "ed") then map_err (fun _ => mkPanic "Failed to load ED pem") (from_ed_pem pem_content)
     else Err (mkPanic ("Unknown PEM type " +:+ t)));;
  algorithm <-?
    match options !! "algorithm" with
    | Some alg => map_err (fun _ => mkPanic "Unknown algorithm {alg}") (algorithm_from_str alg)
    | None => Ok RS256
    end;;
  Ok (JWTAuth key (validation_new algorithm)).

Definition jwks_create (options : gmap string string) : result UserAuthMethod Panic :=
  jwks <-?
    match options !! "jwks_url", options !! "oidc_url" with
    | Some _, Some _ => Err (mkPanic "JWKS and OIDC URL cannot both be specified")
    | Some jwks_url, None => map_err (fun _ => mkPanic "Failed to load JWKS info from {jwks_url}") (jwks_from_jwks_url jwks_url)
    | None, Some oidc_url => map_err (fun _ => mkPanic "Failed to load OIDC info from {oidc_url}") (jwks_from_oidc_url oidc_url)
    | None, None => Err (mkPanic "Either jwks_url or oidc_url must be provided")
    end;;
  Ok (JWKSAuth jwks (options !! "audience")).

(** The method of one entry of [auth_methods]. *)
Definition create_method (auth_config : AuthConfig) : result UserAuthMethod Panic :=
  let options := default ∅ (auth_options auth_config) in
  if decide (auth_name auth_config = "remote_user") then remote_user_create options
  else if decide (auth_name auth_config = "jwt") then jwt_create options
  else if decide (auth_name auth_config = "jwks") then jwks_create options
  else Err (mkPanic ("Unknown authentication method: " +:+ auth_name auth_config)).

Fixpoint create_methods (auth_configs : list AuthConfig) : result (list UserAuthMethod) Panic :=
  match auth_configs with
  | [] => Ok []
  | c :: cs =>
      m <-? create_method c;;
      ms <-? create_methods cs;;
      Ok (m :: ms)
  end.

Definition user_auth_from_config (config : ProxyConfig) : result (list UserAuthMethod) Panic :=
  match auth_methods config with
  | Some auth_configs => create_methods auth_configs
  | None => Ok [CurrentUserAuth]
  end.

(** ** The two layers *)

(** The loop of [UserAuth::authorize]: the first method that names a user decides; a
    method that fails is passed over. *)
Fixpoint find_user (methods : list UserAuthMethod) (header_map : HeaderMap) : option string :=
  match methods with
  | [] => None
  | m :: methods =>
      match authorize_user m header_map with
      | Ok (Some user) => Some user
      | Err _ => find_user methods header_map
      | Ok None => find_user methods header_map
      end
  end.

(** [UserAuth::authorize]: the user id the request is extended with. *)
Definition user_authorize (methods : list UserAuthMethod) (header_map : HeaderMap) : result UserId StatusCode :=
  match find_user methods header_map with
  | Some username => Ok (mkUserId username)
  | None => Err UNAUTHORIZED
  end.

(** [TokenAuth::authorize]. *)
Definition token_authorize (header_map : HeaderMap) : result BearerToken StatusCode :=
  value <-? ok_or (header_get header_map "authorization") UNAUTHORIZED;;
  authorization <-? map_err (fun _ => BAD_REQUEST) (to_str value);;
  match split_once " " authorization with
  | Some (scheme, token) =>
      if decide (scheme = "Bearer") then Ok (mkBearerToken token) else Err UNAUTHORIZED
  | None => Err UNAUTHORIZED
  end.

(** ** Lemmas *)

Lemma find_user_Some methods h u :
  find_user methods h = Some u <->
  exists before m after, methods = before ++ m :: after /\ authorize_user m h = Ok (Some u) /\
    Forall (fun m => forall u', authorize_user m h <> Ok (Some u')) before.
Proof.
  split.
  - induction methods as [|m ms IH]; simpl; [done|].
    destruct (authorize_user m h) as [[u'|]|e] eqn:E.
    + intros [= ->]. by exists [], m, ms.
    + intros (b & m' & a & -> & Hm & Hb)%IH. exists (m :: b), m', a. split_and!; [done..|].
      constructor; [by rewrite E|done].
    + intros (b & m' & a & -> & Hm & Hb)%IH. exists (m :: b), m', a. split_and!; [done..|].
      constructor; [by rewrite E|done].
  - intros (before & m & after & -> & Hm & Hb). induction Hb as [|m' b Hm' Hb IH]; simpl.
    + by rewrite Hm.
    + destruct (authorize_user m' h) as [[u'|]|e] eqn:E; [|done..]. by edestruct Hm'.
Qed.

Lemma find_user_None methods h :
  find_user methods h = None <->
  Forall (fun m => forall u, authorize_user m h <> Ok (Some u)) methods.
Proof.
  induction methods as [|m ms IH]; simpl; [done|]. rewrite Forall_cons, <- IH.
  destruct (authorize_user m h) as [[u|]|e]; naive_solver.
Qed.

(** Both ways the source reads [Bearer <token>] amount to a prefix. *)
Lemma split_bearer s t :
  (exists scheme, split_once " " s = Some (scheme, t) /\ scheme = "Bearer") <-> s = "Bearer " +:+ t.
Proof.
  split.
  - intros (scheme & Hs & ->). by apply split_once_Some in Hs as [-> _].
  - intros ->. exists "Bearer". split; [|done]. by apply split_once_Some.
Qed.

Lemma slice_bearer s t :
  (starts_with "Bearer " s = true /\ slice_from 7 s = t) <-> s = "Bearer " +:+ t.
Proof.
  rewrite starts_with_spec. split.
  - intros [[r ->] <-]. done.
  - intros ->. split; [by exists t|done].
Qed.

End auth.

(** ** A concrete library for the examples: every token is its own subject. *)
Module SampleAuth.

#[export] Instance sample : AuthLib := {
  DecodingKey := unit; Validation := option string; Algorithm := unit; RS256 := tt;
  whoami_username := Ok "server";
  read_to_string _ := Err "no such file";
  from_rsa_pem _ := Ok tt; from_ec_pem _ := Ok tt; from_ed_pem _ := Ok tt;
  algorithm_from_str _ := Ok tt;
  validation_new _ := None;
  set_audience _ a := Some a;
  decode_sub t _ _ := if decide (t = "") then Err "empty" else Ok t;
  decode_header _ := Ok (Some "k", tt);
  jwks_from_jwks_url _ := Ok {["k" := tt]};
  jwks_from_oidc_url _ := Ok {["k" := tt]}
}.

End SampleAuth.
