(* ===== verification/Proxy.v ===== *)
(** * The Spark Connect proxy ([server/src/proxy.rs])

    A request for the Spark Connect service is taken by [dispatch_request] to the
    dispatcher of its token ([sender_for] finds or starts it); the dispatcher
    ([upstream_connection]) resolves where the application listens, connects, and
    forwards.  Errors become gRPC responses ([proxy_error_response]). *)

From stdpp Require Import base option list strings gmap.
From Stdlib Require Import Ascii.
From S2P Require Import Prelude RustStr Entities Database Error Http Cache Env.

Open Scope rust_scope.

Definition MAX_UPSTREAM_CONNECT_RETRIES : nat := 3.
Definition UPSTREAM_CONNECT_RETRY_DELAY : Z := 1000.

(** ** Pure parts *)

Definition hex_digit (n : nat) : ascii :=
  ascii_of_nat (if (n <? 10)%nat then 48 + n else 55 + n).

(** [format!("%{byte:02X}")]. *)
Definition percent_byte (a : ascii) : string :=
  let n := nat_of_ascii a in
  String "%" (String (hex_digit (n / 16)) (String (hex_digit (n mod 16)) "")).

Fixpoint percent_encode_grpc_message (message : string) : string :=
  match message with
  | EmptyString => ""
  | String byte message =>
      let n := nat_of_ascii byte in
      if (32 <=? n)%nat && (n <=? 126)%nat && negb (bool_decide (byte = "%"%char))
      then String byte (percent_encode_grpc_message message)
      else percent_byte byte +:+ percent_encode_grpc_message message
  end.

Definition grpc_status (error : Error) : string :=
  match error with
  | MissingAuthorizationHeader => "16"
  | InvalidAuthorizationHeader _ => "16"
  | InvalidAuthorizationScheme => "16"
  | InvalidAuthorizationToken => "16"
  | ApplicationNotFound => "5"
  | MissingApplicationAddress => "14"
  | InvalidApplicationState LAUNCHING => "14"
  | InvalidApplicationState _ => "9"
  | DatabaseError _ => "13"
  | UpstreamConnect _ => "14"
  | UpstreamHandshake _ => "14"
  | InvalidUpstreamUri _ => "13"
  | UpstreamRequest _ => "14"
  | Authorization _ => "16"
  | Internal _ => "13"
  end.

(** [token.get(..8).unwrap_or(token)]. *)
Definition token_prefix (token : string) : string := unwrap_or (get_to 8 token) token.

Section proxy.
Context `{HttpLib}.

Definition proxy_error_response (error : Error) : Response :=
  let grpc_message := percent_encode_grpc_message (to_string error) in
  mkResponse 200
    [("content-type", "application/grpc");
     ("grpc-status", grpc_status error);
     ("grpc-message", if header_value_ok grpc_message then grpc_message else "proxy%20error")]
    None.

Definition extract_bearer_token (headers : HeaderMap) : result string Error :=
  authorization <-? ok_or (header_get headers "authorization") MissingAuthorizationHeader;;
  authorization <-? map_err InvalidAuthorizationHeader (to_str authorization);;
  match split_once " " authorization with
  | Some (scheme, token) =>
      if decide (scheme = "Bearer") then
        if negb (is_empty token) then Ok token
        else Err (InvalidAuthorizationHeader "missing bearer token")
      else Err InvalidAuthorizationScheme
  | None => Err (InvalidAuthorizationHeader "expected `Bearer <token>`")
  end.

(** ** The dispatcher of a token *)

Definition sender_for (token : string) : prog (result Cache.chan Error) :=
  cached <- do (CacheOp (Cache.LookupOpen token));;
  match cached with
  | Some sender => Ret (Ok sender)
  | None =>
      app <-! map_err_m DatabaseError (do (Db (One [TokenEq token])));;
      if negb (bool_decide (is_Some app)) then Ret (Err ApplicationNotFound)
      else
        entry <- do (CacheOp (Cache.GetOrInsert token));;
        if entry.2 then
          do (Spawn (UpstreamConnection entry.1 token));;
          Ret (Ok entry.1)
        else Ret (Ok entry.1)
  end.

Definition dispatch_request (req : Request) : prog (result Response Error) :=
  match extract_bearer_token (req_headers req) with
  | Err e => Ret (Err e)
  | Ok token =>
      sender <-! sender_for token;;
      tx <- do OneshotNew;;
      sent <- do (QueueSend sender (req, tx));;
      match sent with
      | Err _ =>
          do (CacheOp (Cache.RemoveClosed token));;
          Ret (Err (Internal "Upstream unexpectedly closed"))
      | Ok _ =>
          reply <- do (OneshotRecv tx);;
          match reply with
          | None => Ret (Err (Internal "Upstream response channel unexpectedly closed"))
          | Some response => Ret response
          end
      end
  end.

(** [ProxyService::call]; the other paths go to the router of the REST API. *)
Definition call (router : Request -> prog Response) (req : Request) : prog Response :=
  if starts_with "/spark.connect.SparkConnectService" (uri_path (req_uri req)) then
    r <- dispatch_request req;;
    match r with
    | Ok res => Ret res
    | Err error => Ret (proxy_error_response error)
    end
  else router req.

(** ** Messages to a session *)

Definition session_post (address token message : string) : SessionPost :=
  mkSessionPost ("http://" +:+ address +:+ "/spark.connect.SparkConnectService/Config") token
    [("X-Spark-Plug", message); ("Content-Type", "application/grpc"); ("TE", "trailers")].

Definition send_session_message (address token message : string) : prog (result unit string) :=
  client <-! do BuildClient;;
  res <-! do (HttpPost (session_post address token message));;
  Ret (error_for_status res).

(** ** Finding and reaching the application *)

(** One round of [resolve_upstream_address]. *)
Definition resolve_round (rx : Cache.chan) (token : string) (_ : unit) : prog (unit + result string Error) :=
  closed <- do (QueueIsClosed rx);;
  if closed then Ret (inr (Err ApplicationNotFound)) else
  found <- do (Db (One [TokenEq token]));;
  match found with
  | Err e => Ret (inr (Err (DatabaseError e)))
  | Ok None => Ret (inr (Err ApplicationNotFound))
  | Ok (Some app) =>
      match application.state app with
      | RUNNING => Ret (inr (ok_or (application.address app) MissingApplicationAddress))
      | LAUNCHING => do (Sleep 1000);; Ret (inl tt)
      | state => Ret (inr (Err (InvalidApplicationState state)))
      end
  end.

(** The loop ends when the application has left the launching state, which nothing
    here bounds: [fuel] is the number of rounds looked at. *)
Definition resolve_upstream_address (fuel : nat) (rx : Cache.chan) (token : string)
    : prog (option (result string Error)) :=
  loop fuel (resolve_round rx token) tt.

Definition connect_upstream (address : string) : prog (result SendRequest Error) :=
  client_stream <-! map_err_m UpstreamConnect (do (TcpConnect address));;
  sender <-! map_err_m UpstreamHandshake (do (Http2Handshake client_stream));;
  do (Spawn (ConnectionDriver client_stream));;
  Ret (Ok sender).

Definition mark_application_failed (token : string) : prog (result unit Error) :=
  _ <-! map_err_m DatabaseError (do (Db (UpdateMany [SetAddress None; SetState FAILED] [TokenEq token])));;
  Ret (Ok tt).

(** The [for] loop over the attempts, with [n] of them left: [inl] is an early return,
    [inr] falls through with the last error. *)
Fixpoint connect_attempts (attempt n : nat) (address : string) (last_error : option Error)
    : prog (result SendRequest Error + option Error) :=
  match n with
  | O => Ret (inr last_error)
  | S n =>
      r <- connect_upstream address;;
      let retry error :=
        _ <- (if (attempt <? MAX_UPSTREAM_CONNECT_RETRIES)%nat
              then do (Sleep UPSTREAM_CONNECT_RETRY_DELAY) else Ret tt);;
        connect_attempts (S attempt) n address (Some error) in
      match r with
      | Ok sender => Ret (inl (Ok sender))
      | Err (UpstreamConnect e) => retry (UpstreamConnect e)
      | Err (UpstreamHandshake e) => retry (UpstreamHandshake e)
      | Err error => Ret (inl (Err error))
      end
  end.

(** The [expect] on the last error panics when there is none; [connect_attempts_last]
    shows that there is one. *)
Definition no_last_error : Error := Internal "connection retries should capture the last upstream error".

Definition resolve_upstream_connection (fuel : nat) (rx : Cache.chan) (token : string)
    : prog (option (result (SendRequest * string) Error)) :=
  resolved <- resolve_upstream_address fuel rx token;;
  match resolved with
  | None => Ret None
  | Some (Err e) => Ret (Some (Err e))
  | Some (Ok address) =>
      r <- connect_attempts 0 (S MAX_UPSTREAM_CONNECT_RETRIES) address None;;
      match r with
      | inl (Ok sender) => Ret (Some (Ok (sender, address)))
      | inl (Err error) => Ret (Some (Err error))
      | inr last_error =>
          marked <- mark_application_failed token;;
          match marked with
          | Err e => Ret (Some (Err e))
          | Ok _ => Ret (Some (Err (unwrap_or last_error no_last_error)))
          end
      end
  end.

(** ** The dispatcher *)

Definition upstream_uri (address : string) (req : Request) : string :=
  "http://" +:+ address +:+ unwrap_or (uri_path_and_query (req_uri req)) "/".

(** The body of the [while let] loop for one message: the connection afterwards, or
    [None] when resolving ran out of fuel. *)
Definition handle_message (fuel : nat) (rx : Cache.chan) (token : string)
    (upstream : option (SendRequest * string)) (req : Request) (tx : nat)
    : prog (option (option (SendRequest * string))) :=
  match extract_bearer_token (req_headers req) with
  | Err error => do (OneshotSend tx (Err error));; Ret (Some upstream)
  | Ok t =>
      if negb (bool_decide (t = token)) then
        do (OneshotSend tx (Err InvalidAuthorizationToken));; Ret (Some upstream)
      else
      connection <- match upstream with
                    | Some connection => Ret (Some (Ok connection))
                    | None => resolve_upstream_connection fuel rx token
                    end;;
      match connection with
      | None => Ret None
      | Some (Err error) => do (OneshotSend tx (Err error));; Ret (Some None)
      | Some (Ok (sender, address)) =>
          match uri_parse (upstream_uri address req) with
          | Err err =>
              do (OneshotSend tx (Err (InvalidUpstreamUri err)));; Ret (Some (Some (sender, address)))
          | Ok uri =>
              let req := with_uri uri req in
              ready <- do (SenderReady sender);;
              match ready with
              | Err error =>
                  do (OneshotSend tx (Err (UpstreamRequest error)));; Ret (Some None)
              | Ok _ =>
                  response <- do (SenderSend sender req);;
                  do (Spawn (DeliverResponse response tx));;
                  Ret (Some (Some (sender, address)))
              end
          end
      end
  end.

(** The task that passes the response on. *)
Definition deliver_response (response tx : nat) : prog unit :=
  r <- do (AwaitResponse response);;
  do (OneshotSend tx (map_err UpstreamRequest r));;
  Ret tt.

(** The loop over at most [messages] messages; a queue whose senders are gone ends it
    and the receiver is dropped. *)
Fixpoint upstream_connection (messages fuel : nat) (rx : Cache.chan) (token : string)
    (upstream : option (SendRequest * string)) : prog unit :=
  match messages with
  | O => Ret tt
  | S messages =>
      message <- do (QueueRecv rx);;
      match message with
      | None => do (CacheOp (Cache.DropReceiver rx));; Ret tt
      | Some (req, tx) =>
          upstream <- handle_message fuel rx token upstream req tx;;
          match upstream with
          | None => Ret tt
          | Some upstream => upstream_connection messages fuel rx token upstream
          end
      end
  end.

End proxy.
