(* ===== verification/Routes.v ===== *)
(** * The REST API ([server/src/routes.rs])

    One definition per handler, with the task [create_app] leaves behind
    ([launch_watch]); [serve] puts the authorization layer of the route in front of
    it.  The launcher is any implementation of the [Launcher] trait. *)

From stdpp Require Import base option list strings gmap.
From Stdlib Require Import Ascii.
From S2P Require Import Prelude RustStr Entities Database Error Http Cache Env Config Launcher Auth Proxy.
Import application.

Open Scope rust_scope.

Record CreateApplicationRequest := mkCreateApplicationRequest {
  req_name : option string;
  req_version : option string;
  req_config : option (gmap string string);
  req_python_packages : option (list string)
}.

Record ListApplicationsRequest := mkListApplicationsRequest {
  list_state : option string;
  created_at_after : option Z;
  created_at_before : option Z
}.

Record ApplicationCallbackRequest := mkApplicationCallbackRequest {
  cb_address : string;
  cb_application_id : string
}.

Record ApplicationInfo := mkApplicationInfo {
  info_id : Z;
  info_name : option string;
  info_token : string;
  info_state : string;
  info_active : bool;
  info_ui_url : option string;
  info_log_url : option string
}.

#[global] Instance ApplicationInfo_eq_dec : EqDecision ApplicationInfo.
Proof. solve_decision. Defined.

(** [is_some]. *)
Definition is_some {A} (o : option A) : bool := match o with Some _ => true | None => false end.

Section routes.
Context `{HttpLib} `{ConfigLib} `{AuthLib} {L : Type} `{!Launcher L}.
Variables (launcher : L) (config : ProxyConfig).

(** The view of a row that the handlers return. *)
Definition application_info (app : Model) : ApplicationInfo :=
  {| info_id := id app;
     info_name := name app;
     info_token := token app;
     info_state := to_value (state app);
     info_active := is_some (address app);
     info_ui_url := render_ui_url config (application_id app);
     info_log_url := render_log_url config (application_id app) |}.

(** ** Creating *)

(** The row [create_app] inserts. *)
Definition new_application (user token : string) (name : option string) : ActiveModel :=
  mkActiveModel NotSet NotSet (AvSet user) (AvSet name) (AvSet LAUNCHING) (AvSet token) NotSet NotSet.

(** The row written when a launch fails at once. *)
Definition failed_application (app_id : Z) : ActiveModel :=
  mkActiveModel (AvSet app_id) NotSet NotSet NotSet (AvSet FAILED) NotSet NotSet NotSet.

(** The spawned task: once the launch has ended, an application that is still launching
    has failed. *)
Definition launch_watch (child : JoinHandle) (app_id : Z) : prog unit :=
  _ <- do (AwaitHandle child);;
  update_result <- do (Db (UpdateMany [SetState FAILED] [IdEq app_id; StateEq LAUNCHING]));;
  Ret tt.

Definition create_app (user : UserId) (params : CreateApplicationRequest)
    : prog (result ApplicationInfo StatusCode) :=
  let 'mkUserId user := user in
  let name := req_name params in
  token <- do NewV4;;
  let app := new_application user token name in
  res <-! map_err_m (fun _ => INTERNAL_SERVER_ERROR) (do (Db (Insert app)));;
  launched <- launch launcher (req_version params) (id res) name user token
                (default ∅ (req_config params)) (req_python_packages params);;
  match launched with
  | Ok child =>
      _ <- do (Spawn (LaunchWatch child (id res)));;
      Ret (Ok (application_info res))
  | Err e =>
      update_res <- do (Db (Update (failed_application (id res))));;
      Ret (Err INTERNAL_SERVER_ERROR)
  end.

(** ** Reading *)

Definition get_app (app_id : Z) (user : UserId) : prog (result ApplicationInfo StatusCode) :=
  let 'mkUserId user := user in
  found <-! map_err_m (fun _ => INTERNAL_SERVER_ERROR) (do (Db (One [UsernameEq user; IdEq app_id])));;
  match ok_or found NOT_FOUND with
  | Err status => Ret (Err status)
  | Ok app => Ret (Ok (application_info app))
  end.

(** The states named by a comma-separated filter; blank pieces are skipped. *)
Fixpoint parse_states (pieces : list string) : result (list State) StatusCode :=
  match pieces with
  | [] => Ok []
  | piece :: pieces =>
      let state := trim piece in
      if is_empty state then parse_states pieces
      else
        parsed <-? map_err (fun _ => BAD_REQUEST) (try_from_value state);;
        rest <-? parse_states pieces;;
        Ok (parsed :: rest)
  end.

Definition list_query (user : string) (params : ListApplicationsRequest) : result Query StatusCode :=
  let query := [UsernameEq user] in
  query <-? match list_state params with
            | Some state_filters =>
                parsed_states <-? parse_states (split ","%char state_filters);;
                Ok (if negb (bool_decide (parsed_states = [])) then query ++ [StateIsIn parsed_states] else query)
            | None => Ok query
            end;;
  let query := match created_at_after params with Some t => query ++ [CreatedAtGte t] | None => query end in
  let query := match created_at_before params with Some t => query ++ [CreatedAtLte t] | None => query end in
  Ok query.

Definition list_apps (user : UserId) (params : ListApplicationsRequest)
    : prog (result (list ApplicationInfo) StatusCode) :=
  let 'mkUserId user := user in
  match list_query user params with
  | Err status => Ret (Err status)
  | Ok query =>
      apps <-! map_err_m (fun _ => INTERNAL_SERVER_ERROR) (do (Db (All query)));;
      Ret (Ok (application_info <$> apps))
  end.

Definition list_versions : prog (result (list string) StatusCode) :=
  Ret (Ok (get_versions launcher)).

(** ** Deleting *)

Definition delete_app (app_id : Z) (user : UserId) : prog (result unit StatusCode) :=
  let 'mkUserId username := user in
  found <-! map_err_m (fun _ => INTERNAL_SERVER_ERROR) (do (Db (One [UsernameEq username; IdEq app_id])));;
  match ok_or found NOT_FOUND with
  | Err status => Ret (Err status)
  | Ok app =>
      let address := address app in
      let token := token app in
      _ <-! map_err_m (fun _ => INTERNAL_SERVER_ERROR)
              (do (Db (UpdateMany [SetAddress None; SetState FINISHED] [IdEq app_id; UsernameEq username])));;
      stop_result <- match address with
                     | Some address =>
                         map_err_m (fun _ => INTERNAL_SERVER_ERROR) (send_session_message address token "stop")
                     | None => Ret (Ok tt)
                     end;;
      _ <- do (CacheOp (Cache.Invalidate token));;
      match stop_result with
      | Err status => Ret (Err status)
      | Ok _ => Ret (Ok tt)
      end
  end.

(** ** Callbacks of the driver *)

Definition app_callback (token : BearerToken) (params : ApplicationCallbackRequest)
    : prog (result unit StatusCode) :=
  let 'mkBearerToken token := token in
  rows_affected <-! map_err_m (fun _ => INTERNAL_SERVER_ERROR)
    (do (Db (UpdateMany [SetAddress (Some (cb_address params)); SetState RUNNING;
                         SetApplicationId (Some (cb_application_id params))] [TokenEq token])));;
  if bool_decide (rows_affected = 0%Z) then Ret (Err NOT_FOUND) else Ret (Ok tt).

Definition app_callback_delete (token : BearerToken) : prog (result unit StatusCode) :=
  let 'mkBearerToken token := token in
  rows_affected <-! map_err_m (fun _ => INTERNAL_SERVER_ERROR)
    (do (Db (UpdateMany [SetAddress None; SetState FINISHED] [TokenEq token])));;
  if bool_decide (rows_affected = 0%Z) then Ret (Err NOT_FOUND)
  else
    _ <- do (CacheOp (Cache.Invalidate token));;
    Ret (Ok tt).

(** ** The router *)

Inductive Handler :=
| ListApps (params : ListApplicationsRequest)
| CreateApp (params : CreateApplicationRequest)
| GetApp (app_id : Z)
| DeleteApp (app_id : Z)
| ListVersions
| AppCallback (params : ApplicationCallbackRequest)
| AppCallbackDelete.

(** The method and path a handler is registered under. *)
Definition endpoint (h : Handler) : Method * string :=
  match h with
  | ListApps _ => (GET, "/apps")
  | CreateApp _ => (POST, "/apps")
  | GetApp _ => (GET, "/apps/{app_id}")
  | DeleteApp _ => (DELETE, "/apps/{app_id}")
  | ListVersions => (GET, "/versions")
  | AppCallback _ => (POST, "/callback")
  | AppCallbackDelete => (DELETE, "/callback")
  end.

(** The paths of the two routers, each behind its [route_layer]. *)
Definition user_api : list string := ["/apps"; "/apps/{app_id}"; "/versions"].
Definition callback_api : list string := ["/callback"].

Inductive Reply :=
| ReplyApp (info : ApplicationInfo)
| ReplyApps (infos : list ApplicationInfo)
| ReplyVersions (versions : list string)
| ReplyEmpty.

Definition reply {A} (f : A -> Reply) (p : prog (result A StatusCode)) : prog (result Reply StatusCode) :=
  r <- p;;
  Ret (match r with Ok a => Ok (f a) | Err status => Err status end).

(** The handler of a user route, called with the user id the layer has found. *)
Definition user_handler (h : Handler) (user : UserId) : prog (result Reply StatusCode) :=
  match h with
  | ListApps params => reply ReplyApps (list_apps user params)
  | CreateApp params => reply ReplyApp (create_app user params)
  | GetApp app_id => reply ReplyApp (get_app app_id user)
  | DeleteApp app_id => reply (fun _ => ReplyEmpty) (delete_app app_id user)
  | ListVersions => reply ReplyVersions list_versions
  | AppCallback _ | AppCallbackDelete => Ret (Err NOT_FOUND)
  end.

(** The handler of a callback route, called with the bearer token. *)
Definition callback_handler (h : Handler) (token : BearerToken) : prog (result Reply StatusCode) :=
  match h with
  | AppCallback params => reply (fun _ => ReplyEmpty) (app_callback token params)
  | AppCallbackDelete => reply (fun _ => ReplyEmpty) (app_callback_delete token)
  | _ => Ret (Err NOT_FOUND)
  end.

(** A request that [axum] has matched to [h]: the layer of the route's router runs
    first, and its answer is final when it refuses. *)
Definition serve (user_auth : list UserAuthMethod) (h : Handler) (headers : HeaderMap)
    : prog (result Reply StatusCode) :=
  if bool_decide ((endpoint h).2 ∈ user_api) then
    match user_authorize user_auth headers with
    | Ok user => user_handler h user
    | Err status => Ret (Err status)
    end
  else if bool_decide ((endpoint h).2 ∈ callback_api) then
    match token_authorize headers with
    | Ok token => callback_handler h token
    | Err status => Ret (Err status)
    end
  else Ret (Err NOT_FOUND).

End routes.
