(* ===== verification/Json.v ===== *)
(** * The wire format of the REST API

    JSON values with the readers and writers that [serde]'s [Serialize] and
    [Deserialize] derive for the records of [server/src/routes.rs].  Bodies are JSON
    values; their text is [serde_json]'s.  [RoundTrip] says that what is written reads
    back, for the values of a type that satisfy [valid]. *)

From stdpp Require Import base option list strings gmap.
From S2P Require Import Prelude Routes.

Open Scope rust_scope.

Inductive Json :=
| JNull
| JBool (b : bool)
| JInt (z : Z)
| JFloat (text : string)
| JStr (s : string)
| JArr (l : list Json)
| JObj (fields : list (string * Json)).

Class ToJson (A : Type) := to_json : A -> Json.
Class FromJson (A : Type) := from_json : Json -> result A string.

Class RoundTrip (A : Type) `{ToJson A, FromJson A} := {
  valid : A -> Prop;
  from_to_json a : valid a -> from_json (to_json a) = Ok a;
  to_json_not_null a : to_json a <> JNull
}.

(** ** The standard types *)

#[export] Instance bool_to_json : ToJson bool := JBool.
#[export] Instance bool_from_json : FromJson bool :=
  fun j => match j with JBool b => Ok b | _ => Err "expected a boolean" end.

#[export] Instance string_to_json : ToJson string := JStr.
#[export] Instance string_from_json : FromJson string :=
  fun j => match j with JStr s => Ok s | _ => Err "expected a string" end.

(** [i32]. *)
Definition i32 (z : Z) : Prop := (- 2 ^ 31 <= z < 2 ^ 31)%Z.

#[export] Instance i32_to_json : ToJson Z := JInt.
#[export] Instance i32_from_json : FromJson Z :=
  fun j =>
    match j with
    | JInt z => if bool_decide (- 2 ^ 31 <= z)%Z && bool_decide (z < 2 ^ 31)%Z then Ok z else Err "expected i32"
    | _ => Err "expected i32"
    end.

#[export] Instance option_to_json {A} `{ToJson A} : ToJson (option A) :=
  fun o => match o with Some a => to_json a | None => JNull end.
#[export] Instance option_from_json {A} `{FromJson A} : FromJson (option A) :=
  fun j =>
    match j with
    | JNull => Ok None
    | _ => a <-? from_json j;; Ok (Some a)
    end.

(** The readings of all elements, or the first error. *)
Fixpoint collect {A B} (f : A -> result B string) (l : list A) : result (list B) string :=
  match l with
  | [] => Ok []
  | a :: l => b <-? f a;; bs <-? collect f l;; Ok (b :: bs)
  end.

#[export] Instance list_to_json {A} `{ToJson A} : ToJson (list A) := fun l => JArr (to_json <$> l).
#[export] Instance list_from_json {A} `{FromJson A} : FromJson (list A) :=
  fun j => match j with JArr l => collect from_json l | _ => Err "expected a sequence" end.

(** [HashMap<String, A>]: a key that occurs again replaces the value. *)
#[export] Instance map_to_json {A} `{ToJson A} : ToJson (gmap string A) :=
  fun m => JObj (prod_map id to_json <$> map_to_list m).
#[export] Instance map_from_json {A} `{FromJson A} : FromJson (gmap string A) :=
  fun j =>
    match j with
    | JObj fields =>
        l <-? collect (fun kv => a <-? from_json kv.2;; Ok (kv.1, a)) fields;;
        Ok (foldl (fun m kv => <[kv.1 := kv.2]> m) ∅ l)
    | _ => Err "expected a map"
    end.

(** ** Derived readers of structs *)

(** A known field of an object; a second occurrence is an error. *)
Definition field (fields : list (string * Json)) (n : string) : result (option Json) string :=
  match base.filter (fun kv => kv.1 = n) fields with
  | [] => Ok None
  | [kv] => Ok (Some kv.2)
  | _ => Err ("duplicate field `" +:+ n +:+ "`")
  end.

(** The fields of a struct by name from an object, where unknown ones are ignored, or
    by position from a sequence. *)
Definition struct_fields (names : list string) (j : Json) : result (list (option Json)) string :=
  match j with
  | JObj fields => collect (field fields) names
  | JArr l => if bool_decide (length l = length names) then Ok (Some <$> l) else Err "invalid length"
  | _ => Err "expected a struct"
  end.

(** A field that must be there, and one of type [Option] that need not. *)
Definition required {A} `{FromJson A} (n : string) (o : option Json) : result A string :=
  match o with Some j => from_json j | None => Err ("missing field `" +:+ n +:+ "`") end.
Definition optional {A} `{FromJson A} (o : option Json) : result (option A) string :=
  match o with Some j => from_json j | None => Ok None end.

(** ** The records of the API *)

#[export] Instance CreateApplicationRequest_to_json : ToJson CreateApplicationRequest :=
  fun r => JObj [("name", to_json (req_name r)); ("version", to_json (req_version r));
                 ("config", to_json (req_config r)); ("python_packages", to_json (req_python_packages r))].

#[export] Instance CreateApplicationRequest_from_json : FromJson CreateApplicationRequest :=
  fun j =>
    fs <-? struct_fields ["name"; "version"; "config"; "python_packages"] j;;
    match fs with
    | [n; v; c; p] =>
        n <-? optional n;; v <-? optional v;; c <-? optional c;; p <-? optional p;;
        Ok (mkCreateApplicationRequest n v c p)
    | _ => Err "invalid length"
    end.

#[export] Instance ApplicationInfo_to_json : ToJson ApplicationInfo :=
  fun a => JObj [("id", to_json (info_id a)); ("name", to_json (info_name a));
                 ("token", to_json (info_token a)); ("state", to_json (info_state a));
                 ("active", to_json (info_active a)); ("ui_url", to_json (info_ui_url a));
                 ("log_url", to_json (info_log_url a))].

#[export] Instance ApplicationInfo_from_json : FromJson ApplicationInfo :=
  fun j =>
    fs <-? struct_fields ["id"; "name"; "token"; "state"; "active"; "ui_url"; "log_url"] j;;
    match fs with
    | [i; n; t; s; a; u; l] =>
        i <-? required "id" i;; n <-? optional n;; t <-? required "token" t;; s <-? required "state" s;;
        a <-? required "active" a;; u <-? optional u;; l <-? optional l;;
        Ok (mkApplicationInfo i n t s a u l)
    | _ => Err "invalid length"
    end.

#[export] Instance ApplicationCallbackRequest_to_json : ToJson ApplicationCallbackRequest :=
  fun r => JObj [("address", to_json (cb_address r)); ("application_id", to_json (cb_application_id r))].

#[export] Instance ApplicationCallbackRequest_from_json : FromJson ApplicationCallbackRequest :=
  fun j =>
    fs <-? struct_fields ["address"; "application_id"] j;;
    match fs with
    | [a; i] =>
        a <-? required "address" a;; i <-? required "application_id" i;;
        Ok (mkApplicationCallbackRequest a i)
    | _ => Err "invalid length"
    end.

(** ** Round trips *)

Lemma collect_map {A B C} (f : A -> result B string) (g : C -> A) (h : C -> B) (l : list C) :
  (forall c, c ∈ l -> f (g c) = Ok (h c)) -> collect f (g <$> l) = Ok (h <$> l).
Proof.
  induction l as [|a l IH]; intros Hf; [done|]. rewrite !fmap_cons. cbn [collect].
  rewrite (Hf a) by left. by rewrite IH by (intros b Hb; apply Hf; by right).
Qed.

#[export] Program Instance bool_round_trip : RoundTrip bool := {| valid _ := True |}.
Next Obligation. done. Qed.
Next Obligation. done. Qed.

#[export] Program Instance string_round_trip : RoundTrip string := {| valid _ := True |}.
Next Obligation. done. Qed.
Next Obligation. done. Qed.

#[export] Program Instance i32_round_trip : RoundTrip Z := {| valid := i32 |}.
Next Obligation.
  intros z [H1 H2]. unfold from_json, to_json, i32_from_json, i32_to_json. by rewrite !bool_decide_true.
Qed.
Next Obligation. done. Qed.

(** An option is not a [RoundTrip] itself, for it may be written as [null]. *)
Lemma option_from_to_json {A} `{RoundTrip A} (o : option A) :
  (forall a, o = Some a -> valid a) -> from_json (to_json o) = Ok o.
Proof.
  intros Hv. destruct o as [a|]; [|done]. specialize (Hv a eq_refl).
  pose proof (from_to_json a Hv) as Ha. pose proof (to_json_not_null a) as Hn.
  unfold from_json, to_json, option_from_json, option_to_json in *.
  unfold to_json, from_json in *. destruct (H a); try done; by rewrite Ha.
Qed.

#[export] Program Instance list_round_trip {A} `{RoundTrip A} : RoundTrip (list A) :=
  {| valid l := Forall valid l |}.
Next Obligation.
  intros A ? ? ? l Hl. unfold from_json at 1, to_json at 1, list_from_json, list_to_json.
  rewrite (collect_map _ _ id), list_fmap_id; [done|].
  intros a Ha. rewrite Forall_forall in Hl. by apply from_to_json, Hl.
Qed.
Next Obligation. done. Qed.

(** A map may be written in any order. *)
Lemma map_from_any_order {A} `{RoundTrip A} (m : gmap string A) (l : list (string * A)) :
  map_Forall (fun _ a => valid a) m -> l ≡ₚ map_to_list m ->
  from_json (JObj (prod_map id to_json <$> l)) = Ok m.
Proof.
  intros Hv Hl. unfold from_json at 1, map_from_json.
  rewrite (collect_map _ _ id), list_fmap_id.
  - f_equal. apply map_eq. intros k.
    rewrite (foldl_insert_lookup (fun _ _ v => v)) by (by eapply NoDup_fst_perm).
    rewrite (list_to_map_perm l m) by done. rewrite lookup_empty. by destruct (m !! k).
  - intros [k a] Hka. simpl. rewrite from_to_json; [done|].
    rewrite Hl in Hka. apply elem_of_map_to_list in Hka. by eapply Hv.
Qed.

#[export] Program Instance map_round_trip {A} `{RoundTrip A} : RoundTrip (gmap string A) :=
  {| valid m := map_Forall (fun _ a => valid a) m |}.
Next Obligation. intros A ? ? ? m Hm. by apply map_from_any_order. Qed.
Next Obligation. done. Qed.

Lemma optional_to_json {A} `{RoundTrip A} (o : option A) :
  (forall a, o = Some a -> valid a) -> optional (Some (to_json o)) = Ok o.
Proof. apply option_from_to_json. Qed.

Lemma required_to_json {A} `{RoundTrip A} n (a : A) :
  valid a -> required n (Some (to_json a)) = Ok a.
Proof. apply from_to_json. Qed.

(** The fields of a derived writer, read by the derived reader. *)
Ltac read_struct :=
  match goal with
  | |- context [struct_fields ?ns (JObj ?fs)] =>
      let E := fresh in
      assert (struct_fields ns (JObj fs) = Ok (Some <$> fs.*2)) as E by reflexivity;
      rewrite E; clear E; cbn [fmap list_fmap snd]
  end;
  repeat first [rewrite optional_to_json by first [done | intros; by apply Forall_true]
               | rewrite required_to_json by done].

#[export] Program Instance CreateApplicationRequest_round_trip : RoundTrip CreateApplicationRequest :=
  {| valid _ := True |}.
Next Obligation.
  intros [n v c p] _. unfold from_json at 1, CreateApplicationRequest_from_json, to_json at 1,
    CreateApplicationRequest_to_json. by read_struct.
Qed.
Next Obligation. done. Qed.

#[export] Program Instance ApplicationInfo_round_trip : RoundTrip ApplicationInfo :=
  {| valid a := i32 (info_id a) |}.
Next Obligation.
  intros [i n t s a u l] Hi. simpl in Hi. unfold from_json at 1, ApplicationInfo_from_json, to_json at 1,
    ApplicationInfo_to_json. by read_struct.
Qed.
Next Obligation. done. Qed.

#[export] Program Instance ApplicationCallbackRequest_round_trip : RoundTrip ApplicationCallbackRequest :=
  {| valid _ := True |}.
Next Obligation.
  intros [a i] _. unfold from_json at 1, ApplicationCallbackRequest_from_json, to_json at 1,
    ApplicationCallbackRequest_to_json. by read_struct.
Qed.
Next Obligation. done. Qed.
