(* ===== verification/Api.v ===== *)
(** * The REST API over HTTP ([server/src/routes.rs], [get_router])

    From a method, a path, a query, headers and a JSON body to the handler and back to a
    status and a JSON body.  The routing table is the source's; what [axum] makes of it
    (which paths match a route, what they capture, which methods a method route serves,
    what becomes of the reply to [HEAD]) is the interface [RouterLib] with the laws
    [RouterLaws], and reading a query string is the interface [QueryLib]. *)

From stdpp Require Import base option list strings gmap pretty.
From Stdlib Require Import Ascii.
From S2P Require Import Prelude RustStr Http Config Env Launcher Auth Routes Json.

Open Scope rust_scope.

(** [Query<ListApplicationsRequest>]. *)
Class QueryLib := { query_params : string -> result ListApplicationsRequest string }.

(** ** Requests and responses *)

Section requests.
Context `{HttpLib}.

(** A body is [None] when the [Json] extractor finds no JSON in it. *)
Record ApiRequest := mkApiRequest {
  api_method : Method;
  api_path : string;
  api_query : string;
  api_headers : HeaderMap;
  api_body : option Json
}.

Record ApiResponse := mkApiResponse {
  api_status : Z;
  api_json : option Json
}.

End requests.

(** What [axum] does around the handlers. *)
Class RouterLib `{HttpLib} := {
  (** the segments of the path that a route captures, percent-decoded, an [Err] where
      that is no UTF-8; [None] when the route does not match the path *)
  path_params : string -> string -> option (list (result string string));
  (** whether a handler registered for the first method serves requests of the second *)
  method_accepts : Method -> Method -> bool;
  (** the status of the [Json] extractor for a body that is not JSON *)
  body_rejection : HeaderMap -> Z;
  (** the response that is sent for the one of the handler *)
  send_response : Method -> ApiResponse -> ApiResponse
}.

(** Documented: a route without braces matches its own text only; a name in braces
    captures one segment that is not empty, as it is when nothing in it is encoded;
    a handler of [get] also serves [HEAD], whose response loses its body. *)
Class RouterLaws `{RouterLib} : Prop := {
  path_static route path :
    has_char "{" route = false -> path_params route path = if decide (path = route) then Some [] else None;
  path_capture_plain prefix name seg :
    has_char "{" prefix = false -> seg <> "" -> has_char "/" seg = false -> has_char "%" seg = false ->
    path_params (prefix +:+ "/{" +:+ name +:+ "}") (prefix +:+ "/" +:+ seg) = Some [Ok seg];
  method_accepts_spec registered m :
    method_accepts registered m = true <-> registered = m \/ (registered = GET /\ m = HEAD);
  send_response_body m r : m <> HEAD -> send_response m r = r;
  send_response_head r : send_response HEAD r = mkApiResponse (api_status r) None
}.

(** [str::parse::<i32>]: an optional sign and at least one digit. *)
Definition digit (a : ascii) : option Z :=
  let n := nat_of_ascii a in
  if (48 <=? n)%nat && (n <=? 57)%nat then Some (Z.of_nat n - 48)%Z else None.

Fixpoint parse_digits (acc : Z) (s : string) : option Z :=
  match s with
  | EmptyString => Some acc
  | String a s => d ← digit a; parse_digits (acc * 10 + d) s
  end.

Definition parse_nat (s : string) : option Z :=
  if is_empty s then None else parse_digits 0 s.

Definition parse_i32 (s : string) : option Z :=
  z ← match strip_prefix "-" s with
      | Some s => Z.opp <$> parse_nat s
      | None => parse_nat (default s (strip_prefix "+" s))
      end;
  if bool_decide (- 2 ^ 31 <= z)%Z && bool_decide (z < 2 ^ 31)%Z then Some z else None.

(** ** Routing *)

Section api.
Context `{HttpLib} `{!RouterLib} `{ConfigLib} `{AuthLib} `{QueryLib} {L : Type} `{!Launcher L}.
Variables (launcher : L) (config : ProxyConfig) (user_auth : list UserAuthMethod).

Definition status_code (s : StatusCode) : Z :=
  match s with
  | OK => 200
  | BAD_REQUEST => 400
  | UNAUTHORIZED => 401
  | NOT_FOUND => 404
  | INTERNAL_SERVER_ERROR => 500
  end.

(** The extractors of a handler, on what the path has captured and on the request; a
    rejection is a status. *)
Definition Extractor : Type := list (result string string) -> ApiRequest -> result Handler Z.

(** [Path<i32>]. *)
Definition path_id (h : Z -> Handler) : Extractor := fun params _ =>
  match params with
  | [Ok s] => match parse_i32 s with Some n => Ok (h n) | None => Err 400%Z end
  | [Err _] => Err 400%Z
  | _ => Err 500%Z
  end.

(** [Json<A>]. *)
Definition json_body {A} `{FromJson A} (h : A -> Handler) : Extractor := fun _ q =>
  j <-? ok_or (api_body q) (body_rejection (api_headers q));;
  a <-? map_err (fun _ => 422%Z) (from_json j);;
  Ok (h a).

(** [Query<ListApplicationsRequest>]. *)
Definition query_string : Extractor := fun _ q =>
  map_err (fun _ => 400%Z) (ps <-? query_params (api_query q);; Ok (ListApps ps)).

(** No extractor but the ones every handler has. *)
Definition plain (h : Handler) : Extractor := fun _ _ => Ok h.

(** The two routers of [get_router], merged. *)
Definition get_router : list (string * list (Method * Extractor)) :=
  [("/apps", [(GET, query_string); (POST, json_body CreateApp)]);
   ("/apps/{app_id}", [(GET, path_id GetApp); (DELETE, path_id DeleteApp)]);
   ("/versions", [(GET, plain ListVersions)]);
   ("/callback", [(POST, json_body AppCallback); (DELETE, plain AppCallbackDelete)])].

(** The first route that matches, and the first of its methods that accepts. *)
Fixpoint match_path (routes : list (string * list (Method * Extractor))) (path : string)
    : option (string * list (Method * Extractor) * list (result string string)) :=
  match routes with
  | [] => None
  | (route, methods) :: routes =>
      match path_params route path with
      | Some params => Some (route, methods, params)
      | None => match_path routes path
      end
  end.

Fixpoint match_method (methods : list (Method * Extractor)) (m : Method) : option Extractor :=
  match methods with
  | [] => None
  | (registered, extractor) :: methods =>
      if method_accepts registered m then Some extractor else match_method methods m
  end.

(** The route of a request, and its handler with what the extractors find; [None] when
    no route has the path and the method, which is left to the fallbacks of [axum]. *)
Definition extract (q : ApiRequest) : option (string * result Handler Z) :=
  '(route, methods, params) ← match_path get_router (api_path q);
  extractor ← match_method methods (api_method q);
  Some (route, extractor params q).

(** The layer of the route, which runs before the extractors. *)
Definition authorize_route (route : string) (headers : HeaderMap) : result unit StatusCode :=
  if bool_decide (route ∈ callback_api) then _ <-? token_authorize headers;; Ok tt
  else _ <-? user_authorize user_auth headers;; Ok tt.

(** [into_response]. *)
Definition reply_json (r : Reply) : option Json :=
  match r with
  | ReplyApp info => Some (to_json info)
  | ReplyApps infos => Some (to_json infos)
  | ReplyVersions versions => Some (to_json versions)
  | ReplyEmpty => None
  end.

Definition respond (r : result Reply StatusCode) : ApiResponse :=
  match r with
  | Ok r => mkApiResponse (status_code OK) (reply_json r)
  | Err status => mkApiResponse (status_code status) None
  end.

Definition serve_request (q : ApiRequest) : prog (option ApiResponse) :=
  let send := send_response (api_method q) in
  match extract q with
  | None => Ret None
  | Some (_, Ok h) =>
      r <- serve launcher config user_auth h (api_headers q);;
      Ret (Some (send (respond r)))
  | Some (route, Err rejection) =>
      Ret (Some (send match authorize_route route (api_headers q) with
                      | Ok _ => mkApiResponse rejection None
                      | Err status => mkApiResponse (status_code status) None
                      end))
  end.

End api.

(** ** Facts *)

Lemma split_app_sep c a b : has_char c a = false -> split c (a +:+ String c b) = a :: split c b.
Proof.
  induction a as [|x a IH]; rewrite ?append_cons; simpl.
  - intros _. by rewrite decide_True.
  - intros [Hx Ha]%orb_false_iff. apply bool_decide_eq_false in Hx.
    rewrite decide_False by done. by rewrite IH.
Qed.

(** Decimals are digits, with a sign for a negative number. *)
Lemma has_char_pretty_N_go c x s :
  Forall (fun d => c <> pretty_N_char d) [0; 1; 2; 3; 4; 5; 6; 7; 8; 9]%N ->
  has_char c (pretty_N_go x s) = has_char c s.
Proof.
  intros Hc. revert s. induction (N.lt_wf_0 x) as [x _ IH]; intros s.
  destruct (decide (0 < x)%N) as [Hx|Hx].
  - rewrite pretty_N_go_step, IH by (try apply N.div_lt; lia). simpl.
    rewrite bool_decide_false; [done|]. intros Heq.
    rewrite !Forall_cons in Hc. unfold pretty_N_char in Heq at 1.
    repeat case_match; simplify_eq; naive_solver.
  - by replace x with 0%N by lia.
Qed.

Lemma has_char_pretty_N c (n : N) :
  Forall (fun d => c <> pretty_N_char d) [0; 1; 2; 3; 4; 5; 6; 7; 8; 9]%N -> has_char c (pretty n) = false.
Proof.
  intros Hc. assert (c <> "0"%char) by (by rewrite Forall_cons in Hc; destruct Hc).
  unfold pretty, pretty_N. case_decide; [simpl; by rewrite bool_decide_false|]. by rewrite has_char_pretty_N_go.
Qed.

Lemma has_char_pretty c (z : Z) :
  Forall (fun d => c <> pretty_N_char d) [0; 1; 2; 3; 4; 5; 6; 7; 8; 9]%N -> c <> "-"%char ->
  has_char c (pretty z) = false.
Proof.
  intros Hc Hd. destruct z as [|p|p]; [by apply (has_char_pretty_N c 0)|by apply (has_char_pretty_N c (Npos p))|].
  change (has_char c ("-" +:+ pretty (Npos p)) = false). rewrite has_char_app, has_char_pretty_N by done.
  simpl. by rewrite bool_decide_false.
Qed.

Lemma pretty_N_go_ne x s : s <> "" -> pretty_N_go x s <> "".
Proof.
  revert s. induction (N.lt_wf_0 x) as [x _ IH]; intros s Hs.
  destruct (decide (0 < x)%N) as [Hx|Hx].
  - rewrite pretty_N_go_step by done. apply IH; [by apply N.div_lt|done].
  - by replace x with 0%N by lia.
Qed.

Lemma pretty_N_ne (n : N) : pretty n <> "".
Proof.
  unfold pretty, pretty_N. case_decide; [done|]. rewrite pretty_N_go_step by lia. by apply pretty_N_go_ne.
Qed.

Lemma pretty_ne (z : Z) : pretty z <> "".
Proof. destruct z as [|p|p]; [done|apply (pretty_N_ne (Npos p))|]. by intros [=]. Qed.

Lemma parse_digits_pretty x s : parse_digits 0 (pretty_N_go x s) = parse_digits (Z.of_N x) s.
Proof.
  revert s. induction (N.lt_wf_0 x) as [x _ IH]; intros s.
  destruct (decide (0 < x)%N) as [Hx|Hx]; [|by replace x with 0%N by lia].
  rewrite pretty_N_go_step, IH by (try apply N.div_lt; lia). cbn [parse_digits].
  assert (Hd : digit (pretty_N_char (x mod 10)) = Some (Z.of_N (x mod 10))).
  { pose proof (N.mod_lt x 10 ltac:(done)) as Hlt. revert Hlt. generalize (x mod 10)%N as d. intros d Hlt.
    assert (Hc : d ∈ [0; 1; 2; 3; 4; 5; 6; 7; 8; 9]%N) by (rewrite !elem_of_cons; lia).
    repeat (apply elem_of_cons in Hc as [->|Hc]; [done|]). by apply elem_of_nil in Hc. }
  rewrite Hd. cbn [mbind option_bind]. f_equal. pose proof (N.div_mod x 10 ltac:(done)). lia.
Qed.

Lemma parse_nat_pretty (n : N) : parse_nat (pretty n) = Some (Z.of_N n).
Proof.
  unfold parse_nat. assert (Hne : pretty n <> "") by apply pretty_N_ne.
  unfold is_empty. rewrite bool_decide_false by done. unfold pretty, pretty_N.
  case_decide as Hn; [by subst|]. apply parse_digits_pretty.
Qed.

(** The ids the server writes are the ids it reads; no other number is one. *)
Lemma parse_i32_pretty (z : Z) : parse_i32 (pretty z) = if bool_decide (i32 z) then Some z else None.
Proof.
  unfold parse_i32.
  assert (Hz : match strip_prefix "-" (pretty z) with
      | Some s => Z.opp <$> parse_nat s
      | None => parse_nat (default (pretty z) (strip_prefix "+" (pretty z)))
      end = Some z).
  { assert (Hn : forall (c : string) (n : N), c = "-" \/ c = "+" -> strip_prefix c (pretty n) = None).
    { intros c n Hc. destruct (strip_prefix c (pretty n)) as [r|] eqn:E; [|done].
      apply strip_prefix_Some in E. pose proof (has_char_pretty_N "-" n) as Hm. pose proof (has_char_pretty_N "+" n) as Hp.
      rewrite E in Hm, Hp. destruct Hc as [->| ->]; rewrite has_char_app in Hm, Hp;
        [specialize (Hm ltac:(by repeat constructor))|specialize (Hp ltac:(by repeat constructor))]; done. }
    destruct z as [|p|p].
    - done.
    - change (pretty (Zpos p)) with (pretty (Npos p)). rewrite !Hn by auto. simpl default. by rewrite parse_nat_pretty.
    - change (pretty (Zneg p)) with ("-" +:+ pretty (Npos p)). rewrite strip_prefix_app.
      by rewrite parse_nat_pretty. }
  rewrite Hz. cbn [mbind option_bind]. by rewrite <- bool_decide_and.
Qed.

Section facts.
Context `{HttpLib} `{!RouterLib} `{!RouterLaws} `{QueryLib}.

(** The routes of the paths the code writes. *)
Lemma match_apps : match_path get_router "/apps" = Some ("/apps", [(GET, query_string); (POST, json_body CreateApp)], []).
Proof. cbn [match_path get_router]. by rewrite path_static. Qed.

Lemma match_app_path (n : Z) :
  match_path get_router ("/apps/" +:+ pretty n) =
    Some ("/apps/{app_id}", [(GET, path_id GetApp); (DELETE, path_id DeleteApp)], [Ok (pretty n)]).
Proof.
  cbn [match_path get_router]. rewrite path_static by done. rewrite decide_False by (intros [=]).
  change ("/apps/" +:+ pretty n) with ("/apps" +:+ "/" +:+ pretty n).
  change "/apps/{app_id}" with ("/apps" +:+ "/{" +:+ "app_id" +:+ "}").
  rewrite path_capture_plain; [done|done|apply pretty_ne|apply has_char_pretty..]; done || by repeat constructor.
Qed.

Lemma match_method_other registered extractor methods m :
  registered <> m -> m <> HEAD ->
  match_method ((registered, extractor) :: methods) m = match_method methods m.
Proof.
  intros Hr Hm. cbn [match_method]. destruct (method_accepts registered m) eqn:E; [|done].
  apply method_accepts_spec in E as [?|[_ ?]]; done.
Qed.

Lemma match_method_same m extractor methods : match_method ((m, extractor) :: methods) m = Some extractor.
Proof. cbn [match_method]. by rewrite (proj2 (method_accepts_spec m m)) by by left. Qed.

(** The requests of the client. *)
Lemma extract_create query headers body :
  extract (mkApiRequest POST "/apps" query headers body) =
    Some ("/apps", json_body CreateApp [] (mkApiRequest POST "/apps" query headers body)).
Proof.
  unfold extract. cbn [api_path api_method]. rewrite match_apps. cbn [mbind option_bind].
  by rewrite match_method_other, match_method_same.
Qed.

Lemma extract_delete n query headers body :
  extract (mkApiRequest DELETE ("/apps/" +:+ pretty n) query headers body) =
    Some ("/apps/{app_id}", if bool_decide (i32 n) then Ok (DeleteApp n) else Err 400%Z).
Proof.
  unfold extract. cbn [api_path api_method]. rewrite match_app_path. cbn [mbind option_bind].
  rewrite match_method_other, match_method_same by done. cbn [mbind option_bind path_id].
  rewrite parse_i32_pretty. by case_bool_decide.
Qed.

Lemma match_path_in routes path route methods params :
  match_path routes path = Some (route, methods, params) ->
  (route, methods) ∈ routes /\ path_params route path = Some params.
Proof.
  induction routes as [|[r ms] routes IH]; [done|]. cbn [match_path].
  destruct (path_params r path) eqn:E; [|intros (? & ?)%IH; set_solver].
  intros [= <- <- <-]. set_solver.
Qed.

Lemma match_method_in methods m extractor :
  match_method methods m = Some extractor ->
  exists registered, (registered, extractor) ∈ methods /\ method_accepts registered m = true.
Proof.
  induction methods as [|[r e] methods IH]; [done|]. cbn [match_method].
  destruct (method_accepts r m) eqn:E; [|intros (? & ? & ?)%IH; set_solver].
  intros [= <-]. set_solver.
Qed.

(** An extractor only makes requests of its handler. *)
Definition makes (P : Handler -> Prop) (e : Extractor) : Prop := forall params q h, e params q = Ok h -> P h.

Lemma makes_path_id (P : Handler -> Prop) f : (forall n, P (f n)) -> makes P (path_id f).
Proof.
  intros Hf params q h. unfold path_id. destruct params as [|[s|e] [|]]; try done.
  destruct (parse_i32 s); naive_solver.
Qed.

Lemma makes_json (P : Handler -> Prop) {A} `{FromJson A} (f : A -> Handler) : (forall a, P (f a)) -> makes P (json_body f).
Proof.
  intros Hf params q h. unfold json_body. destruct (api_body q) as [j|]; [|done]. simpl. destruct (from_json j); naive_solver.
Qed.

Lemma makes_query (P : Handler -> Prop) : (forall ps, P (ListApps ps)) -> makes P query_string.
Proof. intros Hf params q h. unfold query_string. destruct (query_params (api_query q)); naive_solver. Qed.

Lemma makes_plain (P : Handler -> Prop) h : P h -> makes P (plain h).
Proof. by intros Hh params q h' [= <-]. Qed.

Lemma router_endpoints :
  Forall (fun '(route, methods) =>
    Forall (fun '(m, e) => makes (fun h => endpoint h = (m, route)) e) methods) get_router.
Proof.
  repeat constructor; by first [apply makes_path_id|apply makes_json|apply makes_query|apply makes_plain].
Qed.

(** The handler a request is routed to is registered for its route and method. *)
Lemma extract_endpoint q route h :
  extract q = Some (route, Ok h) ->
  (endpoint h).2 = route /\ method_accepts (endpoint h).1 (api_method q) = true.
Proof.
  unfold extract. destruct (match_path _ _) as [[[r methods] params]|] eqn:Ep; [|done]. cbn [mbind option_bind].
  destruct (match_method _ _) as [e|] eqn:Em; [|done]. intros [= -> He].
  apply match_path_in in Ep as [Hr _]. apply match_method_in in Em as (m & Hm & Ha).
  pose proof router_endpoints as Hall. rewrite Forall_forall in Hall. specialize (Hall _ Hr). simpl in Hall.
  rewrite Forall_forall in Hall. specialize (Hall _ Hm _ _ _ He). simpl in Hall. by rewrite Hall.
Qed.

End facts.

(** ** A router for the examples

    Routes with at most one capture, at their end; percent-encoded ASCII. *)
Module SampleRouter.

Definition hex_value (a : ascii) : option nat :=
  let n := nat_of_ascii a in
  if (48 <=? n)%nat && (n <=? 57)%nat then Some (n - 48)%nat
  else if (65 <=? n)%nat && (n <=? 70)%nat then Some (n - 55)%nat
  else if (97 <=? n)%nat && (n <=? 102)%nat then Some (n - 87)%nat
  else None.

(** What is no encoding stays as it is. *)
Fixpoint decode (s : string) : string :=
  match s with
  | String "%" (String a (String b rest) as more) =>
      match hex_value a, hex_value b with
      | Some x, Some y => String (ascii_of_nat (16 * x + y)) (decode rest)
      | _, _ => String "%" (decode more)
      end
  | String a rest => String a (decode rest)
  | EmptyString => EmptyString
  end.

Fixpoint is_ascii (s : string) : bool :=
  match s with EmptyString => true | String a s => (nat_of_ascii a <? 128)%nat && is_ascii s end.

Definition decode_utf8 (s : string) : result string string :=
  if negb (has_char "%" s) || is_ascii (decode s) then Ok (decode s) else Err "invalid UTF-8".

#[export] Instance sample `{HttpLib} : RouterLib := {
  path_params route path :=
    match split_once "{" route with
    | None => if decide (path = route) then Some [] else None
    | Some (prefix, _) =>
        seg ← strip_prefix prefix path;
        if negb (is_empty seg) && negb (has_char "/" seg) then Some [decode_utf8 seg] else None
    end;
  method_accepts registered m :=
    bool_decide (registered = m) || (bool_decide (registered = GET) && bool_decide (m = HEAD));
  body_rejection _ := 415%Z;
  send_response m r := match m with HEAD => mkApiResponse (api_status r) None | _ => r end
}.

Lemma decode_plain s : has_char "%" s = false -> decode s = s.
Proof.
  induction s as [|a s IH]; [done|]. cbn [has_char]. intros [Ha Hs]%orb_false_iff.
  apply bool_decide_eq_false in Ha. rewrite <- (IH Hs) at 2.
  destruct a as [[] [] [] [] [] [] [] []]; done.
Qed.

Lemma split_capture prefix name :
  has_char "{" prefix = false ->
  split_once "{" (prefix +:+ "/{" +:+ name +:+ "}") = Some (prefix +:+ "/", name +:+ "}").
Proof.
  intros Hp. apply split_once_Some. split; [by rewrite <- append_assoc|]. by rewrite has_char_app, Hp.
Qed.

#[export] Instance sample_laws `{HttpLib} : RouterLaws.
Proof.
  split; unfold path_params, method_accepts, send_response, sample.
  - intros route path Hr. by rewrite (proj2 (split_once_None _ _) Hr).
  - intros prefix name seg Hp Hne Hs Hd. rewrite split_capture, (append_assoc prefix "/" seg), strip_prefix_app by done.
    cbn [mbind option_bind]. unfold is_empty. rewrite bool_decide_false, Hs by done. cbn [negb andb].
    unfold decode_utf8. by rewrite Hd, decode_plain.
  - intros registered m. rewrite orb_true_iff, andb_true_iff, !bool_decide_eq_true. done.
  - by intros [] r Hm.
  - done.
Qed.

End SampleRouter.
