(* ===== verification/Client.v ===== *)
(** * The Rust client ([clients/rust/src/lib.rs])

    Each operation of the client is one request ([Call]) and what it makes of the
    answer; [create_session] builds the Spark Connect connection string.  The [url]
    and [spark_connect] crates are the interface [ClientLib]. *)

From stdpp Require Import base option list strings gmap pretty.
From Stdlib Require Import Ascii.
From S2P Require Import Prelude RustStr Http Config Routes Json Api.

Open Scope rust_scope.

Class ClientLib := {
  Url : Type;
  url_parse : string -> result Url string;
  (** [Url::port]: the port, unless it is the scheme's default *)
  url_port : Url -> option Z;
  host_str : Url -> option string;
  (** [SparkSessionBuilder::new().remote(connection).get_or_create()] *)
  SparkSession : Type;
  get_or_create : string -> result SparkSession string
}.

(** The HTTP client the record also holds carries the [Call]s out; [new] and
    [from_client] differ only in it. *)
Record SparkPlugClient := mkSparkPlugClient { base_url : string }.

Definition new_client (url : string) : SparkPlugClient := mkSparkPlugClient url.

Record CreateApplication := mkCreateApplication {
  ca_version : option string;
  ca_config : gmap string string
}.

Record Application := mkApplication {
  app_id : Z;
  app_token : string;
  app_active : bool;
  app_log_url : option string
}.

#[export] Instance CreateApplication_to_json : ToJson CreateApplication :=
  fun r => JObj [("version", to_json (ca_version r)); ("config", to_json (ca_config r))].

#[export] Instance Application_from_json : FromJson Application :=
  fun j =>
    fs <-? struct_fields ["id"; "token"; "active"; "log_url"] j;;
    match fs with
    | [i; t; a; l] =>
        i <-? required "id" i;; t <-? required "token" t;; a <-? required "active" a;; l <-? optional l;;
        Ok (mkApplication i t a l)
    | _ => Err "invalid length"
    end.

(** ** Calls of the server *)

(** The answer of [send]: the status and the body, if it is JSON; or an error. *)
Abbreviation Answer := (result (Z * option Json) string) (only parsing).

Record Call (A : Type) := mkCall {
  call_method : Method;
  call_url : string;
  call_body : option Json;
  call_result : Answer -> result A string
}.
Arguments mkCall {A}.
Arguments call_method {A}.
Arguments call_url {A}.
Arguments call_body {A}.
Arguments call_result {A}.

Section client.
Context `{HttpLib} `{ClientLib}.

Definition url (c : SparkPlugClient) (path : string) : string := base_url c +:+ path.

Definition create_application (c : SparkPlugClient) (version : option string) (config : gmap string string)
    : Call Application :=
  mkCall POST (url c "/apps") (Some (to_json (mkCreateApplication version config)))
    (fun answer =>
       res <-? answer;;
       body <-? ok_or res.2 "error decoding response body";;
       from_json body).

Definition stop_application (c : SparkPlugClient) (app_id : Z) : Call unit :=
  mkCall DELETE (url c ("/apps/" +:+ pretty app_id)) None
    (fun answer =>
       res <-? answer;;
       error_for_status res.1).

(** ** Sessions *)

(** The connection string; [Err] is the error of [Url::parse], [Ok (Err _)] the panic of
    [unwrap] on a URL without a host. *)
Definition connection_string (c : SparkPlugClient) (app : Application) : result (result string Panic) string :=
  url <-? url_parse (base_url c);;
  let port_str := match url_port url with Some p => ":" +:+ pretty p | None => "" end in
  Ok (match host_str url with
      | None => Err (mkPanic "called `Option::unwrap()` on a `None` value")
      | Some host =>
          let sc_url := "sc://" +:+ host +:+ port_str in
          let use_ssl := if starts_with "https" (base_url c) then ";use_ssl=true" else "" in
          Ok (sc_url +:+ "/;token=" +:+ app_token app +:+ use_ssl)
      end).

Definition create_session (c : SparkPlugClient) (app : Application) : result (result SparkSession string) Panic :=
  match connection_string c app with
  | Err e => Ok (Err e)
  | Ok (Err p) => Err p
  | Ok (Ok connection) => Ok (get_or_create connection)
  end.

End client.

(** ** How the other side reads what the client says *)

(** The Spark Connect connection string: [sc://host:port/;name=value;...]. *)
Record Connection := mkConnection {
  conn_host : string;
  conn_params : list (string * string)
}.

Definition read_connection (s : string) : option Connection :=
  rest ← strip_prefix "sc://" s;
  '(authority, params) ← split_once "/" rest;
  params ← mapM (split_once "=") (base.filter (fun p => p <> "") (split ";" params));
  Some (mkConnection authority params).

(** ** Lemmas *)

Section facts.
Context `{HttpLib} `{!RouterLib} `{!RouterLaws} `{QueryLib} `{ClientLib}.

Lemma Application_reads_info (info : ApplicationInfo) :
  valid info ->
  from_json (to_json info) =
    Ok (mkApplication (info_id info) (info_token info) (info_active info) (info_log_url info)).
Proof.
  destruct info as [i n t s a u l]. intros Hi. simpl in Hi.
  unfold from_json at 1, Application_from_json, to_json at 1, ApplicationInfo_to_json.
  match goal with |- context [struct_fields ?ns ?o] =>
    assert (struct_fields ns o = Ok [Some (to_json i); Some (to_json t); Some (to_json a); Some (to_json l)])
      as -> by reflexivity end.
  rewrite !required_to_json by done. by rewrite optional_to_json.
Qed.

Lemma server_reads_request version config :
  from_json (to_json (mkCreateApplication version config)) =
    Ok (mkCreateApplicationRequest None version (Some config) None).
Proof.
  unfold from_json at 1, CreateApplicationRequest_from_json, to_json at 1, CreateApplication_to_json.
  simpl ca_version. simpl ca_config.
  match goal with |- context [struct_fields ?ns ?o] =>
    assert (struct_fields ns o = Ok [None; Some (to_json version); Some (to_json config); None])
      as -> by reflexivity end.
  rewrite optional_to_json by done.
  change (Some (to_json config)) with (Some (to_json (Some config))).
  by rewrite optional_to_json.
Qed.

(** C34. What the client posts to create an application is the request of the server's
    [create_app] with this version and configuration, at its endpoint; and of whatever
    the server answers, the view of an application is taken over, the status is not
    looked at, and anything else is an error. *)
Theorem create_application_meets_api (base : string) version config :
  let call := create_application (new_client base) version config in
  let params := mkCreateApplicationRequest None version (Some config) None in
  (call_method call, call_url call) =
    ((endpoint (CreateApp params)).1, base +:+ (endpoint (CreateApp params)).2) /\
  (exists body, call_body call = Some body /\ from_json body = Ok params) /\
  (forall status info, valid info ->
     call_result call (Ok (status, Some (to_json info))) =
       Ok (mkApplication (info_id info) (info_token info) (info_active info) (info_log_url info))) /\
  (forall answer app, call_result call answer = Ok app <->
     exists status body, answer = Ok (status, Some body) /\ from_json body = Ok app).
Proof.
  cbn [create_application call_method call_url call_body call_result new_client url base_url].
  split_and!; [done| | |].
  - eexists. split; [done|apply server_reads_request].
  - intros status info Hi. cbn [ok_or snd]. by apply Application_reads_info.
  - intros [[status [body|]]|e] app; simpl; naive_solver.
Qed.

(** C22. Stopping an application asks for the server's route that deletes it, and no
    other, whatever else the request carries: for the id of any application the handler
    it reaches is [delete_app] of this id, read back from the decimal in the path, and a
    number that is no 32-bit id is refused with a 400.  Stopping succeeds exactly when
    the status of the answer is not an error. *)
Theorem stop_application_meets_api (base : string) (n : Z) :
  let call := stop_application (new_client base) n in
  (exists path, call_url call = base +:+ path /\
     forall query headers body,
       extract (mkApiRequest (call_method call) path query headers body) =
         Some ((endpoint (DeleteApp n)).2, if bool_decide (i32 n) then Ok (DeleteApp n) else Err 400%Z)) /\
  call_method call = (endpoint (DeleteApp n)).1 /\ call_body call = None /\
  (forall answer, call_result call answer = Ok tt <->
     exists status body, answer = Ok (status, body) /\ error_for_status status = Ok tt).
Proof.
  cbn [stop_application call_method call_url call_body call_result new_client url base_url].
  split_and!; [|done..|].
  - eexists. split; [done|]. intros query headers body. apply extract_delete.
  - intros answer. split; [|by intros (status & body & -> & Hst)].
    destruct answer as [[status body]|e]; [|done]. intros Hst. by exists status, body.
Qed.

(** C35. For a server whose host has no slash and a token without a semicolon, the
    connection string reads back to this host, with the port exactly if the base URL
    names one that is not its scheme's default, and to this token, with encryption
    asked for exactly if the base URL starts with [https]; it is an error exactly if
    the base URL is none. *)
Theorem connection_string_reads_back (base : string) (app : Application) :
  match url_parse base with
  | Err e => connection_string (new_client base) app = Err e
  | Ok u =>
      match host_str u with
      | None => exists p, connection_string (new_client base) app = Ok (Err p)
      | Some host =>
          has_char "/" host = false -> has_char ";" (app_token app) = false ->
          exists s, connection_string (new_client base) app = Ok (Ok s) /\
            read_connection s = Some (mkConnection
              (host +:+ match url_port u with Some p => ":" +:+ pretty p | None => "" end)
              (("token", app_token app) ::
               (if starts_with "https" base then [("use_ssl", "true")] else [])))
      end
  end.
Proof.
  unfold connection_string. cbn [new_client base_url]. destruct (url_parse base) as [u|]; [|done].
  destruct (host_str u) as [host|]; [|by eexists]. intros Hh Ht. eexists. split; [done|].
  set (port := match url_port u with Some p => _ | None => _ end).
  assert (has_char "/" port = false) as Hp.
  { unfold port. destruct (url_port u); [|done]. rewrite has_char_app. simpl.
    apply has_char_pretty; [by repeat constructor|done]. }
  clearbody port. unfold read_connection.
  rewrite <- !append_assoc, strip_prefix_app, append_assoc. cbn [mbind option_bind].
  assert (split_once "/" ((host +:+ port) +:+ "/;token=" +:+ app_token app +:+
            (if starts_with "https" base then ";use_ssl=true" else "")) =
          Some (host +:+ port, "" +:+ String ";" ("token=" +:+ app_token app +:+
            (if starts_with "https" base then ";use_ssl=true" else "")))) as ->.
  { apply split_once_Some. split; [done|]. by rewrite has_char_app, Hh. }
  cbn [mbind option_bind]. rewrite split_app_sep by done.
  assert (split_once "=" ("token=" +:+ app_token app) = Some ("token", app_token app)) as Htok
    by (by apply split_once_Some).
  assert (has_char ";" ("token=" +:+ app_token app) = false) as Hsemi by (by rewrite has_char_app, Ht).
  rewrite append_assoc. destruct (starts_with "https" base).
  - change ";use_ssl=true" with (String ";" "use_ssl=true"). rewrite split_app_sep by done.
    rewrite filter_cons_False by tauto. rewrite filter_cons_True by done.
    cbn -[split_once String.append]. by rewrite Htok.
  - rewrite append_nil_r, split_nosep by done.
    rewrite filter_cons_False by tauto. rewrite filter_cons_True by done.
    cbn -[split_once String.append]. by rewrite Htok.
Qed.

End facts.

(** ** A URL library for the examples: a scheme, a host and perhaps the port 8100. *)
Module SampleClient.

Definition parse_authority (s : string) : result (string * option Z) string :=
  match split_once ":" s with
  | None => Ok (s, None)
  | Some (host, port) => if decide (port = "8100") then Ok (host, Some 8100%Z) else Err "invalid port number"
  end.

#[export] Instance sample : ClientLib := {
  Url := string * option Z;
  url_parse s :=
    match strip_prefix "https://" s, strip_prefix "http://" s with
    | Some a, _ | None, Some a => parse_authority a
    | None, None => Err "relative URL without a base"
    end;
  url_port := snd;
  host_str u := Some u.1;
  SparkSession := string;
  get_or_create s := Ok s
}.

End SampleClient.
