(* ===== verification/Server.v ===== *)
(** * The server process ([server/src/lib.rs], [server/src/main.rs])

    The maintenance commands [prune] and [check] as programs, the accept loop with
    its graceful shutdown as a state machine driven by events, and the choice of the
    command. *)

From stdpp Require Import base option list strings gmap.
From S2P Require Import Prelude RustStr Entities Database Error Http Cache Env Config Proxy.
Import application.

Open Scope rust_scope.

(** [chrono]'s [DateTime::from_timestamp], in nanoseconds from the epoch. *)
Class TimeLib := { from_timestamp : Z -> Z -> option Z }.

(** Documented: a result exactly for the instants of the years -262143 to 262142. *)
Definition TIMESTAMP_MIN : Z := -8334601228800.
Definition TIMESTAMP_MAX : Z := 8210266876799.

Class TimeLaws `{TimeLib} : Prop := {
  from_timestamp_in secs : (TIMESTAMP_MIN <= secs <= TIMESTAMP_MAX)%Z ->
    from_timestamp secs 0 = Some (secs * 1000000000)%Z;
  from_timestamp_out secs : ~ (TIMESTAMP_MIN <= secs <= TIMESTAMP_MAX)%Z -> from_timestamp secs 0 = None
}.

(** ** Machine integers *)

(** [x as i64] for a [u64]. *)
Definition u64_as_i64 (x : Z) : Z := if (x <? 2 ^ 63)%Z then x else (x - 2 ^ 64)%Z.

(** [i64::saturating_sub]. *)
Definition saturating_sub (x y : Z) : Z := Z.max (- 2 ^ 63) (Z.min (2 ^ 63 - 1) (x - y)).

Definition HEALTH_CHECK_RETRIES : nat := 3.
Definition HEALTH_CHECK_RETRY_DELAY : Z := 1000.

(** The commands of the binary. *)
Inductive ProxyCommand := Start | Prune (seconds : Z) | Check_.

(** [args.command.unwrap_or(ProxyCommand::Start)]. *)
Definition selected_command (command : option ProxyCommand) : ProxyCommand := unwrap_or command Start.

(** [config.store], or an in-memory database. *)
Definition store_url (config : ProxyConfig) : string := unwrap_or (store config) "sqlite::memory:".

Section server.
Context `{HttpLib} `{TimeLib}.

Definition ensure_db : prog (result unit string) :=
  _ <-! map_err_m DbErr_display (do MigrateUp);;
  Ret (Ok tt).

(** The cutoff of [prune], in seconds from the epoch. *)
Definition prune_cutoff (now older_than_seconds : Z) : Z :=
  saturating_sub (u64_as_i64 now) (u64_as_i64 older_than_seconds).

Definition prune_query (cutoff : Z) : Query :=
  [AnyOf [StateEq FAILED; StateEq FINISHED]; CreatedAtLte cutoff].

Definition prune (older_than_seconds : Z) : prog (result unit string) :=
  _ <-! ensure_db;;
  now <-! do SystemNow;;
  match from_timestamp (prune_cutoff now older_than_seconds) 0 with
  | None => Ret (Err "Failed to create prune cutoff timestamp")
  | Some cutoff =>
      rows_affected <-! map_err_m DbErr_display (do (Db (DeleteMany (prune_query cutoff))));;
      Ret (Ok tt)
  end.

(** The attempts of [check_application_health], with [n] of them left.  The [expect]
    on the last error cannot panic: the loop runs at least once. *)
Fixpoint health_attempts (attempt n : nat) (address token : string) (last_error : string)
    : prog (result unit string) :=
  match n with
  | O => Ret (Err last_error)
  | S n =>
      r <- send_session_message address token "health";;
      match r with
      | Ok _ => Ret (Ok tt)
      | Err error =>
          _ <- (if (attempt <? HEALTH_CHECK_RETRIES)%nat
                then do (Sleep HEALTH_CHECK_RETRY_DELAY) else Ret tt);;
          health_attempts (S attempt) n address token error
      end
  end.

Definition check_application_health (address token : string) : prog (result unit string) :=
  health_attempts 0 (S HEALTH_CHECK_RETRIES) address token "".

(** The row [check] writes for an application it gives up on. *)
Definition unreachable_application (app_id : Z) : ActiveModel :=
  mkActiveModel (AvSet app_id) NotSet NotSet NotSet (AvSet FAILED) NotSet (AvSet None) NotSet.

Fixpoint check_apps (running_apps : list Model) (failed_count : nat) : prog (result nat string) :=
  match running_apps with
  | [] => Ret (Ok failed_count)
  | app :: running_apps =>
      should_fail <- match address app with
                     | Some address =>
                         r <- check_application_health address (token app);;
                         Ret (is_err r)
                     | None => Ret true
                     end;;
      if should_fail : bool then
        _ <-! map_err_m DbErr_display (do (Db (Update (unreachable_application (id app)))));;
        check_apps running_apps (S failed_count)
      else check_apps running_apps failed_count
  end.

Definition check : prog (result unit string) :=
  _ <-! ensure_db;;
  running_apps <-! map_err_m DbErr_display (do (Db (All [StateEq RUNNING])));;
  failed_count <-! check_apps running_apps 0;;
  Ret (Ok tt).

End server.

(** ** The accept loop and graceful shutdown

    [run] and the tasks of [serve_connection] share two watch channels: [signal]
    tells the tasks to wind down, and [run] returns once every task has dropped its
    receiver of [close]. *)

Inductive TaskState := Serving | ShuttingDown | Closed.

#[global] Instance TaskState_eq_dec : EqDecision TaskState.
Proof. solve_decision. Defined.

(** What [run] is doing: the [select!] of the accept loop, the TLS handshake of a
    connection it has accepted, waiting for the tasks, or nothing any more. *)
Inductive Phase :=
| Accepting
| Handshaking
| Waiting
| Returned (r : result unit string)
| Panicked (msg : string).

Record RunState := mkRunState {
  phase : Phase;
  signalled : bool;
  connections : gmap nat TaskState;
  next_connection : nat
}.

Definition run_start : RunState := mkRunState Accepting false ∅ 0.

Definition with_phase (p : Phase) (s : RunState) : RunState :=
  mkRunState p (signalled s) (connections s) (next_connection s).

Definition with_task (i : nat) (t : TaskState) (s : RunState) : RunState :=
  mkRunState (phase s) (signalled s) (<[i := t]> (connections s)) (next_connection s).

Inductive RunEvent :=
| Signal                                   (* the signal task has received SIGINT or SIGTERM *)
| SignalTaskPanics                         (* it could not install a handler *)
| Accepted                                 (* a TCP connection *)
| AcceptFailed (msg : string)
| HandshakeEnds (r : result unit string)
| SeeClosed                                (* the loop notices the signal *)
| TaskSeesSignal (i : nat)
| TaskEnds (i : nat)
| AllClosed.

(** [serve_connection]: a task that holds a receiver of [close]. *)
Definition serve_connection (s : RunState) : RunState :=
  mkRunState Accepting (signalled s) (<[next_connection s := Serving]> (connections s)) (S (next_connection s)).

(** One event; [None] when it cannot happen in this state.  However the signal task ends,
    its receiver of the signal channel is dropped, which is what the loop and the
    connections see.  While a handshake runs the loop polls neither the listener nor the
    signal. *)
Definition run_step (tls_acceptor : bool) (s : RunState) (e : RunEvent) : option RunState :=
  match e with
  | Signal | SignalTaskPanics => Some (mkRunState (phase s) true (connections s) (next_connection s))
  | Accepted =>
      match phase s with
      | Accepting => Some (if tls_acceptor then with_phase Handshaking s else serve_connection s)
      | _ => None
      end
  | AcceptFailed msg =>
      match phase s with
      | Accepting => Some (with_phase (Panicked msg) s)
      | _ => None
      end
  | HandshakeEnds r =>
      match phase s with
      | Handshaking =>
          match r with
          | Ok _ => Some (serve_connection s)
          | Err e => Some (with_phase (Returned (Err e)) s)
          end
      | _ => None
      end
  | SeeClosed =>
      match phase s with
      | Accepting => if signalled s then Some (with_phase Waiting s) else None
      | _ => None
      end
  | TaskSeesSignal i =>
      match connections s !! i with
      | Some Serving => if signalled s then Some (with_task i ShuttingDown s) else None
      | _ => None
      end
  | TaskEnds i =>
      match connections s !! i with
      | Some Serving | Some ShuttingDown => Some (with_task i Closed s)
      | _ => None
      end
  | AllClosed =>
      match phase s with
      | Waiting =>
          if bool_decide (map_Forall (fun _ t => t = Closed) (connections s))
          then Some (with_phase (Returned (Ok tt)) s)
          else None
      | _ => None
      end
  end.

(** A sequence of events. *)
Fixpoint run_steps (tls_acceptor : bool) (s : RunState) (es : list RunEvent) : option RunState :=
  match es with
  | [] => Some s
  | e :: es => match run_step tls_acceptor s e with Some s' => run_steps tls_acceptor s' es | None => None end
  end.

(** ** Samples for the examples *)
Module SampleTime.

#[export] Instance sample : TimeLib := {
  from_timestamp secs _ :=
    if (TIMESTAMP_MIN <=? secs)%Z && (secs <=? TIMESTAMP_MAX)%Z then Some (secs * 1000000000)%Z else None
}.

#[export] Instance sample_laws : TimeLaws.
Proof.
  split; intros secs Hs; unfold from_timestamp, sample.
  - by rewrite (proj2 (Z.leb_le _ _)), (proj2 (Z.leb_le _ _)) by lia.
  - destruct (TIMESTAMP_MIN <=? secs)%Z eqn:E1, (secs <=? TIMESTAMP_MAX)%Z eqn:E2; try done.
    exfalso. apply Hs. lia.
Qed.

End SampleTime.
