(* ===== verification/Migrations.v ===== *)
(** * The schema migrations ([server/migration/src])

    A migration is its name and the sequences of schema statements it hands to the schema
    manager.  What a statement does is the database's business ([SchemaDb]), and which
    migrations a run of the migrator executes is [sea-orm-migration]'s ([MigratorLib]),
    which keeps a table of the ones applied; both are interfaces with their documented
    laws. *)

From stdpp Require Import base option list strings gmap.
From S2P Require Import Prelude Entities Http Routes.
Import application.

Open Scope rust_scope.

Inductive ColumnType := PkAuto | StringType | TimestampWithTimeZone.

#[export] Instance ColumnType_eq_dec : EqDecision ColumnType.
Proof. solve_decision. Defined.

Record ColumnDef := mkColumnDef {
  column_name : string;
  column_type : ColumnType;
  column_null : bool;
  column_default : option string
}.

#[export] Instance ColumnDef_eq_dec : EqDecision ColumnDef.
Proof. solve_decision. Defined.

Definition string_ (n : string) : ColumnDef := mkColumnDef n StringType false None.

Inductive Ddl :=
| CreateTable (if_not_exists : bool) (table : string) (cols : list ColumnDef)
| CreateIndex (name table col : string)
| DropIndex (if_exists : bool) (name table : string)
| DropTable (if_exists : bool) (table : string)
| AddColumn (table : string) (col : ColumnDef)
| DropColumn (table col : string).

(** ** The migrations of the source *)

(** The name is that of the module, by [DeriveMigrationName]. *)
Record Migration := mkMigration { migration_name : string; up : list Ddl; down : list Ddl }.




(** ** What the statements do

    A schema is its tables with their columns and its indexes, each with its table and
    column; [None] is an error.  The database is an interface: its laws are the
    documented effects of the statements where they succeed. *)
Record Schema := mkSchema {
  tables : gmap string (list ColumnDef);
  indexes : gmap string (string * string)
}.

Class SchemaDb := { ddl : Ddl -> Schema -> option Schema }.

Class SchemaLaws `{SchemaDb} : Prop := {
  create_table_new b t cols s : tables s !! t = None ->
    ddl (CreateTable b t cols) s = Some (mkSchema (<[t := cols]> (tables s)) (indexes s));
  create_index_new n t c cols s : tables s !! t = Some cols -> c ∈ column_name <$> cols ->
    indexes s !! n = None ->
    ddl (CreateIndex n t c) s = Some (mkSchema (tables s) (<[n := (t, c)]> (indexes s)));
  drop_index_old b n t c s : indexes s !! n = Some (t, c) ->
    ddl (DropIndex b n t) s = Some (mkSchema (tables s) (delete n (indexes s)));
  drop_table_old b t cols s : tables s !! t = Some cols ->
    map_Forall (fun _ i => i.1 <> t) (indexes s) ->
    ddl (DropTable b t) s = Some (mkSchema (delete t (tables s)) (indexes s));
  add_column_new t c cols s : tables s !! t = Some cols -> column_name c ∉ column_name <$> cols ->
    ddl (AddColumn t c) s = Some (mkSchema (<[t := cols ++ [c]]> (tables s)) (indexes s));
  drop_column_old t c cols s : tables s !! t = Some cols -> c ∈ column_name <$> cols ->
    map_Forall (fun _ i => i <> (t, c)) (indexes s) ->
    ddl (DropColumn t c) s =
      Some (mkSchema (<[t := base.filter (fun d => column_name d <> c) cols]> (tables s)) (indexes s))
}.

(** Statements one after the other, each awaited with [?]. *)
Fixpoint ddls `{SchemaDb} (ds : list Ddl) (s : Schema) : option Schema :=
  match ds with
  | [] => Some s
  | d :: ds => s ← ddl d s; ddls ds s
  end.

(** ** The runner

    [MigratorTrait::up] and [down] of a list of migrations, without a bound on how many;
    a database has a schema and remembers the names of the migrations applied to it. *)
Class MigratorLib := {
  Store : Type;
  schema : Store -> Schema;
  applied : Store -> list string;
  (** the columns of the table the runner keeps *)
  seaql_columns : list ColumnDef;
  migrate_up : list Migration -> Store -> option Store;
  migrate_down : list Migration -> Store -> option Store
}.

(** The schema with the table of the runner, which either run makes first. *)
Definition installed `{MigratorLib} (s : Schema) : Schema :=
  match tables s !! "seaql_migrations" with
  | Some _ => s
  | None => mkSchema (<["seaql_migrations" := seaql_columns]> (tables s)) (indexes s)
  end.

(** Documented: [up] applies the migrations that are not yet, in order, and records
    them; [down] undoes the ones that are, in reverse order, and forgets them.  Both
    refuse a database to which a migration was applied that is not in the list. *)
Class MigratorLaws `{SchemaDb, MigratorLib} : Prop := {
  up_applies ms d s :
    Forall (fun n => n ∈ migration_name <$> ms) (applied d) ->
    ddls (base.filter (fun m => migration_name m ∉ applied d) ms ≫= up) (installed (schema d)) = Some s ->
    exists d', migrate_up ms d = Some d' /\ schema d' = s /\
      applied d' = applied d ++ (migration_name <$> base.filter (fun m => migration_name m ∉ applied d) ms);
  down_undoes ms d s :
    Forall (fun n => n ∈ migration_name <$> ms) (applied d) ->
    ddls (rev (base.filter (fun m => migration_name m ∈ applied d) ms) ≫= down) (installed (schema d)) = Some s ->
    exists d', migrate_down ms d = Some d' /\ schema d' = s /\ applied d' = []
}.

(** ** The schema and the entity *)








Section statements.
Context `{SchemaDb} `{!SchemaLaws}.






End statements.

Section facts.
Context `{SchemaDb} `{!SchemaLaws} `{!MigratorLib} `{!MigratorLaws}.






End facts.

(** ** A database in memory for the examples *)
Module MemSchema.

Definition mem_ddl (d : Ddl) (s : Schema) : option Schema :=
  match d with
  | CreateTable if_not_exists t cols =>
      match tables s !! t with
      | Some _ => if if_not_exists then Some s else None
      | None => Some (mkSchema (<[t := cols]> (tables s)) (indexes s))
      end
  | CreateIndex n t c =>
      cols ← tables s !! t;
      if bool_decide (c ∈ column_name <$> cols) && bool_decide (indexes s !! n = None)
      then Some (mkSchema (tables s) (<[n := (t, c)]> (indexes s))) else None
  | DropIndex if_exists n _ =>
      if bool_decide (is_Some (indexes s !! n)) || if_exists
      then Some (mkSchema (tables s) (delete n (indexes s))) else None
  | DropTable if_exists t =>
      if bool_decide (is_Some (tables s !! t)) || if_exists
      then Some (mkSchema (delete t (tables s)) (base.filter (fun i => i.2.1 <> t) (indexes s))) else None
  | AddColumn t c =>
      cols ← tables s !! t;
      if bool_decide (column_name c ∈ column_name <$> cols) then None
      else Some (mkSchema (<[t := cols ++ [c]]> (tables s)) (indexes s))
  | DropColumn t c =>
      cols ← tables s !! t;
      if bool_decide (c ∈ column_name <$> cols) && bool_decide (map_Forall (fun _ i => i <> (t, c)) (indexes s))
      then Some (mkSchema (<[t := base.filter (fun d => column_name d <> c) cols]> (tables s)) (indexes s))
      else None
  end.

#[export] Instance sample : SchemaDb := { ddl := mem_ddl }.

#[export] Instance sample_laws : SchemaLaws.
Proof.
  split; intros; unfold ddl, sample, mem_ddl.
  - by case_match; simplify_eq.
  - match goal with E : tables _ !! _ = Some _ |- _ => rewrite E end; simpl; rewrite !bool_decide_true; done.
  - rewrite bool_decide_true; [done|by eexists].
  - rewrite bool_decide_true by (by eexists). simpl. by rewrite map_filter_id.
  - match goal with E : tables _ !! _ = Some _ |- _ => rewrite E end; simpl; rewrite bool_decide_false; done.
  - match goal with E : tables _ !! _ = Some _ |- _ => rewrite E end; simpl; rewrite !bool_decide_true; done.
Qed.

(** The runner, with the names it has recorded. *)
#[export] Instance mem_migrator : MigratorLib := {
  Store := Schema * list string;
  schema := fst;
  applied := snd;
  seaql_columns := [string_ "version"; mkColumnDef "applied_at" TimestampWithTimeZone false None];
  migrate_up ms d :=
    if bool_decide (Forall (fun n => n ∈ migration_name <$> ms) d.2) then
      let pending := base.filter (fun m => migration_name m ∉ d.2) ms in
      let s0 := match tables d.1 !! "seaql_migrations" with
                | Some _ => d.1
                | None => mkSchema (<["seaql_migrations" :=
                    [string_ "version"; mkColumnDef "applied_at" TimestampWithTimeZone false None]]> (tables d.1)) (indexes d.1)
                end in
      s ← ddls (pending ≫= up) s0;
      Some (s, d.2 ++ (migration_name <$> pending))
    else None;
  migrate_down ms d :=
    if bool_decide (Forall (fun n => n ∈ migration_name <$> ms) d.2) then
      let s0 := match tables d.1 !! "seaql_migrations" with
                | Some _ => d.1
                | None => mkSchema (<["seaql_migrations" :=
                    [string_ "version"; mkColumnDef "applied_at" TimestampWithTimeZone false None]]> (tables d.1)) (indexes d.1)
                end in
      s ← ddls (rev (base.filter (fun m => migration_name m ∈ d.2) ms) ≫= down) s0;
      Some (s, [])
    else None
}.

#[export] Instance mem_migrator_laws : MigratorLaws.
Proof.
  split; intros ms [s0 names] s Hn Hs; unfold installed in Hs;
    cbn [schema applied fst snd seaql_columns mem_migrator] in Hn, Hs |- *.
  - eexists (s, _). split; [|done]. unfold migrate_up, mem_migrator. cbn [fst snd].
    rewrite bool_decide_true by done. by rewrite Hs.
  - exists (s, []). split; [|done]. unfold migrate_down, mem_migrator. cbn [fst snd].
    rewrite bool_decide_true by done. by rewrite Hs.
Qed.

End MemSchema.
