(* ===== verification/Sample.v ===== *)
(** * A concrete environment for the examples

    [World] couples the in-memory database with a cache and scripted answers for the
    network, and meets [EnvLaws]; the witnesses of the theorems run in it. *)

From stdpp Require Import base option list strings gmap sets.
From S2P Require Import Prelude RustStr Entities Database Error Http Cache Env Launcher.
Import SampleHttp.

Record World := mkWorld {
  w_db : MemDb;
  w_cache : Cache.State;
  (* what the HTTP client and the TCP connections of the test answer, in order *)
  w_posts : list (result Z string);
  w_tcp : list (result nat IoError);
  w_queue : list (Request * nat);
  w_now : Z
}.

Definition with_db (d : MemDb) (w : World) : World :=
  mkWorld d (w_cache w) (w_posts w) (w_tcp w) (w_queue w) (w_now w).
Definition with_cache (c : Cache.State) (w : World) : World :=
  mkWorld (w_db w) c (w_posts w) (w_tcp w) (w_queue w) (w_now w).
Definition drop_post (w : World) : World :=
  mkWorld (w_db w) (w_cache w) (tail (w_posts w)) (w_tcp w) (w_queue w) (w_now w).
Definition drop_tcp (w : World) : World :=
  mkWorld (w_db w) (w_cache w) (w_posts w) (tail (w_tcp w)) (w_queue w) (w_now w).
Definition drop_message (w : World) : World :=
  mkWorld (w_db w) (w_cache w) (w_posts w) (w_tcp w) (tail (w_queue w)) (w_now w).

(** A token longer than, so different from, every token of the table. *)
Definition new_token (t : Table) : string :=
  "t" +:+ (concat (application.token <$> (map_to_list t).*2)).

#[export] Instance sample_env : Env World := fun e w =>
  match e return resp e * World with
  | Db s => let '(r, d) := mem_exec s (w_db w) in (r, with_db d w)
  | CacheOp o => let '(r, c) := Cache.step o (w_cache w) in (r, with_cache c w)
  | NewV4 => (new_token (table (w_db w)), w)
  | MigrateUp => (Ok tt, w)
  | SystemNow => (Ok (w_now w), w)
  | Spawn _ => (0, w)
  | AwaitHandle _ => (tt, w)
  | Sleep _ => (tt, w)
  | Tempdir prefix => (Ok ("/tmp/" +:+ prefix), w)
  | CommandStatus _ _ => (Ok true, w)
  | CommandSpawn _ _ _ => (Ok 0, w)
  | BuildClient => (Ok tt, w)
  | HttpPost _ => (default (Ok 200%Z) (head (w_posts w)), drop_post w)
  | QueueSend c _ => (if bool_decide (c ∈ Cache.closed (w_cache w)) then Err tt else Ok tt, w)
  | QueueRecv _ => (head (w_queue w), drop_message w)
  | QueueIsClosed c => (false, w)
  | OneshotNew => (0, w)
  | OneshotSend _ _ => (true, w)
  | OneshotRecv _ => (None, w)
  | TcpConnect _ => (default (Ok 0) (head (w_tcp w)), drop_tcp w)
  | Http2Handshake _ => (Ok 0, w)
  | SenderReady _ => (Ok tt, w)
  | SenderSend _ _ => (0, w)
  | AwaitResponse _ => (Err (HyperErrorMsg "connection closed"), w)
  end.

#[export] Instance sample_view : View World := {
  rows w := table (w_db w);
  cache w := w_cache w;
  healthy w := faults (w_db w) = []
}.

Lemma length_concat (l : list string) s : s ∈ l -> (String.length s <= String.length (concat l))%nat.
Proof.
  induction l as [|x l IH]; intros Hs; [by apply elem_of_nil in Hs|]. simpl. rewrite length_append.
  apply elem_of_cons in Hs as [->|Hs]; [lia|]. specialize (IH Hs). lia.
Qed.

#[export] Instance sample_laws : EnvLaws World.
Proof.
  split.
  - intros w. apply table_keyed.
  - intros s w. pose proof (mem_exec_post s (w_db w)) as Hp. cbn.
    by destruct (mem_exec s (w_db w)).
  - intros s w Hh Ha. destruct (mem_exec_up s (w_db w) Hh Ha) as [[a Ha'] _]. exists a. cbn.
    by destruct (mem_exec s (w_db w)).
  - intros o w. cbn. by destruct (Cache.step o (w_cache w)).
  - intros e w He. destruct e; try done; [by edestruct He|]. cbn. by destruct (Cache.step o (w_cache w)).
  - intros e w He. destruct e; try done; [|by edestruct He]. cbn. by destruct (mem_exec s (w_db w)).
  - intros e w Hh. destruct e; try done; cbn.
    + pose proof (mem_exec_faults s _ Hh) as Hf. by destruct (mem_exec s (w_db w)).
    + by destruct (Cache.step o (w_cache w)).
  - intros w k m Hm Heq. cbn in Hm, Heq.
    assert (Hin : application.token m ∈ application.token <$> (map_to_list (table (w_db w))).*2).
    { apply list_elem_of_fmap. exists m. split; [done|]. apply list_elem_of_fmap. exists (k, m).
      split; [done|]. by apply elem_of_map_to_list. }
    apply length_concat in Hin. rewrite Heq in Hin. unfold new_token in Hin. rewrite length_append in Hin. simpl in Hin. lia.
Qed.

(** A table from its rows, and a world around it. *)
Definition keyed_rows (ms : list application.Model) : Table :=
  foldr (fun m t => <[application.id m := m]> t) ∅ ms.

Lemma keyed_rows_keyed ms : keyed (keyed_rows ms).
Proof. induction ms as [|m ms IH]; simpl; [by intros k m; rewrite lookup_empty|]. by apply keyed_insert. Qed.

Definition mem_db (ms : list application.Model) : MemDb := mkMemDb (keyed_rows ms) (keyed_rows_keyed ms) 0 [].

Definition world (ms : list application.Model) : World := mkWorld (mem_db ms) Cache.new [] [] [] 1000.

(** Three applications: one of alice running, one of alice launching, one of bob
    finished. *)
Definition app_running : application.Model :=
  application.mkModel 1 10 "alice" (Some "etl") RUNNING "tok-1" (Some "10.0.0.1:4000") (Some "app-1").
Definition app_launching : application.Model :=
  application.mkModel 2 20 "alice" None LAUNCHING "tok-2" None None.
Definition app_finished : application.Model :=
  application.mkModel 3 30 "bob" None FINISHED "tok-3" None (Some "app-3").

Definition world3 : World := world [app_running; app_launching; app_finished].
