(* ===== verification/RoutesFacts.v ===== *)
(** * What the REST API guarantees

    The complete behaviour of every handler run alone, errors included; what each may
    do to the database whatever else happens; and who gets past the layers. *)

From stdpp Require Import base option list strings gmap sets.
From Stdlib Require Import Ascii.
From S2P Require Import Prelude RustStr Entities Database Error Http Cache Env Config Launcher Auth Proxy Routes.
Import application.

(** ** Rows addressed by key and owner *)

Definition owned (t : Table) (app_id : Z) (user : string) (m : Model) : Prop :=
  t !! app_id = Some m /\ username m = user.

Lemma sat_user_id user app_id m :
  sat [UsernameEq user; IdEq app_id] m = true <-> username m = user /\ id m = app_id.
Proof. simpl. rewrite andb_true_r, andb_true_iff, !bool_decide_eq_true. done. Qed.

Lemma selected_user_id t user app_id : keyed t ->
  selected [UsernameEq user; IdEq app_id] t = ∅ <-> forall m, ~ owned t app_id user m.
Proof.
  intros Hk. rewrite selected_empty. split.
  - intros Hs m [Hm Hu]. specialize (Hs _ _ Hm). apply not_true_iff_false in Hs. apply Hs.
    apply sat_user_id. split; [done|]. by apply Hk.
  - intros Ho k m Hm. apply not_true_iff_false. intros [Hu Hid]%sat_user_id.
    apply (Ho m). split; [|done]. rewrite <- Hid. by rewrite (Hk _ _ Hm).
Qed.

Lemma sat_id_user user app_id m :
  sat [IdEq app_id; UsernameEq user] m = true <-> id m = app_id /\ username m = user.
Proof. simpl. rewrite andb_true_r, andb_true_iff, !bool_decide_eq_true. done. Qed.

(** An update by key and owner rewrites that row. *)
Lemma update_owned cols t app_id user m : keyed t -> owned t app_id user m ->
  update_rows cols [IdEq app_id; UsernameEq user] t = <[app_id := set_cols cols m]> t.
Proof.
  intros Hk [Hm Hu]. apply map_eq. intros k. rewrite update_rows_lookup.
  destruct (decide (k = app_id)) as [->|Hne].
  - rewrite Hm, lookup_insert_eq. cbn [fmap option_fmap option_map]. f_equal.
    assert (sat [IdEq app_id; UsernameEq user] m = true) as ->; [|done].
    apply sat_id_user. split; [by apply Hk|done].
  - rewrite lookup_insert_ne by done. destruct (t !! k) as [m'|] eqn:E; [|done].
    cbn [fmap option_fmap option_map]. f_equal. destruct (sat _ m') eqn:Es; [|done]. apply sat_id_user in Es as [Hid _].
    rewrite (Hk _ _ E) in Hid. done.
Qed.

Lemma sat_token tok m : sat [TokenEq tok] m = true <-> token m = tok.
Proof. simpl. by rewrite andb_true_r, bool_decide_eq_true. Qed.

Lemma selected_token t tok : selected [TokenEq tok] t = ∅ <-> forall k m, t !! k = Some m -> token m <> tok.
Proof.
  rewrite selected_empty. split; intros Hs k m Hm.
  - intros Ht. specialize (Hs _ _ Hm). by rewrite (proj2 (sat_token tok m) Ht) in Hs.
  - apply not_true_iff_false. intros ?%sat_token. by eapply Hs.
Qed.

Lemma update_none cols q t : selected q t = ∅ -> update_rows cols q t = t.
Proof.
  rewrite selected_empty. intros Hs. apply map_eq. intros k. rewrite update_rows_lookup.
  destruct (t !! k) as [m|] eqn:E; [|done]. simpl. by rewrite (Hs _ _ E).
Qed.

(** Every selected row appears once among the values. *)
Lemma NoDup_selected q t : keyed t -> NoDup (map_to_list (selected q t)).*2.
Proof.
  intros Hk.
  pose proof (NoDup_map_to_list (selected q t)) as Hnd.
  apply (NoDup_fmap_2_strong snd); [|done].
  intros [k m] [k' m'] Hin Hin' Heq. simpl in Heq. subst m'.
  apply elem_of_map_to_list, selected_lookup in Hin as [Hm _].
  apply elem_of_map_to_list, selected_lookup in Hin' as [Hm' _].
  by rewrite <- (Hk _ _ Hm), <- (Hk _ _ Hm').
Qed.

(** ** The filters of [list_apps] *)

(** The state names of a filter: its pieces, trimmed, without the blank ones. *)
Definition state_names (filters : string) : list string :=
  base.filter (fun n => n <> "") (trim <$> split "," filters).

Lemma parse_states_spec pieces :
  match parse_states pieces with
  | Ok states => to_value <$> states = base.filter (fun n => n <> "") (trim <$> pieces)
  | Err status => status = BAD_REQUEST /\
      exists n, n ∈ base.filter (fun n => n <> "") (trim <$> pieces) /\ forall s, n <> to_value s
  end.
Proof.
  induction pieces as [|p ps IH]; [done|]. cbn [parse_states fmap list_fmap].
  rewrite filter_cons. unfold is_empty. case_bool_decide as Hp.
  - rewrite decide_False by tauto. done.
  - rewrite decide_True by done. destruct (try_from_value (trim p)) as [s|e] eqn:E; simpl.
    + apply try_from_value_Ok in E. rewrite E. destruct (parse_states ps) as [ss|st].
      * by rewrite fmap_cons, IH.
      * destruct IH as (-> & n & Hn & Hs). split; [done|]. exists n. split; [set_solver|done].
    + split; [done|]. exists (trim p). split; [set_solver|]. intros s Hs.
      apply try_from_value_Ok in Hs. congruence.
Qed.

(** What [list_apps] promises to list. *)
Definition listed (user : string) (params : ListApplicationsRequest) (m : Model) : Prop :=
  username m = user /\
  (forall filters, list_state params = Some filters -> state_names filters <> [] ->
     to_value (state m) ∈ state_names filters) /\
  (forall t, created_at_after params = Some t -> (t <= created_at m)%Z) /\
  (forall t, created_at_before params = Some t -> (created_at m <= t)%Z).

(** Every name in the state filter is the name of a state. *)
Definition known_states (params : ListApplicationsRequest) : Prop :=
  forall filters n, list_state params = Some filters -> n ∈ state_names filters -> exists s, n = to_value s.

Lemma to_value_inj s s' : to_value s = to_value s' -> s = s'.
Proof. by destruct s, s'. Qed.

Lemma sat_app q q' m : sat (q ++ q') m = sat q m && sat q' m.
Proof. apply forallb_app. Qed.

Lemma sat_opt {A} (o : option A) (f : A -> Filter) q m :
  sat (match o with Some a => q ++ [f a] | None => q end) m = true <->
  sat q m = true /\ forall a, o = Some a -> sat_filter (f a) m = true.
Proof.
  destruct o as [a|]; [|naive_solver]. rewrite sat_app, andb_true_iff. simpl. rewrite andb_true_r.
  naive_solver.
Qed.

Lemma list_query_spec user params :
  match list_query user params with
  | Ok q => known_states params /\ forall m, sat q m = true <-> listed user params m
  | Err status => status = BAD_REQUEST /\ exists filters n, list_state params = Some filters /\
      n ∈ state_names filters /\ forall s, n <> to_value s
  end.
Proof.
  unfold list_query, listed, known_states. destruct (list_state params) as [filters|].
  - pose proof (parse_states_spec (split "," filters)) as Hp. fold (state_names filters) in Hp.
    destruct (parse_states (split "," filters)) as [ss|st].
    2:{ destruct Hp as (-> & n & Hn & Hs). split; [done|]. by exists filters, n. }
    split.
    { intros ? n [= <-] Hn. rewrite <- Hp in Hn. apply list_elem_of_fmap in Hn as (s & -> & _). by exists s. }
    intros m. rewrite !sat_opt. simpl. setoid_rewrite bool_decide_eq_true.
    assert (Hs : sat (if negb (bool_decide (ss = [])) then [UsernameEq user] ++ [StateIsIn ss] else [UsernameEq user]) m
                 = true <-> username m = user /\ (state_names filters <> [] -> to_value (state m) ∈ state_names filters)).
    { rewrite <- Hp, list_elem_of_fmap. case_bool_decide as He; simpl.
      - subst ss. rewrite andb_true_r, bool_decide_eq_true. naive_solver.
      - rewrite andb_true_r, andb_true_iff, !bool_decide_eq_true. split.
        + intros [Hu Hin]. split; [done|]. intros _. by exists (state m).
        + intros [Hu Hin]. split; [done|].
          destruct Hin as (s & Hs & Hin); [by destruct ss|]. by apply to_value_inj in Hs as ->. }
    simpl in Hs. rewrite Hs. naive_solver.
  - split; [done|]. intros m. rewrite !sat_opt. simpl. setoid_rewrite bool_decide_eq_true.
    rewrite andb_true_r, bool_decide_eq_true. naive_solver.
Qed.

Section handlers.
Context `{HttpLib} `{ConfigLib} `{AuthLib} {L : Type} `{!Launcher L} `{!LauncherLaws L}.
Context {W : Type} `{!Env W} `{!View W} `{!EnvLaws W}.
Variables (launcher : L) (config : ProxyConfig).

(** [get_app] changes nothing.  It answers with the row of that id when the user
    owns it, with 404 exactly when the user owns no such row, and with 500 only when
    the database is not answering. *)
Theorem get_app_spec (w : W) (user : string) (app_id : Z) :
  let '(r, w') := run (get_app config app_id (mkUserId user)) w in
  rows w' = rows w /\ cache w' = cache w /\
  match r with
  | Ok info => exists m, owned (rows w) app_id user m /\ info = application_info config m
  | Err NOT_FOUND => forall m, ~ owned (rows w) app_id user m
  | Err INTERNAL_SERVER_ERROR => ~ healthy w
  | Err _ => False
  end.
Proof.
  unfold get_app. run_db w r w'. simpl in *.
  destruct Hpost as [Hw' Hpost]. destruct r as [[m|]|e]; simpl.
  - destruct Hpost as [Hm [Hu <-]%sat_user_id]. split_and!; [done..|]. by exists m.
  - split_and!; [done..|]. apply selected_user_id; [apply rows_keyed|done].
  - split_and!; [done..|]. intros Hw. destruct (Hanswer Hw I). done.
Qed.

(** C23. [list_apps] changes nothing.  The reply is a bad request exactly when the state
    filter names something that is not a state: every other reply means that all its
    names are known.  When they are and the database answers, it lists every row that the
    user owns and that meets the filters, each once, and no other row; a filter without
    names lists every state. *)
Theorem list_apps_spec (w : W) (user : string) (params : ListApplicationsRequest) :
  let '(r, w') := run (list_apps config (mkUserId user) params) w in
  rows w' = rows w /\ cache w' = cache w /\
  match r with
  | Ok infos => known_states params /\
      exists ms, infos = application_info config <$> ms /\ NoDup ms /\
      forall m, m ∈ ms <-> rows w !! id m = Some m /\ listed user params m
  | Err BAD_REQUEST => exists filters n, list_state params = Some filters /\
      n ∈ state_names filters /\ forall s, n <> to_value s
  | Err INTERNAL_SERVER_ERROR => known_states params /\ ~ healthy w
  | Err _ => False
  end.
Proof.
  unfold list_apps. pose proof (list_query_spec user params) as Hq.
  destruct (list_query user params) as [q|st]; [|by destruct Hq as [-> Hq]].
  destruct Hq as [Hknown Hq]. run_db w r w'. simpl in *. destruct Hpost as [Hw' Hpost].
  destruct r as [ms|e]; simpl; split_and!; try done.
  - exists ms. split_and!; [done|rewrite Hpost; apply NoDup_selected, rows_keyed|].
    intros m. rewrite Hpost, in_selected by apply rows_keyed. by rewrite Hq.
  - intros Hw. by destruct (Hanswer Hw I).
Qed.

(** ** Deleting *)

(** The row an application becomes when it is deleted or reports its end. *)
Definition finished (m : Model) : Model :=
  mkModel (id m) (created_at m) (username m) (name m) FINISHED (token m) None (application_id m).

Lemma send_session_message_frame address tok msg :
  safe (fun e => no_db e /\ no_cache e) (send_session_message address tok msg).
Proof.
  unfold send_session_message. split; [done|]. intros [|] _; [|done]. split; [done|]. by intros [|] _.
Qed.

Lemma run_send address tok msg (w : W) :
  let w' := (run (send_session_message address tok msg) w).2 in
  rows w' = rows w /\ cache w' = cache w /\ (healthy w -> healthy w').
Proof.
  pose proof (send_session_message_frame address tok msg) as Hs. split_and!.
  - apply run_rows. by eapply safe_mono, Hs; intros e [].
  - apply run_cache. by eapply safe_mono, Hs; intros e [].
  - apply run_healthy.
Qed.

(** Telling the session of [m] to stop: its events, and what they make of the reply.
    Without an address nobody is told; with one, the reply is a 500 when the client
    cannot be built, when the message does not arrive, and when the answer is an error
    status. *)
Definition told_to_stop (m : Model) (h : list ev) (r : result unit StatusCode) : Prop :=
  match address m with
  | None => h = [] /\ r = Ok tt
  | Some a =>
      (exists e, h = [Ev BuildClient (Err e)] /\ r = Err INTERNAL_SERVER_ERROR) \/
      exists sent : result Z string,
        h = [Ev BuildClient (Ok tt); Ev (HttpPost (session_post a (token m) "stop")) sent] /\
        r = if is_ok (status <-? sent;; error_for_status status)
            then Ok tt else Err INTERNAL_SERVER_ERROR
  end.

Lemma run_told_to_stop (m : Model) (w : W) :
  let stop := match address m with
              | Some a => map_err_m (fun _ => INTERNAL_SERVER_ERROR) (send_session_message a (token m) "stop")
              | None => Ret (Ok tt)
              end in
  told_to_stop m (run_trace stop w) (run stop w).1 /\
  rows (run stop w).2 = rows w /\ cache (run stop w).2 = cache w.
Proof.
  cbv zeta. unfold told_to_stop. destruct (address m) as [a|]; [|done].
  split; [|rewrite run_map_err; cbn [snd]; destruct (run_send a (token m) "stop" w) as (? & ? & _); done].
  unfold map_err_m, send_session_message, try_bind, do. cbn [bind run run_trace].
  destruct (exec BuildClient w) as [[[]|e] w1]; cbn [bind run run_trace map_err fst]; [right|left; by eexists].
  destruct (exec (HttpPost _) w1) as [[st|e] w2]; cbn [bind run run_trace map_err fst]; eexists; (split; [done|]); [|done].
  cbv beta iota. by destruct (error_for_status st) as [[]|].
Qed.

Lemma delete_app_run (w : W) (user : string) (app_id : Z) :
  let p := delete_app app_id (mkUserId user) in
  let '(r, w') := run p w in
  (r = Err NOT_FOUND /\ (forall m, ~ owned (rows w) app_id user m) /\
   rows w' = rows w /\ cache w' = cache w) \/
  (r = Err INTERNAL_SERVER_ERROR /\ ~ healthy w /\ rows w' = rows w /\ cache w' = cache w) \/
  exists m n gone stop, owned (rows w) app_id user m /\
    rows w' = <[app_id := finished m]> (rows w) /\
    cache w' = (Cache.invalidate (token m) (cache w)).2 /\
    run_trace p w =
      [Ev (Db (One [UsernameEq user; IdEq app_id])) (Ok (Some m));
       Ev (Db (UpdateMany [SetAddress None; SetState FINISHED] [IdEq app_id; UsernameEq user])) (Ok n)] ++
      stop ++ [Ev (CacheOp (Cache.Invalidate (token m))) gone] /\
    told_to_stop m stop r.
Proof.
  cbv zeta. unfold delete_app, try_bind, map_err_m, do. cbn [bind run run_trace].
  destruct (exec_db_cases (One [UsernameEq user; IdEq app_id]) w) as (r & w1 & -> & [Hw1 Hpost] & Hcache & Hhealthy & Hanswer).
  destruct r as [[m|]|e]; cbn [map_err bind run run_trace ok_or].
  2:{ left. split_and!; try done. apply selected_user_id; [apply rows_keyed|done]. }
  2:{ right; left. split_and!; try done. intros Hw. by destruct (Hanswer Hw I). }
  destruct Hpost as [Hm [Hu <-]%sat_user_id].
  match goal with |- context [exec (Db ?s) w1] => destruct (exec_db_cases s w1) as (r2 & w2 & -> & Hpost & Hcache0 & _ & Hanswer0) end.
  destruct r2 as [n|e]; cbn [map_err bind run run_trace].
  2:{ simpl in Hpost. right; left. rewrite Hpost, Hcache0, Hw1, Hcache. split_and!; try done.
      intros Hw. by destruct (Hanswer0 (Hhealthy Hw) I). }
  destruct Hpost as [_ Hw2]. rewrite Hw1, (update_owned _ _ _ _ m) in Hw2 by (apply rows_keyed || done).
  destruct (run_told_to_stop m w2) as (Hstop & Hr3 & Hc3). unfold map_err_m in Hstop, Hr3, Hc3.
  rewrite run_bind, run_trace_bind. set (stop := match address m with Some _ => _ | None => _ end) in *.
  destruct (run stop w2) as [r3 w3]. cbn [fst snd] in *.
  destruct (exec_cache_cases (Cache.Invalidate (token m)) w3) as (w4 & Hx & Hc4 & Hr4 & _).
  cbn [bind run run_trace]. rewrite Hx.
  assert (Hk : forall h : result unit StatusCode, match h with Ok _ => Ret (Ok tt) | Err status => Ret (Err status) end = Ret h)
    by by intros [[]|].
  rewrite Hk. cbn [run run_trace]. right; right. eexists m, n, _, _. split_and!; [done..| | |reflexivity|done].
  - by rewrite Hr4, Hr3, Hw2.
  - by rewrite Hc4, Hc3, Hcache0, Hcache.
Qed.

(** C12. [delete_app], complete: 404 exactly when the user owns no such row, and then
    nothing changes; 500 with nothing changed only when the database is not answering;
    otherwise the row is FINISHED without an address, after that the session at the
    address it had is told to stop, and after that the cached upstream connection of
    its token is gone, whatever became of the message.  The reply is the outcome of the
    message: 500 when it could not be sent or was answered with an error status, Ok
    otherwise, and Ok when there was no address to send it to. *)
Theorem delete_app_spec (w : W) (user : string) (app_id : Z) :
  let p := delete_app app_id (mkUserId user) in
  let '(r, w') := run p w in
  (r = Err NOT_FOUND /\ (forall m, ~ owned (rows w) app_id user m) /\
   rows w' = rows w /\ cache w' = cache w) \/
  (r = Err INTERNAL_SERVER_ERROR /\ ~ healthy w /\ rows w' = rows w /\ cache w' = cache w) \/
  exists m n gone stop, owned (rows w) app_id user m /\
    rows w' = <[app_id := finished m]> (rows w) /\
    cache w' = (Cache.invalidate (token m) (cache w)).2 /\
    run_trace p w =
      [Ev (Db (One [UsernameEq user; IdEq app_id])) (Ok (Some m));
       Ev (Db (UpdateMany [SetAddress None; SetState FINISHED] [IdEq app_id; UsernameEq user])) (Ok n)] ++
      stop ++ [Ev (CacheOp (Cache.Invalidate (token m))) gone] /\
    told_to_stop m stop r.
Proof. apply delete_app_run. Qed.

(** ** Creating *)

(** A row that [create_app] has just made. *)
Definition created (user : string) (params : CreateApplicationRequest) (t : Table) (m : Model) : Prop :=
  t !! id m = None /\ username m = user /\ name m = req_name params /\ state m = LAUNCHING /\
  address m = None /\ application_id m = None /\ forall k m', t !! k = Some m' -> token m' <> token m.

Definition with_state (s : State) (m : Model) : Model := set_col (SetState s) m.

Lemma insert_new user tok nm m : insert_matches (new_application user tok nm) m ->
  username m = user /\ name m = nm /\ state m = LAUNCHING /\ token m = tok /\
  address m = None /\ application_id m = None.
Proof.
  intros (Hm & _ & Ha & Hi). destruct m. injection Hm as -> -> -> ->. split_and!; try done; [by apply Ha|by apply Hi].
Qed.

Lemma apply_failed m : am_apply (failed_application (id m)) m = with_state FAILED m.
Proof. done. Qed.

Lemma run_launch v i n u t c p (w : W) :
  let w' := (run (launch launcher v i n u t c p) w).2 in
  rows w' = rows w /\ cache w' = cache w /\ (healthy w -> healthy w').
Proof.
  pose proof (launch_safe launcher v i n u t c p) as Hs. split_and!.
  - apply run_rows. eapply safe_mono, Hs. by intros [].
  - apply run_cache. eapply safe_mono, Hs. by intros [].
  - apply run_healthy.
Qed.

Lemma create_app_run (w : W) (user : string) (params : CreateApplicationRequest) :
  let p := create_app launcher config (mkUserId user) params in
  let '(r, w') := run p w in
  let '(tok, w0) := exec NewV4 w in
  let insert := Insert (new_application user tok (req_name params)) in
  let '(inserted, w1) := exec (Db insert) w0 in
  cache w' = cache w /\
  match inserted with
  | Err e =>
      r = Err INTERNAL_SERVER_ERROR /\ ~ healthy w /\ rows w' = rows w /\
      run_trace p w = [Ev NewV4 tok; Ev (Db insert) (Err e)]
  | Ok m =>
      created user params (rows w) m /\
      let start := launch launcher (req_version params) (id m) (req_name params) user tok
                     (default ∅ (req_config params)) (req_python_packages params) in
      exists after,
        run_trace p w = [Ev NewV4 tok; Ev (Db insert) (Ok m)] ++ run_trace start w1 ++ [after] /\
        match (run start w1).1 with
        | Ok child =>
            r = Ok (application_info config m) /\ ev_eff after = Spawn (LaunchWatch child (id m)) /\
            rows w' = <[id m := m]> (rows w)
        | Err _ =>
            r = Err INTERNAL_SERVER_ERROR /\ ev_eff after = Db (Update (failed_application (id m))) /\
            (rows w' = <[id m := with_state FAILED m]> (rows w) \/
             (rows w' = <[id m := m]> (rows w) /\ ~ healthy w))
        end
  end.
Proof.
  cbv zeta. unfold create_app. set (n := req_name params).
  pose proof (exec_rows NewV4 w ltac:(done)) as Hr0. pose proof (exec_cache_frame NewV4 w ltac:(done)) as Hc0.
  pose proof (exec_healthy NewV4 w) as Hh0. pose proof (exec_new_v4 w) as Hfresh.
  unfold try_bind, map_err_m, do. cbn [bind run run_trace]. destruct (exec NewV4 w) as [tok w0]. cbn [fst snd] in *.
  destruct (exec_db_cases (Insert (new_application user tok n)) w0) as (r1 & w1 & Hx & Hp1 & Hc1 & Hh1 & Ha1).
  rewrite Hx. destruct r1 as [m|e]; cbn [map_err run run_trace].
  2:{ simpl in Hp1. split_and!; [congruence|done| |congruence|done].
      intros Hw. by destruct (Ha1 (Hh0 Hw) eq_refl). }
  destruct Hp1 as (Hnone & Hm & Hr1). apply insert_new in Hm as (Hu & Hn & Hs & Ht & Ha & Hi).
  rewrite Hr0 in Hr1. rewrite !run_bind, !run_trace_bind.
  destruct (run_launch (req_version params) (id m) n user tok (default ∅ (req_config params))
    (req_python_packages params) w1) as (Hr2 & Hc2 & Hh2).
  set (start := launch _ _ _ _ _ _ _ _) in *. destruct (run start w1) as [launched w2]. cbn [fst snd] in *.
  assert (Hcr : created user params (rows w) m).
  { split_and!; try done; [by rewrite <- Hr0|]. intros k m' Hk. rewrite Ht. by apply (Hfresh k). }
  destruct launched as [child|e].
  - pose proof (exec_rows (Spawn (LaunchWatch child (id m))) w2 ltac:(done)) as Hr3.
    pose proof (exec_cache_frame (Spawn (LaunchWatch child (id m))) w2 ltac:(done)) as Hc3.
    cbn [bind run run_trace].
    destruct (exec (Spawn (LaunchWatch child (id m))) w2) as [h w3]. cbn [run run_trace]. simpl in Hr3, Hc3.
    split; [congruence|]. split; [done|]. eexists. split; [reflexivity|]. split_and!; [done..|congruence].
  - destruct (exec_db_cases (Update (failed_application (id m))) w2) as (r3 & w3 & Hx3 & Hp3 & Hc3 & Hh3 & Ha3).
    cbn [bind run run_trace]. rewrite Hx3. cbn [run run_trace]. split; [congruence|]. split; [done|].
    eexists. split; [reflexivity|]. split_and!; [done..|]. destruct r3 as [m'|e3]; simpl in Hp3.
    + left. destruct Hp3 as (m0 & [= Hid] & Hm0 & -> & Hr3). rewrite Hr3, Hr2, Hr1.
      rewrite Hr2, Hr1, <- Hid, lookup_insert_eq in Hm0. injection Hm0 as <-.
      rewrite apply_failed. apply insert_insert_eq.
    + right. split; [congruence|]. intros Hw.
      destruct (Ha3 (Hh2 (Hh1 (Hh0 Hw)))) as [? ?]; [|done].
      exists (id m), m. split; [done|]. rewrite Hr2, Hr1. apply lookup_insert_eq.
Qed.

(** C11. [create_app], complete.  When the row cannot be inserted, which only a database
    that is not answering can cause, the reply is 500, nothing is added and nothing is
    launched.  Otherwise a row is added, owned by the user, under the requested name,
    launching, with a token no other row has, and the launcher runs with what was
    requested, the id of this row and its token.  When the launch succeeds, the reply
    shows the row and the last thing the handler did is to leave a task watching the
    child of that launch; when it fails, the reply is 500 and the last thing the handler
    did is to mark the row FAILED, as it then is unless the database stopped answering. *)
Theorem create_app_spec (w : W) (user : string) (params : CreateApplicationRequest) :
  let p := create_app launcher config (mkUserId user) params in
  let '(r, w') := run p w in
  let '(tok, w0) := exec NewV4 w in
  let insert := Insert (new_application user tok (req_name params)) in
  let '(inserted, w1) := exec (Db insert) w0 in
  cache w' = cache w /\
  match inserted with
  | Err e =>
      r = Err INTERNAL_SERVER_ERROR /\ ~ healthy w /\ rows w' = rows w /\
      run_trace p w = [Ev NewV4 tok; Ev (Db insert) (Err e)]
  | Ok m =>
      created user params (rows w) m /\
      let start := launch launcher (req_version params) (id m) (req_name params) user tok
                     (default ∅ (req_config params)) (req_python_packages params) in
      exists after,
        run_trace p w = [Ev NewV4 tok; Ev (Db insert) (Ok m)] ++ run_trace start w1 ++ [after] /\
        match (run start w1).1 with
        | Ok child =>
            r = Ok (application_info config m) /\ ev_eff after = Spawn (LaunchWatch child (id m)) /\
            rows w' = <[id m := m]> (rows w)
        | Err _ =>
            r = Err INTERNAL_SERVER_ERROR /\ ev_eff after = Db (Update (failed_application (id m))) /\
            (rows w' = <[id m := with_state FAILED m]> (rows w) \/
             (rows w' = <[id m := m]> (rows w) /\ ~ healthy w))
        end
  end.
Proof. apply create_app_run. Qed.

(** ** Callbacks of the driver *)

(** The row an application becomes when its driver reports in. *)
Definition running (params : ApplicationCallbackRequest) (m : Model) : Model :=
  mkModel (id m) (created_at m) (username m) (name m) RUNNING (token m)
    (Some (cb_address params)) (Some (cb_application_id params)).

(** [f] applied to the rows of one token. *)
Definition at_token (tok : string) (f : Model -> Model) (t t' : Table) : Prop :=
  forall k, t' !! k = (fun m => if bool_decide (token m = tok) then f m else m) <$> t !! k.

Definition no_token (tok : string) (t : Table) : Prop := forall k m, t !! k = Some m -> token m <> tok.

Lemma sat_token_bool tok m : sat [TokenEq tok] m = bool_decide (token m = tok).
Proof. simpl. by rewrite andb_true_r. Qed.

Lemma update_at_token cols tok t : at_token tok (set_cols cols) t (update_rows cols [TokenEq tok] t).
Proof.
  intros k. rewrite update_rows_lookup. destruct (t !! k) as [m|]; [|done].
  cbn [fmap option_fmap option_map]. by rewrite sat_token_bool.
Qed.

(** An update by token touches no row exactly when it reports none. *)
Lemma update_token_none cols tok t :
  Z.of_nat (size (selected [TokenEq tok] t)) = 0%Z -> no_token tok t /\ update_rows cols [TokenEq tok] t = t.
Proof.
  intros Hn. assert (He : selected [TokenEq tok] t = ∅) by (apply selected_size; lia).
  exact (conj (proj1 (selected_token t tok) He) (update_none _ _ _ He)).
Qed.

Lemma update_token_some tok t :
  Z.of_nat (size (selected [TokenEq tok] t)) <> 0%Z -> ~ no_token tok t.
Proof. intros Hn Hno. apply Hn. by rewrite (proj2 (selected_token t tok) Hno). Qed.

Lemma app_callback_run (w : W) (tok : string) (params : ApplicationCallbackRequest) :
  let '(r, w') := run (app_callback (mkBearerToken tok) params) w in
  cache w' = cache w /\
  match r with
  | Ok _ => ~ no_token tok (rows w) /\ at_token tok (running params) (rows w) (rows w')
  | Err NOT_FOUND => no_token tok (rows w) /\ rows w' = rows w
  | Err INTERNAL_SERVER_ERROR => ~ healthy w /\ rows w' = rows w
  | Err _ => False
  end.
Proof.
  unfold app_callback. run_db w r w'. destruct r as [n|e]; cbn [map_err fst snd run].
  - destruct Hpost as [-> Hw']. case_bool_decide as Hn; cbn [run]; (split; [done|]).
    + destruct (update_token_none [SetAddress (Some (cb_address params)); SetState RUNNING;
        SetApplicationId (Some (cb_application_id params))] _ _ Hn) as [? He]. split; [done|by rewrite Hw', He].
    + split; [by apply update_token_some|]. rewrite Hw'. apply update_at_token.
  - split_and!; try done. intros Hw. by destruct (Hanswer Hw I).
Qed.

(** C39. [app_callback], complete: when the database answers, every row of the bearer
    token becomes RUNNING with the address and application id of the callback, all
    other rows stay as they are, and the reply is 404 exactly when no row has the
    token. *)
Theorem app_callback_spec (w : W) (tok : string) (params : ApplicationCallbackRequest) :
  let '(r, w') := run (app_callback (mkBearerToken tok) params) w in
  cache w' = cache w /\
  match r with
  | Ok _ => ~ no_token tok (rows w) /\ at_token tok (running params) (rows w) (rows w')
  | Err NOT_FOUND => no_token tok (rows w) /\ rows w' = rows w
  | Err INTERNAL_SERVER_ERROR => ~ healthy w /\ rows w' = rows w
  | Err _ => False
  end.
Proof. apply app_callback_run. Qed.

(** [app_callback_delete], complete: when the database answers, every row of the
    bearer token becomes FINISHED without an address, all other rows stay as they are,
    the cached upstream connection of the token is gone, and the reply is 404, with
    nothing changed, exactly when no row has the token. *)
Theorem app_callback_delete_spec (w : W) (tok : string) :
  let '(r, w') := run (app_callback_delete (mkBearerToken tok)) w in
  match r with
  | Ok _ => ~ no_token tok (rows w) /\ at_token tok finished (rows w) (rows w') /\
      cache w' = (Cache.invalidate tok (cache w)).2
  | Err NOT_FOUND => no_token tok (rows w) /\ rows w' = rows w /\ cache w' = cache w
  | Err INTERNAL_SERVER_ERROR => ~ healthy w /\ rows w' = rows w /\ cache w' = cache w
  | Err _ => False
  end.
Proof.
  unfold app_callback_delete. run_db w r w1. destruct r as [n|e]; cbn [map_err fst snd run].
  - destruct Hpost as [-> Hw1]. case_bool_decide as Hn; cbn [run].
    + destruct (update_token_none [SetAddress None; SetState FINISHED] _ _ Hn) as [? He].
      split_and!; [done|by rewrite Hw1, He|done].
    + unfold do. cbn [bind run].
      destruct (exec_cache_cases (Cache.Invalidate tok) w1) as (w2 & -> & Hc2 & Hr2 & _). cbn [run].
      split_and!; [by apply update_token_some| |by rewrite Hc2, Hcache].
      rewrite Hr2, Hw1. apply update_at_token.
  - split_and!; try done. intros Hw. by destruct (Hanswer Hw I).
Qed.

(** The task [create_app] leaves behind, run when the launch has ended: an
    application that is still launching has failed, one that has left that state is
    not touched, nor is any other row. *)
Theorem launch_watch_spec (w : W) (child : nat) (app_id : Z) :
  healthy w ->
  let w' := (run (launch_watch child app_id) w).2 in
  cache w' = cache w /\
  forall k, rows w' !! k =
    (fun m => if bool_decide (k = app_id /\ state m = LAUNCHING) then with_state FAILED m else m) <$> rows w !! k.
Proof.
  intros Hw. cbv zeta. unfold launch_watch, do. cbn [bind run].
  pose proof (exec_rows (AwaitHandle child) w ltac:(done)) as Hr0.
  pose proof (exec_cache_frame (AwaitHandle child) w ltac:(done)) as Hc0.
  pose proof (exec_healthy (AwaitHandle child) w Hw) as Hh0.
  destruct (exec (AwaitHandle child) w) as [u w0]. simpl in Hr0, Hc0, Hh0.
  run_db w0 r w'. cbn [run snd]. split; [congruence|]. intros k.
  destruct (Hanswer Hh0 I) as [n ->]. destruct Hpost as [_ Hw'].
  rewrite Hw', update_rows_lookup, Hr0. destruct (rows w !! k) as [m|] eqn:E; [|done].
  cbn [fmap option_fmap option_map]. f_equal. rewrite <- (rows_keyed w _ _ E).
  assert (sat [IdEq app_id; StateEq LAUNCHING] m = bool_decide (id m = app_id /\ state m = LAUNCHING)) as ->.
  { simpl. rewrite andb_true_r. by rewrite bool_decide_and. }
  done.
Qed.

(** A callback asks nothing of the state of the application, so one that its owner
    has deleted while it was launching comes back: when the driver then reports in,
    the row is RUNNING again, at the driver's address. *)
Theorem deleted_app_comes_back (w : W) (user : string) (m : Model) params :
  healthy w -> owned (rows w) (id m) user m -> address m = None ->
  let w1 := (run (delete_app (id m) (mkUserId user)) w).2 in
  let w2 := (run (app_callback (mkBearerToken (token m)) params) w1).2 in
  rows w1 !! id m = Some (finished m) /\ rows w2 !! id m = Some (running params m).
Proof.
  intros Hw Ho Ha. cbv zeta.
  assert (Hw1 : rows (run (delete_app (id m) (mkUserId user)) w).2 !! id m = Some (finished m)).
  { unfold delete_app. run_db w r w1. destruct Hpost as [Hr1 Hpost].
    destruct (Hanswer Hw I) as [o ->]. cbn [map_err fst snd]. destruct o as [m'|].
    2:{ by destruct (proj1 (selected_user_id _ _ _ (rows_keyed w)) Hpost m). }
    destruct Hpost as [Hm' [Hu' Hid]%sat_user_id]. cbn [ok_or].
    assert (m' = m) as -> by (destruct Ho as [Ho _]; rewrite Hid in Hm'; congruence).
    run_db w1 r2 w2. destruct (Hanswer0 (Hhealthy Hw) I) as [n ->]. cbn [map_err fst snd].
    destruct Hpost as [_ Hr2]. rewrite Hr1, (update_owned _ _ _ _ m) in Hr2 by (apply rows_keyed || done).
    rewrite Ha. cbn [run fst snd].
    destruct (exec_cache_cases (Cache.Invalidate (token m)) w2) as (w3 & -> & _ & Hr3 & _). cbn [run snd].
    by rewrite Hr3, Hr2, lookup_insert_eq. }
  split; [done|]. set (w1 := (run (delete_app _ _) w).2) in *.
  assert (Hh1 : healthy w1) by by apply run_healthy.
  unfold app_callback. run_db w1 r w2. destruct (Hanswer Hh1 I) as [n ->]. cbn [map_err fst snd].
  destruct Hpost as [_ Hr2]. case_bool_decide; cbn [run snd];
    rewrite Hr2, update_at_token, Hw1; cbn; by rewrite bool_decide_true.
Qed.

End handlers.
