(* ===== verification/Access.v ===== *)
(** * Who may touch what

    The layers in front of the handlers decide on whose authority a request runs;
    every effect of every run, whatever other tasks do meanwhile, stays within that
    authority.  Tenant isolation follows. *)

From stdpp Require Import base option list strings gmap sets.
From Stdlib Require Import Ascii.
From S2P Require Import Prelude RustStr Entities Database Error Http Cache Env Config Launcher Auth Proxy Routes.
Import application.

(** On whose behalf a request runs: a user, or the bearer of an application's token. *)
Inductive Authority := AsUser (user : string) | AsBearer (tok : string).

Definition mine (a : Authority) (m : Model) : Prop :=
  match a with AsUser u => username m = u | AsBearer t => token m = t end.

(** The condition that confines a statement to the rows of the authority. *)
Definition own_filter (a : Authority) : Filter :=
  match a with AsUser u => UsernameEq u | AsBearer t => TokenEq t end.

Lemma sat_own a q m : own_filter a ∈ q -> sat q m = true -> mine a m.
Proof.
  intros Hin Hs. unfold sat in Hs. rewrite forallb_forall in Hs.
  specialize (Hs (own_filter a)). rewrite <- list_elem_of_In in Hs. specialize (Hs Hin).
  destruct a; simpl in *; by apply bool_decide_eq_true in Hs.
Qed.

Section access.
Context `{HttpLib} `{ConfigLib} `{AuthLib} {L : Type} `{!Launcher L} `{!LauncherLaws L}.
Variables (launcher : L) (config : ProxyConfig) (methods : list UserAuthMethod).

(** What the layer of the handler's router makes of the headers. *)
Definition authority (h : Handler) (headers : HeaderMap) : result Authority StatusCode :=
  if bool_decide ((endpoint h).2 ∈ user_api) then
    match user_authorize methods headers with Ok (mkUserId u) => Ok (AsUser u) | Err e => Err e end
  else
    match token_authorize headers with Ok (mkBearerToken t) => Ok (AsBearer t) | Err e => Err e end.

(** A row that a query confined to the authority has returned. *)
Definition own_row (a : Authority) (h : list ev) (m : Model) : Prop :=
  exists q, own_filter a ∈ q /\ Ev (Db (One q)) (Ok (Some m)) ∈ h.

(** The key of a row this very request has inserted. *)
Definition inserted (h : list ev) (k : Z) : Prop :=
  exists am m, Ev (Db (Insert am)) (Ok m) ∈ h /\ id m = k.

(** A new row is the authority's own, launching, with a token fresh from the generator. *)
Definition own_insert (a : Authority) (h : list ev) (am : ActiveModel) : Prop :=
  exists u tok, a = AsUser u /\ am = new_application u tok (av_or (am_name am) None) /\ Ev NewV4 tok ∈ h.

(** What a request may do on an authority, after the events [h]. *)
Definition scoped (a : Authority) (h : list ev) (e : Eff) : Prop :=
  match e with
  | Db (Insert am) => own_insert a h am
  | Db (One q) | Db (All q) | Db (UpdateMany _ q) => own_filter a ∈ q
  | Db (Update am) => exists k, am_id am = AvSet k /\ inserted h k
  | Db (DeleteMany _) => False
  | CacheOp (Cache.Invalidate t) => a = AsBearer t \/ exists m, own_row a h m /\ token m = t
  | CacheOp _ => False
  | HttpPost p => exists m addr, own_row a h m /\ address m = Some addr /\ p = session_post addr (token m) "stop"
  | Spawn (LaunchWatch _ k) => inserted h k
  | Spawn (TrackLaunch _ _) | Spawn (SleepTask _) => True
  | NewV4 | BuildClient | Tempdir _ | CommandStatus _ _ | CommandSpawn _ _ _ => True
  | _ => False
  end.

Lemma scoped_launch a h e : launch_effect e -> scoped a h e.
Proof. destruct e as [| | | | |tk| | | | | | | | | | | | | | | | | |]; try done. by destruct tk. Qed.

Lemma elem_of_snoc (h : list ev) x : x ∈ h ++ [x].
Proof. set_solver. Qed.

Lemma inserted_prefix h h' k : h `prefix_of` h' -> inserted h k -> inserted h' k.
Proof. intros [t ->] (am & m & Hin & Hk). exists am, m. split; [set_solver|done]. Qed.

Notation ok_handler a p := (wp (scoped a) (fun _ _ => True) [] p).

Lemma reply_scoped {A} a (f : A -> Reply) p : ok_handler a p -> ok_handler a (reply f p).
Proof. intros Hp. apply wp_bind. eapply wp_post; [exact Hp|done]. Qed.

Lemma create_app_scoped u params :
  ok_handler (AsUser u) (create_app launcher config (mkUserId u) params).
Proof.
  unfold create_app. apply wp_do; [done|]. intros tok _.
  wp_await.
  { exists u, tok. split_and!; [done|done|set_solver]. }
  intros [m|e] _; [|done]. cbn [map_err]. apply wp_bind.
  match goal with |- wp _ _ ?h0 _ => set (h := h0) end.
  assert (Hins : inserted h (id m)) by (eexists _, m; split; [apply elem_of_snoc|done]).
  eapply wp_post; [eapply wp_safe, launch_safe; intros; by apply scoped_launch|].
  intros [child|e] h' Hpre; cbv beta iota.
  - apply wp_do; [by eapply inserted_prefix|done].
  - apply wp_do; [exists (id m); split; [done|by eapply inserted_prefix]|done].
Qed.

Lemma list_apps_scoped u params : ok_handler (AsUser u) (list_apps config (mkUserId u) params).
Proof.
  unfold list_apps. destruct (list_query u params) as [q|st] eqn:Eq; [|done].
  wp_await; [|by intros [] _].
  unfold list_query in Eq. destruct (match list_state params with Some _ => _ | None => _ end) as [q0|] eqn:E0; [|done].
  assert (Hu : UsernameEq u ∈ q0).
  { destruct (list_state params); [|injection E0 as <-; set_solver].
    destruct (parse_states _); [|done].
    injection E0 as <-. destruct (bool_decide _); simpl; set_solver. }
  injection Eq as <-. destruct (created_at_after params), (created_at_before params); simpl; set_solver.
Qed.

Lemma get_app_scoped u k : ok_handler (AsUser u) (get_app config k (mkUserId u)).
Proof.
  unfold get_app. wp_await; [simpl; set_solver|]. intros [[m|]|e] _; done.
Qed.

Lemma send_scoped a h m addr : own_row a h m -> address m = Some addr ->
  wp (scoped a) (fun _ h' => h `prefix_of` h') h (send_session_message addr (token m) "stop").
Proof.
  intros Ho Ha. unfold send_session_message.
  wp_await; [done|]. intros [|] _; [|by apply prefix_app_r].
  wp_await.
  - exists m, addr. split_and!; [|done..]. destruct Ho as (q & ? & ?). exists q. split; [done|set_solver].
  - intros [|] _; simpl; by do 2 apply prefix_app_r.
Qed.

Lemma delete_app_scoped u k : ok_handler (AsUser u) (delete_app k (mkUserId u)).
Proof.
  unfold delete_app. wp_await; [simpl; set_solver|].
  intros [[m|]|e] _; [|done..]. cbn [map_err ok_or].
  wp_await; [simpl; set_solver|]. intros [n|e] _; [|done]. cbn [map_err].
  match goal with |- wp _ _ ?h0 _ => set (h := h0) end.
  assert (Ho : own_row (AsUser u) h m).
  { exists [UsernameEq u; IdEq k]. split; [set_solver|]. unfold h. set_solver. }
  apply wp_bind. apply (wp_post _ (fun _ h' => h `prefix_of` h')).
  - destruct (address m) as [addr|] eqn:Ea; [|simpl; reflexivity].
    apply wp_map_err. eapply wp_post; [by apply send_scoped|done].
  - intros r h' [t ->]. apply wp_do; [|by intros [] _; destruct r].
    right. exists m. split; [|done]. destruct Ho as (q & ? & ?). exists q. split; [done|set_solver].
Qed.

Lemma app_callback_scoped t params : ok_handler (AsBearer t) (app_callback (mkBearerToken t) params).
Proof.
  unfold app_callback. wp_await; [simpl; set_solver|].
  intros [n|e] _; [|done]. simpl. by case_bool_decide.
Qed.

Lemma app_callback_delete_scoped t : ok_handler (AsBearer t) (app_callback_delete (mkBearerToken t)).
Proof.
  unfold app_callback_delete. wp_await; [simpl; set_solver|].
  intros [n|e] _; [|done]. simpl. case_bool_decide; [done|]. split; [by left|done].
Qed.

(** Either the layer lets the request through, and all the handler does is within the
    authority it found, or nothing is done at all. *)
Lemma serve_wp h headers :
  match authority h headers with
  | Ok a => wp (scoped a) (fun _ _ => True) [] (serve launcher config methods h headers)
  | Err status => serve launcher config methods h headers = Ret (Err status)
  end.
Proof.
  unfold authority, serve.
  destruct h as [ps|ps|k|k| |ps|]; cbn [endpoint snd];
    repeat (rewrite bool_decide_true by set_solver || rewrite bool_decide_false by set_solver);
    try (destruct (user_authorize methods headers) as [[u]|st]; [|done]; cbn [user_handler]);
    try (destruct (token_authorize headers) as [[t]|st]; [|done]; cbn [callback_handler]);
    try apply reply_scoped; auto using list_apps_scoped, create_app_scoped, get_app_scoped,
      delete_app_scoped, app_callback_scoped, app_callback_delete_scoped.
  done.
Qed.

Lemma token_authorize_Ok headers tok :
  token_authorize headers = Ok (mkBearerToken tok) ->
  exists v, header_get headers "authorization" = Some v /\ to_str v = Ok ("Bearer " +:+ tok).
Proof.
  unfold token_authorize. destruct (header_get headers "authorization") as [v|]; [|done]. simpl.
  destruct (to_str v) as [s|] eqn:Es; [|done]. simpl.
  destruct (split_once " " s) as [[scheme t]|] eqn:E; [|done]. case_decide; [|done]. intros [= ->].
  exists v. split; [done|]. rewrite Es. f_equal. apply split_bearer. by exists scheme.
Qed.

Lemma token_authorize_Err headers status :
  token_authorize headers = Err status ->
  status = UNAUTHORIZED \/ (status = BAD_REQUEST /\ exists v, header_get headers "authorization" = Some v /\ is_ok (to_str v) = false).
Proof.
  unfold token_authorize. destruct (header_get headers "authorization") as [v|]; simpl; [|naive_solver].
  destruct (to_str v) as [s|e] eqn:E; simpl.
  - destruct (split_once " " s) as [[scheme t]|]; [case_decide|]; naive_solver.
  - intros [= <-]. right. split; [done|]. exists v. by rewrite E.
Qed.

Lemma user_authorize_Ok headers u :
  user_authorize methods headers = Ok (mkUserId u) <-> find_user methods headers = Some u.
Proof. unfold user_authorize. destruct (find_user methods headers); naive_solver. Qed.

(** C20. Nothing without credentials.  A request that has performed any effect, or has
    been answered with anything but an error, carries them: on a user route some
    authentication method names the user and no earlier one does, on a callback route
    the authorization header is a bearer token.  A request without them performs no
    effect and is answered unauthorized, or bad request when the header of a callback
    is not text. *)
Theorem serve_needs_authority h headers t o :
  trace (serve launcher config methods h headers) t o ->
  (t <> [] \/ (exists r, o = Some (Ok r)) ->
   match h with
   | AppCallback _ | AppCallbackDelete =>
       exists v tok, header_get headers "authorization" = Some v /\ to_str v = Ok ("Bearer " +:+ tok)
   | _ =>
       exists u before m after, methods = before ++ m :: after /\ authorize_user m headers = Ok (Some u) /\
         Forall (fun m => forall u', authorize_user m headers <> Ok (Some u')) before
   end) /\
  (forall status, authority h headers = Err status ->
     t = [] /\ (forall r, o = Some r -> r = Err status) /\
     (status = UNAUTHORIZED \/ (status = BAD_REQUEST /\
        exists v, header_get headers "authorization" = Some v /\ is_ok (to_str v) = false))).
Proof.
  intros Ht. pose proof (serve_wp h headers) as Hs.
  destruct (authority h headers) as [a|st] eqn:Ha.
  - split; [|done]. intros _. unfold authority in Ha.
    assert (Hu : forall u, user_authorize methods headers = Ok (mkUserId u) ->
      exists u before m after, methods = before ++ m :: after /\ authorize_user m headers = Ok (Some u) /\
        Forall (fun m => forall u', authorize_user m headers <> Ok (Some u')) before).
    { intros u Hu%user_authorize_Ok%find_user_Some. by exists u. }
    assert (Ht' : forall tok, token_authorize headers = Ok (mkBearerToken tok) ->
      exists v tok, header_get headers "authorization" = Some v /\ to_str v = Ok ("Bearer " +:+ tok)).
    { intros tok (v & ? & ?)%token_authorize_Ok. by exists v, tok. }
    destruct h; cbn [endpoint snd] in Ha; case_bool_decide as Hin;
      try (exfalso; set_solver);
      destruct (user_authorize methods headers) as [[u]|]; destruct (token_authorize headers) as [[tok]|]; eauto; done.
  - rewrite Hs in Ht. split.
    + intros [Hne|[r Hr]]; inversion Ht; subst; done.
    + intros status [= <-]. split; [by inversion Ht|]. split; [intros r ->; by inversion Ht|].
      unfold authority in Ha. case_bool_decide.
      * unfold user_authorize in Ha. destruct (find_user methods headers); [done|]. injection Ha as <-. by left.
      * apply token_authorize_Err. by destruct (token_authorize headers) as [[]|]; [|injection Ha as ->].
Qed.

(** C6. In every run of a request, finished or not and whatever the responses, every
    effect is within its authority: reads and updates are confined to the user's or the
    token's own rows, the only row updated by key is one the request inserted, with a
    fresh token, a stop message goes only to the address and with the token of a row
    the user owns, only such a token or the bearer's is invalidated, nothing is
    deleted. *)
Theorem serve_scoped h headers a t o :
  authority h headers = Ok a ->
  trace (serve launcher config methods h headers) t o -> Forall lawful_ev t ->
  forall t1 x t2, t = t1 ++ x :: t2 -> scoped a t1 (ev_eff x).
Proof.
  intros Ha Ht Hl. pose proof (serve_wp h headers) as Hs. rewrite Ha in Hs.
  exact (proj1 (wp_trace _ _ _ _ _ _ Hs Ht Hl)).
Qed.

(** ** Tenant isolation *)

(** The rows a response reveals. *)
Definition revealed (s : DbStmt) : db_resp s -> list Model :=
  match s return db_resp s -> list Model with
  | One _ => fun r => match r with Ok (Some m) => [m] | _ => [] end
  | All _ => fun r => match r with Ok l => l | _ => [] end
  | Insert _ => fun r => match r with Ok m => [m] | _ => [] end
  | _ => fun _ => []
  end.

Lemma update_rows_mine a cols q (tb : Table) k m :
  own_filter a ∈ q -> tb !! k = Some m -> ~ mine a m -> update_rows cols q tb !! k = Some m.
Proof.
  intros Hq Hm Hno. rewrite update_rows_lookup, Hm. simpl. f_equal.
  destruct (sat q m) eqn:E; [|done]. by apply (sat_own a) in E.
Qed.

Lemma scoped_frame a h s (tb tb' : Table) r k m :
  scoped a h (Db s) -> keyed tb -> db_post s tb r tb' ->
  tb !! k = Some m -> ~ mine a m -> ~ inserted h k -> tb' !! k = Some m.
Proof.
  intros Hs Hk Hp Hm Hno Hni. destruct s as [am|q|q|cols q|am|q]; simpl in *.
  - destruct r as [m'|e]; [|by subst]. destruct Hp as (Hn & _ & ->).
    rewrite lookup_insert_ne; [done|]. intros <-. congruence.
  - by destruct Hp as [-> _].
  - by destruct Hp as [-> _].
  - destruct r as [n|e]; [|by subst]. destruct Hp as [_ ->]. by eapply update_rows_mine.
  - destruct r as [m'|e]; [|by subst]. destruct Hp as (m0 & Hid & _ & _ & ->).
    destruct Hs as (k' & Hid' & Hins). rewrite Hid in Hid'. injection Hid' as <-.
    rewrite lookup_insert_ne; [done|]. by intros <-.
  - done.
Qed.

Lemma scoped_revealed a h s r :
  scoped a h (Db s) -> db_lawful s r -> Forall (mine a) (revealed s r).
Proof.
  intros Hs Hl. destruct s as [am|q|q|cols q|am|q]; simpl in *; try by constructor.
  - destruct r as [m|e]; [|by constructor]. constructor; [|done].
    destruct Hs as (u & tok & -> & Heq & _), Hl as [Hl _]. rewrite Heq in Hl. simpl.
    by rewrite <- Hl.
  - destruct r as [[m|]|e]; [|by constructor..]. constructor; [|done]. by eapply sat_own.
  - destruct r as [l|e]; [|by constructor]. eapply Forall_impl; [exact Hl|]. intros m. by apply sat_own.
Qed.

(** C1. Tenant isolation.  Whatever other tasks do between the steps of a request, none
    of its statements changes or removes a row outside its authority (a row of another
    user, or with another token), rows it inserted itself apart, and every row a
    response shows it is within its authority. *)
Theorem tenant_isolation h headers a t o :
  authority h headers = Ok a ->
  trace (serve launcher config methods h headers) t o -> Forall lawful_ev t ->
  forall t1 s r t2, t = t1 ++ Ev (Db s) r :: t2 ->
  Forall (mine a) (revealed s r) /\
  forall tb tb' k m, keyed tb -> db_post s tb r tb' ->
    tb !! k = Some m -> ~ mine a m -> ~ inserted t1 k -> tb' !! k = Some m.
Proof.
  intros Ha Ht Hl t1 s r t2 ->. pose proof (serve_wp h headers) as Hs. rewrite Ha in Hs.
  pose proof (proj1 (wp_trace _ _ _ _ _ _ Hs Ht Hl) t1 _ t2 eq_refl) as Hsc. simpl in Hsc.
  apply Forall_app in Hl as [_ [Hx _]%Forall_cons]. split.
  - by eapply scoped_revealed.
  - intros tb tb' k m. by apply (scoped_frame a t1 s).
Qed.

End access.
