(* ===== verification/ProxyFacts.v ===== *)
(** * What the proxy guarantees

    Error messages survive the trip through a header; a dispatcher forwards a request
    only if it bears the dispatcher's token, and only to where the application with
    that token runs; every request it takes is answered once; connecting is tried a
    bounded number of times; polling ends when the application leaves its launching
    state; concurrent requests share a dispatcher. *)

From stdpp Require Import base option list strings gmap sets.
From Stdlib Require Import Ascii.
From S2P Require Import Prelude RustStr Entities Database Error Http Cache Env Proxy.
Import application.

Open Scope rust_scope.

(** ** Error messages in headers *)

Definition unhex (a : ascii) : option nat :=
  let n := nat_of_ascii a in
  if (48 <=? n)%nat && (n <=? 57)%nat then Some (n - 48)%nat
  else if (65 <=? n)%nat && (n <=? 70)%nat then Some (n - 55)%nat else None.

(** Percent-decoding as the gRPC specification describes it: an escape that is not two
    hexadecimal digits stands for itself. *)
Fixpoint percent_decode (s : string) : string :=
  match s with
  | String a rest =>
      if bool_decide (a = "%"%char) then
        match rest with
        | String x (String y rest') =>
            match unhex x, unhex y with
            | Some i, Some j => String (ascii_of_nat (16 * i + j)) (percent_decode rest')
            | _, _ => String a (percent_decode rest)
            end
        | _ => String a (percent_decode rest)
        end
      else String a (percent_decode rest)
  | EmptyString => ""
  end.

Lemma nat_ascii_bounded a : (nat_of_ascii a < 256)%nat.
Proof. apply nat_ascii_bounded. Qed.

Lemma hex_digit_code n : (n < 16)%nat -> nat_of_ascii (hex_digit n) = (if (n <? 10)%nat then 48 + n else 55 + n)%nat.
Proof. intros Hn. unfold hex_digit. apply nat_ascii_embedding. case_match; lia. Qed.

Lemma unhex_digit n : (n < 16)%nat -> unhex (hex_digit n) = Some n.
Proof. do 16 (destruct n as [|n]; [done|]). lia. Qed.

Lemma hex_parts a : let n := nat_of_ascii a in (n / 16 < 16)%nat /\ (n mod 16 < 16)%nat /\ (16 * (n / 16) + n mod 16 = n)%nat.
Proof.
  intros n. pose proof (nat_ascii_bounded a). fold n in H.
  split_and!; [apply Nat.Div0.div_lt_upper_bound; lia|apply Nat.mod_upper_bound; lia|].
  symmetry. apply Nat.div_mod. lia.
Qed.

Lemma percent_decode_byte a s : percent_decode (percent_byte a +:+ s) = String a (percent_decode s).
Proof.
  destruct (hex_parts a) as (H1 & H2 & H3). unfold percent_byte. rewrite !append_cons. cbn [percent_decode].
  rewrite bool_decide_true by done. rewrite !unhex_digit by done. rewrite H3. by rewrite ascii_nat_embedding.
Qed.

Lemma percent_round_trip m : percent_decode (percent_encode_grpc_message m) = m.
Proof.
  induction m as [|a m IH]; [done|]. cbn [percent_encode_grpc_message].
  destruct (_ && _ && _) eqn:E.
  - apply andb_true_iff in E as [_ Ha%negb_true_iff]. cbn [percent_decode]. by rewrite Ha, IH.
  - by rewrite percent_decode_byte, IH.
Qed.

Lemma hex_digit_visible n : (n < 16)%nat -> (32 <= nat_of_ascii (hex_digit n) < 127)%nat.
Proof. intros Hn. rewrite hex_digit_code by done. case_match; lia. Qed.

Lemma percent_encode_visible m b :
  has_char b (percent_encode_grpc_message m) = true -> (32 <= nat_of_ascii b < 127)%nat.
Proof.
  induction m as [|a m IH]; [done|]. cbn [percent_encode_grpc_message].
  destruct (_ && _ && _) eqn:E; simpl.
  - rewrite orb_true_iff, bool_decide_eq_true. intros [<-|Hb]; [|by apply IH].
    apply andb_true_iff in E as [[E1%Nat.leb_le E2%Nat.leb_le]%andb_true_iff _]. lia.
  - destruct (hex_parts a) as (H1 & H2 & _). rewrite !orb_true_iff, !bool_decide_eq_true.
    intros [<-|[<-|[<-|Hb]]]; [by vm_compute; split; repeat constructor|by apply hex_digit_visible..|by apply IH].
Qed.

Section proxy.
Context `{HttpLib}.

(** C26. The gRPC reply to an error loses nothing: it is a success on the HTTP level
    whose status header has the error's gRPC status and whose message header, decoded
    the gRPC way, is exactly the text of the error; the fallback for a text that makes
    no header is never needed. *)
Theorem proxy_error_response_message `{!HttpLaws} (error : Error) :
  exists message,
    proxy_error_response error =
      mkResponse 200 [("content-type", "application/grpc"); ("grpc-status", grpc_status error);
                      ("grpc-message", message)] None /\
    header_value_ok message = true /\ percent_decode message = to_string error.
Proof.
  exists (percent_encode_grpc_message (to_string error)).
  assert (Hok : header_value_ok (percent_encode_grpc_message (to_string error)) = true).
  { apply header_value_visible. intros a. apply percent_encode_visible. }
  split_and!; [|done|apply percent_round_trip]. unfold proxy_error_response. by rewrite Hok.
Qed.

(** ** What a dispatcher may do *)

(** The token's application was seen running at [address]. *)
Definition seen_running (token : string) (h : list ev) (addr : string) : Prop :=
  exists m, Ev (Db (One [TokenEq token])) (Ok (Some m)) ∈ h /\
    application.token m = token /\ state m = RUNNING /\ address m = Some addr.

Definition received (rx : Cache.chan) (h : list ev) (req : Request) (tx : nat) : Prop :=
  Ev (QueueRecv rx) (Some (req, tx)) ∈ h.

(** [sender] speaks to a connection that was opened to [addr]. *)
Definition connected (token : string) (h : list ev) (sender : nat) (addr : string) : Prop :=
  seen_running token h addr /\
  exists io, Ev (TcpConnect addr) (Ok io) ∈ h /\ Ev (Http2Handshake io) (Ok sender) ∈ h.

Definition dispatcher_guard (rx : Cache.chan) (token : string) (h : list ev) (e : Eff) : Prop :=
  match e with
  | Db (One q) => q = [TokenEq token]
  | Db (UpdateMany cols q) => cols = [SetAddress None; SetState FAILED] /\ q = [TokenEq token]
  | Db _ => False
  | CacheOp o => o = Cache.DropReceiver rx
  | TcpConnect addr => seen_running token h addr
  | SenderSend sender req' => exists req tx addr uri,
      received rx h req tx /\ extract_bearer_token (req_headers req) = Ok token /\
      connected token h sender addr /\ uri_parse (upstream_uri addr req) = Ok uri /\ req' = with_uri uri req
  | OneshotSend tx reply => is_ok reply = false /\ exists req, received rx h req tx
  | Spawn (DeliverResponse response tx) => exists req sender addr uri,
      received rx h req tx /\ extract_bearer_token (req_headers req) = Ok token /\
      connected token h sender addr /\ Ev (SenderSend sender (with_uri uri req)) response ∈ h
  | Spawn (ConnectionDriver _) => True
  | QueueRecv c | QueueIsClosed c => c = rx
  | Sleep _ | Http2Handshake _ | SenderReady _ => True
  | _ => False
  end.

Lemma seen_running_prefix token h h' addr : h `prefix_of` h' -> seen_running token h addr -> seen_running token h' addr.
Proof. intros [t ->] (m & Hin & Hm). exists m. split; [set_solver|done]. Qed.

Lemma received_prefix rx h h' req tx : h `prefix_of` h' -> received rx h req tx -> received rx h' req tx.
Proof. intros [t ->] Hin. unfold received. set_solver. Qed.

Lemma connected_prefix token h h' sender addr : h `prefix_of` h' -> connected token h sender addr -> connected token h' sender addr.
Proof.
  intros Hp [Hs (io & H1 & H2)]. split; [by eapply seen_running_prefix|]. destruct Hp as [t ->].
  exists io. set_solver.
Qed.

(** A fact about the history still holds after further events. *)
Ltac grown l H := eapply l, H; by repeat apply prefix_app_r.

Notation G rx token := (dispatcher_guard rx token).

Lemma resolve_wp rx token fuel h :
  wp (G rx token) (fun o h => match o with Some (Ok addr) => seen_running token h addr | _ => True end)
     h (resolve_upstream_address fuel rx token).
Proof.
  unfold resolve_upstream_address. eapply wp_post.
  - apply (wp_loop _ (fun _ _ => True)
      (fun r h => match r with Ok addr => seen_running token h addr | _ => True end)); [|done].
    intros [] h' _. unfold resolve_round. apply wp_do; [done|]. intros [] _; [done|].
    apply wp_do; [done|]. intros [[m|]|e] Hl; [|done..].
    destruct (state m) eqn:Es; [done| |done..].
    destruct (address m) as [addr|] eqn:Ea; [|done]. exists m.
    split; [set_solver|]. simpl in Hl. rewrite andb_true_r in Hl. by apply bool_decide_eq_true in Hl.
  - by intros [r|].
Qed.

Lemma connect_wp rx token addr h :
  seen_running token h addr ->
  wp (G rx token) (fun r h => match r with Ok sender => connected token h sender addr | _ => True end)
     h (connect_upstream addr).
Proof.
  intros Hs. unfold connect_upstream.
  wp_await; [done|]. intros [io|e] _; [|done].
  wp_await; [done|]. intros [sender|e] _; [|done].
  apply wp_do; [done|]. intros r _. split.
  - eapply seen_running_prefix, Hs. by do 3 apply prefix_app_r.
  - exists io. set_solver.
Qed.

Lemma attempts_wp rx token addr attempt n last h :
  seen_running token h addr ->
  wp (G rx token) (fun r h => match r with inl (Ok sender) => connected token h sender addr | _ => True end)
     h (connect_attempts attempt n addr last).
Proof.
  revert attempt last h. induction n as [|n IH]; intros attempt last h Hs; [done|].
  cbn [connect_attempts]. apply wp_bind. eapply wp_post; [by apply wp_grow, connect_wp|].
  intros r h' [Hr Hp]. apply (seen_running_prefix _ _ h') in Hs; [|done].
  assert (Hretry : forall e, wp (G rx token)
    (fun r h => match r with inl (Ok sender) => connected token h sender addr | _ => True end) h'
    (_ <- (if (attempt <? MAX_UPSTREAM_CONNECT_RETRIES)%nat then do (Sleep UPSTREAM_CONNECT_RETRY_DELAY) else Ret tt);;
     connect_attempts (S attempt) n addr (Some e))).
  { intros e. apply wp_bind. destruct (attempt <? _)%nat; [|by apply IH].
    apply wp_eff; [done|]. intros u _. apply IH. eapply seen_running_prefix, Hs. by apply prefix_app_r. }
  destruct r as [sender|[]]; cbv beta iota zeta; try done; apply Hretry.
Qed.

Lemma resolve_connection_wp rx token fuel h :
  wp (G rx token) (fun o h => match o with Some (Ok (sender, addr)) => connected token h sender addr | _ => True end)
     h (resolve_upstream_connection fuel rx token).
Proof.
  unfold resolve_upstream_connection. apply wp_bind. eapply wp_post; [apply resolve_wp|].
  intros [[addr|e]|] h' Hr; [|done..]. apply wp_bind. eapply wp_post; [by apply attempts_wp|].
  intros [[sender|e]|last] h'' Hc; [done..|]. unfold mark_application_failed.
  apply wp_bind, wp_try, wp_map_err, wp_eff; [done|]. by intros [n|e] _.
Qed.

(** The connection a dispatcher holds between messages. *)
Definition holds (token : string) (upstream : option (nat * string)) (h : list ev) : Prop :=
  match upstream with Some (sender, addr) => connected token h sender addr | None => True end.

Lemma holds_prefix token u h h' : h `prefix_of` h' -> holds token u h -> holds token u h'.
Proof. destruct u as [[sender addr]|]; [|done]. apply connected_prefix. Qed.

Lemma handle_message_wp rx token fuel upstream req tx h :
  received rx h req tx -> holds token upstream h ->
  wp (G rx token) (fun o h => match o with Some u => holds token u h | None => True end)
     h (handle_message fuel rx token upstream req tx).
Proof.
  intros Hrec Hh. unfold handle_message.
  destruct (extract_bearer_token (req_headers req)) as [t|e] eqn:Et.
  2:{ apply wp_do; [by split; [|exists req]|]. intros r _. by grown holds_prefix Hh. }
  case_bool_decide as Htok; [subst t|]; cbn [negb].
  2:{ apply wp_do; [by split; [|exists req]|]. intros r _. by grown holds_prefix Hh. }
  apply wp_bind.
  assert (Hconn : wp (G rx token) (fun o h => match o with Some (Ok (sender, addr)) => connected token h sender addr | _ => True end)
    h (match upstream with Some c => Ret (Some (Ok c)) | None => resolve_upstream_connection fuel rx token end)).
  { destruct upstream as [[sender addr]|]; [done|]. apply resolve_connection_wp. }
  eapply wp_post; [apply wp_grow, Hconn|]. clear Hconn Hh.
  intros [[[sender addr]|e]|] h' [Hc Hp]; [| |done];
    apply (received_prefix _ _ h') in Hrec; try done.
  2:{ apply wp_do; [by split; [|exists req]|done]. }
  destruct (uri_parse (upstream_uri addr req)) as [uri|err] eqn:Eu.
  2:{ apply wp_do; [by split; [|exists req]|]. intros r _. by grown connected_prefix Hc. }
  apply wp_do; [done|]. intros [u|err] _.
  2:{ apply wp_do; [|done]. split; [done|]. exists req. by grown received_prefix Hrec. }
  apply wp_do.
  { exists req, tx, addr, uri. split_and!; try done; [by grown received_prefix Hrec|by grown connected_prefix Hc]. }
  intros response _. apply wp_do.
  { exists req, sender, addr, uri. split_and!; [by grown received_prefix Hrec|done|by grown connected_prefix Hc|set_solver]. }
  intros r _. by grown connected_prefix Hc.
Qed.

Lemma upstream_connection_wp messages fuel rx token upstream h :
  holds token upstream h ->
  wp (G rx token) (fun _ _ => True) h (upstream_connection messages fuel rx token upstream).
Proof.
  revert upstream h. induction messages as [|n IH]; intros upstream h Hh; [done|].
  cbn [upstream_connection]. apply wp_do; [done|]. intros [[req tx]|] _; [|by apply wp_do].
  apply wp_bind. eapply wp_post.
  - apply handle_message_wp; [unfold received; set_solver|]. eapply holds_prefix, Hh. by apply prefix_app_r.
  - intros [u|] h' Hu; [|done]. by apply IH.
Qed.

(** C5. In every run of a dispatcher, whatever the responses and however many messages
    and polls: a request is forwarded only if it was taken from the dispatcher's queue
    and bears the dispatcher's own token, unchanged but for its address, over a
    connection opened to an address at which the application with that token had been
    seen RUNNING; connections are opened to such addresses only; replies go only to
    senders of requests taken from the queue, the dispatcher's own are errors, and a
    response is left to be delivered to the sender of the request it answers; the database is only read at the token
    and only changed by marking the token's application failed. *)
Theorem dispatcher_guarded messages fuel rx token t o :
  trace (upstream_connection messages fuel rx token None) t o -> Forall lawful_ev t ->
  forall t1 x t2, t = t1 ++ x :: t2 -> dispatcher_guard rx token t1 (ev_eff x).
Proof.
  intros Ht Hl. assert (Hh : holds token None []) by done.
  exact (proj1 (wp_trace _ _ _ _ _ _ (upstream_connection_wp messages fuel rx token None [] Hh) Ht Hl)).
Qed.

(** ** Every request is answered once *)

(** The reply channels of the messages taken, and those replied to or handed to a task
    that will, in order. *)
Definition taken_by (x : ev) : list nat :=
  match ev_eff x as e return resp e -> list nat with
  | QueueRecv _ => fun r => match r with Some (_, tx) => [tx] | None => [] end
  | _ => fun _ => []
  end (ev_resp x).

Definition replied_by (x : ev) : list nat :=
  match ev_eff x with
  | OneshotSend tx _ => [tx]
  | Spawn (DeliverResponse _ tx) => [tx]
  | _ => []
  end.

Definition taken (h : list ev) : list nat := h ≫= taken_by.
Definition replied (h : list ev) : list nat := h ≫= replied_by.

Definition answer_guard (h : list ev) (e : Eff) : Prop :=
  match e with
  | QueueRecv _ | CacheOp _ => replied h = taken h
  | OneshotSend tx _ | Spawn (DeliverResponse _ tx) => taken h = replied h ++ [tx]
  | _ => True
  end.

(** Effects that neither take a message nor reply to one. *)
Definition silent (e : Eff) : Prop :=
  match e with
  | QueueRecv _ | CacheOp _ | OneshotSend _ _ | Spawn (DeliverResponse _ _) => False
  | _ => True
  end.

Lemma taken_snoc h x : taken (h ++ [x]) = taken h ++ taken_by x.
Proof. unfold taken. rewrite bind_app. simpl. by rewrite app_nil_r. Qed.

Lemma replied_snoc h x : replied (h ++ [x]) = replied h ++ replied_by x.
Proof. unfold replied. rewrite bind_app. simpl. by rewrite app_nil_r. Qed.

Lemma silent_wp {A} (p : prog A) h :
  safe silent p -> wp answer_guard (fun _ h' => taken h' = taken h /\ replied h' = replied h) h p.
Proof.
  intros Hp. apply (safe_wp _ _ _ h) in Hp. revert h Hp.
  induction p as [a|e k IH]; intros h Hp; simpl; [done|]. destruct Hp as [He Hk].
  split; [by destruct e as [| | | | |[]| | | | | | | | | | | | | | | | | |]|].
  intros r Hr. eapply wp_post; [by apply IH, Hk|]. intros a h' [-> ->].
  rewrite taken_snoc, replied_snoc.
  assert (taken_by (Ev e r) = [] /\ replied_by (Ev e r) = []) as [-> ->].
  { by destruct e as [| | | | |[]| | | | | | | | | | | | | | | | | |]. }
  by rewrite !app_nil_r.
Qed.

Lemma resolve_connection_silent fuel rx token : safe silent (resolve_upstream_connection fuel rx token).
Proof.
  apply safe_bind.
  - apply safe_loop. intros []. apply safe_do; [done|]. intros [] _; [done|].
    apply safe_do; [done|]. intros [[m|]|e] _; [|done..]. destruct (state m); [|done..]. by apply safe_do.
  - intros [[addr|e]|]; [|done..]. apply safe_bind.
    + generalize (@None Error) as last. generalize 0 as attempt.
      generalize (S MAX_UPSTREAM_CONNECT_RETRIES) as n.
      induction n as [|n IH]; intros attempt last; [done|]. cbn [connect_attempts].
      assert (Hretry : forall e, safe silent
        (_ <- (if (attempt <? MAX_UPSTREAM_CONNECT_RETRIES)%nat then do (Sleep UPSTREAM_CONNECT_RETRY_DELAY) else Ret tt);;
         connect_attempts (S attempt) n addr (Some e))).
      { intros e. apply safe_bind; [by case_match|]. intros _. apply IH. }
      apply safe_bind.
      * unfold connect_upstream. split; [done|]. intros [io|e] _; [|done].
        split; [done|]. by intros [sender|e] _.
      * intros [sender|[]]; cbv beta iota zeta; try done; apply Hretry.
    + intros [[sender|e]|last]; [done..|]. split; [done|]. by intros [n|e] _.
Qed.

Lemma handle_message_answers fuel rx token upstream req tx h :
  taken h = replied h ++ [tx] ->
  wp answer_guard (fun o h' => match o with Some _ => replied h' = taken h' | None => True end) h
    (handle_message fuel rx token upstream req tx).
Proof.
  intros Hh. unfold handle_message.
  assert (Hreply : forall h reply (u : option (nat * string)), taken h = replied h ++ [tx] ->
    wp answer_guard (fun o h' => match o with Some _ => replied h' = taken h' | None => True end) h
      (do (OneshotSend tx reply);; Ret (Some u))).
  { intros h0 reply u H0. apply wp_do; [done|]. intros r _. simpl.
    rewrite taken_snoc, replied_snoc. simpl. by rewrite app_nil_r. }
  destruct (extract_bearer_token (req_headers req)) as [t|e]; [|by apply Hreply].
  case_bool_decide; cbn [negb]; [|by apply Hreply]. apply wp_bind.
  eapply wp_post; [apply silent_wp; destruct upstream; [done|apply resolve_connection_silent]|].
  intros [[[sender addr]|e]|] h' [Ht Hr]; [| |done]; rewrite <- Hr, <- Ht in Hh; [|by apply Hreply].
  destruct (uri_parse (upstream_uri addr req)) as [uri|err]; [|by apply Hreply].
  apply wp_do; [done|]. intros ready _.
  assert (Hh1 : taken (h' ++ [Ev (SenderReady sender) ready]) = replied (h' ++ [Ev (SenderReady sender) ready]) ++ [tx]).
  { rewrite taken_snoc, replied_snoc. simpl. by rewrite !app_nil_r. }
  destruct ready as [u|err]; [|by apply Hreply].
  apply wp_do; [done|]. intros response _. apply wp_do.
  { simpl. rewrite taken_snoc, replied_snoc. simpl. by rewrite !app_nil_r. }
  intros r _. simpl. rewrite !taken_snoc, !replied_snoc in *. simpl in *. by rewrite !app_nil_r in *.
Qed.

Lemma upstream_connection_answers messages fuel rx token upstream h :
  replied h = taken h ->
  wp answer_guard (fun _ _ => True) h (upstream_connection messages fuel rx token upstream).
Proof.
  revert upstream h. induction messages as [|n IH]; intros upstream h Hh; [done|].
  cbn [upstream_connection]. apply wp_do; [done|]. intros [[req tx]|] _.
  - apply wp_bind. eapply wp_post.
    + apply handle_message_answers. rewrite taken_snoc, replied_snoc, Hh. simpl. by rewrite app_nil_r.
    + intros [u|] h' Hu; [|done]. by apply IH.
  - apply wp_do; [|done]. simpl. rewrite taken_snoc, replied_snoc, Hh. done.
Qed.

(** C10. A dispatcher answers the requests it takes once each and in order: when it
    takes the next one, or stops, it has replied to all it has taken, and the only
    reply it ever sends, or leaves to a task that waits for the response, is the one
    to the request it is working on. *)
Theorem dispatcher_answers_once messages fuel rx token t o :
  trace (upstream_connection messages fuel rx token None) t o -> Forall lawful_ev t ->
  forall t1 x t2, t = t1 ++ x :: t2 -> answer_guard t1 (ev_eff x).
Proof.
  intros Ht Hl. assert (Hh : replied [] = taken []) by done.
  exact (proj1 (wp_trace _ _ _ _ _ _ (upstream_connection_answers messages fuel rx token None [] Hh) Ht Hl)).
Qed.

(** ** Polling and connecting *)

(** A poll that found the application launching. *)
Definition launching_poll (x : ev) : bool :=
  match ev_eff x as e return resp e -> bool with
  | Db s =>
      match s return db_resp s -> bool with
      | One _ => fun r => match r with Ok (Some m) => bool_decide (state m = LAUNCHING) | _ => false end
      | _ => fun _ => false
      end
  | _ => fun _ => false
  end (ev_resp x).

Definition count (P : ev -> bool) (h : list ev) : nat := length (List.filter P h).

Lemma count_snoc P h x : count P (h ++ [x]) = (count P h + if P x then 1 else 0)%nat.
Proof. unfold count. rewrite List.filter_app, length_app. simpl. by destruct (P x). Qed.

(** What the last poll of a resolution that ended with [r] had found. *)
Definition resolved_by (rx : Cache.chan) (token : string) (h : list ev) (r : result string Error) : Prop :=
  match r with
  | Ok addr => seen_running token h addr
  | Err ApplicationNotFound => Ev (QueueIsClosed rx) true ∈ h \/ Ev (Db (One [TokenEq token])) (Ok None) ∈ h
  | Err (DatabaseError e) => Ev (Db (One [TokenEq token])) (Err e) ∈ h
  | Err MissingApplicationAddress =>
      exists m, Ev (Db (One [TokenEq token])) (Ok (Some m)) ∈ h /\ state m = RUNNING /\ address m = None
  | Err (InvalidApplicationState s) =>
      exists m, Ev (Db (One [TokenEq token])) (Ok (Some m)) ∈ h /\ state m = s /\ (s = FAILED \/ s = FINISHED)
  | Err _ => False
  end.

Lemma resolve_round_wp rx token h :
  wp (fun _ _ => True)
     (fun o h' => match o with
                  | inl _ => count launching_poll h' = S (count launching_poll h)
                  | inr r => count launching_poll h' = count launching_poll h /\ resolved_by rx token h' r
                  end) h (resolve_round rx token tt).
Proof.
  unfold resolve_round. apply wp_do; [done|]. intros closed _. destruct closed; cbv beta iota.
  { simpl. rewrite count_snoc. simpl. split; [lia|]. left. set_solver. }
  apply wp_do; [done|]. intros found Hl.
  assert (Hc : count launching_poll ((h ++ [Ev (QueueIsClosed rx) false]) ++ [Ev (Db (One [TokenEq token])) found])
    = (count launching_poll h + if launching_poll (Ev (Db (One [TokenEq token])) found) then 1 else 0)%nat).
  { rewrite !count_snoc. simpl. lia. }
  destruct found as [[m|]|e]; cbn [launching_poll ev_eff ev_resp] in Hc; cbv beta iota.
  2:{ simpl. rewrite Hc. split; [lia|]. right. set_solver. }
  2:{ simpl. rewrite Hc. split; [lia|]. set_solver. }
  simpl in Hl. rewrite andb_true_r in Hl. apply bool_decide_eq_true in Hl.
  destruct (state m) eqn:Es; rewrite ?Es in Hc;
    ((rewrite bool_decide_true in Hc by done) || (rewrite bool_decide_false in Hc by done));
    cbv beta iota.
  - apply wp_do; [done|]. intros r _. simpl. rewrite count_snoc, Hc. simpl. lia.
  - simpl. rewrite Hc. split; [lia|]. destruct (address m) as [a|] eqn:Ea; exists m; set_solver.
  - simpl. rewrite Hc. split; [lia|]. exists m. set_solver.
  - simpl. rewrite Hc. split; [lia|]. exists m. set_solver.
Qed.

Lemma resolve_polls_wp rx token fuel h :
  wp (fun _ _ => True)
     (fun o h' => match o with
                  | None => count launching_poll h' = (count launching_poll h + fuel)%nat
                  | Some r => (count launching_poll h' < count launching_poll h + fuel)%nat /\ resolved_by rx token h' r
                  end) h (resolve_upstream_address fuel rx token).
Proof.
  unfold resolve_upstream_address. revert h. induction fuel as [|fuel IH]; intros h; [simpl; lia|].
  cbn [loop]. apply wp_bind. eapply wp_post; [apply resolve_round_wp|].
  intros [[]|r] h' Hr.
  - eapply wp_post; [apply IH|]. intros [r|] h'' H'; simpl in H', Hr; [|lia]. destruct H'. split; [lia|done].
  - destruct Hr as [Hc Hr]. simpl. split; [lia|done].
Qed.

(** C25. Polling for the address: a resolution that has looked [fuel] times is without
    a result only if it found the application launching every time, so looking once
    more than the application is found launching is enough; and its result is what
    the poll that ended it had found, an address only of a RUNNING application. *)
Theorem resolve_polls_until_launched fuel rx token t o :
  trace (resolve_upstream_address fuel rx token) t (Some o) -> Forall lawful_ev t ->
  match o with
  | None => count launching_poll t = fuel
  | Some r => (count launching_poll t < fuel)%nat /\ resolved_by rx token t r
  end.
Proof.
  intros Ht Hl. pose proof (proj2 (wp_trace _ _ _ _ _ _ (resolve_polls_wp rx token fuel []) Ht Hl) _ eq_refl) as H'.
  by destruct o.
Qed.

Definition is_connect (x : ev) : bool := match ev_eff x with TcpConnect _ => true | _ => false end.
Definition is_mark (x : ev) : bool := match ev_eff x with Db (UpdateMany _ _) => true | _ => false end.

(** The last attempt allowed, and what an attempt fails with. *)
Definition connect_failure (e : Error) : Prop :=
  match e with UpstreamConnect _ | UpstreamHandshake _ => True | _ => False end.

Lemma connect_count_wp addr h :
  wp (fun h' e => match e with TcpConnect _ => h' = h | Db _ => False | _ => True end)
     (fun r h' => count is_connect h' = S (count is_connect h) /\ count is_mark h' = count is_mark h /\
                  forall e, r = Err e -> connect_failure e) h (connect_upstream addr).
Proof.
  unfold connect_upstream.
  wp_await; [done|]. intros [io|e] _; cbn [map_err].
  2:{ rewrite !count_snoc. simpl. split_and!; [lia..|]. by intros e' [= <-]. }
  wp_await; [done|]. intros [sender|e] _; cbn [map_err].
  2:{ rewrite !count_snoc. simpl. split_and!; [lia..|]. by intros e' [= <-]. }
  apply wp_do; [done|]. intros r _. simpl. rewrite !count_snoc. simpl. split_and!; [lia..|done].
Qed.

(** After every attempt but the last there is a pause and another one. *)
Definition connect_guard (fuel0 : nat) (h : list ev) (e : Eff) : Prop :=
  match e with
  | TcpConnect _ => (count is_connect h < fuel0)%nat
  | Db (UpdateMany _ _) => count is_connect h = fuel0
  | _ => True
  end.

Lemma attempts_count_wp N addr attempt n last h :
  (count is_connect h + n = N)%nat -> (n = 0 -> exists e, last = Some e /\ connect_failure e) ->
  wp (connect_guard N)
     (fun r h' => count is_mark h' = count is_mark h /\
        match r with
        | inl (Ok _) => True
        | inl (Err _) => False
        | inr last => count is_connect h' = N /\ exists e, last = Some e /\ connect_failure e
        end) h (connect_attempts attempt n addr last).
Proof.
  revert attempt last h. induction n as [|n IH]; intros attempt last h Hn Hlast; cbn [connect_attempts].
  { simpl. split; [done|]. split; [lia|]. by apply Hlast. }
  apply wp_bind. eapply wp_mono; [| |apply (connect_count_wp addr h)].
  { intros h' e. destruct e; try done. by intros ->; simpl; lia. }
  intros r h' (Hc & Hm & He). cbv beta.
  assert (Hretry : forall e, connect_failure e -> wp (connect_guard N)
     (fun r h' => count is_mark h' = count is_mark h /\
        match r with
        | inl (Ok _) => True
        | inl (Err _) => False
        | inr last => count is_connect h' = N /\ exists e, last = Some e /\ connect_failure e
        end) h'
    (_ <- (if (attempt <? MAX_UPSTREAM_CONNECT_RETRIES)%nat then do (Sleep UPSTREAM_CONNECT_RETRY_DELAY) else Ret tt);;
     connect_attempts (S attempt) n addr (Some e))).
  { intros e Hf. apply wp_bind. destruct (attempt <? _)%nat.
    - apply wp_eff; [done|]. intros u _. eapply wp_post; [apply IH; [rewrite count_snoc; simpl; lia|by exists e]|].
      intros r' h'' [-> Hr]. split; [|done]. rewrite count_snoc. simpl. lia.
    - cbn [wp]. eapply wp_post; [apply IH; [lia|by exists e]|]. intros r' h'' [-> Hr]. by split. }
  destruct r as [sender|e]; [done|]. specialize (He e eq_refl).
  destruct e; try done; cbv zeta; by apply Hretry.
Qed.

Lemma count_frame_wp {A} (P : ev -> bool) (G : list ev -> Eff -> Prop) (p : prog A) h :
  (forall h' e, (forall r, P (Ev e r) = false) -> G h' e) ->
  safe (fun e => forall r, P (Ev e r) = false) p -> wp G (fun _ h' => count P h' = count P h) h p.
Proof.
  intros HG Hp. apply (safe_wp _ _ _ h) in Hp. revert h Hp.
  induction p as [a|e k IH]; intros h Hp; simpl; [done|]. destruct Hp as [He Hk].
  split; [by apply HG|]. intros r Hr. eapply wp_post; [by apply IH, Hk|]. intros a h' ->.
  rewrite count_snoc, He. lia.
Qed.

Definition touches (x : ev) : bool := is_connect x || is_mark x.

Lemma touches_none h : count touches h = 0 -> count is_connect h = 0 /\ count is_mark h = 0.
Proof.
  unfold count, touches. induction h as [|x h IH]; [done|]. simpl.
  destruct (is_connect x), (is_mark x); simpl; [lia..|done].
Qed.

Lemma resolve_touches rx token fuel :
  safe (fun e => forall r, touches (Ev e r) = false) (resolve_upstream_address fuel rx token).
Proof.
  apply safe_loop. intros []. apply safe_do; [done|]. intros [] _; [done|].
  apply safe_do; [done|]. intros [[m|]|e] _; [|done..]. destruct (state m); [|done..]. by apply safe_do.
Qed.

Lemma resolve_connection_count_wp fuel rx token :
  wp (connect_guard 4)
     (fun o h => match o with
                 | Some (Ok _) => count is_mark h = 0
                 | Some (Err e) => count is_connect h = 0 \/
                     (count is_connect h = 4 /\ count is_mark h = 1 /\ (connect_failure e \/ exists d, e = DatabaseError d))
                 | None => True
                 end) [] (resolve_upstream_connection fuel rx token).
Proof.
  unfold resolve_upstream_connection. apply wp_bind.
  eapply wp_post; [apply (count_frame_wp touches); [|apply resolve_touches]|].
  { intros h e He. destruct e as [s| | | | | | | | | | | | | | | | | | |addr| | | |]; try done.
    - destruct s; try done. by specialize (He (Err (DbErrMsg ""))).
    - by specialize (He (Ok 0)). }
  intros o h [Hc Hm]%touches_none. destruct o as [[addr|e]|]; [|by left|done].
  apply wp_bind. eapply wp_post; [apply (attempts_count_wp 4); [by rewrite Hc|done]|].
  intros r h' [Hm' Hr]. destruct r as [[sender|e]|last]; [simpl; lia|done|].
  destruct Hr as (Hc' & e & -> & He). unfold mark_application_failed.
  apply wp_bind, wp_try, wp_map_err, wp_eff; [done|].
  intros [n|d] _; simpl; right; rewrite !count_snoc; simpl; (split_and!; [lia..|]); [by left|right; by exists d].
Qed.

Lemma connect_count_bound N h :
  (forall h1 x h2, h = h1 ++ x :: h2 -> connect_guard N h1 (ev_eff x)) -> (count is_connect h <= N)%nat.
Proof.
  induction h as [|x h IH] using rev_ind; intros Hg; [apply Nat.le_0_l|].
  rewrite count_snoc. pose proof (Hg h x [] eq_refl) as Hx.
  assert (count is_connect h <= N)%nat.
  { apply IH. intros h1 y h2 ->. apply (Hg h1 y (h2 ++ [x])). by rewrite <- app_assoc. }
  unfold is_connect at 2. destruct (ev_eff x); simpl in Hx; lia.
Qed.

(** C24. Connecting is tried at most four times, and the application is marked failed
    only after the fourth failure.  When connecting was tried and no connection came
    about, it was tried four times, the application was marked once, and the result is
    the error of an attempt, or of marking the application; the [expect] on the last
    error never fails.  A connection that came about leaves the application alone. *)
Theorem connect_attempts_bounded fuel rx token t o :
  trace (resolve_upstream_connection fuel rx token) t o -> Forall lawful_ev t ->
  (count is_connect t <= 4)%nat /\
  (forall t1 q cols r t2, t = t1 ++ Ev (Db (UpdateMany cols q)) r :: t2 -> count is_connect t1 = 4) /\
  forall r, o = Some (Some r) -> (0 < count is_connect t)%nat ->
    match r with
    | Ok _ => count is_mark t = 0
    | Err e => count is_connect t = 4 /\ count is_mark t = 1 /\
               (connect_failure e \/ exists d, e = DatabaseError d)
    end.
Proof.
  intros Ht Hl.
  destruct (wp_trace _ _ _ _ _ _ (resolve_connection_count_wp fuel rx token) Ht Hl) as [HG HQ].
  split_and!.
  - by apply connect_count_bound.
  - intros t1 q cols r t2 Heq. apply (HG t1 _ t2 Heq).
  - intros r -> Hpos. specialize (HQ _ eq_refl). destruct r as [c|e]; [done|].
    destruct HQ as [HQ|HQ]; [simpl in HQ; lia|done].
Qed.

End proxy.
