(* ===== verification/DispatchFacts.v ===== *)
(** * From a request to the dispatcher of its token

    What [sender_for] returns and starts, that concurrent requests for one token share
    a dispatcher, that a closed or invalidated dispatcher is replaced by a new one, and
    what the proxy does with a request before it is in a dispatcher's queue. *)

From stdpp Require Import base option list strings gmap sets.
From Stdlib Require Import Ascii.
From S2P Require Import Prelude RustStr Entities Database Error Http Cache Env Proxy RoutesFacts.
Import application.

Open Scope rust_scope.

(** ** Critical sections, interleaved *)

(** The sections that leave channel [c] registered for [token] and open. *)
Definition keeps (token : string) (c : Cache.chan) (o : Cache.Op) : Prop :=
  match o with
  | Cache.Invalidate t => t <> token
  | Cache.DropReceiver c' => c' <> c
  | _ => True
  end.

Lemma keeps_step token c o s :
  keeps token c o -> Cache.lookup_open token s = Some c ->
  Cache.lookup_open token (Cache.step o s).2 = Some c.
Proof.
  rewrite !Cache.lookup_open_Some. intros Hk [Hc Ho]. destruct o as [t|t|t|t|c']; simpl in *.
  - done.
  - unfold Cache.get_or_insert. destruct (Cache.lookup_open t s) eqn:E; [done|]. simpl.
    rewrite lookup_insert_ne; [done|]. intros ->.
    by rewrite (proj2 (Cache.lookup_open_Some token s c)) in E.
  - unfold Cache.remove_closed, Cache.is_closed. destruct (Cache.connections s !! t) as [c'|] eqn:E; [|done].
    case_bool_decide; [|done]. simpl. rewrite lookup_delete_ne; [done|]. intros ->. congruence.
  - by rewrite lookup_delete_ne.
  - set_solver.
Qed.

(** C18. Single flight: once a dispatcher serves a token, every later look-up and every
    later registration for the token, with any critical sections of any requests in
    between, gives the same channel and starts nothing, until that dispatcher ends or
    the token is invalidated. *)
Theorem single_flight (token : string) (s : Cache.State) (ops : list Cache.Op) :
  Cache.wf s ->
  let c := (Cache.get_or_insert token s).1.1 in
  let s' := Cache.steps ops (Cache.get_or_insert token s).2 in
  Forall (keeps token c) ops ->
  Cache.lookup_open token s' = Some c /\ Cache.get_or_insert token s' = ((c, false), s').
Proof.
  intros Hwf c s' Hops.
  assert (Hs : Cache.lookup_open token s' = Some c).
  { unfold s'. pose proof (Cache.get_or_insert_open token s Hwf) as H0. fold c in H0.
    revert H0. generalize (Cache.get_or_insert token s).2.
    induction Hops as [|o ops Ho Hops IH]; intros s0 H0; [done|]. simpl. by apply IH, keeps_step. }
  split; [done|]. unfold Cache.get_or_insert. by rewrite Hs.
Qed.

Lemma register_new token s :
  Cache.wf s -> Cache.lookup_open token s = None ->
  exists c s', Cache.get_or_insert token s = ((c, true), s') /\ Cache.wf s' /\
    Cache.workers s !! c = None /\ c ∉ Cache.closed s' /\
    Cache.lookup_open token s' = Some c /\ Cache.workers s' !! c = Some token /\
    forall t, t <> token -> Cache.lookup_open t s' = Cache.lookup_open t s.
Proof.
  intros Hwf Hn. pose proof (Cache.get_or_insert_wf token s Hwf) as Hwf'.
  pose proof (Cache.get_or_insert_open token s Hwf) as Ho.
  pose proof (fun t => Cache.get_or_insert_other token t s) as Hother.
  unfold Cache.get_or_insert in *. rewrite Hn in *. simpl in *.
  eexists _, _. split; [done|]. split; [done|]. split_and!.
  - apply eq_None_not_Some. intros [t Ht]. pose proof (Cache.wf_work _ Hwf _ _ Ht). lia.
  - simpl. intros Hc. pose proof (Cache.wf_closed _ Hwf _ Hc). lia.
  - done.
  - simpl. apply lookup_insert_eq.
  - intros t Ht. by apply Hother.
Qed.

(** No stale dispatcher: when no open channel is registered for a token, because
    it was invalidated or its dispatcher has ended, the next registration makes a
    channel that never existed before, is open, and serves that token, without
    touching what other tokens have. *)
Theorem reconnect_fresh (token : string) (s : Cache.State) :
  Cache.wf s ->
  (forall c, Cache.lookup_open token (Cache.invalidate token s).2 = None /\
     (Cache.connections s !! token = Some c -> Cache.lookup_open token (Cache.drop_receiver c s) = None)) /\
  (Cache.lookup_open token s = None ->
   exists c s', Cache.get_or_insert token s = ((c, true), s') /\ Cache.wf s' /\
     Cache.workers s !! c = None /\ c ∉ Cache.closed s' /\
     Cache.lookup_open token s' = Some c /\ Cache.workers s' !! c = Some token /\
     forall t, t <> token -> Cache.lookup_open t s' = Cache.lookup_open t s).
Proof.
  intros Hwf. split.
  - intros c. split.
    + apply eq_None_not_Some. intros [c' [Hc _]%Cache.lookup_open_Some]. by rewrite Cache.invalidate_gone in Hc.
    + intros Hc. apply eq_None_not_Some. intros [c' [Hc' Ho]%Cache.lookup_open_Some]. simpl in *.
      rewrite Hc in Hc'. injection Hc' as <-. set_solver.
  - by apply register_new.
Qed.

(** ** Finding the dispatcher *)

Section dispatch.
Context `{HttpLib}.

Section runs.
Context {W : Type} `{!Env W} `{!View W} `{!EnvLaws W}.

Lemma sender_for_run (w : W) (token : string) :
  Cache.wf (cache w) ->
  let '(r, w') := run (sender_for token) w in
  rows w' = rows w /\ Cache.wf (cache w') /\
  (forall t, t <> token -> Cache.lookup_open t (cache w') = Cache.lookup_open t (cache w)) /\
  match r with
  | Ok c => Cache.lookup_open token (cache w') = Some c /\ Cache.workers (cache w') !! c = Some token
  | Err ApplicationNotFound => no_token token (rows w) /\ cache w' = cache w
  | Err (DatabaseError _) => ~ healthy w /\ cache w' = cache w
  | Err _ => False
  end.
Proof.
  intros Hwf. unfold sender_for, try_bind, map_err_m, do. cbn [bind run].
  destruct (exec_cache_cases (Cache.LookupOpen token) w) as (w1 & -> & Hc1 & Hr1 & Hh1).
  cbn [Cache.step fst snd] in *.
  destruct (Cache.lookup_open token (cache w)) as [c|] eqn:El; cbn [run].
  { rewrite Hc1. do 3 (split; [done|]). split; [done|].
    by apply Cache.wf_conn, (proj1 (proj1 (Cache.lookup_open_Some _ _ _) El)). }
  destruct (exec_db_cases (One [TokenEq token]) w1) as (r & w2 & -> & Hp & Hc2 & Hh2 & Ha2).
  destruct r as [o|e]; cbn [map_err bind run].
  2:{ destruct Hp as [-> _]. rewrite Hc2, Hc1. split; [congruence|]. do 2 (split; [done|]). split; [|done].
      intros Hw. by destruct (Ha2 (Hh1 Hw) I). }
  destruct Hp as [Hr2 Hp]. destruct o as [m|]; simpl.
  2:{ rewrite Hc2, Hc1, Hr2. do 3 (split; [done|]). split; [|done].
      rewrite Hr1 in Hp. exact (proj1 (selected_token _ _) Hp). }
  destruct (exec_cache_cases (Cache.GetOrInsert token) w2) as (w3 & -> & Hc3 & Hr3 & Hh3).
  rewrite Hc2, Hc1 in *. cbn [Cache.step] in *.
  destruct (register_new token (cache w) Hwf El) as (c & s' & Hg & Hwf' & _ & _ & Hlook & Hwork & Hother).
  rewrite Hg in *. cbn [fst snd] in *. unfold do. cbn [bind run].
  pose proof (exec_rows (Spawn (UpstreamConnection c token)) w3 ltac:(done)) as Hr4.
  pose proof (exec_cache_frame (Spawn (UpstreamConnection c token)) w3 ltac:(done)) as Hc4.
  destruct (exec (Spawn (UpstreamConnection c token)) w3) as [h w4]. simpl in Hr4, Hc4. cbn [run].
  by rewrite Hc4, Hc3, Hr4, Hr3, Hr2, Hr1.
Qed.

(** The cache answered a look-up in state [s1] and a registration in state [s2]: other
    tasks may have changed it in between. *)
Definition answers (s1 s2 : Cache.State) (x : ev) : Prop :=
  match x with
  | Ev (CacheOp (Cache.LookupOpen t)) r => r = Cache.lookup_open t s1
  | Ev (CacheOp (Cache.GetOrInsert t)) r => r = (Cache.get_or_insert t s2).1
  | _ => True
  end.

(** The events after which [sender_for] may return [r]. *)
Definition sender_outcome (token : string) (s1 s2 : Cache.State) (t : list ev) (r : result Cache.chan Error) : Prop :=
  let look := Ev (CacheOp (Cache.LookupOpen token)) (Cache.lookup_open token s1) in
  match Cache.lookup_open token s1, r with
  | Some c, _ => t = [look] /\ r = Ok c
  | None, Ok c =>
      Cache.lookup_open token (Cache.get_or_insert token s2).2 = Some c /\
      exists m fresh start, application.token m = token /\
        t = [look; Ev (Db (One [TokenEq token])) (Ok (Some m));
             Ev (CacheOp (Cache.GetOrInsert token)) (c, fresh)] ++ start /\
        match Cache.lookup_open token s2 with
        | Some c' => c' = c /\ fresh = false /\ start = []
        | None => fresh = true /\ exists h, start = [Ev (Spawn (UpstreamConnection c token)) h]
        end
  | None, Err ApplicationNotFound => t = [look; Ev (Db (One [TokenEq token])) (Ok None)]
  | None, Err (DatabaseError e) => t = [look; Ev (Db (One [TokenEq token])) (Err e)]
  | None, Err _ => False
  end.

Lemma sender_for_trace token s1 s2 t r :
  Cache.wf s2 -> trace (sender_for token) t (Some r) -> Forall lawful_ev t -> Forall (answers s1 s2) t ->
  sender_outcome token s1 s2 t r.
Proof.
  intros Hwf Ht Hl Ha. unfold sender_for, try_bind, map_err_m, do in Ht. cbn [bind] in Ht. unfold sender_outcome.
  apply trace_done in Ht as (r1 & t1 & -> & Ht). apply Forall_cons in Ha as [Hr1 Ha].
  simpl in Hr1. subst r1. apply Forall_cons in Hl as [_ Hl].
  destruct (Cache.lookup_open token s1) as [c|]; [by apply trace_returned in Ht as [-> <-]|].
  apply trace_done in Ht as (o & t2 & -> & Ht). apply Forall_cons in Hl as [Ho Hl].
  destruct o as [[m|]|e]; cbn [map_err bind] in Ht; [|by apply trace_returned in Ht as [-> <-]..].
  pose proof (proj1 (sat_token token m) Ho) as Hm. simpl in Ht.
  apply trace_done in Ht as ([c fresh] & t3 & -> & Ht).
  apply Forall_cons in Ha as [_ [Hr Ha]%Forall_cons]. simpl in Hr.
  pose proof (Cache.get_or_insert_open token s2 Hwf) as Hopen. rewrite <- Hr in Hopen. cbn [fst] in Hopen.
  assert (Hnew : match Cache.lookup_open token s2 with Some c' => c' = c /\ fresh = false | None => fresh = true end).
  { unfold Cache.get_or_insert in Hr. destruct (Cache.lookup_open token s2); by injection Hr. }
  destruct fresh; cbn [fst snd bind] in Ht.
  - apply trace_done in Ht as (h & t4 & -> & Ht). apply trace_returned in Ht as [-> <-].
    split; [done|]. eexists m, true, _. split; [done|]. split; [reflexivity|].
    destruct (Cache.lookup_open token s2); [by destruct Hnew|]. split; [done|]. by eexists.
  - apply trace_returned in Ht as [-> <-]. split; [done|]. eexists m, false, []. split_and!; [done|reflexivity|].
    destruct (Cache.lookup_open token s2); [by destruct Hnew|done].
Qed.

(** Alone, the cache is in the same state at both points. *)
Lemma sender_for_answers w token : Forall (answers (cache w) (cache w)) (run_trace (sender_for token) w).
Proof.
  unfold sender_for, try_bind, map_err_m, do. cbn [bind run_trace].
  destruct (exec_cache_cases (Cache.LookupOpen token) w) as (w1 & -> & Hc1 & _). cbn [Cache.step fst snd] in *.
  constructor; [done|]. destruct (Cache.lookup_open token (cache w)); [constructor|]. cbn [bind run_trace].
  destruct (exec_db_cases (One [TokenEq token]) w1) as (r & w2 & -> & _ & Hc2 & _). constructor; [done|].
  destruct r as [[m|]|e]; cbn [map_err bind run_trace]; [|constructor..]. simpl.
  destruct (exec_cache_cases (Cache.GetOrInsert token) w2) as (w3 & -> & _). cbn [Cache.step fst snd].
  rewrite Hc2, Hc1. constructor; [done|]. unfold do. destruct (_ : bool); cbn [bind run_trace]; [|constructor].
  destruct (exec _ w3) as [h w4]. by repeat constructor.
Qed.

(** C17. [sender_for], complete.  In every run, whatever other tasks do to the cache
    between its two critical sections: with a dispatcher open for the token it returns
    that channel and does nothing else; otherwise it asks the database, an unknown token
    is not found, a failure is reported, and a known token gets the channel that is open
    when it registers; a dispatcher is then started for this channel, as the last act,
    when it is still the first to register, and none when another request came first.
    Run alone it moreover leaves the table and the channels of other tokens as they
    were, the channel it returns is open and served for this token, not found means that
    no row has the token, a database error that the database is not answering, and on
    both errors the cache is unchanged. *)
Theorem sender_for_spec (token : string) :
  (forall s1 s2 t r, Cache.wf s2 ->
     trace (sender_for token) t (Some r) -> Forall lawful_ev t -> Forall (answers s1 s2) t ->
     sender_outcome token s1 s2 t r) /\
  forall w, Cache.wf (cache w) ->
    let '(r, w') := run (sender_for token) w in
    sender_outcome token (cache w) (cache w) (run_trace (sender_for token) w) r /\
    rows w' = rows w /\ Cache.wf (cache w') /\
    (forall t, t <> token -> Cache.lookup_open t (cache w') = Cache.lookup_open t (cache w)) /\
    match r with
    | Ok c => Cache.lookup_open token (cache w') = Some c /\ Cache.workers (cache w') !! c = Some token
    | Err ApplicationNotFound => no_token token (rows w) /\ cache w' = cache w
    | Err (DatabaseError _) => ~ healthy w /\ cache w' = cache w
    | Err _ => False
    end.
Proof.
  split; [intros s1 s2 t r; apply sender_for_trace|]. intros w Hwf.
  pose proof (sender_for_trace token _ _ _ _ Hwf (run_is_trace _ w) (run_trace_lawful _ w) (sender_for_answers w token)) as Ho.
  pose proof (sender_for_run w token Hwf) as Hr. by destruct (run (sender_for token) w).
Qed.

End runs.
(** ** What the proxy does with a request *)

(** Channel [c] was handed out for [token]. *)
Definition handed (token : string) (h : list ev) (c : Cache.chan) : Prop :=
  Ev (CacheOp (Cache.LookupOpen token)) (Some c) ∈ h \/
  exists fresh, Ev (CacheOp (Cache.GetOrInsert token)) (c, fresh) ∈ h.

Definition dispatch_guard (req : Request) (token : string) (h : list ev) (e : Eff) : Prop :=
  match e with
  | Db s => s = One [TokenEq token]
  | CacheOp o => o = Cache.LookupOpen token \/ o = Cache.GetOrInsert token \/ o = Cache.RemoveClosed token
  | Spawn (UpstreamConnection c t) => t = token /\
      Ev (CacheOp (Cache.GetOrInsert token)) (c, true) ∈ h /\
      exists m, application.token m = token /\ Ev (Db (One [TokenEq token])) (Ok (Some m)) ∈ h
  | QueueSend c message => handed token h c /\
      exists tx, message = (req, tx) /\ Ev OneshotNew tx ∈ h
  | OneshotNew => True
  | OneshotRecv tx => Ev OneshotNew tx ∈ h /\
      exists c, Ev (QueueSend c (req, tx)) (Ok tt) ∈ h
  | _ => False
  end.

Lemma sender_for_wp req token :
  wp (dispatch_guard req token) (fun r h => match r with Ok c => handed token h c | Err _ => True end) []
     (sender_for token).
Proof.
  unfold sender_for. apply wp_do; [by left|]. intros [c|] _; [left; set_solver|].
  wp_await; [done|]. intros [[m|]|e] Hl; [|done..]. simpl in Hl.
  rewrite andb_true_r, bool_decide_eq_true in Hl. cbn [map_err].
  rewrite bool_decide_true by done. cbn [negb].
  apply wp_do; [by right; left|]. intros [c fresh] _. destruct fresh; cbn [fst snd].
  - apply wp_do; [|intros r _; right; exists true; set_solver].
    split_and!; [done|set_solver|]. exists m. set_solver.
  - right. exists false. set_solver.
Qed.

Lemma handed_prefix token h h' c : h `prefix_of` h' -> handed token h c -> handed token h' c.
Proof. intros [t ->] [Hc|[b Hc]]; [left|right; exists b]; set_solver. Qed.

Lemma dispatch_wp req token :
  extract_bearer_token (req_headers req) = Ok token ->
  wp (dispatch_guard req token)
     (fun r h => match r with Ok res => exists tx, Ev (OneshotRecv tx) (Some (Ok res)) ∈ h | Err _ => True end) []
     (dispatch_request req).
Proof.
  intros Ht. unfold dispatch_request. rewrite Ht. apply wp_try.
  eapply wp_post; [apply sender_for_wp|]. intros [c|e] h Hc; [|done].
  apply wp_do; [done|]. intros tx _. apply wp_do.
  { split; [eapply handed_prefix, Hc; by apply prefix_app_r|]. exists tx. set_solver. }
  intros [[]|[]] _; cbv beta iota.
  - apply wp_do; [split; [set_solver|]; exists c; set_solver|].
    intros [[res|e]|] _; [|done..]. exists tx. set_solver.
  - apply wp_do; [by right; right|done].
Qed.

(** C19. A request for the Spark Connect service, in every run: without a bearer token
    in the authorization header nothing is done and the answer is a gRPC error; with
    one, the database is only asked for that token, a dispatcher is only started for
    it, after the database has confirmed it and the registration was new, the request
    goes unchanged to a channel handed out for that token only, and a reply without
    error is the dispatcher's.  Every other request goes to the router untouched. *)
Theorem call_guarded (router : Request -> prog Response) (req : Request) t o :
  trace (call router req) t o -> Forall lawful_ev t ->
  if starts_with "/spark.connect.SparkConnectService" (uri_path (req_uri req)) then
    match extract_bearer_token (req_headers req) with
    | Err error => t = [] /\ forall res, o = Some res -> res = proxy_error_response error
    | Ok token =>
        (forall t1 x t2, t = t1 ++ x :: t2 -> dispatch_guard req token t1 (ev_eff x)) /\
        forall res, o = Some res ->
          (exists tx, Ev (OneshotRecv tx) (Some (Ok res)) ∈ t) \/ (exists error, res = proxy_error_response error)
    end
  else trace (router req) t o.
Proof.
  intros Ht Hl. unfold call in Ht. destruct (starts_with _ _); [|done].
  destruct (extract_bearer_token (req_headers req)) as [token|error] eqn:Et.
  - pose proof (dispatch_wp req token Et) as Hw.
    assert (Hc : wp (dispatch_guard req token)
      (fun res h => (exists tx, Ev (OneshotRecv tx) (Some (Ok res)) ∈ h) \/ (exists error, res = proxy_error_response error)) []
      (r <- dispatch_request req;; match r with Ok res => Ret res | Err error => Ret (proxy_error_response error) end)).
    { apply wp_bind. eapply wp_post; [exact Hw|]. intros [res|e] h Hr; [by left|right; by exists e]. }
    exact (wp_trace _ _ _ _ _ _ Hc Ht Hl).
  - unfold dispatch_request in Ht. rewrite Et in Ht. cbn [bind] in Ht.
    inversion Ht; subst; [|done]. split; [done|]. by intros res [= <-].
Qed.

End dispatch.
