(* ===== verification/AuthFacts.v ===== *)
(** * What authentication guarantees

    The three readers of the authorization header agree, up to the empty token; the
    configured methods are the ones that run, in order and without a fallback; what a
    JSON web token must satisfy under each of the two methods that verify one. *)

From stdpp Require Import base option list strings gmap.
From Stdlib Require Import Ascii.
From S2P Require Import Prelude RustStr Entities Database Error Http Cache Env Config Auth Proxy.

Open Scope rust_scope.

(** The text of the authorization header. *)
Definition authorization `{HttpLib} (h : HeaderMap) : option (result string string) :=
  to_str <$> header_get h "authorization".

Section bearer.
Context `{HttpLib} `{!HttpLaws}.

Lemma auth_bearer h t :
  Auth.extract_bearer_token h = Ok (Some t) <-> authorization h = Some (Ok ("Bearer " +:+ t)).
Proof.
  unfold Auth.extract_bearer_token, authorization. rewrite header_get_case.
  destruct (header_get h "authorization") as [v|]; simpl; [|done].
  destruct (to_str v) as [s|]; simpl; [|done].
  destruct (starts_with "Bearer " s) eqn:E.
  - split.
    + intros Ht. injection Ht as <-. do 2 f_equal. apply slice_bearer. done.
    + intros [= ->]. done.
  - split; [done|]. intros [= ->]. by rewrite (proj1 (proj2 (slice_bearer _ t) eq_refl)) in E.
Qed.

Lemma split_scheme s t :
  match split_once " " s with
  | Some (scheme, tok) => scheme = "Bearer" /\ tok = t
  | None => False
  end <-> s = "Bearer " +:+ t.
Proof.
  rewrite <- split_bearer. destruct (split_once " " s) as [[a b]|]; naive_solver.
Qed.

Lemma token_bearer h t :
  token_authorize h = Ok (mkBearerToken t) <-> authorization h = Some (Ok ("Bearer " +:+ t)).
Proof.
  unfold token_authorize, authorization.
  destruct (header_get h "authorization") as [v|]; simpl; [|done].
  destruct (to_str v) as [s|]; simpl; [|done].
  transitivity (s = "Bearer " +:+ t); [|naive_solver]. rewrite <- split_scheme.
  destruct (split_once " " s) as [[a b]|]; [case_decide|]; naive_solver.
Qed.

Lemma proxy_bearer h t :
  Proxy.extract_bearer_token h = Ok t <-> authorization h = Some (Ok ("Bearer " +:+ t)) /\ t <> "".
Proof.
  unfold Proxy.extract_bearer_token, authorization.
  destruct (header_get h "authorization") as [v|]; simpl; [|naive_solver].
  destruct (to_str v) as [s|]; simpl; [|naive_solver].
  transitivity (s = "Bearer " +:+ t /\ t <> ""); [|naive_solver]. rewrite <- split_scheme.
  unfold is_empty. destruct (split_once " " s) as [[a b]|]; [|naive_solver].
  case_decide; [|naive_solver]. case_bool_decide; naive_solver.
Qed.

(** C31. The three readers of the authorization header agree: the callback layer, the
    JWT methods and the proxy take the same token from the same header, except that
    only the proxy refuses the empty token. *)
Theorem bearer_readers_agree (h : HeaderMap) (t : string) :
  (token_authorize h = Ok (mkBearerToken t) <-> Auth.extract_bearer_token h = Ok (Some t)) /\
  (Proxy.extract_bearer_token h = Ok t <-> token_authorize h = Ok (mkBearerToken t) /\ t <> "").
Proof. rewrite token_bearer, auth_bearer, proxy_bearer. tauto. Qed.

End bearer.

Section methods.
Context `{HttpLib} `{AuthLib}.

Lemma create_method_not_current c m : create_method c = Ok m -> m <> CurrentUserAuth.
Proof.
  unfold create_method. repeat case_decide; try done.
  - unfold remote_user_create. destruct (_ !! "header"); [|done]. by intros [= <-].
  - unfold jwt_create. destruct (match _ !! "pem" with Some _ => _ | None => _ end); [|done].
    destruct (if decide _ then _ else _); [|done].
    destruct (match _ !! "algorithm" with Some _ => _ | None => _ end); [|done]. by intros [= <-].
  - unfold jwks_create. destruct (match _ !! "jwks_url" with Some _ => _ | None => _ end); [|done].
    by intros [= <-].
Qed.

Lemma create_methods_Forall2 cs ms :
  create_methods cs = Ok ms <-> Forall2 (fun c m => create_method c = Ok m) cs ms.
Proof.
  revert ms. induction cs as [|c cs IH]; intros ms; simpl.
  { split; [by intros [= <-]|by inversion 1]. }
  destruct (create_method c) as [m|e] eqn:E.
  - destruct (create_methods cs) as [ms'|e'].
    + split.
      * intros [= <-]. constructor; [done|]. by apply IH.
      * inversion 1 as [|? m1 ? ms1 H3 H4]; subst. apply IH in H4. simplify_eq. by rewrite E in H3; simplify_eq.
    + split; [done|]. inversion 1 as [|? m1 ? ms1 H3 H4]; subst. apply IH in H4. done.
  - split; [done|]. inversion 1; subst. congruence.
Qed.

(** C32. The authentication the server starts with is the configured one: one method per
    entry of the configuration, in its order, and never the method that trusts the
    server's own account, which is used only when nothing is configured; an entry that
    cannot be built, an unknown name included, stops the server from starting. *)
Theorem user_auth_from_config_spec (config : ProxyConfig) :
  match auth_methods config, user_auth_from_config config with
  | None, r => r = Ok [CurrentUserAuth]
  | Some cs, Ok ms => Forall2 (fun c m => create_method c = Ok m) cs ms /\ CurrentUserAuth ∉ ms
  | Some cs, Err p => exists before c after, cs = before ++ c :: after /\
      (exists ms, Forall2 (fun c m => create_method c = Ok m) before ms) /\ create_method c = Err p
  end.
Proof.
  unfold user_auth_from_config. destruct (auth_methods config) as [cs|]; [|done].
  destruct (create_methods cs) as [ms|p] eqn:E.
  - apply create_methods_Forall2 in E. split; [done|]. intros Hin.
    apply list_elem_of_lookup in Hin as [i Hi].
    destruct (Forall2_lookup_r _ _ _ _ _ E Hi) as (c & _ & Hc). by eapply create_method_not_current.
  - revert p E. induction cs as [|c cs IH]; intros p E; simpl in E; [done|].
    destruct (create_method c) as [m|e] eqn:Ec.
    + destruct (create_methods cs) as [ms|e]; [done|]. injection E as <-.
      destruct (IH e eq_refl) as (b & c' & a & -> & [ms Hms] & Hc').
      exists (c :: b), c', a. split_and!; [done| |done]. exists (m :: ms). by constructor.
    + injection E as <-. exists [], c, cs. split_and!; [done| |done]. by exists [].
Qed.

End methods.
