(* ===== verification/ServerFacts.v ===== *)
(** * What the server process guarantees

    What [prune] deletes, and when it deletes too much; the bounded health check and the
    applications [check] gives up on; graceful shutdown and what prevents it. *)

From stdpp Require Import base option list strings gmap sets.
From S2P Require Import Prelude RustStr Entities Database Error Http Cache Env Config Proxy ProxyFacts Server.
Import application.

Open Scope rust_scope.

Section maintenance.
Context `{HttpLib} `{TimeLib}.
Context {W : Type} `{!Env W} `{!View W} `{!EnvLaws W}.

(** ** [prune] *)

Section prune.
Context `{!TimeLaws}.

(** The rows [prune] is meant to delete. *)
Definition prunable (cutoff : Z) (m : Model) : Prop :=
  (state m = FAILED \/ state m = FINISHED) /\ (created_at m <= cutoff)%Z.

Lemma sat_prune cutoff m : sat (prune_query cutoff) m = true <-> prunable cutoff m.
Proof.
  unfold prune_query, prunable. simpl.
  rewrite orb_false_r, andb_true_r, andb_true_iff, orb_true_iff, !bool_decide_eq_true. done.
Qed.

(** [t'] is [t] without the rows of [P]. *)
Definition without (P : Model -> Prop) (t t' : Table) : Prop :=
  forall k m, t' !! k = Some m <-> t !! k = Some m /\ ~ P m.

Lemma delete_without cutoff t : without (prunable cutoff) t (delete_rows (prune_query cutoff) t).
Proof.
  intros k m. rewrite delete_rows_lookup, <- sat_prune. by rewrite not_true_iff_false.
Qed.

(** What [prune] does once the clock has answered [now]. *)
Lemma run_prune (w : W) secs now w0 w1 :
  exec MigrateUp w = (Ok tt, w0) -> exec SystemNow w0 = (Ok now, w1) ->
  let '(r, w') := run (prune secs) w in
  match from_timestamp (prune_cutoff now secs) 0 with
  | None => r = Err "Failed to create prune cutoff timestamp" /\ rows w' = rows w
  | Some cutoff => (r = Ok tt /\ without (prunable cutoff) (rows w) (rows w')) \/
                   (is_ok r = false /\ ~ healthy w /\ rows w' = rows w)
  end.
Proof.
  intros Hm Hn. unfold prune, ensure_db, try_bind, map_err_m, do. cbn [bind run]. rewrite Hm.
  cbn [map_err bind run]. rewrite Hn. cbv beta iota.
  pose proof (exec_rows MigrateUp w ltac:(done)) as Hr0. pose proof (exec_healthy MigrateUp w) as Hh0.
  rewrite Hm in Hr0, Hh0. simpl in Hr0, Hh0.
  pose proof (exec_rows SystemNow w0 ltac:(done)) as Hr1. pose proof (exec_healthy SystemNow w0) as Hh1.
  rewrite Hn in Hr1, Hh1. simpl in Hr1, Hh1.
  destruct (from_timestamp (prune_cutoff now secs) 0) as [cutoff|]; cbn [run].
  2:{ split; [done|congruence]. }
  destruct (exec_db_cases (DeleteMany (prune_query cutoff)) w1) as (r & w2 & -> & Hp & _ & _ & Ha).
  destruct r as [n|e]; cbn [map_err run]; simpl in Hp.
  - left. destruct Hp as [_ ->]. rewrite Hr1, Hr0. split; [done|apply delete_without].
  - right. split_and!; [done| |congruence]. intros Hw. by destruct (Ha (Hh1 (Hh0 Hw)) I).
Qed.

(** C28. [prune] for an age that fits: it deletes exactly the FAILED and FINISHED rows
    created at least that many seconds before now, and nothing else, or reports an
    error and deletes nothing, which happens only when the database is not answering
    or the age reaches back before the first instant a timestamp can name. *)
Theorem prune_spec (w : W) (secs now : Z) w0 w1 :
  exec MigrateUp w = (Ok tt, w0) -> exec SystemNow w0 = (Ok now, w1) ->
  (0 <= now <= TIMESTAMP_MAX)%Z -> (0 <= secs < 2 ^ 63)%Z ->
  let '(r, w') := run (prune secs) w in
  (r = Ok tt /\ without (prunable ((now - secs) * 1000000000)) (rows w) (rows w')) \/
  (is_ok r = false /\ rows w' = rows w /\ (~ healthy w \/ (now - secs < TIMESTAMP_MIN)%Z)).
Proof.
  intros Hm Hn Hnow Hs. pose proof (run_prune w secs now w0 w1 Hm Hn) as Hr.
  destruct (run (prune secs) w) as [r w'].
  assert (Hc : prune_cutoff now secs = (now - secs)%Z).
  { unfold prune_cutoff, u64_as_i64, saturating_sub. unfold TIMESTAMP_MAX in Hnow.
    rewrite !(proj2 (Z.ltb_lt _ _)) by lia. lia. }
  rewrite Hc in Hr. destruct (decide (TIMESTAMP_MIN <= now - secs)%Z) as [Hlo|Hlo].
  - rewrite from_timestamp_in in Hr by lia. naive_solver.
  - rewrite from_timestamp_out in Hr by lia. destruct Hr as [-> Hr]. right. split_and!; [done..|]. right. lia.
Qed.

(** C40. The age is cast to a signed integer first, so for the largest ages the cutoff
    wraps around into the future: asked for applications older than 2^64 - n seconds,
    for a small positive n, [prune] deletes every FAILED and FINISHED row there is,
    however young. *)
Theorem prune_wraps (w : W) (now n : Z) w0 w1 :
  exec MigrateUp w = (Ok tt, w0) -> exec SystemNow w0 = (Ok now, w1) ->
  (0 <= now)%Z -> (0 < n)%Z -> (now + n <= TIMESTAMP_MAX)%Z -> healthy w ->
  (forall k m, rows w !! k = Some m -> (created_at m <= now * 1000000000)%Z) ->
  let '(r, w') := run (prune (2 ^ 64 - n)) w in
  r = Ok tt /\ without (fun m => state m = FAILED \/ state m = FINISHED) (rows w) (rows w').
Proof.
  intros Hm Hn Hnow Hn0 Hmax Hw Hyoung. pose proof (run_prune w (2 ^ 64 - n) now w0 w1 Hm Hn) as Hr.
  destruct (run (prune (2 ^ 64 - n)) w) as [r w'].
  assert (Hc : prune_cutoff now (2 ^ 64 - n) = (now + n)%Z).
  { unfold prune_cutoff, u64_as_i64, saturating_sub. unfold TIMESTAMP_MAX in Hmax.
    rewrite (proj2 (Z.ltb_lt now _)), (proj2 (Z.ltb_ge (2 ^ 64 - n) _)) by lia. lia. }
  rewrite Hc, from_timestamp_in in Hr by (unfold TIMESTAMP_MIN, TIMESTAMP_MAX in *; lia).
  destruct Hr as [[-> Hr]|(_ & Hnw & _)]; [|done]. split; [done|].
  intros k m. rewrite (Hr k m). unfold prunable. split.
  - intros [Hk Hp]. split; [done|]. intros Hs. apply Hp. split; [done|]. specialize (Hyoung _ _ Hk). lia.
  - intros [Hk Hp]. split; [done|]. by intros [Hs _].
Qed.

End prune.

(** ** Health checks *)

Definition is_attempt (x : ev) : bool := match ev_eff x with BuildClient => true | _ => false end.

(** A health message that was answered without an error status. *)
Definition good_answer (x : ev) : bool :=
  match ev_eff x as e return resp e -> bool with
  | HttpPost _ => fun r => match r with Ok status => is_ok (error_for_status status) | Err _ => false end
  | _ => fun _ => false
  end (ev_resp x).

Definition health_guard (addr token : string) (h : list ev) (e : Eff) : Prop :=
  match e with
  | BuildClient => (count is_attempt h < 4)%nat /\ count good_answer h = 0
  | HttpPost p => p = session_post addr token "health"
  | Sleep d => d = HEALTH_CHECK_RETRY_DELAY /\ (0 < count is_attempt h < 4)%nat /\ count good_answer h = 0
  | _ => False
  end.

Definition healthy_iff (h : list ev) (r : result unit string) : Prop :=
  match r with
  | Ok _ => count good_answer h = 1
  | Err _ => count good_answer h = 0
  end.

Lemma send_health_wp addr token h :
  (count is_attempt h < 4)%nat -> count good_answer h = 0 ->
  wp (health_guard addr token)
     (fun r h' => count is_attempt h' = S (count is_attempt h) /\ healthy_iff h' r) h
     (send_session_message addr token "health").
Proof.
  intros Ha Hg. unfold send_session_message. wp_await; [done|].
  intros [c|e] _; [|simpl; rewrite !count_snoc; simpl; lia].
  wp_await; [done|]. intros [status|e] _; [|simpl; rewrite !count_snoc; simpl; lia].
  cbn [wp]. unfold healthy_iff. rewrite !count_snoc.
  change (good_answer (Ev (HttpPost (session_post addr token "health")) (Ok status)))
    with (is_ok (error_for_status status)).
  destruct (error_for_status status); simpl; lia.
Qed.

Lemma health_attempts_wp addr token attempt n last h :
  (count is_attempt h = attempt)%nat -> (attempt + n = 4)%nat -> count good_answer h = 0 ->
  wp (health_guard addr token)
     (fun r h' => healthy_iff h' r /\ (is_ok r = false -> count is_attempt h' = 4)) h
     (health_attempts attempt n addr token last).
Proof.
  revert attempt last h. induction n as [|n IH]; intros attempt last h Ha Hn Hg; cbn [health_attempts].
  { simpl. split; [done|]. intros _. lia. }
  apply wp_bind. eapply wp_post; [apply send_health_wp; [lia|done]|].
  intros [u|e] h' [Ha' Hr]; [done|]. simpl in Hr. apply wp_bind.
  destruct (attempt <? HEALTH_CHECK_RETRIES)%nat eqn:E; unfold HEALTH_CHECK_RETRIES in E.
  - apply Nat.ltb_lt in E. apply wp_eff; [split_and!; [done|lia..]|]. intros r _.
    apply IH; rewrite ?count_snoc; simpl; lia.
  - cbn [wp]. apply IH; lia.
Qed.

Lemma health_check_trace addr token t o :
  trace (check_application_health addr token) t o -> Forall lawful_ev t ->
  (forall t1 x t2, t = t1 ++ x :: t2 -> health_guard addr token t1 (ev_eff x)) /\
  forall r, o = Some r ->
    count good_answer t = (if is_ok r then 1 else 0) /\ (is_ok r = false -> count is_attempt t = 4).
Proof.
  intros Ht Hl.
  assert (Hw : wp (health_guard addr token)
     (fun r h' => healthy_iff h' r /\ (is_ok r = false -> count is_attempt h' = 4)) []
     (check_application_health addr token)) by by apply health_attempts_wp.
  destruct (wp_trace _ _ _ _ _ _ Hw Ht Hl) as [HG HQ]. split; [exact HG|].
  intros r ->. destruct (HQ _ eq_refl) as [Hr Hc]. split; [|done]. by destruct r.
Qed.

(** The health check of an application, in every run: it posts health messages, with
    the application's token, to its address only, at most four times with a second's
    pause between attempts and none after a good answer; it succeeds exactly when an
    attempt was answered well, and fails only after four attempts that were not. *)
Theorem health_check_attempts addr token t o :
  trace (check_application_health addr token) t o -> Forall lawful_ev t ->
  (forall t1 x t2, t = t1 ++ x :: t2 -> health_guard addr token t1 (ev_eff x)) /\
  forall r, o = Some r ->
    count good_answer t = (if is_ok r then 1 else 0) /\ (is_ok r = false -> count is_attempt t = 4).
Proof. apply health_check_trace. Qed.

(** ** [check] *)

Lemma NoDup_selected_ids q (t : Table) : keyed t -> NoDup (id <$> (map_to_list (selected q t)).*2).
Proof.
  intros Hk. rewrite <- list_fmap_compose. apply (NoDup_fmap_2_strong _); [|apply NoDup_map_to_list].
  intros [k m] [k' m'] Hm1 Hm2 Heq. simpl in Heq.
  apply elem_of_map_to_list, selected_lookup in Hm1 as [Hm1 _], Hm2 as [Hm2 _].
  pose proof (Hk _ _ Hm1). pose proof (Hk _ _ Hm2). congruence.
Qed.

(** The row of an application [check] has given up on. *)
Definition given_up (m : Model) : Model :=
  mkModel (id m) (created_at m) (username m) (name m) FAILED (token m) None (application_id m).

Lemma apply_unreachable m : am_apply (unreachable_application (id m)) m = given_up m.
Proof. done. Qed.

(** [check_run apps h ms]: working through [apps] performs the events [h], and leaves
    the rows [ms] for them.  An application stays as it is when the health check done
    for it here got a good answer, and is given up when none of its four attempts did;
    one without an address is given up without a check. *)
Inductive check_run : list Model -> list ev -> list Model -> Prop :=
| check_run_done : check_run [] [] []
| check_run_alive m addr hc apps h ms :
    address m = Some addr ->
    trace (check_application_health addr (token m)) hc (Some (Ok tt)) -> count good_answer hc = 1 ->
    check_run apps h ms -> check_run (m :: apps) (hc ++ h) (m :: ms)
| check_run_dead m addr hc error updated apps h ms :
    address m = Some addr ->
    trace (check_application_health addr (token m)) hc (Some (Err error)) ->
    count good_answer hc = 0 -> count is_attempt hc = 4 ->
    check_run apps h ms ->
    check_run (m :: apps) (hc ++ Ev (Db (Update (unreachable_application (id m)))) updated :: h) (given_up m :: ms)
| check_run_lost m updated apps h ms :
    address m = None -> check_run apps h ms ->
    check_run (m :: apps) (Ev (Db (Update (unreachable_application (id m)))) updated :: h) (given_up m :: ms).

Lemma health_attempts_frame attempt n addr token last :
  safe (fun e => no_db e /\ no_cache e) (health_attempts attempt n addr token last).
Proof.
  revert attempt last. induction n as [|n IH]; intros attempt last; cbn [health_attempts]; [done|].
  apply safe_bind.
  - split; [done|]. intros [|] _; [|done]. split; [done|]. by intros [|] _.
  - intros [u|e]; [done|]. apply safe_bind; [by destruct (attempt <? _)%nat|]. intros _. apply IH.
Qed.

Lemma run_health addr token (w : W) :
  let w' := (run (check_application_health addr token) w).2 in
  rows w' = rows w /\ cache w' = cache w /\ (healthy w -> healthy w').
Proof.
  pose proof (health_attempts_frame 0 (S HEALTH_CHECK_RETRIES) addr token "") as Hs. split_and!.
  - apply run_rows. by eapply safe_mono, Hs; intros e [].
  - apply run_cache. by eapply safe_mono, Hs; intros e [].
  - apply run_healthy.
Qed.

(** The decision about one application. *)
Definition verdict (app : Model) : prog bool :=
  match address app with
  | Some addr => r <- check_application_health addr (token app);; Ret (is_err r)
  | None => Ret true
  end.

(** The events of the decision about one application, put before those of the rest. *)
Lemma run_verdict (app : Model) (w : W) apps h ms :
  let '(b, w') := run (verdict app) w in
  (rows w' = rows w /\ cache w' = cache w /\ (healthy w -> healthy w')) /\
  (check_run apps h ms ->
   if b then forall updated, check_run (app :: apps)
          (run_trace (verdict app) w ++ Ev (Db (Update (unreachable_application (id app)))) updated :: h) (given_up app :: ms)
   else check_run (app :: apps) (run_trace (verdict app) w ++ h) (app :: ms)).
Proof.
  unfold verdict. destruct (address app) as [addr|] eqn:Ea; [|split; [done|]; intros; by constructor].
  rewrite run_bind, run_trace_bind. cbn [run run_trace]. rewrite app_nil_r.
  split; [by apply run_health|]. intros Hrest.
  pose proof (run_is_trace (check_application_health addr (token app)) w) as Ht.
  destruct (proj2 (health_check_trace _ _ _ _ Ht (run_trace_lawful _ w)) _ eq_refl) as [Hg Ha].
  destruct (run _ w).1 as [[]|e]; cbn [is_err is_ok] in *; intros; by econstructor; eauto.
Qed.

Lemma run_check_apps (apps : list Model) (failed : nat) (w : W) :
  healthy w -> NoDup (id <$> apps) -> (forall m, m ∈ apps -> rows w !! id m = Some m) ->
  let '(r, w') := run (check_apps apps failed) w in
  is_ok r = true /\ cache w' = cache w /\
  exists ms, check_run apps (run_trace (check_apps apps failed) w) ms /\
    (forall k, k ∉ id <$> apps -> rows w' !! k = rows w !! k) /\
    (forall m, m ∈ ms -> rows w' !! id m = Some m /\ id m ∈ id <$> apps).
Proof.
  revert failed w. induction apps as [|app apps IH]; intros failed w Hw Hnd Hin.
  { simpl. do 2 (split; [done|]). exists []. split_and!; [constructor|done|]. intros m Hm. by apply elem_of_nil in Hm. }
  cbn [check_apps]. fold (verdict app). rewrite run_bind, run_trace_bind.
  pose proof (run_verdict app w) as Hv. destruct (run (verdict app) w) as [b w1]. cbn [fst snd].
  destruct (Hv [] [] []) as [(Hr1 & Hc1 & Hh1) _].
  rewrite fmap_cons in Hnd. apply NoDup_cons in Hnd as [Hnew Hnd].
  assert (Happ : rows w !! id app = Some app) by (apply Hin; set_solver).
  set (rest := if b then _ else _). set (app' := if b then given_up app else app).
  (* the table with the verdict applied *)
  assert (Hstep : exists w2 failed', healthy w2 /\ cache w2 = cache w /\
    rows w2 = <[id app := app']> (rows w) /\ run rest w1 = run (check_apps apps failed') w2 /\
    forall ms, check_run apps (run_trace (check_apps apps failed') w2) ms ->
      check_run (app :: apps) (run_trace (verdict app) w ++ run_trace rest w1) (app' :: ms)).
  { unfold rest, app'. destruct b.
    - unfold try_bind, map_err_m, do. cbn [bind run run_trace].
      destruct (exec_db_cases (Update (unreachable_application (id app))) w1) as (r & w2 & -> & Hp & Hc2 & Hh2 & Ha2).
      destruct (Ha2 (Hh1 Hw)) as [m' ->]; [exists (id app), app; by rewrite Hr1|]. cbn [map_err bind run run_trace].
      exists w2, (S failed). split_and!; [by auto|congruence| |done|].
      + destruct Hp as (m & [= Hid] & Hm & -> & Hr2). rewrite <- Hid, Hr1, Happ in Hm. injection Hm as <-.
        by rewrite Hr2, Hr1, apply_unreachable.
      + intros ms Hms. by apply (proj2 (Hv _ _ _) Hms).
    - exists w1, failed. split_and!; [by auto|done| |done|]; [by rewrite Hr1, insert_id|].
      intros ms Hms. by apply (proj2 (Hv _ _ _) Hms). }
  destruct Hstep as (w2 & failed' & Hh2 & Hc2 & Hr2 & -> & Hrest).
  specialize (IH failed' w2 Hh2 Hnd). destruct (run (check_apps apps failed') w2) as [r w'].
  destruct IH as (Hok & Hc' & ms & Hms & Hother & Hchk).
  { intros m Hm. rewrite Hr2, lookup_insert_ne; [apply Hin; set_solver|].
    intros Heq. apply Hnew. rewrite Heq. by apply list_elem_of_fmap_2. }
  split; [done|]. split; [congruence|]. exists (app' :: ms). split_and!; [by apply Hrest| |].
  - intros k Hk. rewrite Hother by set_solver. rewrite Hr2, lookup_insert_ne; [done|set_solver].
  - assert (Hid : id app' = id app) by (unfold app'; by destruct b).
    intros m [->|Hm]%elem_of_cons; [|destruct (Hchk m Hm); split; [done|set_solver]].
    rewrite Hid. split; [|set_solver]. rewrite Hother by done. rewrite Hr2. apply lookup_insert_eq.
Qed.

(** C27. [check], with the database answering: it succeeds, having read exactly the
    RUNNING applications and worked through them one by one.  One whose health check in
    this run got a good answer keeps its row; one whose four attempts all failed, or
    that has no address, becomes FAILED without an address, which is written before the
    next application is looked at.  No other row changes, and the cache does not. *)
Theorem check_spec (w w0 : W) :
  healthy w -> exec MigrateUp w = (Ok tt, w0) ->
  let '(r, w') := run check w in
  r = Ok tt /\ cache w' = cache w /\
  exists apps h ms,
    run_trace check w = [Ev MigrateUp (Ok tt); Ev (Db (All [StateEq RUNNING])) (Ok apps)] ++ h /\
    (forall m, m ∈ apps <-> rows w !! id m = Some m /\ state m = RUNNING) /\ NoDup apps /\
    check_run apps h ms /\
    (forall m, m ∈ ms -> rows w' !! id m = Some m) /\
    (forall k, (forall m, rows w !! k = Some m -> state m <> RUNNING) -> rows w' !! k = rows w !! k).
Proof.
  intros Hw Hm. unfold check, ensure_db, try_bind, map_err_m, do. cbn [bind run run_trace]. rewrite Hm.
  cbn [map_err bind run run_trace].
  pose proof (exec_rows MigrateUp w ltac:(done)) as Hr0. pose proof (exec_healthy MigrateUp w Hw) as Hh0.
  pose proof (exec_cache_frame MigrateUp w ltac:(done)) as Hc0. rewrite Hm in *. cbn [snd] in *.
  destruct (exec_db_cases (All [StateEq RUNNING]) w0) as (r & w1 & -> & Hp & Hc1 & Hh1 & Ha1).
  destruct (Ha1 Hh0 I) as [apps ->]. destruct Hp as [Hr1 Happs]. cbn [map_err bind run run_trace].
  rewrite Hr0 in *. pose proof (rows_keyed w) as Hk.
  assert (Hin : forall m, m ∈ apps <-> rows w !! id m = Some m /\ state m = RUNNING).
  { intros m. rewrite Happs, in_selected by done. simpl. by rewrite andb_true_r, bool_decide_eq_true. }
  assert (Hnd : NoDup (id <$> apps)) by (rewrite Happs; by apply NoDup_selected_ids).
  rewrite run_bind, run_trace_bind.
  pose proof (run_check_apps apps 0 w1 (Hh1 Hh0) Hnd) as Hrun.
  destruct (run (check_apps apps 0) w1) as [r w']. cbn [fst snd].
  destruct Hrun as (Hok & Hc' & ms & Hms & Hother & Hchk); [intros m Hmi; rewrite Hr1; by apply Hin|].
  destruct r as [n|e]; [|done]. cbn [run run_trace]. rewrite app_nil_r. split; [done|]. split; [congruence|].
  exists apps, (run_trace (check_apps apps 0) w1), ms.
  split_and!; [done|done|by eapply NoDup_fmap_1|done|by intros m Hmm; apply Hchk|].
  intros k Hno. rewrite Hother, Hr1; [done|]. intros (m' & -> & Hm')%list_elem_of_fmap.
  apply Hin in Hm' as [Hm' Hrun]. by destruct (Hno _ Hm').
Qed.

End maintenance.

(** ** The accept loop and graceful shutdown *)













Lemma close_tasks tls (l : list nat) s :
  (forall i, i ∈ l -> is_Some (connections s !! i)) ->
  exists es s', run_steps tls s es = Some s' /\ phase s' = phase s /\ signalled s' = signalled s /\
    Forall (fun e => exists i, e = TaskEnds i) es /\
    (forall i, i ∈ l -> connections s' !! i = Some Closed) /\
    (forall i, i ∉ l -> connections s' !! i = connections s !! i).
Proof.
  revert s. induction l as [|i l IH]; intros s Hl.
  { exists [], s. split_and!; try done. intros i Hi. by apply elem_of_nil in Hi. }
  assert (Hstep : exists e1 s1, run_steps tls s e1 = Some s1 /\ Forall (fun e => exists i, e = TaskEnds i) e1 /\
    phase s1 = phase s /\ signalled s1 = signalled s /\ connections s1 = <[i := Closed]> (connections s)).
  { destruct (Hl i) as [t Hi]; [set_solver|]. destruct t.
    - exists [TaskEnds i], (with_task i Closed s). simpl. rewrite Hi. split_and!; try done. constructor; [by exists i|done].
    - exists [TaskEnds i], (with_task i Closed s). simpl. rewrite Hi. split_and!; try done. constructor; [by exists i|done].
    - exists [], s. split_and!; try done. by rewrite insert_id. }
  destruct Hstep as (e1 & s1 & Hr1 & Hf1 & Hp1 & Hs1 & Hc1).
  destruct (IH s1) as (es & s' & Hr & Hp & Hs & Hf & Hc & Hother).
  { intros j Hj. rewrite Hc1. destruct (decide (j = i)) as [->|]; [rewrite lookup_insert_eq; by eexists|].
    rewrite lookup_insert_ne by done. apply Hl. set_solver. }
  exists (e1 ++ es), s'. split_and!; [|congruence|congruence|by apply Forall_app| |].
  - clear -Hr1 Hr. revert s Hr1. induction e1 as [|e e1 IH]; intros s Hr1; simpl in *; [by injection Hr1 as ->|].
    destruct (run_step tls s e); [by apply IH|done].
  - intros j [->|Hj]%elem_of_cons; [|by apply Hc]. destruct (decide (i ∈ l)); [by apply Hc|].
    rewrite Hother, Hc1 by done. apply lookup_insert_eq.
  - intros j Hj. rewrite Hother, Hc1 by set_solver. apply lookup_insert_ne. set_solver.
Qed.

Lemma run_steps_app tls s es es' s1 :
  run_steps tls s es = Some s1 -> run_steps tls s (es ++ es') = run_steps tls s1 es'.
Proof.
  revert s. induction es as [|e es IH]; intros s; simpl; [by intros [= ->]|].
  destruct (run_step tls s e); [apply IH|done].
Qed.

(** C30. Graceful shutdown can always complete: from any reachable state in which the
    loop accepts or waits and the signal channel has closed, noticing that and
    letting the tasks end is enough for [run] to return successfully; nothing new need
    happen. *)
Theorem shutdown_completes (tls_acceptor : bool) (es : list RunEvent) (s : RunState) :
  run_steps tls_acceptor run_start es = Some s ->
  signalled s = true -> phase s = Accepting \/ phase s = Waiting ->
  exists es' s', run_steps tls_acceptor s es' = Some s' /\ phase s' = Returned (Ok tt) /\
    Forall (fun e => e = SeeClosed \/ e = AllClosed \/ exists i, e = TaskEnds i) es'.
Proof.
  intros Hs Hsig Hph.
  assert (H0 : exists e0 s0, run_steps tls_acceptor s e0 = Some s0 /\ phase s0 = Waiting /\
    connections s0 = connections s /\ Forall (fun e => e = SeeClosed) e0).
  { destruct Hph as [Hph|Hph]; [|by exists [], s].
    exists [SeeClosed], (with_phase Waiting s). simpl. rewrite Hph, Hsig. split_and!; try done. by constructor. }
  destruct H0 as (e0 & s0 & Hr0 & Hp0 & Hc0 & Hf0).
  destruct (close_tasks tls_acceptor (map_to_list (connections s0)).*1 s0) as (e1 & s1 & Hr1 & Hp1 & _ & Hf1 & Hc1 & Hother).
  { intros i ([k t] & -> & Hi%elem_of_map_to_list)%list_elem_of_fmap. by eexists. }
  assert (Hall : map_Forall (fun _ t => t = Closed) (connections s1)).
  { intros i t Hi. destruct (decide (i ∈ (map_to_list (connections s0)).*1)) as [Hin|Hin].
    - rewrite (Hc1 i Hin) in Hi. by injection Hi.
    - rewrite (Hother i Hin) in Hi. exfalso. apply Hin. apply list_elem_of_fmap. exists (i, t).
      split; [done|by apply elem_of_map_to_list]. }
  exists (e0 ++ e1 ++ [AllClosed]), (with_phase (Returned (Ok tt)) s1). split_and!; [|done|].
  - rewrite (run_steps_app _ _ _ _ _ Hr0), (run_steps_app _ _ _ _ _ Hr1). simpl.
    by rewrite Hp1, Hp0, bool_decide_true.
  - apply Forall_app. split; [eapply Forall_impl; [exact Hf0|]; by left|].
    apply Forall_app. split; [eapply Forall_impl; [exact Hf1|]; by right; right|].
    constructor; [by right; left|done].
Qed.

(** C38. With TLS, one client decides about the server: whenever the server accepts, a
    client that connects and fails its handshake makes [run] return that error at once,
    without a signal, the tasks of the other connections still at work; and as long as
    it does not finish the handshake, no other connection is accepted and no signal is
    noticed. *)
Theorem handshake_stops_server (s : RunState) (msg : string) :
  phase s = Accepting ->
  (exists s', run_steps true s [Accepted; HandshakeEnds (Err msg)] = Some s' /\
     phase s' = Returned (Err msg) /\ connections s' = connections s) /\
  (exists s1, run_step true s Accepted = Some s1 /\
     forall es' s2, Forall (fun e => forall r, e <> HandshakeEnds r) es' -> run_steps true s1 es' = Some s2 ->
       phase s2 = Handshaking /\ next_connection s2 = next_connection s).
Proof.
  intros Hp. split.
  - eexists. simpl. rewrite Hp. by split.
  - exists (with_phase Handshaking s). simpl. rewrite Hp. split; [done|].
    intros es' s2 Hf. assert (H0 : phase (with_phase Handshaking s) = Handshaking) by done.
    assert (H1 : next_connection (with_phase Handshaking s) = next_connection s) by done.
    revert H0 H1. generalize (with_phase Handshaking s) as s0.
    induction Hf as [|e es' He Hf IH]; intros s0 H0 H1 Hs; simpl in Hs; [by injection Hs as <-|].
    destruct (run_step true s0 e) as [s1|] eqn:E; [|done].
    assert (phase s1 = Handshaking /\ next_connection s1 = next_connection s) as [Hp1 Hn1]; [|by apply (IH s1)].
    clear -He E H0 H1. unfold run_step in E. rewrite H0 in E.
    destruct e; repeat case_match; simplify_eq/=; try done; by destruct (He _ eq_refl).
Qed.
