(* ===== verification/Startup.v ===== *)
(** * Starting the server ([server/src/lib.rs], [server/src/main.rs])

    [Server::from_config] puts the parts together or stops with an error or a panic,
    [load_tls_acceptor] reads the certificate, [kerberos_creds_task] keeps the Kerberos
    ticket fresh, [main] picks what the process does. *)

From stdpp Require Import base option list strings gmap pretty.
From S2P Require Import Prelude RustStr Entities Database Error Http Cache Env Config Launcher LauncherFacts Auth AuthFacts Server.

Open Scope rust_scope.

(** What start-up asks of [sea_orm], the file system, [rustls_pemfile] and [rustls]. *)
Class StartupLib := {
  (** [Database::connect]: the error by its text *)
  database_connect : string -> result unit string;
  File : Type;
  Certificate : Type;
  PrivateKey : Type;
  TlsServerConfig : Type;
  (** [fs::File::open] *)
  file_open : string -> result File IoError;
  (** [certs(..).collect()] and [private_key] *)
  read_certs : File -> result (list Certificate) IoError;
  read_private_key : File -> result (option PrivateKey) IoError;
  (** [with_safe_default_protocol_versions], [with_no_client_auth().with_single_cert] *)
  safe_protocol_versions : result unit string;
  with_single_cert : list Certificate -> PrivateKey -> result TlsServerConfig string;
  (** [tokio::net::TcpListener::bind] *)
  tcp_bind : string -> result unit IoError;
  (** installing the handlers of SIGINT and SIGTERM *)
  install_ctrl_c : result unit string;
  install_terminate : result unit string
}.

(** Why start-up ends early: an error that [main] returns, or a panic. *)
Inductive Exit := Fails (msg : string) | Panics (p : Panic).

Definition io_error_text (e : IoError) : string := let 'mkIoError _ msg := e in msg.

Section startup.
Context `{HttpLib} `{ConfigLib} `{HostLib} `{AuthLib} `{TimeLib} `{StartupLib}.

Record TlsAcceptor := mkTlsAcceptor {
  acceptor_config : TlsServerConfig;
  alpn_protocols : list string
}.

(** [?] on an [io::Result], and the [InvalidInput] error [rustls] errors become. *)
Definition try_io {A} (r : result A IoError) : result A Exit := map_err (fun e => Fails (io_error_text e)) r.
Definition invalid_input {A} (r : result A string) : result A Exit :=
  try_io (map_err (mkIoError InvalidInput) r).

Definition load_tls_acceptor (config : ProxyConfig) : result (option TlsAcceptor) Exit :=
  match tls config with
  | Some tls_config =>
      cert_file <-? try_io (file_open (tls_cert tls_config));;
      certs <-? try_io (read_certs cert_file);;
      key_file <-? try_io (file_open (tls_key tls_config));;
      key <-? try_io (read_private_key key_file);;
      key <-? ok_or key (Panics (mkPanic "called `Option::unwrap()` on a `None` value"));;
      _ <-? invalid_input safe_protocol_versions;;
      config <-? invalid_input (with_single_cert certs key);;
      Ok (Some (mkTlsAcceptor config ["h2"; "http/1.1"]))
  | None => Ok None
  end.

(** The router is the function [serve] of these parts. *)
Record Server := mkServer {
  server_config : ProxyConfig;
  server_launcher : SparkLauncher;
  server_user_auth : list UserAuthMethod;
  server_upstreams : Cache.State;
  server_tls_acceptor : option TlsAcceptor
}.

Definition server_from_config (config : ProxyConfig) : result Server Exit :=
  _ <-? map_err Fails (database_connect (store_url config));;
  launcher <-? map_err Panics (Launcher.from_config config);;
  user_auth <-? map_err Panics (user_auth_from_config config);;
  tls_acceptor <-? load_tls_acceptor config;;
  Ok (mkServer config launcher user_auth Cache.new tls_acceptor).

(** The address [run] binds. *)
Definition listen_address (config : ProxyConfig) : string :=
  unwrap_or (bind_host config) "0.0.0.0" +:+ ":" +:+ pretty (get_bind_port config).

(** ** The Kerberos task *)

Definition kinit_args (kerberos_config : KerberosConfig) : list string :=
  ["-kt"; keytab kerberos_config; principal kerberos_config].

(** Milliseconds between two runs of [kinit]. *)
Definition renewal_delay (kerberos_config : KerberosConfig) : Z :=
  (unwrap_or (renewal_interval kerberos_config) 3600 * 1000)%Z.

(** One round; a failing [kinit] is only logged. *)
Definition kerberos_round (kinit : string) (kerberos_config : KerberosConfig) (_ : unit) : prog (unit + unit) :=
  output <- do (CommandStatus kinit (kinit_args kerberos_config));;
  _ <- do (Sleep (renewal_delay kerberos_config));;
  Ret (inl tt).

(** The spawned loop never ends: [fuel] is the number of rounds looked at. *)
Definition kerberos_creds_task (fuel : nat) (kerberos_config : KerberosConfig) : result (prog (option unit)) Panic :=
  kinit <-? ok_or (which "kinit") (mkPanic "Failed to find kinit executable");;
  Ok (loop fuel (kerberos_round kinit kerberos_config) tt).

(** ** Running *)

Inductive OsSignal := SIGINT | SIGTERM | OtherSignal.

#[global] Instance OsSignal_eq_dec : EqDecision OsSignal.
Proof. solve_decision. Defined.

(** [shutdown_signal] once the signals [arrived]: still waiting, done, or a panic when a
    handler cannot be installed. *)
Definition shutdown_signal (arrived : list OsSignal) : option (result unit Panic) :=
  match map_err mkPanic install_ctrl_c, map_err mkPanic install_terminate with
  | Err p, _ => Some (Err p)
  | Ok _, Err p => Some (Err p)
  | Ok _, Ok _ => if bool_decide (SIGINT ∈ arrived \/ SIGTERM ∈ arrived) then Some (Ok tt) else None
  end.

(** The task that awaits it holds the receiver of the signal channel, which is dropped
    when the task returns and when it panics. *)
Definition signal_channel_closed (arrived : list OsSignal) : bool :=
  bool_decide (is_Some (shutdown_signal arrived)).

(** [run] up to its loop. *)
Definition run_setup (server : Server) : prog (result RunState Exit) :=
  _ <-! map_err_m Fails ensure_db;;
  match match kerberos_config (server_config server) with
        | Some k => map_err Panics (_ <-? kerberos_creds_task 0 k;; Ok tt)
        | None => Ok tt
        end with
  | Err x => Ret (Err x)
  | Ok _ =>
      match try_io (tcp_bind (listen_address (server_config server))) with
      | Err x => Ret (Err x)
      | Ok _ => Ret (Ok run_start)
      end
  end.

(** [run] after the events [es] of its loop and its tasks; [None] when they cannot have
    happened. *)
Definition server_run (server : Server) (es : list RunEvent) : prog (result (option RunState) Exit) :=
  s <-! run_setup server;;
  Ret (Ok (run_steps (bool_decide (is_Some (server_tls_acceptor server))) s es)).

(** ** The process *)

(** What [main] goes on to do with the server. *)
Inductive Activity :=
| Serve (server : Server)
| Maintain (job : prog (result unit string)).

Definition main (config_file : option string) (command : option ProxyCommand) : result Activity Exit :=
  config <-? map_err Panics (Config.create config_file);;
  let command := selected_command command in
  server <-? server_from_config config;;
  Ok (match command with
      | Start => Serve server
      | Prune seconds => Maintain (prune seconds)
      | Check_ => Maintain check
      end).

(** ** Facts *)

Section run.
Context {W : Type} `{!Env W} `{!View W} `{!EnvLaws W}.

(** The server accepts its first connection only after the schema is in place, [kinit]
    has been found if Kerberos is configured, and the configured address is bound; it
    leaves the applications alone. *)
Theorem run_setup_spec server w :
  let '(r, w') := run (run_setup server) w in
  rows w' = rows w /\ cache w' = cache w /\
  (r = Ok run_start <->
   (exec MigrateUp w).1 = Ok tt /\
   (forall k, kerberos_config (server_config server) = Some k -> is_Some (which "kinit")) /\
   tcp_bind (listen_address (server_config server)) = Ok tt).
Proof.
  unfold run_setup, ensure_db. autorewrite with run. unfold do. cbn [run].
  pose proof (exec_rows MigrateUp w ltac:(done)) as Hr. pose proof (exec_cache_frame MigrateUp w ltac:(done)) as Hc.
  destruct (exec MigrateUp w) as [[[]|e] w']; cbn [fst snd map_err run] in *; [|naive_solver].
  unfold kerberos_creds_task, try_io.
  destruct (kerberos_config (server_config server)) as [k|], (which "kinit") as [p|], (tcp_bind _) as [[]|e];
    cbn; naive_solver.
Qed.
End run.

(** A process whose handlers are in place is told to stop by SIGINT and SIGTERM and by
    nothing else; one whose handlers are not stops as soon as it runs. *)
Theorem signal_channel_spec arrived :
  signal_channel_closed arrived = true <->
  is_err install_ctrl_c = true \/ is_err install_terminate = true \/ SIGINT ∈ arrived \/ SIGTERM ∈ arrived.
Proof.
  unfold signal_channel_closed, shutdown_signal. rewrite bool_decide_eq_true.
  destruct install_ctrl_c as [[]|e], install_terminate as [[]|e']; cbn; try case_bool_decide; naive_solver.
Qed.

Lemma load_tls_acceptor_Some config acceptor :
  load_tls_acceptor config = Ok acceptor ->
  acceptor = None /\ tls config = None \/
  exists a tls_config certs key, acceptor = Some a /\ tls config = Some tls_config /\
    alpn_protocols a = ["h2"; "http/1.1"] /\ with_single_cert certs key = Ok (acceptor_config a) /\
    (exists f, file_open (tls_cert tls_config) = Ok f /\ read_certs f = Ok certs) /\
    (exists f, file_open (tls_key tls_config) = Ok f /\ read_private_key f = Ok (Some key)).
Proof.
  unfold load_tls_acceptor, invalid_input, try_io. destruct (tls config) as [t|]; [|intros [= <-]; by left].
  intros Hl. right.
  destruct (file_open (tls_cert t)) as [f|] eqn:Ef; [|done]. simpl in Hl.
  destruct (read_certs f) as [cs|] eqn:Ec; [|done]. simpl in Hl.
  destruct (file_open (tls_key t)) as [g|] eqn:Eg; [|done]. simpl in Hl.
  destruct (read_private_key g) as [[k|]|] eqn:Ek; [|done..]. simpl in Hl.
  destruct safe_protocol_versions; [|done]. simpl in Hl.
  destruct (with_single_cert cs k) as [c|] eqn:Ew; [|done]. simpl in Hl. injection Hl as <-.
  eexists _, _, _, _. split_and!; naive_solver.
Qed.

Lemma check_homes_Ok vs : check_homes vs = Ok tt -> Forall (fun v => path_exists (home v) = true) vs.
Proof.
  induction vs as [|v vs IH]; simpl; [done|]. destruct (path_exists (home v)) eqn:E; [|done].
  intros Hv. by constructor; [|apply IH].
Qed.

Lemma user_auth_current config ms :
  user_auth_from_config config = Ok ms -> (CurrentUserAuth ∈ ms <-> auth_methods config = None).
Proof.
  unfold user_auth_from_config. destruct (auth_methods config) as [cs|]; [|intros [= <-]; by set_solver].
  intros E%create_methods_Forall2. split; [|done]. intros (i & Hi)%list_elem_of_lookup.
  destruct (Forall2_lookup_r _ _ _ _ _ E Hi) as (c & _ & Hc). by apply create_method_not_current in Hc.
Qed.

(** C33. A server that starts is the one the configuration describes: it has a Spark
    version, the home of every version exists, the account the server runs as is trusted
    exactly if no authentication is configured, connections are encrypted exactly if TLS
    is configured, with the configured certificate and key and for HTTP/2 and HTTP/1.1,
    and no dispatcher is registered. *)
Theorem server_from_config_spec (config : ProxyConfig) (server : Server) :
  server_from_config config = Ok server ->
  server_config server = config /\ server_upstreams server = Cache.new /\
  database_connect (store_url config) = Ok tt /\
  Launcher.from_config config = Ok (server_launcher server) /\
  versions (server_launcher server) <> [] /\
  Forall (fun v => path_exists (home v) = true) (versions (server_launcher server)) /\
  user_auth_from_config config = Ok (server_user_auth server) /\
  (CurrentUserAuth ∈ server_user_auth server <-> auth_methods config = None) /\
  match tls config, server_tls_acceptor server with
  | None, None => True
  | Some tls_config, Some a =>
      alpn_protocols a = ["h2"; "http/1.1"] /\
      exists f certs g key, file_open (tls_cert tls_config) = Ok f /\ read_certs f = Ok certs /\
        file_open (tls_key tls_config) = Ok g /\ read_private_key g = Ok (Some key) /\
        with_single_cert certs key = Ok (acceptor_config a)
  | _, _ => False
  end.
Proof.
  unfold server_from_config. intros Hs.
  destruct (database_connect _) as [[]|] eqn:Ed; [|done]. simpl in Hs.
  destruct (Launcher.from_config config) as [L|] eqn:El; [|done]. simpl in Hs.
  destruct (user_auth_from_config config) as [ms|] eqn:Ea; [|done]. simpl in Hs.
  destruct (load_tls_acceptor config) as [t|] eqn:Et; [|done]. injection Hs as <-. simpl.
  destruct (from_config_checked _ _ El) as [Hv Hh].
  split_and!; try done; [by apply check_homes_Ok|by apply user_auth_current|].
  destruct (load_tls_acceptor_Some _ _ Et) as [[-> ->]|(a & tc & cs & k & -> & -> & Ha & Hc & (f & ? & ?) & g & ? & ?)];
    [done|]. split; [done|]. by exists f, cs, g, k.
Qed.

(** The effect of the Kerberos task after the events [h]. *)
Definition kerberos_turn (kinit : string) (kerberos_config : KerberosConfig) (h : list ev) (e : Eff) : Prop :=
  e = if Nat.even (length h) then CommandStatus kinit (kinit_args kerberos_config)
      else Sleep (renewal_delay kerberos_config).

Lemma kerberos_wp kinit kerberos_config fuel h :
  Nat.even (length h) = true ->
  wp (kerberos_turn kinit kerberos_config) (fun o h' => o = None /\ length h' = (length h + 2 * fuel)%nat) h
    (loop fuel (kerberos_round kinit kerberos_config) tt).
Proof.
  revert h. induction fuel as [|fuel IH]; intros h Hh; [simpl; auto with lia|].
  cbn [loop]. apply wp_bind. unfold kerberos_round.
  wp_await; [unfold kerberos_turn; by rewrite Hh|]. intros r _. wp_await.
  { unfold kerberos_turn. by rewrite length_app, Nat.add_1_r, Nat.even_succ, <- Nat.negb_even, Hh. }
  intros r' _. simpl. eapply wp_post; [apply IH|]; rewrite !length_app; simpl.
  - by rewrite <- Nat.add_assoc, Nat.even_add, Hh.
  - intros o h' [-> ->]. split; [done|lia].
Qed.

(** The Kerberos task never ends by itself; round after round it runs [kinit] with the
    configured key table and principal, whatever the outcome of the last run was, and waits
    for the renewal interval, an hour if none is configured, before the next. *)
Theorem kerberos_renews (fuel : nat) (kerberos_config : KerberosConfig) p t o :
  kerberos_creds_task fuel kerberos_config = Ok p -> trace p t o -> Forall lawful_ev t ->
  (forall a, o = Some a -> a = None /\ length t = (2 * fuel)%nat) /\
  exists kinit, which "kinit" = Some kinit /\
    forall t1 x t2, t = t1 ++ x :: t2 ->
      ev_eff x = if Nat.even (length t1) then CommandStatus kinit (kinit_args kerberos_config)
                 else Sleep (renewal_delay kerberos_config).
Proof.
  unfold kerberos_creds_task. destruct (which "kinit") as [kinit|]; [|done]. intros [= <-] Ht Hl.
  destruct (wp_trace _ _ _ _ _ _ (kerberos_wp kinit kerberos_config fuel [] eq_refl) Ht Hl) as [HG HQ].
  split; [exact HQ|]. exists kinit. split; [done|exact HG].
Qed.

End startup.

(** ** A file system for the examples: every file holds one certificate and a key. *)
Module SampleStartup.

#[export] Instance sample : StartupLib := {
  database_connect u := if is_empty u then Err "empty URL" else Ok tt;
  File := string;
  Certificate := string;
  PrivateKey := string;
  TlsServerConfig := list string * string;
  file_open f := if is_empty f then Err (mkIoError NotFound "No such file or directory") else Ok f;
  read_certs f := Ok [f];
  read_private_key f := Ok (Some f);
  safe_protocol_versions := Ok tt;
  with_single_cert cs k := Ok (cs, k);
  tcp_bind _ := Ok tt;
  install_ctrl_c := Ok tt;
  install_terminate := Ok tt
}.

End SampleStartup.
