(* ===== verification/System.v ===== *)
(** * The whole server: every handler and task at once

    The system is the table, the cache and a pool of threads.  A step lets one thread
    perform one effect, or lets a request, a maintenance command or a spawned task
    join; so a run is an arbitrary interleaving at the granularity of effects, which
    is where an [await] or a lock lets other tasks run.  Each thread carries the
    events it has seen, for the proofs. *)

From stdpp Require Import base option list strings gmap sets.
From S2P Require Import Prelude RustStr Entities Database Error Http Cache Env Config Launcher Auth Proxy Routes Server.
Import application.

Open Scope rust_scope.

Section system.
Context `{HttpLib} `{ConfigLib} `{AuthLib} `{TimeLib} {L : Type} `{!Launcher L}.
Variables (launcher : L) (config : ProxyConfig) (methods : list UserAuthMethod).

Record Thread := mkThread {
  th_seen : list ev;
  th_serves : option Cache.chan;
  th_prog : prog unit
}.

Record Sys := mkSys {
  sys_rows : Table;
  sys_cache : Cache.State;
  sys_drawn : gset string;
  sys_pool : list Thread
}.

(** A future that is polled to completion for its effects. *)
Definition discard {A} (p : prog A) : prog unit := _ <- p;; Ret tt.

(** The threads that come from outside: requests, and the commands run beside the
    server on the same database. *)
Inductive arrival : prog unit -> Prop :=
| arrive_serve h headers : arrival (discard (serve launcher config methods h headers))
| arrive_proxy req : arrival (discard (dispatch_request req))
| arrive_prune secs : arrival (discard (prune secs))
| arrive_check : arrival (discard check).

(** The thread of a spawned task; how long a dispatcher runs is open.  The process
    watcher, the HTTP/2 driver and a task that sleeps have no effect modelled here. *)
Inductive task_thread : Task -> option Cache.chan -> prog unit -> Prop :=
| tt_watch child app_id : task_thread (LaunchWatch child app_id) None (launch_watch child app_id)
| tt_track child timeout : task_thread (TrackLaunch child timeout) None (Ret tt)
| tt_upstream rx token messages fuel :
    task_thread (UpstreamConnection rx token) (Some rx) (upstream_connection messages fuel rx token None)
| tt_driver io : task_thread (ConnectionDriver io) None (Ret tt)
| tt_sleep seconds : task_thread (SleepTask seconds) None (Ret tt)
| tt_deliver response tx : task_thread (DeliverResponse response tx) None (deliver_response response tx).

(** What an effect does to the shared state and how it may be answered. *)
Definition effect (e : Eff) (s : Sys) : resp e -> Table -> Cache.State -> gset string -> Prop :=
  match e return resp e -> Table -> Cache.State -> gset string -> Prop with
  | Db q => fun r t c d => db_post q (sys_rows s) r t /\ c = sys_cache s /\ d = sys_drawn s
  | CacheOp o => fun r t c d => (r, c) = Cache.step o (sys_cache s) /\ t = sys_rows s /\ d = sys_drawn s
  | NewV4 => fun r t c d => r ∉ sys_drawn s /\ d = {[r]} ∪ sys_drawn s /\ t = sys_rows s /\ c = sys_cache s
  | _ => fun _ t c d => t = sys_rows s /\ c = sys_cache s /\ d = sys_drawn s
  end.

Definition spawned_by (e : Eff) (new : list Thread) : Prop :=
  match e with
  | Spawn task => exists serves p, task_thread task serves p /\ new = [mkThread [] serves p]
  | _ => new = []
  end.

Inductive sys_step : Sys -> Sys -> Prop :=
| step_arrive s p :
    arrival p ->
    sys_step s (mkSys (sys_rows s) (sys_cache s) (sys_drawn s) (sys_pool s ++ [mkThread [] None p]))
| step_effect s i th e k r t c d new :
    sys_pool s !! i = Some th -> th_prog th = Do e k ->
    effect e s r t c d -> spawned_by e new ->
    sys_step s (mkSys t c d (<[i := mkThread (th_seen th ++ [Ev e r]) (th_serves th) (k r)]> (sys_pool s) ++ new)).

(** The server has just come up on a table another run may have left. *)
Definition sys_start (t : Table) (drawn : gset string) : Sys := mkSys t Cache.new drawn [].

Inductive reachable (t0 : Table) (d0 : gset string) : Sys -> Prop :=
| reach_start : reachable t0 d0 (sys_start t0 d0)
| reach_step s s' : reachable t0 d0 s -> sys_step s s' -> reachable t0 d0 s'.

End system.
