(* ===== verification/SystemFacts.v ===== *)
(** * What holds in every interleaving

    Invariants of the table and of the cache, proved by induction over the steps of the
    whole system from a guarantee every thread keeps. *)

From stdpp Require Import base option list strings gmap sets.
From S2P Require Import Prelude RustStr Entities Database Error Http Cache Env Config.
From S2P Require Import Launcher Auth Proxy Routes Server RoutesFacts ProxyFacts DispatchFacts System.
Import application.

Open Scope rust_scope.

Section facts.
Context `{HttpLib} `{ConfigLib} `{AuthLib} `{TimeLib} {L : Type} `{!Launcher L} `{!LauncherLaws L}.
Variables (launcher : L) (config : ProxyConfig) (methods : list UserAuthMethod).

(** ** What every thread guarantees *)

(** A query for the row of one key or one token. *)
Definition addressed (q : Query) : Prop := (exists k, IdEq k ∈ q) \/ (exists tok, TokenEq tok ∈ q).

(** The column updates of the source. *)
Definition cols_ok (cols : list ColExpr) (q : Query) : Prop :=
  addressed q /\
  (cols = [SetAddress None; SetState FINISHED] \/
   cols = [SetAddress None; SetState FAILED] \/
   (exists a i, cols = [SetAddress (Some a); SetState RUNNING; SetApplicationId (Some i)]) \/
   (cols = [SetState FAILED] /\ StateEq LAUNCHING ∈ q)).

Lemma addressed_id k q : addressed (IdEq k :: q).
Proof. left. exists k. left. Qed.

Lemma addressed_token tok q : addressed (TokenEq tok :: q).
Proof. right. exists tok. left. Qed.

Hint Resolve addressed_id addressed_token : plug.

Definition is_insert (x : ev) : bool := match ev_eff x with Db (Insert _) => true | _ => false end.

Definition guard (serves : option Cache.chan) (h : list ev) (e : Eff) : Prop :=
  match e with
  | Db (Insert am) => exists u tok nm, am = new_application u tok nm /\ Ev NewV4 tok ∈ h /\ count is_insert h = 0
  | Db (UpdateMany cols q) => cols_ok cols q
  | Db (Update am) => exists k, am = failed_application k \/ am = unreachable_application k
  | Db (DeleteMany q) => exists c, q = prune_query c
  | CacheOp (Cache.DropReceiver c) => serves = Some c
  | Spawn (UpstreamConnection c t) => Ev (CacheOp (Cache.GetOrInsert t)) (c, true) ∈ h
  | QueueSend c (req, tx) => exists token, extract_bearer_token (req_headers req) = Ok token /\ handed token h c
  | NewV4 => count is_insert h = 0
  | _ => True
  end.

Notation guarded p := (wp (guard None) (fun _ _ => True) [] p).

(** Effects that need no justification. *)
Definition plain (e : Eff) : Prop :=
  match e with
  | Db (One _) | Db (All _) => True
  | Db (UpdateMany cols q) => cols_ok cols q
  | Db (Update am) => exists k, am = failed_application k \/ am = unreachable_application k
  | Db (DeleteMany q) => exists c, q = prune_query c
  | Db (Insert _) | CacheOp (Cache.DropReceiver _) | Spawn (UpstreamConnection _ _) | QueueSend _ _ | NewV4 => False
  | OneshotSend _ _ | Spawn (DeliverResponse _ _) => False
  | _ => True
  end.

Lemma plain_guard serves h e : plain e -> guard serves h e.
Proof.
  destruct e as [[]|[]| | | |[]| | | | | | | |c [req tx]| | | | | | | | | | ]; simpl; try done.
Qed.

Lemma safe_guard {A} serves (p : prog A) h : safe plain p -> wp (guard serves) (fun _ _ => True) h p.
Proof.
  intros Hp. eapply wp_post; [eapply wp_safe, Hp|done]. intros. by apply plain_guard.
Qed.

Lemma launch_plain e : launch_effect e -> plain e.
Proof. destruct e as [| | | | |[]| | | | | | | | | | | | | | | | | | ]; done. Qed.

Lemma send_plain addr tok msg : safe plain (send_session_message addr tok msg).
Proof. split; [done|]. intros [|] _; [|done]. split; [done|]. by intros [|] _. Qed.

Lemma create_app_guarded u params : guarded (create_app launcher config u params).
Proof.
  destruct u as [u]. unfold create_app. apply wp_do; [done|]. intros tok _.
  wp_await; [exists u, tok, (req_name params); split_and!; [done|set_solver|done]|].
  intros [m|e] _; [|done]. cbn [map_err]. apply wp_bind.
  eapply wp_post; [apply safe_guard; eapply safe_mono, launch_safe; apply launch_plain|].
  intros [child|e] h _; apply wp_do; try done. simpl. exists (id m). by left.
Qed.

Lemma delete_app_plain k u : safe plain (delete_app k u).
Proof.
  destruct u as [u]. unfold delete_app. split; [done|]. intros [[m|]|e] _; [|done..].
  split; [split; auto with plug|]. intros [n|e] _; [|done]. cbn [bind map_err]. eapply safe_wp. apply safe_bind.
  - destruct (address m) as [addr|]; [|done]. apply (safe_bind _ (send_session_message addr (token m) "stop")).
    + apply send_plain.
    + done.
  - intros r. split; [done|]. by intros [] _; destruct r.
Qed.

Lemma handler_guarded {A} (p : prog (result A StatusCode)) (f : A -> Reply) :
  guarded p -> guarded (reply f p).
Proof. intros Hp. apply wp_bind. by eapply wp_post. Qed.

Lemma serve_guarded h headers : guarded (serve launcher config methods h headers).
Proof.
  unfold serve. case_bool_decide.
  - destruct (user_authorize methods headers) as [u|]; [|done].
    destruct h as [ps|ps|k|k| | |]; cbn [user_handler]; try done; apply handler_guarded.
    + apply safe_guard. destruct u as [u]. unfold list_apps. destruct (list_query u ps); [|done].
      split; [done|]. by intros [|] _.
    + apply create_app_guarded.
    + apply safe_guard. destruct u as [u]. split; [done|]. by intros [[|]|] _.
    + apply safe_guard, delete_app_plain.
  - case_bool_decide; [|done]. destruct (token_authorize headers) as [[tok]|]; [|done].
    destruct h as [ps|ps|k|k| |ps|]; cbn [callback_handler]; try done; apply handler_guarded, safe_guard.
    + split; [split; [auto with plug|]; right; right; left; by eexists _, _|].
      intros [n|e] _; [|done]. simpl. by case_bool_decide.
    + split; [split; auto with plug|]. intros [n|e] _; [|done]. simpl. by case_bool_decide.
Qed.

Lemma dispatch_guarded' req : guarded (dispatch_request req).
Proof.
  destruct (extract_bearer_token (req_headers req)) as [token|e] eqn:Et.
  2:{ unfold dispatch_request. by rewrite Et. }
  eapply wp_mono; [| |apply (dispatch_wp req token Et)]; [|done].
  intros h e. destruct e as [s|o| | | |[]| | | | | | | |c [req' tx]| | | | | | | | | | ]; simpl; try done.
  - by intros ->.
  - destruct o; simpl; try done. by intros [?|[?|?]].
  - by intros (-> & ? & _).
  - intros (Hc & tx' & [= -> ->] & _). by exists token.
Qed.

Lemma upstream_guarded messages fuel rx token :
  wp (guard (Some rx)) (fun _ _ => True) [] (upstream_connection messages fuel rx token None).
Proof.
  eapply wp_mono; [| |apply (upstream_connection_wp messages fuel rx token None []); done]; [|done].
  intros h e. destruct e as [s|o| | | |[]| | | | | | | |c [req' tx]| | | | | | | | | | ]; simpl; try done.
  - destruct s; try done. intros [-> ->]. split; auto with plug.
  - intros ->. done.
Qed.

Lemma check_plain : safe plain check.
Proof.
  unfold check. split; [done|]. intros [|] _; [|done]. split; [done|]. intros [apps|e] _; [|done].
  cbn [bind map_err]. eapply safe_wp. apply safe_bind; [|by intros []].
  generalize 0 as n. induction apps as [|app apps IH]; intros n; [done|]. cbn [check_apps].
  apply safe_bind.
  - destruct (address app) as [addr|]; [|done]. apply safe_bind; [|done].
    unfold check_application_health. generalize 0 as attempt. generalize "" as last.
    generalize (S HEALTH_CHECK_RETRIES) as m. induction m as [|m IHm]; intros last attempt; [done|].
    cbn [health_attempts]. apply safe_bind; [apply send_plain|]. intros [u|e]; [done|].
    apply safe_bind; [by destruct (attempt <? _)%nat|]. intros _. apply IHm.
  - intros []; [|apply IH]. split; [exists (id app); by right|]. intros [m|e] _; [|done]. eapply safe_wp, IH.
Qed.

Lemma prune_plain secs : safe plain (prune secs).
Proof.
  unfold prune. split; [done|]. intros [|] _; [|done]. split; [done|]. intros [now|e] _; [|done]. simpl.
  destruct (from_timestamp _ 0) as [c|]; [|done]. split; [by exists c|]. by intros [|] _.
Qed.

Lemma discard_guarded {A} (p : prog A) : guarded p -> guarded (discard p).
Proof. intros Hp. apply wp_bind. by eapply wp_post. Qed.

Lemma arrival_guarded p : arrival launcher config methods p -> guarded p.
Proof.
  intros [h headers|req|secs|]; apply discard_guarded.
  - apply serve_guarded.
  - apply dispatch_guarded'.
  - apply safe_guard, prune_plain.
  - apply safe_guard, check_plain.
Qed.

Lemma task_guarded task serves p : task_thread task serves p -> wp (guard serves) (fun _ _ => True) [] p.
Proof.
  intros [child k|child t|rx token m f|io|secs|r tx]; try done.
  - split; [done|]. intros u _. split; [|done]. simpl. split; [auto with plug|]. right; right; right. split; [done|set_solver].
  - apply upstream_guarded.
Qed.

(** ** What a guarded statement does to the rows *)

(** The life-cycle invariant of a row. *)
Definition row_ok (m : Model) : Prop :=
  match state m with
  | LAUNCHING => address m = None /\ application_id m = None
  | RUNNING => is_Some (address m) /\ is_Some (application_id m)
  | FINISHED => address m = None
  | FAILED => True
  end.

(** How a row may change: its identity never does, nothing starts to launch again, the
    application id is not forgotten. *)
Definition evolves (m m' : Model) : Prop :=
  id m' = id m /\ created_at m' = created_at m /\ username m' = username m /\
  name m' = name m /\ token m' = token m /\
  (state m' = LAUNCHING -> m' = m) /\ (is_Some (application_id m) -> is_Some (application_id m')).

Lemma evolves_refl m : evolves m m.
Proof. by repeat split. Qed.

Lemma evolves_cols cols q m : cols_ok cols q -> sat q m = true ->
  evolves m (set_cols cols m) /\ (row_ok m -> row_ok (set_cols cols m)).
Proof.
  intros [_ [->|[->|[(a & i & ->)|[-> Hq]]]]] _; unfold evolves, row_ok; simpl; split_and!; try done; eauto.
Qed.

Lemma evolves_failed k m : id m = k ->
  (evolves m (am_apply (failed_application k) m) /\ row_ok (am_apply (failed_application k) m)) /\
  (evolves m (am_apply (unreachable_application k) m) /\ row_ok (am_apply (unreachable_application k) m)).
Proof. intros <-. unfold evolves, row_ok. simpl. split_and!; try done. Qed.

(** Where the rows after a statement come from. *)
Lemma row_origin serves h s (t t' : Table) r k m' :
  guard serves h (Db s) -> keyed t -> db_post s t r t' -> t' !! k = Some m' ->
  (exists m, t !! k = Some m /\ evolves m m' /\ (row_ok m -> row_ok m')) \/
  (is_insert (Ev (Db s) r) = true /\ t !! k = None /\ t' = <[k := m']> t /\ row_ok m' /\
   count is_insert h = 0 /\ Ev NewV4 (token m') ∈ h).
Proof.
  intros Hg Hk Hp Hm'.
  assert (Hsame : t' = t -> exists m, t !! k = Some m /\ evolves m m' /\ (row_ok m -> row_ok m')).
  { intros ->. exists m'. split_and!; [done|apply evolves_refl|done]. }
  destruct s as [am|q|q|cols q|am|q]; simpl in Hg, Hp.
  - destruct r as [m|e]; [|left; by apply Hsame]. destruct Hp as (Hn & Hins & ->).
    destruct Hg as (u & tok & nm & -> & Hnew & Hc).
    apply lookup_insert_Some in Hm' as [[<- <-]|[Hne Hm']].
    + right. apply insert_new in Hins as (_ & _ & Hs & Ht & Ha & Hi).
      split_and!; [done..| |done|by rewrite Ht]. unfold row_ok. by rewrite Hs.
    + left. exists m'. split_and!; [done|apply evolves_refl|done].
  - left. by apply Hsame; destruct Hp.
  - left. by apply Hsame; destruct Hp.
  - destruct r as [n|e]; [|left; by apply Hsame]. destruct Hp as [_ ->]. left.
    rewrite update_rows_lookup in Hm'. apply fmap_Some in Hm' as (m & Hm & ->). exists m. split; [done|].
    destruct (sat q m) eqn:Es; [by eapply evolves_cols|]. split; [apply evolves_refl|done].
  - destruct r as [m1|e]; [|left; by apply Hsame]. destruct Hp as (m & Hid & Hm & -> & ->). left.
    apply lookup_insert_Some in Hm' as [[<- <-]|[Hne Hm']].
    + exists m. split; [done|]. destruct Hg as (k' & [-> | ->]); injection Hid as ->;
        destruct (evolves_failed (id m) m eq_refl) as [[? ?] [? ?]]; done.
    + exists m'. split_and!; [done|apply evolves_refl|done].
  - destruct r as [n|e]; [|left; by apply Hsame]. destruct Hp as [_ ->]. left.
    apply delete_rows_lookup in Hm' as [Hm _]. exists m'. split_and!; [done|apply evolves_refl|done].
Qed.

(** Only pruning removes rows. *)
Lemma lost_rows serves h s (t t' : Table) r k m :
  guard serves h (Db s) -> db_post s t r t' -> t !! k = Some m -> t' !! k = None ->
  state m = FAILED \/ state m = FINISHED.
Proof.
  intros Hg Hp Hm Hn. destruct s as [am|q|q|cols q|am|q]; simpl in Hg, Hp.
  - destruct r as [m0|e]; [|congruence]. destruct Hp as (_ & _ & ->). apply lookup_insert_None in Hn as [? _]. congruence.
  - destruct Hp as [-> _]. congruence.
  - destruct Hp as [-> _]. congruence.
  - destruct r as [n|e]; [|congruence]. destruct Hp as [_ ->]. rewrite update_rows_lookup, Hm in Hn. done.
  - destruct r as [m0|e]; [|congruence]. destruct Hp as (m1 & _ & _ & _ & ->). apply lookup_insert_None in Hn as [? _]. congruence.
  - destruct r as [n|e]; [|congruence]. destruct Hp as [_ ->]. destruct Hg as [c ->].
    destruct (sat (prune_query c) m) eqn:Es.
    + simpl in Es. rewrite orb_false_r, andb_true_r, andb_true_iff, orb_true_iff, !bool_decide_eq_true in Es. tauto.
    + exfalso. assert (delete_rows (prune_query c) t !! k = Some m) by by apply delete_rows_lookup. congruence.
Qed.

Lemma db_post_keyed s (t t' : Table) r : keyed t -> db_post s t r t' -> keyed t'.
Proof.
  intros Hk Hp. destruct s as [am|q|q|cols q|am|q]; simpl in Hp.
  - destruct r as [m|e]; [|by subst]. destruct Hp as (_ & _ & ->). auto with plug.
  - by destruct Hp as [-> _].
  - by destruct Hp as [-> _].
  - destruct r as [n|e]; [|by subst]. destruct Hp as [_ ->]. auto with plug.
  - destruct r as [m|e]; [|by subst]. destruct Hp as (m0 & Hid & Hm & -> & ->).
    assert (Heq : id (am_apply am m0) = id m0) by (unfold am_apply; simpl; by rewrite Hid).
    rewrite <- Heq at 1. auto with plug.
  - destruct r as [n|e]; [|by subst]. destruct Hp as [_ ->]. auto with plug.
Qed.

(** ** What a thread has learnt *)

Definition drawn_by (x : ev) : list string :=
  match ev_eff x as e return resp e -> list string with
  | NewV4 => fun r => [r]
  | _ => fun _ => []
  end (ev_resp x).

Definition given_by (x : ev) : list (string * Cache.chan) :=
  match ev_eff x as e return resp e -> list (string * Cache.chan) with
  | CacheOp o =>
      match o return Cache.op_resp o -> list (string * Cache.chan) with
      | Cache.LookupOpen t => fun r => match r with Some c => [(t, c)] | None => [] end
      | Cache.GetOrInsert t => fun r => [(t, r.1)]
      | _ => fun _ => []
      end
  | _ => fun _ => []
  end (ev_resp x).

Definition drawn (h : list ev) : list string := h ≫= drawn_by.
Definition given (h : list ev) : list (string * Cache.chan) := h ≫= given_by.

Lemma elem_of_drawn h tok : Ev NewV4 tok ∈ h -> tok ∈ drawn h.
Proof. intros Hin. apply list_elem_of_bind. exists (Ev NewV4 tok). split; [simpl; set_solver|done]. Qed.

Lemma handed_given token h c : handed token h c -> (token, c) ∈ given h.
Proof.
  intros [Hin|[b Hin]]; apply list_elem_of_bind; eexists; (split; [|exact Hin]); simpl; set_solver.
Qed.

Lemma drawn_snoc h x : drawn (h ++ [x]) = drawn h ++ drawn_by x.
Proof. unfold drawn. rewrite bind_app. simpl. by rewrite app_nil_r. Qed.

Lemma given_snoc h x : given (h ++ [x]) = given h ++ given_by x.
Proof. unfold given. rewrite bind_app. simpl. by rewrite app_nil_r. Qed.

(** ** The cache under interleaved sections *)

Lemma workers_step o s c t :
  Cache.wf s -> Cache.workers s !! c = Some t -> Cache.workers (Cache.step o s).2 !! c = Some t.
Proof.
  intros Hwf Hc. destruct o as [t'|t'|t'|t'|c']; simpl; try done.
  - unfold Cache.get_or_insert. destruct (Cache.lookup_open t' s); [done|]. simpl.
    pose proof (Cache.wf_work _ Hwf _ _ Hc). by rewrite lookup_insert_ne by lia.
  - unfold Cache.remove_closed. by repeat case_match.
Qed.

Lemma given_step o s t c r s' :
  Cache.wf s -> (r, s') = Cache.step o s -> (t, c) ∈ given_by (Ev (CacheOp o) r) ->
  Cache.workers s' !! c = Some t.
Proof.
  intros Hwf Hs Hin. destruct o as [t'|t'|t'|t'|c']; simpl in Hs, Hin; try set_solver.
  - injection Hs as -> ->. destruct (Cache.lookup_open t' s) as [c'|] eqn:E; [|set_solver].
    apply list_elem_of_singleton in Hin as [= -> ->]. apply Cache.lookup_open_Some in E as [E _]. by apply Hwf.
  - apply list_elem_of_singleton in Hin as [= -> ->].
    pose proof (Cache.get_or_insert_open t' s Hwf) as Ho.
    pose proof (Cache.get_or_insert_wf t' s Hwf) as Hwf'. rewrite <- Hs in Ho, Hwf'. simpl in *.
    apply Cache.lookup_open_Some in Ho as [Ho _]. by apply Hwf'.
Qed.

(** ** The invariant of the system *)

Record thread_inv (s : Sys) (th : Thread) : Prop := {
  ti_guard : wp (guard (th_serves th)) (fun _ _ => True) (th_seen th) (th_prog th);
  ti_serves c : th_serves th = Some c -> is_Some (Cache.workers (sys_cache s) !! c);
  ti_given t c : (t, c) ∈ given (th_seen th) -> Cache.workers (sys_cache s) !! c = Some t;
  ti_drawn tok : tok ∈ drawn (th_seen th) -> tok ∈ sys_drawn s;
  ti_fresh tok : tok ∈ drawn (th_seen th) -> count is_insert (th_seen th) = 0 -> no_token tok (sys_rows s)
}.

(** Tokens tell applications apart. *)
Definition unique_tokens (t : Table) : Prop :=
  forall k k' m m', t !! k = Some m -> t !! k' = Some m' -> token m = token m' -> k = k'.

Record sys_inv (s : Sys) : Prop := {
  si_keyed : keyed (sys_rows s);
  si_rows k m : sys_rows s !! k = Some m -> row_ok m /\ token m ∈ sys_drawn s;
  si_unique : unique_tokens (sys_rows s);
  si_cache : Cache.wf (sys_cache s);
  si_threads i th : sys_pool s !! i = Some th -> thread_inv s th;
  si_disjoint i j thi thj tok :
    sys_pool s !! i = Some thi -> sys_pool s !! j = Some thj ->
    tok ∈ drawn (th_seen thi) -> tok ∈ drawn (th_seen thj) -> i = j
}.

(** A thread that has just joined. *)
Lemma new_thread_inv s serves p :
  wp (guard serves) (fun _ _ => True) [] p ->
  (forall c, serves = Some c -> is_Some (Cache.workers (sys_cache s) !! c)) ->
  thread_inv s (mkThread [] serves p).
Proof. intros Hp Hs. split; simpl; try done; intros; set_solver. Qed.

(** The shared parts of the state after an effect of a guarded thread. *)
Record shared_step (th : Thread) (e : Eff) (r : resp e) (s s' : Sys) : Prop := {
  ss_keyed : keyed (sys_rows s');
  ss_origin k m' : sys_rows s' !! k = Some m' ->
    (exists m, sys_rows s !! k = Some m /\ evolves m m' /\ (row_ok m -> row_ok m')) \/
    (is_insert (Ev e r) = true /\ sys_rows s !! k = None /\ sys_rows s' = <[k := m']> (sys_rows s) /\
     row_ok m' /\ count is_insert (th_seen th) = 0 /\ token m' ∈ drawn (th_seen th));
  ss_cache : Cache.wf (sys_cache s');
  ss_workers c t : Cache.workers (sys_cache s) !! c = Some t -> Cache.workers (sys_cache s') !! c = Some t;
  ss_given t c : (t, c) ∈ given_by (Ev e r) -> Cache.workers (sys_cache s') !! c = Some t;
  ss_drawn tok : tok ∈ sys_drawn s' <-> tok ∈ sys_drawn s \/ tok ∈ drawn_by (Ev e r);
  ss_new tok : tok ∈ drawn_by (Ev e r) -> tok ∉ sys_drawn s;
  ss_lawful : lawful e r
}.

Lemma same_origin (e : Eff) (r : resp e) th (t : Table) k m' : t !! k = Some m' ->
  (exists m, t !! k = Some m /\ evolves m m' /\ (row_ok m -> row_ok m')) \/
  (is_insert (Ev e r) = true /\ t !! k = None /\ t = <[k := m']> t /\
   row_ok m' /\ count is_insert (th_seen th) = 0 /\ token m' ∈ drawn (th_seen th)).
Proof. intros Hm. left. exists m'. split_and!; [done|apply evolves_refl|done]. Qed.

Lemma effect_shared s th e r t c d pool :
  sys_inv s -> thread_inv s th -> guard (th_serves th) (th_seen th) e ->
  effect e s r t c d -> shared_step th e r s (mkSys t c d pool).
Proof.
  intros Hs Hth Hg He. pose proof (si_keyed _ Hs) as Hk. pose proof (si_cache _ Hs) as Hwf.
  destruct e as [q|o| | | | | | | | | | | | | | | | | | | | | | ]; simpl in He;
    try (destruct He as (-> & -> & ->); split; simpl; try done; [by apply same_origin|set_solver..]).
  - destruct He as (Hp & -> & ->). split; simpl; try done.
    + by eapply db_post_keyed.
    + intros k m' Hm'. destruct (row_origin _ _ _ _ _ _ _ _ Hg Hk Hp Hm') as [?|(? & ? & ? & ? & ? & Hn)]; [by left|].
      right. split_and!; try done. by apply elem_of_drawn.
    + set_solver.
    + set_solver.
    + set_solver.
    + by eapply db_post_lawful.
  - destruct He as (Hst & -> & ->). assert (Hc : c = (Cache.step o (sys_cache s)).2) by (by rewrite <- Hst).
    split; simpl; try done; try set_solver.
    + by apply same_origin.
    + subst c. apply Cache.step_wf; [|done]. destruct o; simpl; try done. simpl in Hg. by apply Hth.
    + intros c' t' Hc'. subst c. by apply workers_step.
    + intros t' c'. by apply (given_step _ (sys_cache s)).
  - destruct He as (Hr & -> & -> & ->). split; simpl; try done; try set_solver. by apply same_origin.
Qed.

(** A shared step keeps the invariant of the rows. *)
Lemma shared_rows th e r s s' : sys_inv s -> thread_inv s th -> shared_step th e r s s' ->
  (forall k m, sys_rows s' !! k = Some m -> row_ok m /\ token m ∈ sys_drawn s') /\ unique_tokens (sys_rows s').
Proof.
  intros Hs Hth [Hk Ho _ _ _ Hd _ _]. split.
  - intros k m Hm. destruct (Ho k m Hm) as [(m0 & Hm0 & Hev & Hok)|(_ & _ & _ & Hok & _ & Hin)].
    + destruct (si_rows _ Hs _ _ Hm0) as [H3 H4]. split; [by apply Hok|].
      destruct Hev as (_ & _ & _ & _ & -> & _). rewrite Hd. by left.
    + split; [done|]. rewrite Hd. left. by apply Hth.
  - intros k k' m m' Hm Hm' Heq.
    destruct (Ho k m Hm) as [(m0 & Hm0 & Hev & _)|(Hi & Hn & Ht & _ & Hc & Hin)];
      destruct (Ho k' m' Hm') as [(m0' & Hm0' & Hev' & _)|(Hi' & Hn' & Ht' & _ & Hc' & Hin')].
    + apply (si_unique _ Hs k k' m0 m0'); [done..|].
      destruct Hev as (_ & _ & _ & _ & E1 & _), Hev' as (_ & _ & _ & _ & E2 & _). congruence.
    + exfalso. destruct Hev as (_ & _ & _ & _ & E1 & _).
      apply (ti_fresh _ _ Hth _ Hin' Hc' _ _ Hm0). congruence.
    + exfalso. destruct Hev' as (_ & _ & _ & _ & E1 & _).
      apply (ti_fresh _ _ Hth _ Hin Hc _ _ Hm0'). congruence.
    + destruct (decide (k' = k)) as [|Hne]; [done|]. exfalso.
      rewrite Ht in Hm'. rewrite lookup_insert_ne in Hm' by done. congruence.
Qed.

(** A thread that did not act keeps its invariant. *)
Lemma other_thread th e r s s' th' :
  sys_inv s -> shared_step th e r s s' -> thread_inv s th' ->
  (forall tok, tok ∈ drawn (th_seen th) -> tok ∉ drawn (th_seen th')) -> thread_inv s' th'.
Proof.
  intros Hs Hss [Hg Hse Hgi Hdr Hfr] Hdis. split; [done| | | |].
  - intros c Hc. destruct (Hse c Hc) as [t Ht]. exists t. by apply (ss_workers _ _ _ _ _ Hss).
  - intros t c Hin. by apply (ss_workers _ _ _ _ _ Hss), Hgi.
  - intros tok Hin. apply (ss_drawn _ _ _ _ _ Hss). left. by apply Hdr.
  - intros tok Hin Hc k m Hm Ht. destruct (ss_origin _ _ _ _ _ Hss k m Hm) as [(m0 & Hm0 & Hev & _)|(_ & _ & _ & _ & _ & Hnew)].
    + apply (Hfr tok Hin Hc k m0 Hm0). destruct Hev as (_ & _ & _ & _ & E1 & _). congruence.
    + apply (Hdis (token m) Hnew). by rewrite Ht.
Qed.

(** The thread that acted. *)
Lemma acting_thread th e k r s s' :
  sys_inv s -> shared_step th e r s s' -> thread_inv s th -> th_prog th = Do e k ->
  thread_inv s' (mkThread (th_seen th ++ [Ev e r]) (th_serves th) (k r)).
Proof.
  intros Hs Hss Hth Hp. pose proof Hth as [Hg Hse Hgi Hdr Hfr]. rewrite Hp in Hg. destruct Hg as [_ Hg].
  split; simpl.
  - apply Hg. by apply (ss_lawful _ _ _ _ _ Hss).
  - intros c Hc. destruct (Hse c Hc) as [t Ht]. exists t. by apply (ss_workers _ _ _ _ _ Hss).
  - intros t c. rewrite given_snoc, elem_of_app. intros [Hin|Hin]; [by apply (ss_workers _ _ _ _ _ Hss), Hgi|by apply (ss_given _ _ _ _ _ Hss)].
  - intros tok. rewrite drawn_snoc, elem_of_app. intros [Hin|Hin]; apply (ss_drawn _ _ _ _ _ Hss); [left; by apply Hdr|by right].
  - intros tok. rewrite drawn_snoc, elem_of_app, count_snoc. intros Hin Hc.
    destruct (is_insert (Ev e r)) eqn:Ei; [lia|]. assert (Hc0 : count is_insert (th_seen th) = 0) by lia.
    intros i m Hm Ht. destruct (ss_origin _ _ _ _ _ Hss i m Hm) as [(m0 & Hm0 & Hev & _)|(Hi & _)]; [|congruence].
    destruct Hev as (_ & _ & _ & _ & E1 & _). destruct Hin as [Hin|Hin].
    + apply (Hfr tok Hin Hc0 i m0 Hm0). congruence.
    + apply (ss_new _ _ _ _ _ Hss tok Hin). rewrite <- Ht, E1. by apply (si_rows _ Hs i).
Qed.

Lemma pool_cases (pool new : list Thread) i th' j x :
  is_Some (pool !! i) -> (<[i := th']> pool ++ new) !! j = Some x ->
  (j = i /\ x = th') \/ (j <> i /\ pool !! j = Some x) \/ (x ∈ new /\ (length pool <= j)%nat).
Proof.
  intros Hi Hj. apply lookup_lt_is_Some in Hi. apply lookup_app_Some in Hj as [Hj|[Hlen Hj]].
  - destruct (decide (j = i)) as [->|Hne].
    + rewrite list_lookup_insert_eq in Hj by done. injection Hj as <-. by left.
    + rewrite list_lookup_insert_ne in Hj by done. right; by left.
  - right; right. rewrite length_insert in *. split; [by eapply list_elem_of_lookup_2|done].
Qed.

(** The threads an effect spawns. *)
Lemma spawned_inv s th e r s' new x :
  thread_inv s th -> guard (th_serves th) (th_seen th) e -> shared_step th e r s s' ->
  spawned_by e new -> x ∈ new -> thread_inv s' x /\ th_seen x = [].
Proof.
  intros Hth Hg Hss Hsp Hx. destruct e as [| | | | |task| | | | | | | | | | | | | | | | | | ]; simpl in Hsp;
    try (subst new; by apply elem_of_nil in Hx).
  destruct Hsp as (serves & p & Htask & ->). apply list_elem_of_singleton in Hx as ->. split; [|done].
  apply new_thread_inv; [by eapply task_guarded|]. intros c Hc. subst serves.
  inversion Htask; subst. simpl in Hg. eexists.
  apply (ss_workers _ _ _ _ _ Hss), (ti_given _ _ Hth), handed_given. right. by exists true.
Qed.

Lemma arrive_inv s p :
  sys_inv s -> arrival launcher config methods p ->
  sys_inv (mkSys (sys_rows s) (sys_cache s) (sys_drawn s) (sys_pool s ++ [mkThread [] None p])).
Proof.
  intros [Hk Hr Hu Hc Ht Hd] Hp. split; simpl; try done.
  - intros i th [Hi|[_ Hi]]%lookup_app_Some; [by destruct (Ht _ _ Hi)|].
    apply list_elem_of_lookup_2, list_elem_of_singleton in Hi as ->.
    apply new_thread_inv; [by apply arrival_guarded|done].
  - assert (Hnew : forall i th tok, (sys_pool s ++ [mkThread [] None p]) !! i = Some th ->
      tok ∈ drawn (th_seen th) -> sys_pool s !! i = Some th).
    { intros i th tok [Hi|[_ Hi]]%lookup_app_Some Htok; [done|].
      apply list_elem_of_lookup_2, list_elem_of_singleton in Hi as ->. by apply elem_of_nil in Htok. }
    intros i j thi thj tok Hi Hj Hti Htj.
    apply (Hd i j thi thj tok); [by eapply Hnew|by eapply Hnew|done|done].
Qed.

Lemma effect_inv s i th e k r t c d new :
  sys_inv s -> sys_pool s !! i = Some th -> th_prog th = Do e k ->
  effect e s r t c d -> spawned_by e new ->
  sys_inv (mkSys t c d (<[i := mkThread (th_seen th ++ [Ev e r]) (th_serves th) (k r)]> (sys_pool s) ++ new)).
Proof.
  intros Hs Hi Hp He Hnew. set (s' := mkSys _ _ _ _).
  pose proof (si_threads _ Hs _ _ Hi) as Hth.
  assert (Hg : guard (th_serves th) (th_seen th) e).
  { pose proof (ti_guard _ _ Hth) as Hg. rewrite Hp in Hg. by destruct Hg. }
  assert (Hss : shared_step th e r s s') by by apply effect_shared.
  assert (Hsome : is_Some (sys_pool s !! i)) by by eexists.
  (* a token drawn by a thread of the new pool was drawn by the thread of that index, or just now *)
  assert (Hold : forall j th' tok, sys_pool s' !! j = Some th' -> tok ∈ drawn (th_seen th') ->
    exists th0, sys_pool s !! j = Some th0 /\
      (tok ∈ drawn (th_seen th0) \/ (j = i /\ tok ∈ drawn_by (Ev e r)))).
  { intros j th' tok Hj Htok. destruct (pool_cases _ _ _ _ _ _ Hsome Hj) as [[-> ->]|[[Hne Hj']|[Hin _]]].
    - exists th. split; [done|]. simpl in Htok. rewrite drawn_snoc, elem_of_app in Htok. naive_solver.
    - exists th'. split; [done|by left].
    - destruct (spawned_inv s th e r s' new th') as [_ Hx]; [done..|]. rewrite Hx in Htok. by apply elem_of_nil in Htok. }
  destruct (shared_rows _ _ _ _ _ Hs Hth Hss) as [Hrows Huniq]. split; try done.
  - apply (ss_keyed _ _ _ _ _ Hss).
  - apply (ss_cache _ _ _ _ _ Hss).
  - intros j th' Hj. destruct (pool_cases _ _ _ _ _ _ Hsome Hj) as [[-> ->]|[[Hne Hj']|[Hin _]]].
    + by eapply acting_thread.
    + eapply other_thread; [done|done|by eapply si_threads|]. intros tok Htok Htok'.
      apply Hne. by eapply (si_disjoint _ Hs j i).
    + by apply (spawned_inv s th e r s' new th').
  - intros j1 j2 th1 th2 tok H3 H4 Ht1 Ht2.
    destruct (Hold _ _ _ H3 Ht1) as (o1 & Ho1 & D1), (Hold _ _ _ H4 Ht2) as (o2 & Ho2 & D2).
    destruct D1 as [D1|[-> D1]], D2 as [D2|[-> D2]]; [by eapply (si_disjoint _ Hs j1 j2)| | |done].
    + exfalso. by apply (ss_new _ _ _ _ _ Hss _ D2), (si_threads _ Hs _ _ Ho1).
    + exfalso. by apply (ss_new _ _ _ _ _ Hss _ D1), (si_threads _ Hs _ _ Ho2).
Qed.

Lemma sys_step_inv s s' : sys_inv s -> sys_step launcher config methods s s' -> sys_inv s'.
Proof. intros Hs Hstep. revert Hs. destruct Hstep; intros Hs; [by apply arrive_inv|by eapply effect_inv]. Qed.

(** Where a server may start: any table that an earlier run could have left, whose tokens
    the generator does not give out again. *)
Definition good_start (t : Table) (d : gset string) : Prop :=
  keyed t /\ unique_tokens t /\ forall k m, t !! k = Some m -> row_ok m /\ token m ∈ d.

Lemma reachable_inv t0 d0 s : good_start t0 d0 -> reachable launcher config methods t0 d0 s -> sys_inv s.
Proof.
  intros (Hk & Hu & Hr) Hreach. induction Hreach as [|s s' _ IH Hstep]; [|by eapply sys_step_inv].
  split; simpl; try done; apply Cache.new_wf.
Qed.

(** C2. In every reachable state, whatever the interleaving of requests, commands and
    tasks: a LAUNCHING application has neither address nor application id, a RUNNING
    one has both, a FINISHED one has no address; a token belongs to one application;
    every channel registered in the cache under a token is one whose dispatcher serves
    that token. *)
Theorem system_invariant t0 d0 s :
  good_start t0 d0 -> reachable launcher config methods t0 d0 s ->
  (forall k m, sys_rows s !! k = Some m ->
     id m = k /\
     (state m = LAUNCHING -> address m = None /\ application_id m = None) /\
     (state m = RUNNING -> is_Some (address m) /\ is_Some (application_id m)) /\
     (state m = FINISHED -> address m = None)) /\
  (forall k k' m m', sys_rows s !! k = Some m -> sys_rows s !! k' = Some m' -> token m = token m' -> k = k') /\
  Cache.wf (sys_cache s).
Proof.
  intros H3 H4. pose proof (reachable_inv _ _ _ H3 H4) as Hs. split_and!; [|apply Hs|apply Hs].
  intros k m Hm. destruct (si_rows _ Hs _ _ Hm) as [Hok _]. unfold row_ok in Hok.
  split; [by apply Hs|]. by destruct (state m); split_and!; intros.
Qed.

(** What a single step of the system can do to the applications: a row keeps its
    owner, name, token and time, never becomes LAUNCHING again, keeps its application id
    once it has one, and disappears only if it was FAILED or FINISHED; a row that appears
    is LAUNCHING with a token no other row has. *)
Theorem system_step_rows t0 d0 s s' :
  good_start t0 d0 -> reachable launcher config methods t0 d0 s ->
  sys_step launcher config methods s s' ->
  (forall k m m', sys_rows s !! k = Some m -> sys_rows s' !! k = Some m' ->
     username m' = username m /\ name m' = name m /\ token m' = token m /\ created_at m' = created_at m /\
     (state m' = LAUNCHING -> m' = m) /\ (is_Some (application_id m) -> is_Some (application_id m'))) /\
  (forall k m, sys_rows s !! k = Some m -> sys_rows s' !! k = None -> state m = FAILED \/ state m = FINISHED) /\
  (forall k m', sys_rows s !! k = None -> sys_rows s' !! k = Some m' ->
     row_ok m' /\ no_token (token m') (sys_rows s)).
Proof.
  intros Hg Hreach Hstep. pose proof (reachable_inv _ _ _ Hg Hreach) as Hs.
  clear Hreach. revert Hs. destruct Hstep as [s p Hp|s i th e k r t c d new Hi Hp He Hnew]; simpl; intros Hs.
  { split_and!; [|congruence..]. intros k m m' Hm Hm'. assert (m' = m) as -> by congruence. done. }
  pose proof (si_threads _ Hs _ _ Hi) as Hth.
  assert (Hgd : guard (th_serves th) (th_seen th) e).
  { pose proof (ti_guard _ _ Hth) as Hg'. rewrite Hp in Hg'. by destruct Hg'. }
  pose proof (effect_shared s th e r t c d [] Hs Hth Hgd He) as Hss.
  pose proof (ss_origin _ _ _ _ _ Hss) as Ho. simpl in Ho. split_and!.
  - intros k' m m' Hm Hm'. destruct (Ho k' m' Hm') as [(m0 & Hm0 & Hev & _)|(_ & Hn & _)]; [|congruence].
    rewrite Hm in Hm0. injection Hm0 as <-. by destruct Hev as (_ & ? & ? & ? & ? & ? & ?).
  - intros k' m Hm Hm'.
    destruct e as [q|o| | | | | | | | | | | | | | | | | | | | | | ]; simpl in He; try (destruct_and!; simplify_eq/=; congruence).
    destruct He as (Hpost & _ & _). by eapply lost_rows.
  - intros k' m' Hn Hm'. destruct (Ho k' m' Hm') as [(m0 & Hm0 & _)|(_ & _ & _ & Hok & Hc & Hin)]; [congruence|].
    split; [done|]. by apply (ti_fresh _ _ Hth).
Qed.

(** Every request put into a dispatcher's queue bears the token its dispatcher
    serves, in every interleaving: the dispatcher's own token check is a second line of
    defence that never has to act. *)
Theorem queued_with_own_token t0 d0 s i th c req tx k :
  good_start t0 d0 -> reachable launcher config methods t0 d0 s ->
  sys_pool s !! i = Some th -> th_prog th = Do (QueueSend c (req, tx)) k ->
  exists token, extract_bearer_token (req_headers req) = Ok token /\
    Cache.workers (sys_cache s) !! c = Some token.
Proof.
  intros Hg Hreach Hi Hp. pose proof (reachable_inv _ _ _ Hg Hreach) as Hs.
  pose proof (si_threads _ Hs _ _ Hi) as Hth. pose proof (ti_guard _ _ Hth) as Hgd. rewrite Hp in Hgd.
  destruct Hgd as [(token & Ht & Hh) _]. exists token. split; [done|].
  by apply (ti_given _ _ Hth), handed_given.
Qed.

End facts.
