(* ===== verification/Wire.v ===== *)
(** * The server with its channels

    [System] leaves open what a channel operation returns.  Here the channels have
    contents: the queues of the dispatchers (an unbounded mpsc channel each), the reply
    channel of each request (oneshot), and what was sent over the upstream connections
    and answered there.  A step of the net is a step of the system whose channel
    operations return what the channels hold. *)

From stdpp Require Import base option list strings gmap sets.
From S2P Require Import Prelude RustStr Entities Database Error Http Cache Env Config Launcher Auth Proxy Routes Server System.

Open Scope rust_scope.

Section wire.
Context `{HttpLib} `{ConfigLib} `{AuthLib} `{TimeLib} {L : Type} `{!Launcher L}.
Variables (launcher : L) (config : ProxyConfig) (methods : list UserAuthMethod).

Record Wires := mkWires {
  wi_queues : gmap Cache.chan (list (Request * nat));
  (* the oneshot channels made, and what was last put into each *)
  wi_oneshots : gset nat;
  wi_replies : gmap nat (result Response Error);
  (* the requests sent upstream by the number of the response, the answers in order *)
  wi_sent : gmap nat (SendRequest * Request);
  wi_answers : list (nat * result Response HyperError)
}.

Definition no_wires : Wires := mkWires ∅ ∅ ∅ ∅ [].

Definition queue (w : Wires) (c : Cache.chan) : list (Request * nat) := default [] (wi_queues w !! c).

Definition with_queue (c : Cache.chan) (l : list (Request * nat)) (w : Wires) : Wires :=
  mkWires (<[c := l]> (wi_queues w)) (wi_oneshots w) (wi_replies w) (wi_sent w) (wi_answers w).
Definition with_oneshot (tx : nat) (w : Wires) : Wires :=
  mkWires (wi_queues w) ({[tx]} ∪ wi_oneshots w) (wi_replies w) (wi_sent w) (wi_answers w).
Definition with_reply (tx : nat) (v : result Response Error) (w : Wires) : Wires :=
  mkWires (wi_queues w) (wi_oneshots w) (<[tx := v]> (wi_replies w)) (wi_sent w) (wi_answers w).
Definition with_sent (n : nat) (sender : SendRequest) (req : Request) (w : Wires) : Wires :=
  mkWires (wi_queues w) (wi_oneshots w) (wi_replies w) (<[n := (sender, req)]> (wi_sent w)) (wi_answers w).
Definition with_answer (n : nat) (r : result Response HyperError) (w : Wires) : Wires :=
  mkWires (wi_queues w) (wi_oneshots w) (wi_replies w) (wi_sent w) (wi_answers w ++ [(n, r)]).

(** What an effect does to the channels and how they answer.  A queue is first in, first
    out, and says that it is closed only when it is empty; sending fails when the receiver is
    gone; a oneshot channel is new, and yields what was put into it or nothing when its
    sender is gone; each request sent upstream has a number of its own. *)
Definition wire_effect (e : Eff) (w : Wires) : resp e -> Wires -> Prop :=
  match e return resp e -> Wires -> Prop with
  | QueueSend c m => fun r w' => w' = match r with Ok _ => with_queue c (queue w c ++ [m]) w | Err _ => w end
  | QueueRecv c => fun r w' =>
      match r with
      | Some m => exists rest, queue w c = m :: rest /\ w' = with_queue c rest w
      | None => queue w c = [] /\ w' = w
      end
  | OneshotNew => fun tx w' => tx ∉ wi_oneshots w /\ w' = with_oneshot tx w
  | OneshotSend tx v => fun r w' => w' = if r : bool then with_reply tx v w else w
  | OneshotRecv tx => fun r w' => w' = w /\ forall v, r = Some v -> wi_replies w !! tx = Some v
  | SenderSend sender req => fun n w' => wi_sent w !! n = None /\ w' = with_sent n sender req w
  | AwaitResponse n => fun r w' => w' = with_answer n r w
  | _ => fun _ w' => w' = w
  end.

Record Net := mkNet { net_sys : Sys; net_wires : Wires }.

Inductive net_step : Net -> Net -> Prop :=
| net_arrive s w p :
    arrival launcher config methods p ->
    net_step (mkNet s w) (mkNet (mkSys (sys_rows s) (sys_cache s) (sys_drawn s) (sys_pool s ++ [mkThread [] None p])) w)
| net_effect s w i th e k r t c d new w' :
    sys_pool s !! i = Some th -> th_prog th = Do e k ->
    effect e s r t c d -> spawned_by e new -> wire_effect e w r w' ->
    net_step (mkNet s w)
      (mkNet (mkSys t c d (<[i := mkThread (th_seen th ++ [Ev e r]) (th_serves th) (k r)]> (sys_pool s) ++ new)) w').

Inductive net_reachable (t0 : Table) (d0 : gset string) : Net -> Prop :=
| net_reach_start : net_reachable t0 d0 (mkNet (sys_start t0 d0) no_wires)
| net_reach_step n n' : net_reachable t0 d0 n -> net_step n n' -> net_reachable t0 d0 n'.

(** The net is the system with less left open. *)
Lemma net_step_sys n n' : net_step n n' -> sys_step launcher config methods (net_sys n) (net_sys n').
Proof. destruct 1; [by apply step_arrive|by eapply step_effect]. Qed.

Lemma net_reachable_sys t0 d0 n : net_reachable t0 d0 n -> reachable launcher config methods t0 d0 (net_sys n).
Proof. induction 1; [apply reach_start|]. eapply reach_step; [done|by apply net_step_sys]. Qed.

End wire.
