(* ===== verification/WireFacts.v ===== *)
(** * Responses reach the request they answer

    An invariant of the net: what is in the queues was put there by the task of the
    request, what is in a reply channel is the upstream's answer to the request the channel
    was made for.  So no user is ever given the response to somebody else's request. *)

From stdpp Require Import base option list strings gmap sets.
From S2P Require Import Prelude RustStr Entities Database Error Http Cache Env Config.
From S2P Require Import Launcher Auth Proxy Routes Server Access RoutesFacts ProxyFacts DispatchFacts System SystemFacts Wire.
Import application.

Open Scope rust_scope.

Section facts.
Context `{HttpLib} `{ConfigLib} `{AuthLib} `{TimeLib} {L : Type} `{!Launcher L} `{!LauncherLaws L}.
Variables (launcher : L) (config : ProxyConfig) (methods : list UserAuthMethod).

(** ** What every thread guarantees *)

Definition made_by (x : ev) : list nat :=
  match ev_eff x as e return resp e -> list nat with
  | OneshotNew => fun tx => [tx]
  | _ => fun _ => []
  end (ev_resp x).

Definition sends_by (x : ev) : list (Cache.chan * (Request * nat)) :=
  match ev_eff x with QueueSend c m => [(c, m)] | _ => [] end.

(** The reply channels a thread has made, the requests it has put into queues. *)
Definition made (h : list ev) : list nat := h ≫= made_by.
Definition sends (h : list ev) : list (Cache.chan * (Request * nat)) := h ≫= sends_by.

Lemma made_snoc h x : made (h ++ [x]) = made h ++ made_by x.
Proof. unfold made. rewrite bind_app. simpl. by rewrite app_nil_r. Qed.

Lemma sends_snoc h x : sends (h ++ [x]) = sends h ++ sends_by x.
Proof. unfold sends. rewrite bind_app. simpl. by rewrite app_nil_r. Qed.

Lemma elem_of_sends c m r h : Ev (QueueSend c m) r ∈ h -> (c, m) ∈ sends h.
Proof. intros Hin. apply list_elem_of_bind. eexists. split; [|exact Hin]. simpl. set_solver. Qed.

(** A request is queued once, with a reply channel of its own; a response is only put into
    the channel the task was given, and only after it has come; a dispatcher leaves the
    response to a request to be put into the channel that came with the request. *)
Definition wire_guard (serves : option Cache.chan) (job : option (nat * nat)) (h : list ev) (e : Eff) : Prop :=
  match e with
  | QueueSend c (req, tx) => tx ∈ made h /\ sends h = []
  | OneshotSend tx (Ok res) => exists n, job = Some (n, tx) /\ Ev (AwaitResponse n) (Ok res) ∈ h
  | Spawn (DeliverResponse n tx) => exists rx req token sender addr uri,
      serves = Some rx /\ received rx h req tx /\ extract_bearer_token (req_headers req) = Ok token /\
      connected token h sender addr /\ Ev (SenderSend sender (with_uri uri req)) n ∈ h
  | _ => True
  end.

(** Effects on channels that need no justification. *)
Definition quiet (e : Eff) : Prop :=
  match e with
  | QueueSend _ _ | OneshotSend _ _ | Spawn (DeliverResponse _ _) => False
  | _ => True
  end.

Lemma quiet_guard serves job h e : quiet e -> wire_guard serves job h e.
Proof. by destruct e as [| | | | |[]| | | | | | | |c [req tx]| | | |tx [res|er]| | | | | | ]. Qed.

Lemma quiet_sends e r : quiet e -> sends_by (Ev e r) = [].
Proof. by destruct e. Qed.

Lemma quiet_wp {A} serves job (p : prog A) h :
  safe quiet p -> wp (wire_guard serves job) (fun _ h' => sends h' = sends h) h p.
Proof.
  intros Hp. apply (safe_wp _ _ _ h) in Hp. revert h Hp.
  induction p as [a|e k IH]; intros h Hp; [done|]. destruct Hp as [He Hk].
  split; [by apply quiet_guard|]. intros r Hr. eapply wp_post; [by apply IH, Hk|].
  intros a h' ->. by rewrite sends_snoc, quiet_sends, app_nil_r.
Qed.

Notation wired p := (wp (wire_guard None None) (fun _ _ => True) [] p).

Lemma quiet_wired {A} (p : prog A) : safe quiet p -> wired p.
Proof. intros Hp. eapply wp_post; [by apply quiet_wp|done]. Qed.

Lemma plain_quiet e : plain e -> quiet e.
Proof. by destruct e as [| | | | |[]| | | | | | | | | | | | | | | | | | ]. Qed.

Lemma scoped_quiet a h e : scoped a h e -> quiet e.
Proof. by destruct e as [| | | | |[]| | | | | | | | | | | | | | | | | | ]. Qed.

Lemma serve_wired h headers : wired (serve launcher config methods h headers).
Proof.
  pose proof (serve_wp launcher config methods h headers) as Hs.
  destruct (authority methods h headers) as [a|st]; [|by rewrite Hs].
  revert Hs. apply wp_mono; [|done]. intros h' e He. by eapply quiet_guard, scoped_quiet.
Qed.

Lemma sender_for_quiet token : safe quiet (sender_for token).
Proof.
  split; [done|]. intros [c|] _; [done|]. split; [done|]. intros [[m|]|e] _; [|done..].
  split; [done|]. intros [c []] _; [by split|done].
Qed.

Lemma dispatch_wired req : wired (dispatch_request req).
Proof.
  unfold dispatch_request. destruct (extract_bearer_token (req_headers req)) as [token|e]; [|done].
  apply wp_try. eapply wp_post; [apply quiet_wp, sender_for_quiet|]. intros [c|e] h Hh; [|done].
  apply wp_do; [done|]. intros tx _. apply wp_do.
  { simpl. rewrite made_snoc, sends_snoc, Hh. simpl. split; [set_solver|done]. }
  intros [u|u] _; cbv beta iota; [|by apply wp_do]. apply wp_do; [done|]. by intros [r|] _.
Qed.

Lemma upstream_wired messages fuel rx token :
  wp (wire_guard (Some rx) None) (fun _ _ => True) [] (upstream_connection messages fuel rx token None).
Proof.
  eapply wp_mono; [| |apply (upstream_connection_wp messages fuel rx token None []); done]; [|done].
  intros h e. destruct e as [| | | | |[]| | | | | | | |c [req tx]| | | |tx [res|er]| | | | | | ]; simpl; try done.
  - intros (req & sender & addr & uri & Hd). by exists rx, req, token, sender, addr, uri.
  - by intros [? _].
Qed.

Lemma arrival_wired p : arrival launcher config methods p -> wired p.
Proof.
  assert (Hd : forall A (p : prog A), wired p -> wired (discard p)).
  { intros A q Hq. apply wp_bind. by eapply wp_post. }
  intros [h headers|req|secs|]; apply Hd.
  - apply serve_wired.
  - apply dispatch_wired.
  - apply quiet_wired. eapply safe_mono; [apply plain_quiet|apply prune_plain].
  - apply quiet_wired. eapply safe_mono; [apply plain_quiet|apply check_plain].
Qed.

(** What a task was spawned to deliver. *)
Definition job_of (task : Task) : option (nat * nat) :=
  match task with DeliverResponse n tx => Some (n, tx) | _ => None end.

Lemma task_wired task serves p :
  task_thread task serves p -> wp (wire_guard serves (job_of task)) (fun _ _ => True) [] p.
Proof.
  intros [child k|child t|rx token m f|io|secs|n tx]; try done; [apply upstream_wired|].
  split; [done|]. intros [res|e] _; (split; [|done]); simpl; [|done]. exists n. split; [done|set_solver].
Qed.

(** ** What the threads know about each other *)

(** Some thread has put the request into the queue, with this reply channel. *)
Definition asked (s : Sys) (c : Cache.chan) (req : Request) (tx : nat) : Prop :=
  exists i th, sys_pool s !! i = Some th /\ Ev (QueueSend c (req, tx)) (Ok tt) ∈ th_seen th.

(** The dispatcher of the queue has taken it and sent it upstream as number [n], over a
    connection to where the application with its token was running. *)
Definition linked (s : Sys) (w : Wires) (n tx : nat) (c : Cache.chan) (req : Request) : Prop :=
  exists i th token sender addr uri, sys_pool s !! i = Some th /\ th_serves th = Some c /\
    received c (th_seen th) req tx /\ extract_bearer_token (req_headers req) = Ok token /\
    connected token (th_seen th) sender addr /\ wi_sent w !! n = Some (sender, with_uri uri req).

Definition answered (s : Sys) (w : Wires) (tx : nat) (res : Response) : Prop :=
  exists n c req, linked s w n tx c req /\ (n, Ok res) ∈ wi_answers w.

Definition known (s : Sys) (w : Wires) (x : ev) : Prop :=
  match ev_eff x as e return resp e -> Prop with
  | OneshotNew => fun tx => tx ∈ wi_oneshots w
  | QueueRecv c => fun r => match r with Some (req, tx) => asked s c req tx | None => True end
  | OneshotRecv tx => fun r => match r with Some (Ok res) => answered s w tx res | _ => True end
  | SenderSend sender req => fun n => wi_sent w !! n = Some (sender, req)
  | AwaitResponse n => fun r => (n, r) ∈ wi_answers w
  | _ => fun _ => True
  end (ev_resp x).

(** Threads only learn, and what was sent and answered stays so. *)
Record grows (s s' : Sys) (w w' : Wires) : Prop := {
  gr_pool i th : sys_pool s !! i = Some th ->
    exists th', sys_pool s' !! i = Some th' /\ th_serves th' = th_serves th /\ th_seen th `prefix_of` th_seen th';
  gr_oneshots : wi_oneshots w ⊆ wi_oneshots w';
  gr_sent : wi_sent w ⊆ wi_sent w';
  gr_answers x : x ∈ wi_answers w -> x ∈ wi_answers w'
}.

Lemma asked_mono s s' w w' c req tx : grows s s' w w' -> asked s c req tx -> asked s' c req tx.
Proof.
  intros [Hp _ _ _] (i & th & Hi & Hin). destruct (Hp i th Hi) as (th' & Hi' & _ & [h Hh]).
  exists i, th'. split; [done|]. rewrite Hh. set_solver.
Qed.

Lemma linked_mono s s' w w' n tx c req : grows s s' w w' -> linked s w n tx c req -> linked s' w' n tx c req.
Proof.
  intros [Hp _ Hs _] (i & th & token & sender & addr & uri & Hi & Hserve & Hr & Ht & Hc & Hn).
  destruct (Hp i th Hi) as (th' & Hi' & Hserve' & Hh). exists i, th', token, sender, addr, uri.
  split_and!; [done|congruence|by eapply received_prefix|done|by eapply connected_prefix|].
  by eapply lookup_weaken.
Qed.

Lemma answered_mono s s' w w' tx res : grows s s' w w' -> answered s w tx res -> answered s' w' tx res.
Proof.
  intros Hg (n & c & req & Hl & Hn). exists n, c, req. split; [by eapply linked_mono|by eapply gr_answers].
Qed.

Lemma known_mono s s' w w' x : grows s s' w w' -> known s w x -> known s' w' x.
Proof.
  intros Hg. destruct x as [e r]. destruct e; unfold known; simpl; try done.
  - destruct r as [[req tx]|]; [|done]. by apply asked_mono with w w'.
  - apply (gr_oneshots _ _ _ _ Hg).
  - destruct r as [[res|e]|]; try done. by apply answered_mono.
  - intros Hn. eapply lookup_weaken; [done|]. apply (gr_sent _ _ _ _ Hg).
  - apply (gr_answers _ _ _ _ Hg).
Qed.

Lemma made_known s w h tx : Forall (known s w) h -> tx ∈ made h -> tx ∈ wi_oneshots w.
Proof.
  rewrite Forall_forall. intros Hk [[e r] [Htx Hx]]%list_elem_of_bind. specialize (Hk _ Hx).
  destruct e; unfold known in Hk; simpl in Hk, Htx; set_solver.
Qed.

(** ** The invariant *)

Record wired_thread (s : Sys) (w : Wires) (th : Thread) : Prop := {
  wt_guard : exists job, wp (wire_guard (th_serves th) job) (fun _ _ => True) (th_seen th) (th_prog th) /\
    forall n tx, job = Some (n, tx) -> exists c req, linked s w n tx c req;
  wt_known : Forall (known s w) (th_seen th);
  wt_made c req tx : (c, (req, tx)) ∈ sends (th_seen th) -> tx ∈ made (th_seen th);
  wt_once : (length (sends (th_seen th)) <= 1)%nat
}.

Record net_inv (n : Net) : Prop := {
  ni_threads i th : sys_pool (net_sys n) !! i = Some th -> wired_thread (net_sys n) (net_wires n) th;
  ni_queue c req tx : (req, tx) ∈ queue (net_wires n) c -> asked (net_sys n) c req tx;
  ni_replies tx res : wi_replies (net_wires n) !! tx = Some (Ok res) -> answered (net_sys n) (net_wires n) tx res;
  ni_made i j thi thj tx :
    sys_pool (net_sys n) !! i = Some thi -> sys_pool (net_sys n) !! j = Some thj ->
    tx ∈ made (th_seen thi) -> tx ∈ made (th_seen thj) -> i = j
}.

Lemma wired_thread_mono s s' w w' th : grows s s' w w' -> wired_thread s w th -> wired_thread s' w' th.
Proof.
  intros Hg [(job & Hp & Hj) Hk Hm Ho]. split; [|by eapply Forall_impl; [exact Hk|intros x; apply known_mono]|done..].
  exists job. split; [done|]. intros n tx Hn. destruct (Hj n tx Hn) as (c & req & Hl). exists c, req. by eapply linked_mono.
Qed.

(** The start of a thread. *)
Lemma new_wired_thread s w serves job p :
  wp (wire_guard serves job) (fun _ _ => True) [] p ->
  (forall n tx, job = Some (n, tx) -> exists c req, linked s w n tx c req) ->
  wired_thread s w (mkThread [] serves p).
Proof. intros Hp Hj. split; simpl; [by exists job|by constructor|intros; set_solver|lia]. Qed.

(** ** One effect of one thread *)

Section step.
Variables (s : Sys) (w : Wires) (i : nat) (th : Thread) (e : Eff) (k : resp e -> prog unit) (r : resp e).
Variables (t : Table) (c : Cache.State) (d : gset string) (new : list Thread) (w' : Wires).
Hypotheses (Hinv : net_inv (mkNet s w)) (Hi : sys_pool s !! i = Some th) (Hp : th_prog th = Do e k).
Hypotheses (Hnew : spawned_by e new) (Hw : wire_effect e w r w') (Hl : lawful e r).

Variables (acting : Thread) (s' : Sys).
Hypotheses (Hacting : acting = mkThread (th_seen th ++ [Ev e r]) (th_serves th) (k r)).
Hypotheses (Hs' : s' = mkSys t c d (<[i := acting]> (sys_pool s) ++ new)).

Lemma acting_lookup : sys_pool s' !! i = Some acting.
Proof.
  rewrite Hs'. simpl. assert (i < length (sys_pool s))%nat by by eapply lookup_lt_Some.
  rewrite lookup_app_l by by rewrite length_insert. by apply list_lookup_insert_eq.
Qed.

Lemma step_grows : grows s s' w w'.
Proof.
  split.
  - intros j th0 Hj. destruct (decide (j = i)) as [->|Hne].
    + exists acting. split; [apply acting_lookup|]. assert (th0 = th) as -> by congruence.
      rewrite Hacting. split; [done|]. by apply prefix_app_r.
    + exists th0. split; [|done]. rewrite Hs'. simpl. apply lookup_app_l_Some. by rewrite list_lookup_insert_ne.
  - destruct e; simpl in Hw; destruct_and?; subst; try done; [by destruct r|by case_match; destruct_and?; naive_solver|simpl; set_solver|by destruct r].
  - destruct e; simpl in Hw; destruct_and?; subst; try done; [by destruct r|by case_match; destruct_and?; naive_solver|by destruct r|].
    simpl. by apply insert_subseteq.
  - intros x Hx. destruct e; simpl in Hw; destruct_and?; subst; try done;
      [by destruct r|by case_match; destruct_and?; naive_solver|by destruct r|simpl; set_solver].
Qed.

Lemma step_thread : wired_thread s w th.
Proof. exact (ni_threads _ Hinv i th Hi). Qed.

Lemma step_guard : exists job, wire_guard (th_serves th) job (th_seen th) e /\
  wp (wire_guard (th_serves th) job) (fun _ _ => True) (th_seen acting) (k r) /\
  forall n tx, job = Some (n, tx) -> exists c req, linked s w n tx c req.
Proof.
  destruct (wt_guard _ _ _ step_thread) as (job & Hg & Hj). rewrite Hp in Hg. destruct Hg as [Hg Hk].
  exists job. rewrite Hacting. split_and!; [done|by apply Hk|done].
Qed.

Lemma seen_known x : x ∈ th_seen th -> known s w x.
Proof. pose proof (wt_known _ _ _ step_thread) as Hk. rewrite Forall_forall in Hk. apply Hk. Qed.

Lemma step_known : known s' w' (Ev e r).
Proof.
  pose proof step_grows as Hgrow. destruct e; unfold known; simpl in *; try done.
  - destruct r as [[req tx]|]; [|done]. destruct Hw as (rest & Hq & _).
    apply (asked_mono _ _ _ _ _ _ _ Hgrow), (ni_queue _ Hinv). simpl. rewrite Hq. left.
  - destruct Hw as [_ ->]. simpl. set_solver.
  - destruct r as [[res|er]|]; try done. destruct Hw as [_ Hv].
    apply (answered_mono _ _ _ _ _ _ Hgrow), (ni_replies _ Hinv). by apply Hv.
  - destruct Hw as [_ ->]. simpl. apply lookup_insert_eq.
  - subst w'. simpl. set_solver.
Qed.

Lemma step_acting : wired_thread s' w' acting.
Proof.
  destruct step_guard as (job & Hg & Hk & Hj). pose proof step_thread as [_ Hkn Hm Ho].
  pose proof step_grows as Hgrow. pose proof step_known as Hkx. rewrite Hacting in Hk |- *. split; simpl.
  - exists job. split; [done|]. intros n tx Hn. destruct (Hj n tx Hn) as (c0 & req & Hlk).
    exists c0, req. by eapply linked_mono.
  - apply Forall_app. split; [|by repeat constructor].
    eapply Forall_impl; [exact Hkn|]. intros x. by apply known_mono.
  - intros c0 req tx. rewrite sends_snoc, made_snoc, !elem_of_app. intros [Hin|Hin]; [by left; eapply Hm|].
    destruct e; simpl in Hin; try by apply elem_of_nil in Hin.
    apply list_elem_of_singleton in Hin as [= <- <-]. left. apply Hg.
  - rewrite sends_snoc. destruct e; simpl; rewrite ?app_nil_r; try done.
    destruct m as [req tx]. destruct Hg as [_ ->]. simpl. lia.
Qed.

Lemma step_new x : x ∈ new -> wired_thread s' w' x /\ th_seen x = [].
Proof.
  intros Hx. destruct step_guard as (job & Hg & _ & _).
  assert (Hsp : exists task serves p, e = Spawn task /\ task_thread task serves p /\ x = mkThread [] serves p).
  { destruct e; simpl in Hnew; try (subst new; by apply elem_of_nil in Hx).
    destruct Hnew as (serves & p & Ht & ->). apply list_elem_of_singleton in Hx as ->. by eexists _, _, _. }
  destruct Hsp as (task & serves & p & He & Ht & ->). split; [|done].
  eapply new_wired_thread; [by eapply task_wired|]. intros n tx Hn. destruct task; try done. injection Hn as -> ->.
  rewrite He in Hg. destruct Hg as (rx & req & token & sender & addr & uri & Hs & Hr & Htok & Hc & Hsent).
  exists rx, req. apply (linked_mono _ _ _ _ _ _ _ _ step_grows).
  exists i, th, token, sender, addr, uri. split_and!; try done. exact (seen_known _ Hsent).
Qed.

Lemma step_queue c0 req tx : (req, tx) ∈ queue w' c0 -> asked s' c0 req tx.
Proof.
  assert (Hold : (req, tx) ∈ queue w c0 -> asked s' c0 req tx).
  { intros Hin. apply (asked_mono _ _ _ _ _ _ _ step_grows). by apply (ni_queue _ Hinv). }
  assert (Hins : forall c1 l, (req, tx) ∈ queue (with_queue c1 l w) c0 -> (c0 = c1 /\ (req, tx) ∈ l) \/ (req, tx) ∈ queue w c0).
  { intros c1 l. unfold queue, with_queue. simpl. destruct (decide (c1 = c0)) as [->|Hne].
    - rewrite lookup_insert_eq. simpl. auto.
    - rewrite lookup_insert_ne by done. auto. }
  intros Hin. pose proof acting_lookup as Hact. rewrite Hacting in Hact. destruct e as [| | | | | | | | | | | | |c1 m|c1| | |tx1 v|tx1| | | | |n]; simpl in Hw; destruct_and?; subst; auto.
  - destruct r as [[]|]; [|auto]. apply Hins in Hin as [[-> Hin]|Hin]; [|auto].
    apply elem_of_app in Hin as [Hin|Hin]; [auto|]. apply list_elem_of_singleton in Hin as <-.
    eexists i, _. split; [exact Hact|]. simpl. set_solver.
  - destruct r as [m|]; [|destruct Hw; subst; auto]. destruct Hw as (rest & Hq & ->).
    apply Hins in Hin as [[-> Hin]|Hin]; [|auto]. apply Hold. rewrite Hq. by right.
  - destruct r; auto.
Qed.

Lemma step_replies tx res : wi_replies w' !! tx = Some (Ok res) -> answered s' w' tx res.
Proof.
  assert (Hold : wi_replies w !! tx = Some (Ok res) -> answered s' w' tx res).
  { intros Hr. apply (answered_mono _ _ _ _ _ _ step_grows). by apply (ni_replies _ Hinv). }
  assert (Hput : forall v, e = OneshotSend tx v -> v = Ok res -> answered s' w' tx res).
  { intros v He ->. destruct step_guard as (job & Hg & _ & Hj). rewrite He in Hg.
    destruct Hg as (n & -> & Hin). destruct (Hj n tx eq_refl) as (c0 & req & Hlk).
    exists n, c0, req. split; [by eapply linked_mono; [apply step_grows|]|].
    apply (gr_answers _ _ _ _ step_grows). exact (seen_known _ Hin). }
  intros Hin. destruct e as [| | | | | | | | | | | | |c1 m|c1| | |tx1 v|tx1| | | | |n]; simpl in Hw; destruct_and?; try (subst w'; by auto).
  - subst w'. destruct r; auto.
  - destruct r; [destruct Hw as (? & _ & ->)|destruct Hw as [_ ->]]; auto.
  - subst w'. destruct r; [|auto]. simpl in Hin.
    apply lookup_insert_Some in Hin as [[-> Hv]|[_ Hin]]; [|auto]. by apply (Hput v).
Qed.

(** A channel made by this effect is new to every thread. *)
Lemma step_new_channel tx j th0 : tx ∈ made_by (Ev e r) -> sys_pool s !! j = Some th0 -> tx ∉ made (th_seen th0).
Proof.
  intros Htx Hj Hin. assert (Hin' : tx ∈ wi_oneshots w).
  { eapply made_known; [|exact Hin]. exact (wt_known _ _ _ (ni_threads _ Hinv j th0 Hj)). }
  destruct e; simpl in Htx; try by apply elem_of_nil in Htx.
  apply list_elem_of_singleton in Htx as ->. by destruct Hw.
Qed.

Lemma step_inv : net_inv (mkNet s' w').
Proof.
  assert (Hsome : is_Some (sys_pool s !! i)) by by eexists.
  assert (Hcases : forall j x, sys_pool s' !! j = Some x ->
    (j = i /\ x = acting) \/ (j <> i /\ sys_pool s !! j = Some x) \/ (x ∈ new /\ (length (sys_pool s) <= j)%nat)).
  { intros j x. rewrite Hs'. by apply pool_cases. }
  assert (Hold : forall j x tx, sys_pool s' !! j = Some x -> tx ∈ made (th_seen x) ->
    exists th0, sys_pool s !! j = Some th0 /\ (tx ∈ made (th_seen th0) \/ (j = i /\ tx ∈ made_by (Ev e r)))).
  { intros j x tx Hj Htx. destruct (Hcases j x Hj) as [[-> ->]|[[_ Hj']|[Hx _]]].
    - exists th. split; [done|]. rewrite Hacting in Htx. simpl in Htx. rewrite made_snoc, elem_of_app in Htx. naive_solver.
    - exists x. split; [done|by left].
    - destruct (step_new x Hx) as [_ He]. rewrite He in Htx. by apply elem_of_nil in Htx. }
  split; simpl.
  - intros j x Hj. destruct (Hcases j x Hj) as [[-> ->]|[[_ Hj']|[Hx _]]].
    + apply step_acting.
    + eapply wired_thread_mono; [apply step_grows|]. exact (ni_threads _ Hinv j x Hj').
    + by apply step_new.
  - apply step_queue.
  - apply step_replies.
  - intros j1 j2 x1 x2 tx Hj1 Hj2 Ht1 Ht2.
    destruct (Hold _ _ _ Hj1 Ht1) as (o1 & Ho1 & D1), (Hold _ _ _ Hj2 Ht2) as (o2 & Ho2 & D2).
    destruct D1 as [D1|[-> D1]], D2 as [D2|[-> D2]]; [by eapply (ni_made _ Hinv j1 j2)| | |done].
    + by destruct (step_new_channel tx j1 o1).
    + by destruct (step_new_channel tx j2 o2).
Qed.

End step.

Lemma arrive_net_inv s w p :
  net_inv (mkNet s w) -> arrival launcher config methods p ->
  net_inv (mkNet (mkSys (sys_rows s) (sys_cache s) (sys_drawn s) (sys_pool s ++ [mkThread [] None p])) w).
Proof.
  intros Hinv Hp. set (s' := mkSys _ _ _ _).
  assert (Hg : grows s s' w w).
  { split; try done. intros i th Hi. exists th. split_and!; [by apply lookup_app_l_Some|done..]. }
  assert (Hcases : forall i th, sys_pool s' !! i = Some th -> sys_pool s !! i = Some th \/ th = mkThread [] None p).
  { intros i th [Hi|[_ Hi]]%lookup_app_Some; [by left|right].
    by apply list_elem_of_lookup_2, list_elem_of_singleton in Hi. }
  split; simpl.
  - intros i th [Hi| ->]%Hcases; [by eapply wired_thread_mono, (ni_threads _ Hinv i)|].
    by apply (new_wired_thread _ _ None None); [apply arrival_wired|].
  - intros c req tx Hin. eapply asked_mono; [exact Hg|]. by apply (ni_queue _ Hinv).
  - intros tx res Hr. eapply answered_mono; [exact Hg|]. by apply (ni_replies _ Hinv).
  - intros i j thi thj tx [Hi| ->]%Hcases [Hj| ->]%Hcases Hti Htj; try by apply elem_of_nil in Hti || apply elem_of_nil in Htj.
    by eapply (ni_made _ Hinv i j).
Qed.

Lemma net_reachable_inv t0 d0 n :
  good_start t0 d0 -> net_reachable launcher config methods t0 d0 n -> net_inv n.
Proof.
  intros Hg Hr. induction Hr as [|n n' Hr IH Hstep].
  { split; simpl; try done. intros c req tx Hin. by apply elem_of_nil in Hin. }
  pose proof (reachable_inv _ _ _ _ _ _ Hg (net_reachable_sys _ _ _ _ _ _ Hr)) as Hs.
  destruct Hstep as [s w p Hp|s w i th e k r t c d new w' Hi Hp He Hnew Hw]; [by apply arrive_net_inv|].
  eapply step_inv; try done.
  destruct e; try done. simpl. destruct He as [He _]. eapply db_post_lawful; [|exact He]. apply Hs.
Qed.

Lemma sends_once h x y : (length (sends h) <= 1)%nat -> x ∈ sends h -> y ∈ sends h -> x = y.
Proof.
  destruct (sends h) as [|a [|b l]]; simpl; intros Hl Hx Hy; [by apply elem_of_nil in Hx| |lia].
  apply list_elem_of_singleton in Hx, Hy. congruence.
Qed.

(** C3. Responses are never mixed up.  In every interleaving, with the contents of the
    channels modelled: when the task of a request that queued it receives a response,
    the dispatcher of the queue, which serves the token the request bears, had sent
    this very request, unchanged but for its address, over a connection to where
    the application with that token was running, and the response is what was answered
    there to it. *)
Theorem responses_not_mixed t0 d0 s w i th c req tx res :
  good_start t0 d0 -> net_reachable launcher config methods t0 d0 (mkNet s w) ->
  sys_pool s !! i = Some th ->
  Ev (QueueSend c (req, tx)) (Ok tt) ∈ th_seen th ->
  Ev (OneshotRecv tx) (Some (Ok res)) ∈ th_seen th ->
  exists j dispatcher token sender addr uri n,
    sys_pool s !! j = Some dispatcher /\ th_serves dispatcher = Some c /\
    extract_bearer_token (req_headers req) = Ok token /\
    connected token (th_seen dispatcher) sender addr /\
    wi_sent w !! n = Some (sender, with_uri uri req) /\
    (n, Ok res) ∈ wi_answers w.
Proof.
  intros Hg Hr Hi Hsend Hrecv. pose proof (net_reachable_inv _ _ _ Hg Hr) as Hinv.
  pose proof (ni_threads _ Hinv i th Hi) as Hth.
  pose proof (wt_known _ _ _ Hth) as Hk. rewrite Forall_forall in Hk. pose proof (Hk _ Hrecv) as Ha.
  destruct Ha as (n & c' & req' & (j & thj & token & sender & addr & uri & Hj & Hserve & Hrec & Ht & Hc & Hs) & Hn).
  assert (c' = c /\ req' = req) as [-> ->].
  { pose proof (wt_known _ _ _ (ni_threads _ Hinv j thj Hj)) as Hkj. rewrite Forall_forall in Hkj.
    destruct (Hkj _ Hrec) as (i' & th' & Hi' & Hin').
    pose proof (elem_of_sends _ _ _ _ Hin') as He'. pose proof (elem_of_sends _ _ _ _ Hsend) as He.
    pose proof (ni_threads _ Hinv i' th' Hi') as Hth'.
    assert (i' = i) as ->.
    { eapply (ni_made _ Hinv i' i); [exact Hi'|exact Hi|by eapply (wt_made _ _ _ Hth')|by eapply (wt_made _ _ _ Hth)]. }
    assert (th' = th) as -> by (simpl in Hi'; congruence).
    pose proof (sends_once _ _ _ (wt_once _ _ _ Hth) He' He) as [= -> ->]. done. }
  by exists j, thj, token, sender, addr, uri, n.
Qed.

End facts.
