(* ===== verification/Runtime.v ===== *)
(** * Executing the net

    A scheduler for the net that runs: threads are polled one at a time until they have
    to wait, against the in-memory database, the channels as they are, and an outside
    given by the caller.  Every execution is a run of the net ([run_schedule_steps]). *)

From stdpp Require Import base option list strings gmap sets relations.
From S2P Require Import Prelude RustStr Entities Database Error Http Cache Env Config Launcher Auth Proxy Routes Server System Wire.

Open Scope rust_scope.

Section runtime.
Context `{HttpLib}.

Record Runtime := mkRuntime {
  rt_db : MemDb;
  rt_cache : Cache.State;
  rt_drawn : gset string;
  rt_pool : list Thread;
  rt_wires : Wires
}.

Definition net_of (rt : Runtime) : Net :=
  mkNet (mkSys (table (rt_db rt)) (rt_cache rt) (rt_drawn rt) (rt_pool rt)) (rt_wires rt).

Definition with_wires (w : Wires) (rt : Runtime) : Runtime :=
  mkRuntime (rt_db rt) (rt_cache rt) (rt_drawn rt) (rt_pool rt) w.
Definition with_pool (pool : list Thread) (rt : Runtime) : Runtime :=
  mkRuntime (rt_db rt) (rt_cache rt) (rt_drawn rt) pool (rt_wires rt).

(** What the outside answers, [None] while it has not. *)
Variable outside : forall e : Eff, Wires -> option (resp e).
(** How many messages a dispatcher is run for, and how often it polls. *)
Variables (messages polls : nat).

(** One effect; [None] when it has to wait. *)
Definition poll (e : Eff) (rt : Runtime) : option (resp e * Runtime) :=
  let w := rt_wires rt in
  match e return (Wires -> option (resp e)) -> option (resp e * Runtime) with
  | Db s => fun _ =>
      let '(r, db) := mem_exec s (rt_db rt) in
      Some (r, mkRuntime db (rt_cache rt) (rt_drawn rt) (rt_pool rt) w)
  | CacheOp o => fun _ =>
      let '(r, c) := Cache.step o (rt_cache rt) in
      Some (r, mkRuntime (rt_db rt) c (rt_drawn rt) (rt_pool rt) w)
  | NewV4 => fun out =>
      r ← out w;
      if decide (r ∈ rt_drawn rt) then None
      else Some (r, mkRuntime (rt_db rt) (rt_cache rt) ({[r]} ∪ rt_drawn rt) (rt_pool rt) w)
  | QueueSend c m => fun _ =>
      Some (if decide (c ∈ Cache.closed (rt_cache rt)) then (Err tt, rt)
            else (Ok tt, with_wires (with_queue c (queue w c ++ [m]) w) rt))
  | QueueRecv c => fun _ =>
      match queue w c with
      | [] => None
      | m :: rest => Some (Some m, with_wires (with_queue c rest w) rt)
      end
  | OneshotNew => fun _ =>
      let tx := size (wi_oneshots w) in
      if decide (tx ∈ wi_oneshots w) then None else Some (tx, with_wires (with_oneshot tx w) rt)
  | OneshotSend tx v => fun _ => Some (true, with_wires (with_reply tx v w) rt)
  | OneshotRecv tx => fun _ => v ← wi_replies w !! tx; Some (Some v, rt)
  | SenderSend sender req => fun _ =>
      let n := size (wi_sent w) in
      match wi_sent w !! n with
      | Some _ => None
      | None => Some (n, with_wires (with_sent n sender req w) rt)
      end
  | AwaitResponse n => fun out => r ← out w; Some (r, with_wires (with_answer n r w) rt)
  | _ => fun out => r ← out w; Some (r, rt)
  end (outside e).

(** The thread of a spawned task. *)
Definition task_start (t : Task) : Thread :=
  match t with
  | LaunchWatch child app_id => mkThread [] None (launch_watch child app_id)
  | UpstreamConnection rx token => mkThread [] (Some rx) (upstream_connection messages polls rx token None)
  | DeliverResponse response tx => mkThread [] None (deliver_response response tx)
  | TrackLaunch _ _ | ConnectionDriver _ | SleepTask _ => mkThread [] None (Ret tt)
  end.

Definition spawns (e : Eff) : list Thread := match e with Spawn t => [task_start t] | _ => [] end.

Definition advance (i : nat) (rt : Runtime) : option Runtime :=
  th ← rt_pool rt !! i;
  match th_prog th with
  | Ret _ => None
  | Do e k =>
      '(r, rt) ← poll e rt;
      Some (with_pool (<[i := mkThread (th_seen th ++ [Ev e r]) (th_serves th) (k r)]> (rt_pool rt) ++ spawns e) rt)
  end.

(** A thread until it waits or has returned. *)
Fixpoint run_thread (fuel i : nat) (rt : Runtime) : Runtime :=
  match fuel with
  | O => rt
  | S fuel => match advance i rt with Some rt => run_thread fuel i rt | None => rt end
  end.

Definition run_schedule (fuel : nat) (threads : list nat) (rt : Runtime) : Runtime :=
  foldl (fun rt i => run_thread fuel i rt) rt threads.

Definition join (p : prog unit) (rt : Runtime) : Runtime :=
  with_pool (rt_pool rt ++ [mkThread [] None p]) rt.

(** ** Executions are runs of the net *)

Lemma poll_sound e rt r rt' : poll e rt = Some (r, rt') ->
  effect e (net_sys (net_of rt)) r (table (rt_db rt')) (rt_cache rt') (rt_drawn rt') /\
  wire_effect e (rt_wires rt) r (rt_wires rt') /\ rt_pool rt' = rt_pool rt.
Proof.
  destruct e; unfold poll; cbn beta; intros Hp;
    try (apply bind_Some in Hp as (r0 & Hr0 & Hp); by simplify_eq/=).
  - pose proof (mem_exec_post s (rt_db rt)) as Hm. destruct (mem_exec s (rt_db rt)). by simplify_eq/=.
  - destruct (Cache.step o (rt_cache rt)) as [r0 c0] eqn:E. by simplify_eq/=.
  - apply bind_Some in Hp as (r0 & Hr0 & Hp). case_decide; by simplify_eq/=.
  - case_decide; by simplify_eq/=.
  - destruct (queue (rt_wires rt) c) as [|m rest] eqn:E; simplify_eq/=. split_and!; try done. by exists rest.
  - case_decide; by simplify_eq/=.
  - by simplify_eq/=.
  - apply bind_Some in Hp as (v & Hv & Hp). simplify_eq/=. split_and!; try done. congruence.
  - destruct (wi_sent (rt_wires rt) !! size (wi_sent (rt_wires rt))) eqn:E; by simplify_eq/=.
  - apply bind_Some in Hp as (r1 & Hr1 & Hp). by simplify_eq/=.
Qed.

Lemma task_start_thread t : exists serves p, task_thread t serves p /\ task_start t = mkThread [] serves p.
Proof. destruct t; eexists _, _; (split; [constructor|done]). Qed.

Lemma spawns_spawned e : spawned_by e (spawns e).
Proof. destruct e; try done. destruct (task_start_thread t) as (serves & p & Ht & Hs). exists serves, p. simpl. by rewrite Hs. Qed.

Context `{ConfigLib} `{AuthLib} `{TimeLib} {L : Type} `{!Launcher L}.
Variables (launcher : L) (config : ProxyConfig) (methods : list UserAuthMethod).
Notation step := (net_step launcher config methods).

Lemma advance_step i rt rt' : advance i rt = Some rt' -> step (net_of rt) (net_of rt').
Proof.
  unfold advance. intros (th & Hi & Ha)%bind_Some. destruct (th_prog th) as [a|e k] eqn:Hp; [done|].
  apply bind_Some in Ha as ([r rt1] & Hpoll & [= <-]). apply poll_sound in Hpoll as (He & Hw & Hpool).
  rewrite Hpool. exact (net_effect _ _ _ (net_sys (net_of rt)) _ i th e k r _ _ _ _ _ Hi Hp He (spawns_spawned e) Hw).
Qed.

Lemma run_thread_steps fuel i rt : rtc step (net_of rt) (net_of (run_thread fuel i rt)).
Proof.
  revert rt. induction fuel as [|fuel IH]; intros rt; [done|]. cbn [run_thread].
  destruct (advance i rt) as [rt'|] eqn:E; [|done]. eapply rtc_l; [by eapply advance_step|apply IH].
Qed.

Lemma run_schedule_steps fuel threads rt : rtc step (net_of rt) (net_of (run_schedule fuel threads rt)).
Proof.
  revert rt. induction threads as [|i threads IH]; intros rt; [done|].
  etrans; [apply (run_thread_steps fuel i)|apply IH].
Qed.

Lemma join_step p rt : arrival launcher config methods p -> step (net_of rt) (net_of (join p rt)).
Proof. intros Hp. by apply net_arrive. Qed.

Lemma net_reachable_rtc t0 d0 n n' :
  net_reachable launcher config methods t0 d0 n -> rtc step n n' -> net_reachable launcher config methods t0 d0 n'.
Proof. intros Hn Hs. revert Hn. induction Hs as [|n n1 n2 H12 _ IH]; [done|]. intros Hn. apply IH. by eapply net_reach_step. Qed.

End runtime.

(** An outside in which everything works; the upstream answers as [driver] says. *)
Definition driver_up `{HttpLib} (driver : nat -> Wires -> option (result Response HyperError))
    (e : Eff) (w : Wires) : option (resp e) :=
  match e return option (resp e) with
  | MigrateUp => Some (Ok tt)
  | SystemNow => Some (Ok 0%Z)
  | Spawn _ => Some 0
  | Sleep _ => Some tt
  | Tempdir prefix => Some (Ok prefix)
  | CommandStatus _ _ => Some (Ok true)
  | CommandSpawn _ _ _ => Some (Ok 0)
  | BuildClient => Some (Ok tt)
  | HttpPost _ => Some (Ok 200%Z)
  | QueueIsClosed _ => Some false
  | TcpConnect _ => Some (Ok 0)
  | Http2Handshake _ => Some (Ok 0)
  | SenderReady _ => Some (Ok tt)
  | AwaitResponse n => driver n w
  | _ => None
  end.
