(* ===== verification/Liveness.v ===== *)
(** * A request to a running application can always be served

    Whatever the server has been doing, a run leads from a new request for an application
    that runs to the moment its response has come back: no state the server can be in
    keeps the request, its dispatcher and the delivery of the response from going
    through. *)

From stdpp Require Import base option list strings gmap sets relations.
From S2P Require Import Prelude RustStr Entities Database Error Http Cache Env Config.
From S2P Require Import Launcher Auth Proxy Routes Server RoutesFacts ProxyFacts DispatchFacts System SystemFacts Wire.
Import application.

Open Scope rust_scope.

Section facts.
Context `{HttpLib} `{ConfigLib} `{AuthLib} `{TimeLib} {L : Type} `{!Launcher L} `{!LauncherLaws L}.
Variables (launcher : L) (config : ProxyConfig) (methods : list UserAuthMethod).

Notation step := (net_step launcher config methods).

(** ** Queues have dispatchers *)

Lemma queues_have_workers t0 d0 n : good_start t0 d0 -> net_reachable launcher config methods t0 d0 n ->
  forall c, queue (net_wires n) c <> [] -> is_Some (Cache.workers (sys_cache (net_sys n)) !! c).
Proof.
  intros Hg Hr. induction Hr as [|n n' Hr IH Hstep]; [done|].
  pose proof (reachable_inv _ _ _ _ _ _ Hg (net_reachable_sys _ _ _ _ _ _ Hr)) as Hs.
  destruct Hstep as [s w p Hp|s w i th e k r t c d new w' Hi Hp He Hnew Hw]; [exact IH|].
  pose proof (si_threads _ Hs _ _ Hi) as Hth. pose proof (ti_guard _ _ Hth) as Hgd. rewrite Hp in Hgd. destruct Hgd as [Hgd _].
  pose proof (effect_shared s th e r t c d [] Hs Hth Hgd He) as Hss. simpl in IH |- *.
  assert (Hkeep : forall c0, queue w c0 <> [] -> is_Some (Cache.workers c !! c0)).
  { intros c0 Hq. destruct (IH c0 Hq) as [tok Htok]. exists tok. by apply (ss_workers _ _ _ _ _ Hss). }
  assert (Hput : forall c1 l c0, queue (with_queue c1 l w) c0 <> [] -> c0 = c1 \/ queue w c0 <> []).
  { intros c1 l c0. unfold queue, with_queue. simpl. destruct (decide (c1 = c0)) as [->|]; [auto|].
    rewrite lookup_insert_ne by done. auto. }
  intros c0 Hq. destruct e as [| | | | | | | | | | | | |c1 m|c1| | |tx1 v|tx1| | | | |n]; simpl in Hw; destruct_and?; try (subst w'; by auto).
  - subst w'. destruct r as [[]|]; [|auto]. apply Hput in Hq as [->|Hq]; [|auto].
    destruct m as [req tx]. destruct Hgd as (token & _ & Hh). exists token.
    by apply (ss_workers _ _ _ _ _ Hss), (ti_given _ _ Hth), handed_given.
  - destruct r as [m|]; [|destruct Hw as [_ ->]; auto]. destruct Hw as (rest & Hq1 & ->).
    apply Hput in Hq as [->|Hq]; [|auto]. apply Hkeep. by rewrite Hq1.
  - subst w'. destruct r; auto.
Qed.

(** ** Steps of the newest threads *)

Lemma tail_step t c d pool l w j th e k r t' c' d' new w' :
  l !! j = Some th -> th_prog th = Do e k ->
  effect e (mkSys t c d (pool ++ l)) r t' c' d' -> spawned_by e new -> wire_effect e w r w' ->
  step (mkNet (mkSys t c d (pool ++ l)) w)
       (mkNet (mkSys t' c' d' (pool ++ (<[j := mkThread (th_seen th ++ [Ev e r]) (th_serves th) (k r)]> l ++ new))) w').
Proof.
  intros Hj Hp He Hnew Hw.
  replace (pool ++ (<[j := mkThread (th_seen th ++ [Ev e r]) (th_serves th) (k r)]> l ++ new))
    with (<[(length pool + j)%nat := mkThread (th_seen th ++ [Ev e r]) (th_serves th) (k r)]> (pool ++ l) ++ new).
  - eapply (net_effect _ _ _ (mkSys t c d (pool ++ l))); [|exact Hp|exact He|exact Hnew|exact Hw].
    simpl. rewrite lookup_app_r by lia. rewrite <- Hj. f_equal. lia.
  - by rewrite insert_app_r, <- app_assoc.
Qed.

(** What a program does next, apart from what it does to the state. *)
Inductive does : prog unit -> list ev -> prog unit -> Prop :=
| does_nil p : does p [] p
| does_cons e k r h p : does (k r) h p -> does (Do e k) (Ev e r :: h) p.

Record Shared := mkShared { sh_rows : Table; sh_cache : Cache.State; sh_drawn : gset string; sh_wires : Wires }.

Definition at_pool (x : Shared) (pool : list Thread) : Net :=
  mkNet (mkSys (sh_rows x) (sh_cache x) (sh_drawn x) pool) (sh_wires x).

Fixpoint events_ok (x : Shared) (h : list ev) (y : Shared) (new : list Thread) : Prop :=
  match h with
  | [] => y = x /\ new = []
  | Ev e r :: h => exists t c d w n1 n2,
      effect e (mkSys (sh_rows x) (sh_cache x) (sh_drawn x) []) r t c d /\
      wire_effect e (sh_wires x) r w /\ spawned_by e n1 /\ new = n1 ++ n2 /\
      events_ok (mkShared t c d w) h y n2
  end.

(** One thread runs for a while. *)
Lemma runs_on pool l j seen serves p h p' x y new :
  l !! j = Some (mkThread seen serves p) -> does p h p' -> events_ok x h y new ->
  rtc step (at_pool x (pool ++ l)) (at_pool y (pool ++ (<[j := mkThread (seen ++ h) serves p']> l ++ new))).
Proof.
  intros Hj Hd. revert x y new l seen Hj.
  induction Hd as [p|e k r h p Hd IH]; intros x y new l seen Hj; cbn [events_ok].
  - intros [-> ->]. by rewrite !app_nil_r, list_insert_id.
  - intros (t & c & d & w & n1 & n2 & He & Hw & Hnew & -> & Hok).
    eapply rtc_l; [by eapply (tail_step _ _ _ pool l _ j (mkThread seen serves (Do e k)))|]. simpl.
    assert (Hlt : (j < length l)%nat) by by eapply lookup_lt_Some.
    pose proof (IH (mkShared t c d w) y n2 (<[j := mkThread (seen ++ [Ev e r]) serves (k r)]> l ++ n1) (seen ++ [Ev e r])) as Hrun.
    rewrite insert_app_l, list_insert_insert_eq, <- !app_assoc in Hrun by (rewrite length_insert; lia).
    apply Hrun; [|done]. rewrite lookup_app_l by by rewrite length_insert. by apply list_lookup_insert_eq.
Qed.

Lemma does_app p h1 h2 p' : does p (h1 ++ h2) p' -> exists p1, does p h1 p1 /\ does p1 h2 p'.
Proof.
  revert p. induction h1 as [|x h1 IH]; intros p; [by exists p; split; [constructor|]|].
  simpl. inversion 1; subst. destruct (IH (k r)) as (p1 & Hd1 & Hd2); [done|]. exists p1. split; [by constructor|done].
Qed.

(** ** One request *)

Section request.
Variables (req : Request) (token addr : string) (m : Model) (uri : Uri) (res : Response).
Hypotheses (Ht : extract_bearer_token (req_headers req) = Ok token).
Hypotheses (Htok : application.token m = token) (Hst : state m = RUNNING) (Ha : address m = Some addr).
Hypotheses (Hu : uri_parse (upstream_uri addr req) = Ok uri).
Variables (rx tx n : nat).

Definition client_asks : list ev :=
  [Ev (CacheOp (Cache.LookupOpen token)) None; Ev (Db (One [TokenEq token])) (Ok (Some m));
   Ev (CacheOp (Cache.GetOrInsert token)) (rx, true); Ev (Spawn (UpstreamConnection rx token)) 0;
   Ev OneshotNew tx; Ev (QueueSend rx (req, tx)) (Ok tt)].

Definition dispatcher_forwards : list ev :=
  [Ev (QueueRecv rx) (Some (req, tx)); Ev (QueueIsClosed rx) false; Ev (Db (One [TokenEq token])) (Ok (Some m));
   Ev (TcpConnect addr) (Ok 0); Ev (Http2Handshake 0) (Ok 0); Ev (Spawn (ConnectionDriver 0)) 0;
   Ev (SenderReady 0) (Ok tt); Ev (SenderSend 0 (with_uri uri req)) n; Ev (Spawn (DeliverResponse n tx)) 0].

Definition response_comes : list ev := [Ev (AwaitResponse n) (Ok res); Ev (OneshotSend tx (Ok res)) true].

Lemma client_does : does (discard (dispatch_request req)) (client_asks ++ [Ev (OneshotRecv tx) (Some (Ok res))]) (Ret tt).
Proof. unfold dispatch_request. rewrite Ht. repeat constructor. Qed.

Lemma dispatcher_does : does (upstream_connection 1 1 rx token None) dispatcher_forwards (Ret tt).
Proof.
  cbn [upstream_connection]. constructor. unfold handle_message. rewrite Ht, bool_decide_true by done.
  constructor. constructor. cbn. rewrite Hst, Ha. repeat (cbn; constructor || rewrite Hu).
Qed.

Lemma delivery_does : does (deliver_response n tx) response_comes (Ret tt).
Proof. repeat constructor. Qed.

(** What the three threads do to the state, one after the other. *)
Section state.
Variables (t : Table) (c : Cache.State) (d : gset string) (w : Wires).
Hypotheses (Hm : t !! id m = Some m) (Hopen : Cache.lookup_open token c = None) (Hrx : rx = Cache.next_chan c).
Hypotheses (Hq : queue w rx = []) (Htx : tx ∉ wi_oneshots w) (Hn : wi_sent w !! n = None).

Let c1 : Cache.State := (Cache.get_or_insert token c).2.
Let w1 : Wires := with_queue rx [(req, tx)] (with_oneshot tx w).
Let w2 : Wires := with_sent n 0 (with_uri uri req) (with_queue rx [] w1).
Let w3 : Wires := with_reply tx (Ok res) (with_answer n (Ok res) w2).

Lemma found_running : db_post (One [TokenEq token]) t (Ok (Some m)) t.
Proof. split; [done|]. split; [done|]. simpl. by rewrite andb_true_r, bool_decide_true. Qed.

(** An effect that leaves the shared state and the pool as they are. *)
Ltac keep := eexists _, _, _, _, [], _; split_and!; [done|done|done|done|].

Lemma client_state : events_ok (mkShared t c d w) client_asks (mkShared t c1 d w1)
  [mkThread [] (Some rx) (upstream_connection 1 1 rx token None)].
Proof.
  assert (Hins : ((rx, true), c1) = Cache.step (Cache.GetOrInsert token) c).
  { unfold c1. simpl. unfold Cache.get_or_insert. by rewrite Hopen, Hrx. }
  eexists t, c, d, w, [], _. split_and!; [by simpl; rewrite Hopen|done..|].
  eexists t, c, d, w, [], _. split_and!; [by split; [apply found_running|]|done..|].
  eexists t, c1, d, w, [], _. split_and!; [done..|].
  eexists t, c1, d, w, [_], []. split_and!; [done|done| |done|].
  { eexists _, _. split; [apply tt_upstream|done]. }
  eexists t, c1, d, (with_oneshot tx w), [], []. split_and!; [done..|].
  eexists t, c1, d, w1, [], []. split_and!; [done| |done..]. cbn.
  change (queue (with_oneshot tx w) rx) with (queue w rx). by rewrite Hq.
Qed.

Lemma dispatcher_state : events_ok (mkShared t c1 d w1) dispatcher_forwards (mkShared t c1 d w2)
  [mkThread [] None (Ret tt); mkThread [] None (deliver_response n tx)].
Proof.
  eexists t, c1, d, (with_queue rx [] w1), [], _. split_and!; [done| |done..|].
  { exists []. split; [|done]. unfold queue. simpl. by rewrite lookup_insert_eq. }
  eexists t, c1, d, (with_queue rx [] w1), [], _. split_and!; [done..|].
  eexists t, c1, d, (with_queue rx [] w1), [], _. split_and!; [by split; [apply found_running|]|done..|].
  do 2 (eexists t, c1, d, (with_queue rx [] w1), [], _; split_and!; [done..|]).
  eexists t, c1, d, (with_queue rx [] w1), [_], _. split_and!; [done|done| |done|].
  { eexists _, _. split; [apply tt_driver|done]. }
  eexists t, c1, d, (with_queue rx [] w1), [], _. split_and!; [done..|].
  eexists t, c1, d, w2, [], _. split_and!; [done..|].
  eexists t, c1, d, w2, [_], []. split_and!; [done|done| |done|done].
  eexists _, _. split; [apply tt_deliver|done].
Qed.

Lemma delivery_state : events_ok (mkShared t c1 d w2) response_comes (mkShared t c1 d w3) [].
Proof.
  eexists t, c1, d, (with_answer n (Ok res) w2), [], []. split_and!; [done..|].
  by eexists t, c1, d, w3, [], [].
Qed.

Lemma reply_state : events_ok (mkShared t c1 d w3) [Ev (OneshotRecv tx) (Some (Ok res))] (mkShared t c1 d w3) [].
Proof.
  eexists t, c1, d, w3, [], []. split_and!; [done| |done..]. split; [done|]. intros v [= <-]. apply lookup_insert_eq.
Qed.

(** From the arrival of the request to its end. *)
Lemma request_served pool :
  exists tail,
    rtc step (at_pool (mkShared t c d w) (pool ++ [mkThread [] None (discard (dispatch_request req))]))
      (at_pool (mkShared t c1 d w3)
        (pool ++ mkThread (client_asks ++ [Ev (OneshotRecv tx) (Some (Ok res))]) None (Ret tt) :: tail)).
Proof.
  destruct (does_app _ _ _ _ client_does) as (p & Hask & Hreply). eexists. etrans; [|etrans; [|etrans]].
  - exact (runs_on pool [_] 0 [] None _ _ _ _ _ _ eq_refl Hask client_state).
  - exact (runs_on pool [_; _] 1 [] (Some rx) _ _ _ _ _ _ eq_refl dispatcher_does dispatcher_state).
  - exact (runs_on pool [_; _; _; _] 3 [] None _ _ _ _ _ _ eq_refl delivery_does delivery_state).
  - exact (runs_on pool [_; _; _; _] 0 client_asks None _ _ _ _ _ _ eq_refl Hreply reply_state).
Qed.

End state.

End request.

(** C8. A request to a running application can be served in every state the server can
    be in: if it bears the token of an application that is running, whose address makes a
    valid URI, and no dispatcher for it is open, then whatever response the application
    gives to it, a run of the net leads from the arrival of the request to its end with
    that response, without a change of the table. *)
Theorem running_application_served t0 d0 s w req token m addr uri res :
  good_start t0 d0 -> net_reachable launcher config methods t0 d0 (mkNet s w) ->
  extract_bearer_token (req_headers req) = Ok token ->
  sys_rows s !! id m = Some m -> application.token m = token -> state m = RUNNING -> address m = Some addr ->
  uri_parse (upstream_uri addr req) = Ok uri -> Cache.lookup_open token (sys_cache s) = None ->
  exists s' w' th c tx,
    rtc step (mkNet s w) (mkNet s' w') /\ sys_rows s' = sys_rows s /\
    sys_pool s' !! length (sys_pool s) = Some th /\ th_prog th = Ret tt /\
    Ev (QueueSend c (req, tx)) (Ok tt) ∈ th_seen th /\
    Ev (OneshotRecv tx) (Some (Ok res)) ∈ th_seen th.
Proof.
  intros Hg Hr Ht Hm Htok Hst Ha Hu Hopen.
  pose proof (reachable_inv _ _ _ _ _ _ Hg (net_reachable_sys _ _ _ _ _ _ Hr)) as Hs.
  pose proof (queues_have_workers _ _ _ Hg Hr (Cache.next_chan (sys_cache s))) as Hq. simpl in Hq.
  assert (Hempty : queue w (Cache.next_chan (sys_cache s)) = []).
  { destruct (queue w _) as [|x l]; [done|]. destruct (Hq ltac:(done)) as [tok Hw].
    destruct (Nat.lt_irrefl _ (Cache.wf_work _ (si_cache _ Hs) _ _ Hw)). }
  pose proof (is_fresh (wi_oneshots w)) as Htx. pose proof (is_fresh (dom (wi_sent w))) as Hn.
  apply not_elem_of_dom in Hn.
  destruct (request_served req token addr m uri res Ht Htok Hst Ha Hu _ _ _ (sys_rows s) (sys_cache s) (sys_drawn s) w
    Hm Hopen eq_refl Hempty Htx Hn (sys_pool s)) as (tail & Hrun).
  eexists _, _, _, (Cache.next_chan (sys_cache s)), (fresh (wi_oneshots w)). split_and!.
  - eapply rtc_l; [by apply net_arrive, (arrive_proxy _ _ _ req)|exact Hrun].
  - done.
  - simpl. by rewrite lookup_app_r, Nat.sub_diag by done.
  - done.
  - simpl. unfold client_asks. set_solver.
  - simpl. set_solver.
Qed.

End facts.
