(* ===== verification/Registry.v ===== *)
(** * What the server promises about applications

    The specification is a registry: for each application who owns it, under which name
    and bearer token, and where it is in its life.  One step registers, reports, finishes
    or fails one application, or forgets some that are over.  The server with its
    database, caches and tasks refines it. *)

From stdpp Require Import base option list strings gmap sets relations.
From S2P Require Import Prelude RustStr Entities Database Error Http Cache Env Config.
From S2P Require Import Launcher Auth Proxy Routes Server RoutesFacts ProxyFacts System SystemFacts.
Import application.

(** ** The specification *)

Inductive Status :=
| Launching
| Running (address application_id : string)
| Failed
| Finished.

Record Entry := mkEntry {
  owner : string;
  title : option string;
  bearer : string;
  status : Status
}.

Definition with_status (s : Status) (e : Entry) : Entry := mkEntry (owner e) (title e) (bearer e) s.

Definition over (s : Status) : Prop := s = Failed \/ s = Finished.

Inductive registry_step : gmap Z Entry -> gmap Z Entry -> Prop :=
| reg_register reg k e :
    reg !! k = None -> status e = Launching ->
    (forall k' e', reg !! k' = Some e' -> bearer e' <> bearer e) ->
    registry_step reg (<[k := e]> reg)
| reg_report reg k e a i :
    reg !! k = Some e -> registry_step reg (<[k := with_status (Running a i) e]> reg)
| reg_finish reg k e :
    reg !! k = Some e -> registry_step reg (<[k := with_status Finished e]> reg)
| reg_fail reg k e :
    reg !! k = Some e -> registry_step reg (<[k := with_status Failed e]> reg)
| reg_forget reg reg' :
    reg' ⊆ reg -> (forall k e, reg !! k = Some e -> reg' !! k = None -> over (status e)) ->
    registry_step reg reg'.

(** ** The abstraction of a row *)

Definition status_of (m : Model) : Status :=
  match state m with
  | LAUNCHING => Launching
  | RUNNING => Running (default "" (address m)) (default "" (application_id m))
  | FAILED => Failed
  | FINISHED => Finished
  end.

Definition entry_of (m : Model) : Entry := mkEntry (username m) (name m) (token m) (status_of m).

Definition registry (t : Table) : gmap Z Entry := entry_of <$> t.

(** For the rows the server keeps, nothing is lost where the address is needed. *)
Lemma status_of_running m a i : row_ok m ->
  status_of m = Running a i <-> state m = RUNNING /\ address m = Some a /\ application_id m = Some i.
Proof.
  unfold status_of, row_ok. destruct (state m); try naive_solver.
  intros [[a' ->] [i' ->]]. naive_solver.
Qed.

Lemma registry_insert t k m : registry (<[k := m]> t) = <[k := entry_of m]> (registry t).
Proof. apply fmap_insert. Qed.

Lemma registry_lookup t k : registry t !! k = entry_of <$> t !! k.
Proof. apply lookup_fmap. Qed.

(** ** Every statement is a step *)

(** A query for one key or token selects at most one row. *)
Lemma update_addressed cols q (t : Table) :
  keyed t -> unique_tokens t -> addressed q ->
  update_rows cols q t = t \/
  exists m, t !! id m = Some m /\ sat q m = true /\ update_rows cols q t = <[id m := set_cols cols m]> t.
Proof.
  intros Hk Hu Ha.
  assert (Hone : forall k1 k2 m1 m2, t !! k1 = Some m1 -> t !! k2 = Some m2 -> sat q m1 = true -> sat q m2 = true -> k1 = k2).
  { intros k1 k2 m1 m2 H1 H2 S1 S2. unfold sat in S1, S2. rewrite forallb_forall in S1, S2.
    destruct Ha as [[k Hin]|[tok Hin]]; apply list_elem_of_In in Hin;
      specialize (S1 _ Hin); specialize (S2 _ Hin); simpl in S1, S2;
      apply bool_decide_eq_true in S1, S2; [rewrite <- (Hk _ _ H1), <- (Hk _ _ H2); congruence|].
    eapply Hu; [exact H1|exact H2|congruence]. }
  destruct (decide (selected q t = ∅)) as [He|He]; [left; by apply update_none|]. right.
  apply map_choose in He as (k & m & Hm). apply map_lookup_filter_Some in Hm as [Hm Hs]. simpl in Hs.
  exists m. rewrite (Hk _ _ Hm). split_and!; [done..|]. apply map_eq. intros k'. rewrite update_rows_lookup.
  destruct (decide (k' = k)) as [->|Hne].
  - rewrite Hm, lookup_insert_eq. simpl. by rewrite Hs.
  - rewrite lookup_insert_ne by done. destruct (t !! k') as [m'|] eqn:E; [|done]. simpl. f_equal.
    destruct (sat q m') eqn:Es; [|done]. by destruct Hne; eapply Hone.
Qed.

Lemma entry_set_cols cols q m : cols_ok cols q ->
  exists s, entry_of (set_cols cols m) = with_status s (entry_of m) /\ s <> Launching.
Proof. intros [_ [->|[->|[(a & i & ->)|[-> _]]]]]; by eexists. Qed.

(** Giving an entry another status than launching is a step. *)
Lemma status_step reg k e s : reg !! k = Some e -> s <> Launching ->
  registry_step reg (<[k := with_status s e]> reg).
Proof. intros Hk Hs. destruct s; [done|by apply reg_report|by apply reg_fail|by apply reg_finish]. Qed.

Section refinement.
Context `{HttpLib} `{ConfigLib} `{AuthLib} `{TimeLib} {L : Type} `{!Launcher L} `{!LauncherLaws L}.
Variables (launcher : L) (config : ProxyConfig) (methods : list UserAuthMethod).

Lemma stmt_step serves h s (t t' : Table) r :
  guard serves h (Db s) -> keyed t -> unique_tokens t -> db_post s t r t' ->
  (is_insert (Ev (Db s) r) = true -> forall tok, Ev NewV4 tok ∈ h -> count is_insert h = 0 -> no_token tok t) ->
  registry t' = registry t \/ registry_step (registry t) (registry t').
Proof.
  intros Hg Hk Hu Hp Hfresh.
  destruct s as [am|q|q|cols q|am|q]; simpl in Hg, Hp.
  - destruct r as [m|e]; [|by left; subst]. destruct Hp as (Hn & Hins & ->). right.
    destruct Hg as (u & tok & nm & -> & Hnew & Hc). apply insert_new in Hins as (_ & _ & Hs & Ht & _ & _).
    rewrite registry_insert. apply reg_register.
    + by rewrite registry_lookup, Hn.
    + simpl. unfold status_of. by rewrite Hs.
    + intros k' e' He'. rewrite registry_lookup in He'. apply fmap_Some in He' as (m' & Hm' & ->). simpl. rewrite Ht.
      by eapply (Hfresh eq_refl tok Hnew Hc).
  - left. by destruct Hp as [-> _].
  - left. by destruct Hp as [-> _].
  - destruct r as [n|e]; [|by left; subst]. destruct Hp as [_ ->].
    destruct (update_addressed cols q t Hk Hu (proj1 Hg)) as [->|(m & Hm & _ & ->)]; [by left|right].
    destruct (entry_set_cols cols q m Hg) as (s & Hs & Hne). rewrite registry_insert, Hs.
    apply status_step; [by rewrite registry_lookup, Hm|done].
  - destruct r as [m'|e]; [|by left; subst]. destruct Hp as (m & Hid & Hm & -> & ->). right.
    assert (He : entry_of (am_apply am m) = with_status Failed (entry_of m)).
    { destruct Hg as (k & [-> | ->]); done. }
    rewrite registry_insert, He. apply status_step; [|done].
    rewrite registry_lookup. replace (id (am_apply am m)) with (id m); [by rewrite Hm|].
    unfold am_apply. simpl. by rewrite Hid.
  - destruct r as [n|e]; [|by left; subst]. pose proof Hp as Hpost. destruct Hp as [_ ->]. right. apply reg_forget.
    + apply map_fmap_mono. apply map_filter_subseteq.
    + intros k e He Hn. rewrite registry_lookup in He, Hn. apply fmap_Some in He as (m & Hm & ->). apply fmap_None in Hn.
      destruct (lost_rows serves h (DeleteMany q) t (delete_rows q t) (Ok n) k m Hg) as [Hs|Hs]; [done..| |];
        simpl; unfold status_of; rewrite Hs; [by left|by right].
Qed.

(** One step of the whole server is one step of the registry, or none. *)
Lemma sys_step_registry s s' :
  sys_inv s -> sys_step launcher config methods s s' ->
  registry (sys_rows s') = registry (sys_rows s) \/ registry_step (registry (sys_rows s)) (registry (sys_rows s')).
Proof.
  intros Hs Hstep. destruct Hstep as [s p Hp|s i th e k r t c d new Hi Hp He Hnew]; [by left|]. simpl.
  pose proof (si_threads _ Hs _ _ Hi) as Hth. pose proof (ti_guard _ _ Hth) as Hg. rewrite Hp in Hg. destruct Hg as [Hg _].
  destruct e as [q|o| | | | | | | | | | | | | | | | | | | | | | ]; simpl in He;
    try (left; by destruct_and!; simplify_eq/=).
  destruct He as (Hpost & _ & _). eapply stmt_step; [exact Hg|apply Hs|apply Hs|exact Hpost|].
  intros _ tok Hin Hc. by apply (ti_fresh _ _ Hth); [apply elem_of_drawn|].
Qed.

(** C4. The server refines the registry: whatever requests, commands and tasks are
    interleaved, each effect of each of them is one step of the registry or none, so the
    applications of every reachable state are those of a run of the registry; and the
    registry shows a running application exactly with the address and application id
    of its row. *)
Theorem system_refines_registry t0 d0 s :
  good_start t0 d0 -> reachable launcher config methods t0 d0 s ->
  rtc registry_step (registry t0) (registry (sys_rows s)) /\
  (forall s', sys_step launcher config methods s s' ->
     registry (sys_rows s') = registry (sys_rows s) \/
     registry_step (registry (sys_rows s)) (registry (sys_rows s'))) /\
  (forall k m a i, sys_rows s !! k = Some m ->
     status_of m = Running a i <-> state m = RUNNING /\ address m = Some a /\ application_id m = Some i).
Proof.
  intros Hg Hr. pose proof (reachable_inv launcher config methods _ _ _ Hg Hr) as Hs. split_and!.
  - clear Hs. induction Hr as [|s s' Hr IH Hstep]; [done|].
    pose proof (reachable_inv launcher config methods _ _ _ Hg Hr) as Hs.
    destruct (sys_step_registry _ _ Hs Hstep) as [->|Hreg]; [done|]. by eapply rtc_r.
  - intros s' Hstep. by apply sys_step_registry.
  - intros k m a i Hm. by apply status_of_running, (si_rows _ Hs k).
Qed.

End refinement.
