(* ===== verification/Termination.v ===== *)
(** * Every request is answered after a bounded number of effects

    [within n p]: whatever the responses, [p] has returned after at most [n] effects.
    The handlers, the commands and the tasks that do not serve a queue are, each with its
    own bound; [check] with one that is linear in the applications it finds running. *)

From stdpp Require Import base option list strings gmap sets.
From S2P Require Import Prelude RustStr Entities Database Error Http Cache Env Config.
From S2P Require Import Launcher Auth Proxy Routes Server.
Import application.

Open Scope rust_scope.

Section within.
Context `{HttpLib}.

Fixpoint within {A} (n : nat) (p : prog A) {struct p} : Prop :=
  match p with
  | Ret _ => True
  | Do e k => match n with O => False | S n => forall r, lawful e r -> within n (k r) end
  end.

Lemma within_le {A} n m (p : prog A) : within n p -> (n <= m)%nat -> within m p.
Proof.
  revert n m. induction p as [a|e k IH]; intros [|n] [|m] Hp Hle; simpl in *; try done; [lia|].
  intros r Hr. apply (IH r n); [by apply Hp|lia].
Qed.

Lemma within_bind {A B} n m (p : prog A) (k : A -> prog B) :
  within n p -> (forall a, within m (k a)) -> within (n + m) (bind p k).
Proof.
  revert n. induction p as [a|e k' IH]; intros n Hp Hk; simpl.
  - eapply within_le; [apply Hk|lia].
  - destruct n as [|n]; [done|]. intros r Hr. by apply IH; [apply Hp|].
Qed.

Lemma within_do {B} m e (k : resp e -> prog B) :
  (forall r, within m (k r)) -> within (S m) (bind (do e) k).
Proof. intros Hk r _. apply Hk. Qed.

Lemma within_try {A B X} n m (p : prog (result A X)) (k : A -> prog (result B X)) :
  within n p -> (forall a, within m (k a)) -> within (n + m) (try_bind p k).
Proof. intros Hp Hk. apply within_bind; [done|]. intros [a|e]; [apply Hk|by destruct m]. Qed.

Lemma within_map_err {A X Y} n (f : X -> Y) (p : prog (result A X)) : within n p -> within n (map_err_m f p).
Proof. intros Hp. rewrite <- (Nat.add_0_r n). by apply within_bind. Qed.

(** No run is longer. *)
Lemma within_trace {A} n (p : prog A) t o :
  within n p -> trace p t o -> Forall lawful_ev t -> (length t <= n)%nat.
Proof.
  intros Hp Ht. revert n Hp. induction Ht as [a|p|e k r h o Ht IH]; intros n Hp Hl; simpl; [lia..|].
  destruct n as [|n]; [done|]. inversion Hl as [|? ? Hr Hl']; subst.
  specialize (IH n (Hp r Hr) Hl'). lia.
Qed.

(** A run that has not returned waits for the answer to one effect, and every answer
    takes it further. *)
Lemma trace_extends {A} (p : prog A) t :
  trace p t None -> (exists a, trace p t (Some a)) \/ exists e, forall r, trace p (t ++ [Ev e r]) None.
Proof.
  intros Ht. remember None as o eqn:Ho. induction Ht as [a|p|e k r h o Ht IH]; [done| |].
  - destruct p as [a|e k]; [left; exists a; constructor|right; exists e]. intros r. repeat constructor.
  - destruct (IH Ho) as [[a Ha]|[e' He']]; [left; exists a; by constructor|right; exists e'].
    intros r'. by constructor.
Qed.

(** What a run of a program begins with. *)
Lemma trace_cases {A} (p : prog A) t o : trace p t o ->
  t = [] \/ match p with
            | Ret _ => False
            | Do e k => exists r h, t = Ev e r :: h /\ trace (k r) h o
            end.
Proof. destruct 1 as [a|p|e k r h o Ht]; [by left..|right]. by exists r, h. Qed.

(** ** The programs of the server *)

Lemma send_within address tok msg : within 2 (send_session_message address tok msg).
Proof. intros [|] _; [|done]. by intros [|] _. Qed.

Lemma python_venv_within py ps : within 4 (build_python_venv py ps).
Proof.
  unfold build_python_venv. destruct py as [py|]; [|done].
  intros [dir|] _; [|done]. do 3 (intros [[]|] _; [|done..]). done.
Qed.

Lemma spark_launch_within `{HostLib} L v i n u t c ps : within 6 (spark_launch L v i n u t c ps).
Proof.
  unfold spark_launch. destruct (find_version L v) as [ver|]; [|done].
  apply (within_try 4 2).
  - destruct ps as [[|p ps]|]; [done| |done]. apply (within_try 4 0); [apply python_venv_within|done].
  - intros tb. destruct (build_submit_command _ _ _ _ _ _ _ _) as [[path args]|]; [|done].
    intros [child|e] _; [|done]. by intros h _.
Qed.

Lemma launch_watch_within child k : within 2 (launch_watch child k).
Proof. intros u _. by intros r _. Qed.

Lemma deliver_within response tx : within 2 (deliver_response response tx).
Proof. intros r _. by intros b _. Qed.

Lemma sender_for_within token : within 4 (sender_for token).
Proof.
  intros [c|] _; [done|]. intros [[m|]|e] _; [|done..]. intros [c []] _; [|done]. by intros h _.
Qed.

Lemma dispatch_within req : within 7 (dispatch_request req).
Proof.
  unfold dispatch_request. destruct (extract_bearer_token _) as [token|e]; [|done].
  apply (within_try 4 3); [apply sender_for_within|]. intros c tx _. intros [u|u] _; [|by intros b _].
  by intros [r|] _.
Qed.

Lemma delete_app_within k u : within 5 (delete_app k u).
Proof.
  destruct u as [u]. intros [[m|]|e] _; [|done..]. intros [n|e] _; [|done].
  cbn [bind map_err]. apply (within_bind 2 1); [|by intros r b _; destruct r].
  destruct (address m) as [a|]; [|done]. apply within_map_err, send_within.
Qed.

Section routes.
Context `{ConfigLib} `{AuthLib} {L : Type} `{!Launcher L}.
Variables (launcher : L) (config : ProxyConfig) (methods : list UserAuthMethod).
(** How many effects a launch of this launcher takes. *)
Variable launch_bound : nat.
Hypothesis launch_within : forall v i n u t c ps, within launch_bound (launch launcher v i n u t c ps).

Lemma create_app_within u params : within (3 + launch_bound) (create_app launcher config u params).
Proof.
  destruct u as [u]. intros tok _. intros [m|e] _; [|done].
  cbn [bind map_err]. apply (within_le (launch_bound + 1)); [|lia]. apply within_bind; [apply launch_within|].
  intros [child|e] r _; done.
Qed.

Lemma serve_within h headers : within (5 + launch_bound) (serve launcher config methods h headers).
Proof.
  assert (Hreply : forall {A} n (f : A -> Reply) p, within n p -> (n <= 5 + launch_bound)%nat ->
    within (5 + launch_bound) (reply f p)).
  { intros A n f p Hp Hn. apply (within_le (n + 0)); [|lia]. by apply within_bind; [|intros []]. }
  unfold serve. case_bool_decide; [|case_bool_decide; [|done]].
  - destruct (user_authorize methods headers) as [u|]; [|done].
    destruct h as [ps|ps|k|k| | |]; cbn [user_handler]; try done.
    + apply (Hreply _ 1); [|lia]. destruct u as [u]. unfold list_apps. destruct (list_query u ps); [|done]. by intros [|] _.
    + eapply Hreply; [apply create_app_within|lia].
    + apply (Hreply _ 1); [|lia]. destruct u as [u]. by intros [[|]|] _.
    + eapply Hreply; [apply delete_app_within|lia].
  - destruct (token_authorize headers) as [[tok]|]; [|done].
    destruct h as [ps|ps|k|k| |ps|]; cbn [callback_handler]; try done.
    + apply (Hreply _ 1); [|lia]. intros [n|e] _; [|done]. simpl. by case_bool_decide.
    + apply (Hreply _ 2); [|lia]. intros [n|e] _; [|done]. simpl. case_bool_decide; [done|]. by intros u _.
Qed.

End routes.

Section maintenance.
Context `{TimeLib}.

Lemma prune_within secs : within 3 (prune secs).
Proof.
  intros [u|] _; [|done]. intros [now|] _; [|done]. simpl. destruct (from_timestamp _ 0); [|done]. by intros [|] _.
Qed.

Lemma health_within attempt n address tok last : within (3 * n) (health_attempts attempt n address tok last).
Proof.
  revert attempt last. induction n as [|n IH]; intros attempt last; [done|].
  apply (within_le (2 + (1 + 3 * n))); [|lia]. cbn [health_attempts]. apply within_bind; [apply send_within|].
  intros [u|e]; [done|]. apply within_bind; [|intros u; apply IH]. destruct (attempt <? _)%nat; [|done]. by intros u _.
Qed.

(** The time of one application: four attempts of two requests and a pause, one update. *)
Lemma check_apps_within apps n : within (13 * length apps) (check_apps apps n).
Proof.
  revert n. induction apps as [|app apps IH]; intros n; [done|].
  apply (within_le (12 + (1 + 13 * length apps))); [|simpl; lia]. cbn [check_apps]. apply within_bind.
  - destruct (address app) as [a|]; [|done]. apply (within_le (12 + 0)); [|lia].
    apply (within_bind 12 0); [exact (health_within 0 4 a (token app) "")|done].
  - intros []; [|eapply within_le; [apply IH|lia]]. intros [m|e] _; [|done]. apply IH.
Qed.

(** The rows a run has been given by queries for many. *)
Definition rows_found (x : ev) : nat :=
  match ev_eff x as e return resp e -> nat with
  | Db s =>
      match s return resp (Db s) -> nat with
      | All _ => fun r => match r with Ok l => length l | Err _ => 0%nat end
      | _ => fun _ => 0%nat
      end
  | _ => fun _ => 0%nat
  end (ev_resp x).

Lemma check_bounded t o :
  trace check t o -> Forall lawful_ev t -> (length t <= 2 + 13 * sum_list (rows_found <$> t))%nat.
Proof.
  intros Ht Hl. apply trace_cases in Ht as [->|(r & h & -> & Ht)]; [simpl; lia|].
  inversion Hl as [|? ? _ Hl']; subst. destruct r as [u|e]; [|inversion Ht; subst; simpl; lia].
  apply trace_cases in Ht as [->|(r2 & h2 & -> & Ht)]; [simpl; lia|]. inversion Hl' as [|? ? _ Hl2]; subst.
  destruct r2 as [apps|e]; [|inversion Ht; subst; simpl; lia].
  assert (length h2 <= 13 * length apps + 0)%nat.
  2:{ rewrite !fmap_cons. change (sum_list _) with (0 + (length apps + sum_list (rows_found <$> h2)))%nat.
      cbn [length]. lia. }
  cbn [bind map_err] in Ht. eapply within_trace; [|exact Ht|done]. apply within_bind; [apply check_apps_within|by intros []].
Qed.

End maintenance.

(** C9. Every request and every command comes to an end: whatever the database, the
    network and the processes answer, a request to the REST API has been answered after
    at most eleven effects, one to a session after at most seven until it waits for the
    reply and returns with it, pruning takes at most three, the task that watches a launch
    two, a check two and at most thirteen for each application it finds running; and a
    run that has not returned is waiting for the answer to one effect, which takes it
    further. *)
Theorem requests_terminate `{ConfigLib} `{AuthLib} `{TimeLib} `{HostLib} (launcher : SparkLauncher) config methods :
  (forall h headers t o, trace (serve launcher config methods h headers) t o -> Forall lawful_ev t ->
     (length t <= 11)%nat) /\
  (forall req t o, trace (dispatch_request req) t o -> Forall lawful_ev t -> (length t <= 7)%nat) /\
  (forall secs t o, trace (prune secs) t o -> Forall lawful_ev t -> (length t <= 3)%nat) /\
  (forall child k t o, trace (launch_watch child k) t o -> Forall lawful_ev t -> (length t <= 2)%nat) /\
  (forall t o, trace check t o -> Forall lawful_ev t -> (length t <= 2 + 13 * sum_list (rows_found <$> t))%nat) /\
  (forall h headers t, trace (serve launcher config methods h headers) t None ->
     (exists r, trace (serve launcher config methods h headers) t (Some r)) \/
     exists e, forall r, trace (serve launcher config methods h headers) (t ++ [Ev e r]) None).
Proof.
  split_and!; intros *; [| | | |apply check_bounded|apply trace_extends]; intros Ht Hl;
    (eapply within_trace; [|exact Ht|exact Hl]).
  - apply (serve_within launcher config methods 6). intros. apply spark_launch_within.
  - apply dispatch_within.
  - apply prune_within.
  - apply launch_watch_within.
Qed.

End within.
