(* ===== verification/Session.v ===== *)
(** * A session from end to end

    The Rust client talks to the server through the REST API, the driver through the
    callback, the dispatcher asks the database where the application is: the components
    composed, as one session sees them. *)

From stdpp Require Import base option list strings gmap sets pretty.
From Stdlib Require Import Ascii.
From S2P Require Import Prelude RustStr Entities Database Error Http Cache Env Config Launcher Auth Proxy Routes Json Api Client RoutesFacts ProxyFacts.
Import application.

Open Scope rust_scope.

Section session.
Context `{HttpLib} `{!RouterLib} `{!RouterLaws} `{ConfigLib} `{AuthLib} `{QueryLib} {L : Type} `{!Launcher L} `{!LauncherLaws L}.
Context {W : Type} `{!Env W} `{!View W} `{!EnvLaws W}.
Variables (launcher : L) (config : ProxyConfig) (user_auth : list UserAuthMethod).

(** A call of the client, carried out by the server listening at [base]; [headers] are
    the ones the HTTP client adds. *)
Definition exchange {A} (base : string) (headers : HeaderMap) (call : Call A) : prog (result A string) :=
  match strip_prefix base (call_url call) with
  | None => Ret (Err "error sending request")
  | Some path =>
      r <- serve_request launcher config user_auth
             (mkApiRequest (call_method call) path "" headers (call_body call));;
      Ret (call_result call
             match r with
             | Some res => Ok (api_status res, api_json res)
             | None => Ok (status_code NOT_FOUND, None)
             end)
  end.

(** ** Each exchange is its handler *)

Lemma serve_user h headers user :
  (endpoint h).2 ∈ user_api -> user_authorize user_auth headers = Ok user ->
  serve launcher config user_auth h headers = user_handler launcher config h user.
Proof. intros Hh Hu. unfold serve. rewrite bool_decide_true by done. by rewrite Hu. Qed.

Lemma run_create base headers user version cfg w :
  user_authorize user_auth headers = Ok user ->
  let params := mkCreateApplicationRequest None version (Some cfg) None in
  run (exchange base headers (create_application (new_client base) version cfg)) w =
  let '(r, w') := run (create_app launcher config user params) w in
  (match r with
   | Ok info => from_json (to_json info)
   | Err _ => Err "error decoding response body"
   end, w').
Proof.
  intros Hu params. unfold exchange, create_application. cbn [call_url call_method call_body call_result].
  change (url (new_client base) "/apps") with (base +:+ "/apps"). rewrite strip_prefix_app. unfold serve_request.
  rewrite extract_create. unfold json_body at 1. cbn [api_body api_headers api_method ok_or].
  rewrite server_reads_request. cbn [map_err]. fold params.
  rewrite (serve_user _ _ user) by (done || (simpl; set_solver)). cbn [user_handler].
  unfold reply. rewrite !run_bind. destruct (run (create_app _ _ _ _) w) as [[info|st] w']; cbn [run fst snd];
    rewrite send_response_body by done; [done|]. by destruct st.
Qed.

(** The client's path for one application. *)
Lemma run_stop base headers user n w :
  user_authorize user_auth headers = Ok user -> i32 n ->
  run (exchange base headers (stop_application (new_client base) n)) w =
  let '(r, w') := run (delete_app n user) w in
  (match r with
   | Ok _ => error_for_status 200%Z
   | Err status => error_for_status (status_code status)
   end, w').
Proof.
  intros Hu Hn. unfold exchange, stop_application. cbn [call_url call_method call_body call_result].
  change (url (new_client base) ("/apps/" +:+ pretty n)) with (base +:+ ("/apps/" +:+ pretty n)).
  rewrite strip_prefix_app. unfold serve_request.
  rewrite extract_delete, bool_decide_true by done. cbn [api_method api_headers].
  rewrite (serve_user _ _ user) by (done || (simpl; set_solver)). cbn [user_handler].
  unfold reply. rewrite !run_bind. destruct (run (delete_app n user) w) as [[[]|st] w']; cbn [run fst snd];
    by rewrite send_response_body.
Qed.

(** ** Asking where the application is *)

(** The row [m], the only one with its token. *)
Definition sole_row (m : Model) (t : Table) : Prop :=
  t !! id m = Some m /\ forall k m', t !! k = Some m' -> token m' = token m -> k = id m.

(** What a poll that does not find the application launching answers. *)
Definition location (m : Model) : result string Error :=
  match state m with
  | RUNNING => ok_or (address m) MissingApplicationAddress
  | s => Err (InvalidApplicationState s)
  end.

Lemma resolve_run rx m fuel w :
  healthy w -> (exec (QueueIsClosed rx) w).1 = false -> sole_row m (rows w) -> state m <> LAUNCHING ->
  (run (resolve_upstream_address (S fuel) rx (token m)) w).1 = Some (location m).
Proof.
  intros Hw Hq [Hm Hsole] Hs. unfold resolve_upstream_address. cbn [loop]. rewrite run_bind.
  assert (Hr : (run (resolve_round rx (token m) tt) w).1 = inr (location m)); [|by rewrite Hr].
  unfold resolve_round, do. cbn [bind run].
  pose proof (exec_rows (QueueIsClosed rx) w ltac:(done)) as Hr0. pose proof (exec_healthy (QueueIsClosed rx) w Hw) as Hh0.
  destruct (exec (QueueIsClosed rx) w) as [closed w0]. cbn [fst snd] in *. subst closed.
  run_db w0 r w1. destruct (Hanswer Hh0 I) as [o ->]. destruct Hpost as [_ Hpost]. rewrite Hr0 in Hpost.
  destruct o as [m'|].
  - destruct Hpost as [Hm' Ht%sat_token]. assert (m' = m) as ->.
    { pose proof (Hsole _ _ Hm' Ht). congruence. }
    unfold location. by destruct (state m).
  - by destruct (proj1 (selected_token _ _) Hpost _ _ Hm).
Qed.

(** ** The session *)

Lemma sole_row_created user params (t : Table) m :
  keyed t -> created user params t m -> sole_row m (<[id m := m]> t).
Proof.
  intros Hk (Hn & _ & _ & _ & _ & _ & Hf). split; [apply lookup_insert_eq|].
  intros k m' [[<- _]|[_ Hm']]%lookup_insert_Some Ht; [done|]. by destruct (Hf _ _ Hm').
Qed.

(** A change of the rows of one token that keeps ids and tokens. *)
Lemma sole_row_at f m (t t' : Table) :
  sole_row m t -> at_token (token m) f t t' -> id (f m) = id m -> token (f m) = token m -> sole_row (f m) t'.
Proof.
  intros [Hm Hs] Hat Hi Ht. split.
  - rewrite Hi, Hat, Hm. simpl. by rewrite bool_decide_true.
  - intros k m' Hm' Ht'. rewrite Hi. rewrite Hat in Hm'. apply fmap_Some in Hm' as (m0 & Hm0 & ->).
    destruct (bool_decide (token m0 = token m)) eqn:E; [apply bool_decide_eq_true in E|rewrite Ht in Ht']; by eapply Hs.
Qed.

Lemma sole_row_insert (m m' : Model) (t : Table) :
  sole_row m t -> id m' = id m -> token m' = token m -> sole_row m' (<[id m := m']> t).
Proof.
  intros [Hm Hs] Hi Ht. rewrite <- Hi. split; [apply lookup_insert_eq|].
  intros k m0 [[<- _]|[_ Hm0]]%lookup_insert_Some Ht0; [done|]. rewrite Hi. apply (Hs k m0 Hm0). congruence.
Qed.

(** Deleting an own application when the database answers. *)
Lemma run_delete user m w :
  healthy w -> rows w !! id m = Some m -> username m = user ->
  let w' := (run (delete_app (id m) (mkUserId user)) w).2 in
  healthy w' /\ rows w' = <[id m := finished m]> (rows w) /\
  cache w' = (Cache.invalidate (token m) (cache w)).2.
Proof.
  intros Hw Hm Hu. cbv zeta. split; [by apply run_healthy|].
  pose proof (delete_app_run w user (id m)) as Hd. cbv zeta in Hd. destruct (run (delete_app _ _) w) as [r w'].
  destruct Hd as [(_ & Hno & _)|[(_ & Hbad & _)|(m' & n & gone & stop & [Hm' _] & Hr & Hc & _)]]; [by destruct (Hno m)|done|].
  assert (m' = m) as -> by congruence. done.
Qed.

(** C7. A session from end to end, on a server whose database answers: if creating an
    application gives the client an application, there is a launching row for it, owned
    by the user and with the token the client got; once the driver has called back with
    this token, the dispatcher's next look-up finds the address of the driver; once the
    client has stopped the application, no dispatcher is registered for the token and a
    look-up is refused because the application is finished. *)
Theorem session_end_to_end base headers user version cfg cb_headers cb (w w1 : W) app :
  user_authorize user_auth headers = Ok (mkUserId user) -> healthy w ->
  run (exchange base headers (create_application (new_client base) version cfg)) w = (Ok app, w1) ->
  (forall k m, rows w1 !! k = Some m -> i32 k) ->
  token_authorize cb_headers = Ok (mkBearerToken (app_token app)) ->
  let '(reported, w2) := run (serve launcher config user_auth (AppCallback cb) cb_headers) w1 in
  let w3 := (run (exchange base headers (stop_application (new_client base) (app_id app))) w2).2 in
  (exists m, rows w1 !! app_id app = Some m /\ username m = user /\ token m = app_token app /\
     state m = LAUNCHING /\ rows w !! app_id app = None) /\
  reported = Ok ReplyEmpty /\
  (forall rx fuel, (exec (QueueIsClosed rx) w2).1 = false ->
     (run (resolve_upstream_address (S fuel) rx (app_token app)) w2).1 = Some (Ok (cb_address cb))) /\
  Cache.connections (cache w3) !! app_token app = None /\
  (forall rx fuel, (exec (QueueIsClosed rx) w3).1 = false ->
     (run (resolve_upstream_address (S fuel) rx (app_token app)) w3).1 =
       Some (Err (InvalidApplicationState FINISHED))).
Proof.
  intros Hu Hw Hcreate Hids Hcb. rewrite (run_create _ _ _ _ _ _ Hu) in Hcreate.
  pose proof (create_app_run launcher config w user (mkCreateApplicationRequest None version (Some cfg) None)) as Hc.
  cbv zeta in Hc, Hcreate. pose proof (run_healthy (create_app launcher config (mkUserId user)
    (mkCreateApplicationRequest None version (Some cfg) None)) w Hw) as Hw1.
  destruct (run (create_app _ _ _ _) w) as [r w1']. destruct (exec NewV4 w) as [tok w0].
  destruct (exec (Db (Insert _)) w0) as [[m|e] wi]; [|by destruct Hc as (_ & -> & _)].
  destruct Hc as (_ & Hm & after & _ & Hc). destruct (run (launch _ _ _ _ _ _ _ _) wi).1; [|by destruct Hc as [-> _]].
  destruct Hc as (-> & _ & Hr1).
  assert (Hv : valid (application_info config m)).
  { apply (Hids _ m). injection Hcreate as _ <-. rewrite Hr1. apply lookup_insert_eq. }
  rewrite Application_reads_info in Hcreate by done. injection Hcreate as <- ->. cbn [app_id app_token application_info info_id info_token] in *.
  pose proof (sole_row_created user _ _ m (rows_keyed w) Hm) as Hsole. rewrite <- Hr1 in Hsole.
  destruct Hm as (Hnone & Hun & _ & Hst & Ha & _ & _).
  (* the driver calls back *)
  assert (Hserve : run (serve launcher config user_auth (AppCallback cb) cb_headers) w1 =
    run (reply (fun _ => ReplyEmpty) (app_callback (mkBearerToken (token m)) cb)) w1).
  { unfold serve. rewrite bool_decide_false by (simpl; set_solver). rewrite bool_decide_true by (simpl; set_solver).
    by rewrite Hcb. }
  rewrite Hserve. unfold reply. rewrite run_bind.
  pose proof (app_callback_run w1 (token m) cb) as Hback.
  pose proof (run_healthy (app_callback (mkBearerToken (token m)) cb) w1 Hw1) as Hw2.
  destruct (run (app_callback _ _) w1) as [r2 w2]. cbn [fst snd] in *. destruct Hback as [_ Hback].
  destruct r2 as [[]|[]]; try done; [|by destruct Hback as [Hno _]; destruct (Hno _ _ (proj1 Hsole))|by destruct Hback].
  destruct Hback as [_ Hat]. cbn [run].
  pose proof (sole_row_at _ m _ _ Hsole Hat eq_refl eq_refl) as Hsole2.
  (* the client stops the application *)
  rewrite (run_stop _ _ _ _ _ Hu) by (apply Hids with m; apply Hsole).
  destruct (run_delete user (running cb m) w2 Hw2 (proj1 Hsole2) Hun) as (Hw3 & Hr3 & Hc3).
  change (id (running cb m)) with (id m) in Hw3, Hr3, Hc3.
  destruct (run (delete_app (id m) (mkUserId user)) w2) as [r3 w3]. cbn [fst snd] in *.
  split_and!; [exists m; split_and!; [apply Hsole|done..]|done| |by rewrite Hc3, Cache.invalidate_gone|].
  - intros rx fuel Hq. by apply (resolve_run rx (running cb m) fuel w2).
  - intros rx fuel Hq. apply (resolve_run rx (finished (running cb m)) fuel w3); [done|done| |done].
    rewrite Hr3. by apply (sole_row_insert (running cb m)).
Qed.

End session.
