(* ===== verification/TestUtils.v ===== *)
(** * The test fixtures ([server/src/lib.rs], [test_utils])

    The launcher the tests use, the routers and servers they make, and the vocabulary of
    the test files: a test is a program that returns whether its assertions held.  Where
    the fixtures rely on libraries (templates, timestamps as RFC 3339, query strings, the
    clock) the instances are here or in the [Sample] modules. *)

From stdpp Require Import base option list strings gmap sets pretty.
From Stdlib Require Import Ascii.
From S2P Require Import Prelude RustStr Entities Database Error Http Cache Env Config Launcher Auth Proxy Routes Json Api Server Sample.
Import application SampleHttp SampleRouter SampleAuth SampleTime.

Open Scope rust_scope.

(** ** [MockLauncher] *)

Inductive MockLauncher := mkMockLauncher.

#[export] Instance MockLauncher_Launcher : Launcher MockLauncher := {
  get_versions _ := ["4.0.0"];
  launch _ version_name session_id app_name username token user_config python_packages :=
    h <- do (Spawn (SleepTask 60));;
    Ret (Ok h)
}.

#[export] Instance MockLauncher_laws : LauncherLaws MockLauncher.
Proof. intros l v i n u t c ps. by split. Qed.

(** ** Libraries *)

(** A template whose placeholder is replaced by the application id. *)
Fixpoint replace_placeholder (tpl application_id : string) : string :=
  match tpl with
  | EmptyString => ""
  | String a rest =>
      if starts_with "{{ application_id }}" tpl
      then application_id +:+ slice_from 20 tpl
      else String a (replace_placeholder rest application_id)
  end.

#[export] Instance test_config : ConfigLib := {
  figment_extract _ := Ok default_config;
  local_ip := Ok "127.0.0.1";
  render := replace_placeholder
}.

(** [DateTime::<Utc>::to_rfc3339], of nanoseconds from the epoch. *)
Class ChronoLib := { to_rfc3339 : Z -> string }.

(** The proleptic Gregorian calendar, with years that begin in March. *)
Definition civil_from_days (days : Z) : Z * Z * Z :=
  (let z := days + 719468 in
  let era := z / 146097 in
  let doe := z mod 146097 in
  let yoe := (doe - doe / 1460 + doe / 36524 - doe / 146096) / 365 in
  let doy := doe - (365 * yoe + yoe / 4 - yoe / 100) in
  let mp := (5 * doy + 2) / 153 in
  let month := if mp <? 10 then mp + 3 else mp - 9 in
  (yoe + era * 400 + (if month <=? 2 then 1 else 0), month, doy - (153 * mp + 2) / 5 + 1))%Z.

Definition days_from_civil (year month day : Z) : Z :=
  (let y := if month <=? 2 then year - 1 else year in
  let yoe := y mod 400 in
  let doy := (153 * ((month + 9) mod 12) + 2) / 5 + day - 1 in
  y / 400 * 146097 + (yoe * 365 + yoe / 4 - yoe / 100 + doy) - 719468)%Z.

(** [n] digits, with zeros in front. *)
Fixpoint padded (n : nat) (z : Z) : string :=
  match n with
  | O => ""
  | S n => padded n (z / 10) +:+ String (ascii_of_nat (48 + Z.to_nat (z mod 10))) ""
  end.

(** The fraction of a second: as many digits as it takes, three at a time. *)
Definition fraction (nanos : Z) : string :=
  if (nanos =? 0)%Z then ""
  else if (nanos mod 1000000 =? 0)%Z then "." +:+ padded 3 (nanos / 1000000)
  else if (nanos mod 1000 =? 0)%Z then "." +:+ padded 6 (nanos / 1000)
  else "." +:+ padded 9 nanos.

#[export] Instance test_chrono : ChronoLib := {
  to_rfc3339 t :=
    let secs := (t / 1000000000)%Z in
    let day := (secs mod 86400)%Z in
    let '(year, month, mday) := civil_from_days (secs / 86400) in
    padded 4 year +:+ "-" +:+ padded 2 month +:+ "-" +:+ padded 2 mday +:+ "T" +:+
    padded 2 (day / 3600) +:+ ":" +:+ padded 2 (day / 60 mod 60) +:+ ":" +:+ padded 2 (day mod 60) +:+
    fraction (t mod 1000000000) +:+ "+00:00"
}.

(** Reading one back: exactly [n] digits, the fraction, the offset in seconds. *)
Fixpoint digits (n : nat) (acc : Z) (s : string) : option (Z * string) :=
  match n, s with
  | O, _ => Some (acc, s)
  | S n, String a s => d ← digit a; digits n (acc * 10 + d) s
  | _, _ => None
  end.

Fixpoint read_fraction (n : nat) (s : string) : Z * string :=
  match n, s with
  | S n, String a rest =>
      match digit a with
      | Some d => let '(nanos, s) := read_fraction n rest in (d * 10 ^ Z.of_nat n + nanos, s)%Z
      | None => (0%Z, s)
      end
  | _, _ => (0%Z, s)
  end.

Definition read_offset (s : string) : option Z :=
  if decide (s = "Z") then Some 0%Z
  else
    '(sign, s) ← match strip_prefix "+" s, strip_prefix "-" s with
                 | Some s, _ => Some (1%Z, s)
                 | None, Some s => Some (-1, s)%Z
                 | None, None => None
                 end;
    '(hours, s) ← digits 2 0 s; s ← strip_prefix ":" s; '(minutes, s) ← digits 2 0 s;
    if bool_decide (s = "") && (hours <? 24)%Z && (minutes <? 60)%Z
    then Some (sign * (hours * 3600 + minutes * 60))%Z else None.

Definition parse_rfc3339 (s : string) : option Z :=
  '(year, s) ← digits 4 0 s; s ← strip_prefix "-" s; '(month, s) ← digits 2 0 s; s ← strip_prefix "-" s;
  '(mday, s) ← digits 2 0 s; s ← strip_prefix "T" s; '(hour, s) ← digits 2 0 s; s ← strip_prefix ":" s;
  '(minute, s) ← digits 2 0 s; s ← strip_prefix ":" s; '(second, s) ← digits 2 0 s;
  let '(nanos, s) := match strip_prefix "." s with Some s => read_fraction 9 s | None => (0%Z, s) end in
  offset ← read_offset s;
  let days := days_from_civil year month mday in
  if bool_decide (civil_from_days days = (year, month, mday)) && (hour <? 24)%Z && (minute <? 60)%Z && (second <? 60)%Z
  then Some ((days * 86400 + hour * 3600 + minute * 60 + second - offset) * 1000000000 + nanos)%Z
  else None.

(** [str::replace] of a character. *)
Fixpoint replace_char (c : ascii) (by_ s : string) : string :=
  match s with
  | EmptyString => ""
  | String a s => (if decide (a = c) then by_ else String a "") +:+ replace_char c by_ s
  end.

(** A query string: pairs of names and values, a plus for a space, percent-encoded. *)
Definition form_decode (s : string) : string := SampleRouter.decode (replace_char "+" " " s).

Definition read_time (value : string) : result Z string :=
  ok_or (parse_rfc3339 value) "input contains invalid characters".

Fixpoint read_params (pairs : list string) (ps : ListApplicationsRequest) : result ListApplicationsRequest string :=
  match pairs with
  | [] => Ok ps
  | kv :: pairs =>
      let '(key, value) := default (kv, "") (split_once "=" kv) in
      let '(key, value) := (form_decode key, form_decode value) in
      ps' <-? (if decide (key = "state") then
                 Ok (mkListApplicationsRequest (Some value) (created_at_after ps) (created_at_before ps))
               else if decide (key = "created_at_after") then
                 t <-? read_time value;;
                 Ok (mkListApplicationsRequest (list_state ps) (Some t) (created_at_before ps))
               else if decide (key = "created_at_before") then
                 t <-? read_time value;;
                 Ok (mkListApplicationsRequest (list_state ps) (created_at_after ps) (Some t))
               else Ok ps);;
      read_params pairs ps'
  end.

#[export] Instance test_query : QueryLib := {
  query_params q :=
    read_params (base.filter (fun p => p <> "") (split "&" q)) (mkListApplicationsRequest None None None)
}.

(** ** Routers and servers *)

Definition default_user_auth : list UserAuthMethod := [CurrentUserAuth].

(** The router, and the environment with its empty database. *)
Record TestServer := mkTestServer {
  test_server_config : ProxyConfig;
  test_server_auth : list UserAuthMethod
}.

Definition create_test_router_with_config (config : ProxyConfig) (user_auth : list UserAuthMethod)
    : TestServer * World :=
  (mkTestServer config user_auth, world []).

(** ** Requests and assertions *)

Definition request (s : TestServer) (m : Method) (path query : string) (headers : HeaderMap) (body : option Json)
    : prog (option ApiResponse) :=
  serve_request mkMockLauncher (test_server_config s) (test_server_auth s) (mkApiRequest m path query headers body).

Definition get_ (s : TestServer) (path : string) (headers : HeaderMap) : prog (option ApiResponse) :=
  request s GET path "" headers None.
Definition get_query (s : TestServer) (path query : string) (headers : HeaderMap) : prog (option ApiResponse) :=
  request s GET path query headers None.
Definition post {A} `{ToJson A} (s : TestServer) (path : string) (headers : HeaderMap) (body : A)
    : prog (option ApiResponse) :=
  request s POST path "" headers (Some (to_json body)).
Definition delete_ (s : TestServer) (path : string) (headers : HeaderMap) : prog (option ApiResponse) :=
  request s DELETE path "" headers None.

(** [.authorization_bearer(token)] and [.add_header("REMOTE_USER", user)]. *)
Definition bearer (token : string) : HeaderMap := [("authorization", "Bearer " +:+ token)].
Definition remote_user (user : string) : HeaderMap := [("REMOTE_USER", user)].

Definition has_status (s : StatusCode) (r : option ApiResponse) : bool :=
  match r with Some res => bool_decide (api_status res = status_code s) | None => false end.

(** [res.json::<A>()]; a panic fails the test. *)
Definition json {A} `{FromJson A} (r : option ApiResponse) : option A :=
  res ← r; j ← api_json res; ok (from_json j).

Definition assert_that (b : bool) (k : prog bool) : prog bool := if b then k else Ret false.
Definition unwrap_in {A} (o : option A) (k : A -> prog bool) : prog bool :=
  match o with Some a => k a | None => Ret false end.

Notation "'expect' b ;; k" := (assert_that b k)
  (at level 100, b at level 99, k at level 200, right associativity) : rust_scope.
Notation "x <-u o ;; k" := (unwrap_in o (fun x => k))
  (at level 100, o at next level, right associativity) : rust_scope.

(** The value of [CreateApplicationRequest::default()]. *)
Definition default_request : CreateApplicationRequest := mkCreateApplicationRequest None None None None.

Definition app_path (app_id : Z) : string := "/apps/" +:+ pretty app_id.
