(* ===== verification/RouteTests.v ===== *)
(** * The tests of the REST API ([server/src/routes.rs], [mod test])

    Each test of the source as a program over HTTP requests, run from an empty database:
    a check that the model behaves as the program is expected to. *)

From stdpp Require Import base option list strings gmap sets pretty.
From Stdlib Require Import Ascii.
From S2P Require Import Prelude RustStr Entities Database Error Http Cache Env Config Launcher Auth Proxy Routes Json Api Server Sample TestUtils.
Import application SampleHttp SampleRouter SampleAuth SampleTime.

Open Scope rust_scope.

(** The users are told apart by a header, and the tests that send none run as the account
    of the process. *)
Definition test_user_auth : list UserAuthMethod := [RemoteUserAuth "REMOTE_USER"; CurrentUserAuth].

Definition create_test_server_with_config (config : ProxyConfig) : TestServer :=
  (create_test_router_with_config config test_user_auth).1.

Definition create_test_server : TestServer := create_test_server_with_config default_config.

Definition callback (address application_id : string) : ApplicationCallbackRequest :=
  mkApplicationCallbackRequest address application_id.

Definition ui_config (ui log : option string) : ProxyConfig :=
  mkProxyConfig None None None ui log None None None None None None None None.

Definition test_routes : prog bool :=
  let server := create_test_server in
  res <- get_ server "/apps" [];;
  expect bool_decide (json res = Some ([] : list ApplicationInfo));;
  res <- post server "/apps" [] default_request;;
  expect has_status OK res;;
  app <-u (json res : option ApplicationInfo);;
  res <- get_ server (app_path (info_id app)) [];;
  expect bool_decide (json res = Some app);;
  res <- post server "/callback" (bearer (info_token app)) (callback "localhost:12345" "test-app-1");;
  expect has_status OK res;;
  res <- get_ server (app_path (info_id app)) [];;
  expect has_status OK res;;
  app <-u (json res : option ApplicationInfo);;
  expect info_active app;;
  expect bool_decide (info_state app = "RUNNING");;
  res <- delete_ server "/callback" (bearer (info_token app));;
  expect has_status OK res;;
  res <- get_ server (app_path (info_id app)) [];;
  expect has_status OK res;;
  app <-u (json res : option ApplicationInfo);;
  expect negb (info_active app);;
  Ret (bool_decide (info_state app = "FINISHED")).

Definition test_users : prog bool :=
  let server := create_test_server in
  res <- post server "/apps" (remote_user "user1") default_request;;
  expect has_status OK res;;
  app <-u (json res : option ApplicationInfo);;
  res <- get_ server "/apps" (remote_user "user2");;
  expect bool_decide (json res = Some ([] : list ApplicationInfo));;
  res <- get_ server "/apps" (remote_user "user1");;
  Ret (bool_decide (json res = Some [app])).

Definition test_create_app_with_name : prog bool :=
  let server := create_test_server in
  res <- post server "/apps" [] (mkCreateApplicationRequest (Some "my-session") None None None);;
  expect has_status OK res;;
  app <-u (json res : option ApplicationInfo);;
  expect bool_decide (info_name app = Some "my-session");;
  res <- get_ server "/apps" [];;
  expect has_status OK res;;
  apps <-u (json res : option (list ApplicationInfo));;
  first <-u head apps;;
  Ret (bool_decide (info_name first = Some "my-session")).

Definition test_delete_app_marks_finished : prog bool :=
  let server := create_test_server in
  res <- post server "/apps" [] default_request;;
  expect has_status OK res;;
  app <-u (json res : option ApplicationInfo);;
  res <- delete_ server (app_path (info_id app)) [];;
  expect has_status OK res;;
  res <- get_ server (app_path (info_id app)) [];;
  expect has_status OK res;;
  updated <-u (json res : option ApplicationInfo);;
  expect bool_decide (info_state updated = "FINISHED");;
  Ret (negb (info_active updated)).

Definition test_ui_url_rendering : prog bool :=
  let server := create_test_server_with_config
    (ui_config (Some "https://knox.example.com/gateway/default/yarn/app/{{ application_id }}")
               (Some "https://knox.example.com/gateway/default/yarn/logs/{{ application_id }}")) in
  res <- post server "/apps" (remote_user "testuser") default_request;;
  expect has_status OK res;;
  app <-u (json res : option ApplicationInfo);;
  expect bool_decide (info_ui_url app = None);;
  expect bool_decide (info_log_url app = None);;
  expect bool_decide (info_state app = "LAUNCHING");;
  res <- post server "/callback" (bearer (info_token app)) (callback "localhost:54321" "app-20251119-001");;
  expect has_status OK res;;
  res <- get_ server (app_path (info_id app)) (remote_user "testuser");;
  expect has_status OK res;;
  updated_app <-u (json res : option ApplicationInfo);;
  expect bool_decide (info_state updated_app = "RUNNING");;
  expect info_active updated_app;;
  expect bool_decide (info_ui_url updated_app =
    Some "https://knox.example.com/gateway/default/yarn/app/app-20251119-001");;
  Ret (bool_decide (info_log_url updated_app =
    Some "https://knox.example.com/gateway/default/yarn/logs/app-20251119-001")).

(** [apps.iter().find(|a| a.id == app_id)]. *)
Definition find_app (app_id : Z) (apps : list ApplicationInfo) : option ApplicationInfo :=
  snd <$> list_find (fun a => info_id a = app_id) apps.

Definition test_log_url_rendering_in_list : prog bool :=
  let server := create_test_server_with_config (ui_config None (Some "https://example.com/logs/{{ application_id }}")) in
  res <- post server "/apps" (remote_user "user1") default_request;;
  app <-u (json res : option ApplicationInfo);;
  res <- post server "/callback" (bearer (info_token app)) (callback "localhost:12345" "spark-app-logs");;
  expect has_status OK res;;
  res <- get_ server "/apps" (remote_user "user1");;
  apps <-u (json res : option (list ApplicationInfo));;
  found <-u find_app (info_id app) apps;;
  Ret (bool_decide (info_log_url found = Some "https://example.com/logs/spark-app-logs")).

Definition test_ui_url_rendering_in_list : prog bool :=
  let server := create_test_server_with_config (ui_config (Some "https://example.com/ui/{{ application_id }}") None) in
  res1 <- post server "/apps" (remote_user "user1") default_request;;
  app1 <-u (json res1 : option ApplicationInfo);;
  res2 <- post server "/apps" (remote_user "user1") default_request;;
  app2 <-u (json res2 : option ApplicationInfo);;
  res <- post server "/callback" (bearer (info_token app1)) (callback "localhost:11111" "spark-app-1");;
  expect has_status OK res;;
  res <- post server "/callback" (bearer (info_token app2)) (callback "localhost:22222" "spark-app-2");;
  expect has_status OK res;;
  res <- get_ server "/apps" (remote_user "user1");;
  expect has_status OK res;;
  apps <-u (json res : option (list ApplicationInfo));;
  expect bool_decide (length apps = 2);;
  updated_app1 <-u find_app (info_id app1) apps;;
  updated_app2 <-u find_app (info_id app2) apps;;
  expect bool_decide (info_ui_url updated_app1 = Some "https://example.com/ui/spark-app-1");;
  Ret (bool_decide (info_ui_url updated_app2 = Some "https://example.com/ui/spark-app-2")).

Definition test_ui_url_none_without_template : prog bool :=
  let server := create_test_server_with_config default_config in
  res <- post server "/apps" (remote_user "testuser") default_request;;
  app <-u (json res : option ApplicationInfo);;
  res <- post server "/callback" (bearer (info_token app)) (callback "localhost:99999" "some-app-id");;
  expect has_status OK res;;
  res <- get_ server (app_path (info_id app)) (remote_user "testuser");;
  updated_app <-u (json res : option ApplicationInfo);;
  Ret (bool_decide (info_ui_url updated_app = None)).

Definition test_list_apps_filters_by_state : prog bool :=
  let server := create_test_server in
  res <- post server "/apps" (remote_user "user1") default_request;;
  launching <-u (json res : option ApplicationInfo);;
  res <- post server "/apps" (remote_user "user1") default_request;;
  running <-u (json res : option ApplicationInfo);;
  res <- post server "/callback" (bearer (info_token running)) (callback "localhost:9999" "spark-app-running");;
  expect has_status OK res;;
  res <- delete_ server (app_path (info_id launching)) (remote_user "user1");;
  expect has_status OK res;;
  res <- get_query server "/apps" "state=RUNNING" (remote_user "user1");;
  filtered <-u (json res : option (list ApplicationInfo));;
  expect bool_decide (length filtered = 1);;
  first <-u head filtered;;
  expect bool_decide (info_id first = info_id running);;
  Ret (bool_decide (info_state first = "RUNNING")).

Definition test_list_apps_filters_by_multiple_states : prog bool :=
  let server := create_test_server in
  res <- post server "/apps" (remote_user "user1") default_request;;
  launching <-u (json res : option ApplicationInfo);;
  res <- post server "/apps" (remote_user "user1") default_request;;
  running <-u (json res : option ApplicationInfo);;
  res <- post server "/callback" (bearer (info_token running)) (callback "localhost:8765" "spark-app-running-multi");;
  expect has_status OK res;;
  res <- delete_ server (app_path (info_id launching)) (remote_user "user1");;
  expect has_status OK res;;
  res <- get_query server "/apps" "state=RUNNING,FINISHED" (remote_user "user1");;
  filtered <-u (json res : option (list ApplicationInfo));;
  expect bool_decide (length filtered = 2);;
  expect existsb (fun a => bool_decide (info_id a = info_id running) && bool_decide (info_state a = "RUNNING")) filtered;;
  Ret (existsb (fun a => bool_decide (info_id a = info_id launching) && bool_decide (info_state a = "FINISHED")) filtered).

(** The update of the test: a row by its id and when it was created. *)
Definition created_at_model (app_id created_at : Z) : ActiveModel :=
  mkActiveModel (AvSet app_id) (AvSet created_at) NotSet NotSet NotSet NotSet NotSet NotSet.

Definition test_list_apps_filters_by_created_at : prog bool :=
  let server := create_test_server in
  res <- post server "/apps" (remote_user "user1") default_request;;
  first <-u (json res : option ApplicationInfo);;
  res <- post server "/apps" (remote_user "user1") default_request;;
  second <-u (json res : option ApplicationInfo);;
  first_created_at <-u from_timestamp 1700000000 0;;
  second_created_at <-u from_timestamp 1700000060 0;;
  updated <- do (Db (Update (created_at_model (info_id first) first_created_at)));;
  expect is_ok updated;;
  updated <- do (Db (Update (created_at_model (info_id second) second_created_at)));;
  expect is_ok updated;;
  let first_ts := replace_char "+" "%2B" (to_rfc3339 first_created_at) in
  let second_ts := replace_char "+" "%2B" (to_rfc3339 second_created_at) in
  let exact_first := "created_at_after=" +:+ first_ts +:+ "&created_at_before=" +:+ first_ts in
  let exact_second := "created_at_after=" +:+ second_ts +:+ "&created_at_before=" +:+ second_ts in
  res <- get_query server "/apps" exact_first (remote_user "user1");;
  first_apps <-u (json res : option (list ApplicationInfo));;
  expect bool_decide (info_id <$> first_apps = [info_id first]);;
  res <- get_query server "/apps" exact_second (remote_user "user1");;
  second_apps <-u (json res : option (list ApplicationInfo));;
  Ret (bool_decide (info_id <$> second_apps = [info_id second])).

Definition test_list_apps_invalid_filter_rejected : prog bool :=
  let server := create_test_server in
  res <- get_query server "/apps" "state=NOT_A_STATE" (remote_user "user1");;
  expect has_status BAD_REQUEST res;;
  res <- get_query server "/apps" "created_at_after=not-a-timestamp" (remote_user "user1");;
  Ret (has_status BAD_REQUEST res).

(** The model passes the tests the source has for the REST API: run over the routing
    table, JSON, authentication, handlers and database, from an empty table, with the
    sample libraries, none of their assertions fails. *)
Lemma route_tests_pass :
  Forall (fun test => (run test (create_test_router_with_config default_config test_user_auth).2).1 = true)
    [test_routes; test_users; test_create_app_with_name; test_delete_app_marks_finished;
     test_ui_url_rendering; test_log_url_rendering_in_list; test_ui_url_rendering_in_list;
     test_ui_url_none_without_template; test_list_apps_filters_by_state;
     test_list_apps_filters_by_multiple_states; test_list_apps_filters_by_created_at;
     test_list_apps_invalid_filter_rejected].
Proof. repeat constructor; vm_compute; reflexivity. Qed.
