(* ===== verification/UnitTests.v ===== *)
(** * The unit tests of the launcher, the proxy and the server
    ([server/src/launcher.rs], [server/src/proxy.rs], [server/src/lib.rs], [mod test])

    A test without effects is a boolean; one that looks into the cache or the table
    afterwards is a function of the environment it starts in. *)

From stdpp Require Import base option list strings gmap sets pretty.
From Stdlib Require Import Ascii.
From S2P Require Import Prelude RustStr Entities Database Error Http Cache Env Config Launcher Auth Proxy Routes Server Sample TestUtils.
From S2P Require Import System Wire Runtime.
Import application SampleHttp SampleHost SampleAuth SampleTime.

Open Scope rust_scope.

(** ** Launcher *)

Definition config_version (default_configs merge_configs override_configs : option (gmap string string)) : SparkVersion :=
  mkSparkVersion "default" "" None None None None default_configs merge_configs override_configs None.

Definition test_build_config : bool :=
  let version := config_version
    (Some (list_to_map [("a", "default"); ("b", "default")]))
    (Some (list_to_map [("c", "merge"); ("e", "merge-only")]))
    (Some (list_to_map [("d", "override")])) in
  let user_config := list_to_map [("a", "user"); ("c", "user"); ("d", "user")] in
  let built := build_conf version user_config in
  bool_decide (built = list_to_map [("a", "user"); ("b", "default"); ("c", "user,merge"); ("d", "override"); ("e", "merge-only")]).

Definition test_launcher : SparkLauncher :=
  mkSparkLauncher [plain_version "default" "/opt/spark" None] ltac:(done) "http://localhost:8100" 60 60 "/path/to/plugin" None.

(** [args.as_chunks::<2>()]. *)
Fixpoint as_chunks (l : list string) : list (string * string) * list string :=
  match l with
  | a :: b :: l => let '(pairs, rest) := as_chunks l in ((a, b) :: pairs, rest)
  | rest => ([], rest)
  end.

Definition submit (app_name : option string) (user_config : gmap string string) (venv : option string)
    : option (string * list string) :=
  version ← head (versions test_launcher);
  ok (build_submit_command test_launcher version 1 app_name "user" "abcd" user_config venv).

Definition test_build_command : bool :=
  match submit None ∅ None with
  | None => false
  | Some (command, args) =>
      let '(pairs, script) := as_chunks args in
      bool_decide (command = "/opt/spark/bin/spark-submit") &&
      bool_decide (head script = Some "/path/to/plugin") &&
      bool_decide (("--conf", APP_NAME_CONFIG +:+ "=spark-plug-session-1") ∈ pairs) &&
      bool_decide (("--conf", TOKEN_CONFIG +:+ "=abcd") ∈ pairs) &&
      bool_decide (("--conf", CALLBACK_CONFIG +:+ "=http://localhost:8100") ∈ pairs) &&
      bool_decide (("--conf", TIMEOUT_CONFIG +:+ "=60") ∈ pairs) &&
      bool_decide (("--conf", LISTENER_CONFIG +:+ "=" +:+ LISTENER_CLASS) ∈ pairs) &&
      bool_decide (("--conf", INTERCEPTOR_CONFIG +:+ "=" +:+ INTERCEPTOR_CLASS) ∈ pairs) &&
      bool_decide (("--conf", GRPC_PORT_CONFIG +:+ "=0") ∈ pairs) &&
      bool_decide (("--class", SERVER_CLASS) ∈ pairs)
  end.

Definition test_build_command_uses_explicit_app_name : bool :=
  match submit (Some "custom-app-name") ∅ None with
  | None => false
  | Some (_, args) =>
      bool_decide (("--conf", APP_NAME_CONFIG +:+ "=custom-app-name") ∈ (as_chunks args).1)
  end.

Definition test_build_command_merges_python_environment_into_archives_config : bool :=
  match submit None {["spark.archives" := "s3://bucket/archive.tar.gz#archive"]} (Some "/tmp/python-environment.tgz") with
  | None => false
  | Some (_, args) =>
      bool_decide (head (omap (strip_prefix "spark.archives=") args) =
        Some "s3://bucket/archive.tar.gz#archive,/tmp/python-environment.tgz#environment") &&
      negb (bool_decide ("--archives" ∈ args))
  end.

Definition test_validate_file_configs_rejects_local_paths : bool :=
  is_err (validate_file_configs {["spark.files" := "/local/path/file.txt"]}).

Definition test_validate_file_configs_rejects_file_protocol : bool :=
  is_err (validate_file_configs {["spark.files" := "file:///etc/passwd"]}).

Definition test_validate_file_configs_allows_remote_paths : bool :=
  is_ok (validate_file_configs
    {["spark.files" := "s3://bucket/file.txt,hdfs://namenode/data"; "spark.archives" := "gs://bucket/archive.tar.gz"]}).

Definition test_validate_file_configs_allows_empty_values : bool := is_ok (validate_file_configs ∅).

(** ** Proxy: headers and replies *)

Definition test_extract_bearer_token : bool :=
  bool_decide (Proxy.extract_bearer_token [("authorization", "Bearer test-token")] = Ok "test-token").

Definition test_extract_bearer_token_rejects_invalid_headers : bool :=
  match Proxy.extract_bearer_token [] with Err MissingAuthorizationHeader => true | _ => false end &&
  match Proxy.extract_bearer_token [("authorization", "Basic abc123")] with
  | Err InvalidAuthorizationScheme => true
  | _ => false
  end.

Definition has_header (n v : string) (r : Response) : bool :=
  bool_decide (get (res_headers r) n = Some v).

Definition test_proxy_error_response_maps_status : bool :=
  let not_found := proxy_error_response ApplicationNotFound in
  let launching := proxy_error_response (InvalidApplicationState LAUNCHING) in
  let missing_address := proxy_error_response MissingApplicationAddress in
  let auth := proxy_error_response (Authorization "missing subject") in
  bool_decide (res_status not_found = 200%Z) &&
  has_header "content-type" "application/grpc" not_found &&
  has_header "grpc-status" "5" not_found &&
  has_header "grpc-message" "application not found for provided token" not_found &&
  bool_decide (res_status launching = 200%Z) &&
  has_header "grpc-status" "14" launching &&
  bool_decide (res_status missing_address = 200%Z) &&
  has_header "grpc-status" "14" missing_address &&
  has_header "grpc-status" "16" auth &&
  has_header "grpc-message" "authorization error: missing subject" auth.

Definition test_percent_encode_grpc_message : bool :=
  bool_decide (percent_encode_grpc_message ("upstream failed: bad" +:+ String "010" "state % value") =
    "upstream failed: bad%0Astate %25 value").

(** ** Proxy: the cache of connections *)

(** The row a test inserts for a token. *)
Definition token_application (state : State) (token : string) (address : ActiveValue (option string))
    (application_id : ActiveValue (option string)) : ActiveModel :=
  mkActiveModel NotSet NotSet (AvSet "test-user") NotSet (AvSet state) (AvSet token) address application_id.

Definition insert (am : ActiveModel) : prog (result Model string) := map_err_m DbErr_display (do (Db (Insert am))).

Definition test_upstream_connections_are_cached_by_token : prog bool :=
  inserted <- insert (token_application LAUNCHING "first-token" NotSet NotSet);;
  expect is_ok inserted;;
  inserted <- insert (token_application LAUNCHING "second-token" NotSet NotSet);;
  expect is_ok inserted;;
  first <- sender_for "first-token";;
  first <-u ok first;;
  first_again <- sender_for "first-token";;
  first_again <-u ok first_again;;
  second <- sender_for "second-token";;
  second <-u ok second;;
  expect bool_decide (first = first_again);;
  Ret (negb (bool_decide (first = second))).

Definition test_unknown_tokens_are_not_cached (w : World) : bool :=
  let '(result, w) := run (sender_for "unknown-token") w in
  match result with Err ApplicationNotFound => true | _ => false end &&
  bool_decide (Cache.connections (w_cache w) = ∅).

(** [WeakSender::upgrade]: a channel has a sender while the cache or the test holds a
    handle of it.  The dispatcher only holds the receiver, so letting it run, as the test
    does, changes nothing here. *)
Definition upgrade (weak : Cache.chan) (held : list Cache.chan) (s : Cache.State) : option Cache.chan :=
  if bool_decide (weak ∈ held ++ (map_to_list (Cache.connections s)).*2) then Some weak else None.

Definition test_upstream_connection_can_be_invalidated (w : World) : bool :=
  let token := "test-token" in
  let '(inserted, w) := run (insert (token_application LAUNCHING token NotSet NotSet)) w in
  match run (sender_for token) w with
  | (Err _, _) => false
  | (Ok sender, w) =>
      let held := [sender] in
      let weak_sender := sender in
      let '(_, w) := run (do (CacheOp (Cache.Invalidate token))) w in
      let held := base.filter (fun c => c <> sender) held in
      is_ok inserted &&
      bool_decide (Cache.connections (w_cache w) !! token = None) &&
      bool_decide (upgrade weak_sender held (w_cache w) = None)
  end.

(** ** Proxy: requests in flight

    The upstream of the test answers a request only when two have reached it. *)
Definition barrier (_ : nat) (w : Wires) : option (result Response HyperError) :=
  if (size (wi_sent w) <? 2)%nat then None else Some (Ok (mkResponse 200 [] None)).

Definition execute_plan (token : string) : Request :=
  mkRequest _ POST "/spark.connect.SparkConnectService/ExecutePlan" [("authorization", "Bearer " +:+ token)] 0.

(** [ProxyService] in front of the router of the test, which no request of it reaches. *)
Definition proxy_service (req : Request) : prog Response := call (fun _ => Ret (mkResponse 404 [] None)) req.

Definition returned (th : option Thread) : bool :=
  match th with Some th => match th_prog th with Ret _ => true | Do _ _ => false end | None => false end.

(** Both requests are sent before either is waited for.  The threads are the two
    requests, the dispatcher, the driver of its connection, and the two tasks that
    deliver the responses; each runs until it has to wait, and with an upstream that
    holds back the first answer both requests come to an end. *)
Definition test_multiple_upstream_requests_can_be_in_flight (w : World) : bool :=
  let '(token, w) := run (do NewV4) w in
  let '(inserted, w) := run (insert (token_application RUNNING token (AvSet (Some "127.0.0.1:4040")) NotSet)) w in
  let rt := mkRuntime (w_db w) Cache.new {[token]} [] no_wires in
  let rt := join (discard (proxy_service (execute_plan token))) rt in
  let rt := join (discard (proxy_service (execute_plan token))) rt in
  let rt := run_schedule (driver_up barrier) 3 1 30 [0; 1; 2; 3; 4; 5; 0; 1] rt in
  is_ok inserted && returned (rt_pool rt !! 0) && returned (rt_pool rt !! 1).

(** Nothing listens at the address: every attempt to connect fails. *)
Definition refused : World :=
  mkWorld (mem_db []) Cache.new (replicate 10 (Err "connection refused"))
    (replicate 10 (Err (mkIoError OtherKind "connection refused"))) [] 1000.

Definition find_by_id (app_id : Z) : prog (option Model) :=
  found <- do (Db (One [IdEq app_id]));;
  Ret (default None (ok found)).

Definition test_resolve_upstream_connection_marks_application_failed_after_retries : prog bool :=
  token <- do NewV4;;
  app <- insert (token_application RUNNING token (AvSet (Some "127.0.0.1:9")) (AvSet None));;
  app <-u ok app;;
  resolved <- resolve_upstream_connection 1 0 token;;
  expect match resolved with Some (Err (UpstreamConnect _)) => true | _ => false end;;
  app <- find_by_id (id app);;
  app <-u app;;
  expect bool_decide (state app = FAILED);;
  Ret (bool_decide (address app = None)).

(** ** Server: the maintenance commands *)

Definition insert_app (state : State) (address : option string) (created_at : Z) : prog (result Model string) :=
  token <- do NewV4;;
  insert (mkActiveModel NotSet (AvSet created_at) (AvSet "test-user") NotSet (AvSet state) (AvSet token)
            (AvSet address) (AvSet None)).

Definition test_prune : prog bool :=
  now_secs <- do SystemNow;;
  now_secs <-u ok now_secs;;
  old <-u from_timestamp (now_secs - 120) 0;;
  recent <-u from_timestamp (now_secs - 10) 0;;
  old_failed <- insert_app FAILED None old;;
  old_failed <-u ok old_failed;;
  old_finished <- insert_app FINISHED None old;;
  old_finished <-u ok old_finished;;
  recent_failed <- insert_app FAILED None recent;;
  recent_failed <-u ok recent_failed;;
  old_running <- insert_app RUNNING (Some "127.0.0.1:1") old;;
  old_running <-u ok old_running;;
  pruned <- prune 60;;
  expect is_ok pruned;;
  app <- find_by_id (id old_failed);;
  expect bool_decide (app = None);;
  app <- find_by_id (id old_finished);;
  expect bool_decide (app = None);;
  app <- find_by_id (id recent_failed);;
  expect bool_decide (is_Some app);;
  app <- find_by_id (id old_running);;
  Ret (bool_decide (is_Some app)).

Definition test_check : prog bool :=
  now_secs <- do SystemNow;;
  now_secs <-u ok now_secs;;
  now <-u from_timestamp now_secs 0;;
  no_address_running <- insert_app RUNNING None now;;
  no_address_running <-u ok no_address_running;;
  unreachable_running <- insert_app RUNNING (Some "127.0.0.1:9") now;;
  unreachable_running <-u ok unreachable_running;;
  launching <- insert_app LAUNCHING None now;;
  launching <-u ok launching;;
  checked <- check;;
  expect is_ok checked;;
  no_address_after <- find_by_id (id no_address_running);;
  no_address_after <-u no_address_after;;
  expect bool_decide (state no_address_after = FAILED);;
  expect bool_decide (address no_address_after = None);;
  unreachable_after <- find_by_id (id unreachable_running);;
  unreachable_after <-u unreachable_after;;
  expect bool_decide (state unreachable_after = FAILED);;
  expect bool_decide (address unreachable_after = None);;
  launching_after <- find_by_id (id launching);;
  launching_after <-u launching_after;;
  Ret (bool_decide (state launching_after = LAUNCHING)).

(** The model passes the unit tests the source has for the launcher, the proxy and the
    server: those without effects, those of the proxy from an empty table, those of
    failing connections where nothing listens. *)
Lemma unit_tests_pass :
  forallb Datatypes.id
    [test_build_config; test_build_command; test_build_command_uses_explicit_app_name;
     test_build_command_merges_python_environment_into_archives_config;
     test_validate_file_configs_rejects_local_paths; test_validate_file_configs_rejects_file_protocol;
     test_validate_file_configs_allows_remote_paths; test_validate_file_configs_allows_empty_values;
     test_extract_bearer_token; test_extract_bearer_token_rejects_invalid_headers;
     test_proxy_error_response_maps_status; test_percent_encode_grpc_message;
     (run test_upstream_connections_are_cached_by_token (world [])).1;
     test_unknown_tokens_are_not_cached (world []);
     test_upstream_connection_can_be_invalidated (world []);
     test_multiple_upstream_requests_can_be_in_flight (world []);
     (run test_resolve_upstream_connection_marks_application_failed_after_retries refused).1;
     (run test_prune (world [])).1; (run test_check refused).1] = true.
Proof. vm_compute. reflexivity. Qed.
