(* ===== verification/Witnesses.v ===== *)
(** * The theorems at concrete inputs

    Each property with hypotheses, applied where they hold: to the sample libraries, the
    in-memory database and a few applications. *)

From stdpp Require Import base option list strings gmap sets pretty.
From Stdlib Require Import Ascii.
From S2P Require Import Prelude RustStr Entities Database Error Http Cache Env Config.
From S2P Require Import Launcher LauncherFacts Auth Proxy Routes Server Sample RoutesFacts Access.
From S2P Require Import ProxyFacts DispatchFacts AuthFacts ServerFacts System SystemFacts.
From S2P Require Import Migrations Json Api Client Startup Session Registry Termination Wire WireFacts Runtime Liveness.
Import application SampleHttp SampleRouter SampleConfig SampleHost SampleAuth MemSchema SampleClient SampleStartup.

Open Scope rust_scope.

(** Both sides evaluate to the same value. *)
Ltac vm_refl :=
  first [ match goal with |- ?a = ?b => exact (@eq_refl _ b <: a = b) end | vm_compute; reflexivity ].

(** ** Launcher *)

Definition a_user_config : gmap string string := {["a" := "user"; "c" := "user"]}.

Lemma build_conf_lookup_witness : build_conf version a_user_config !! "c" = Some "user,merge".
Proof. rewrite build_conf_lookup. reflexivity. Defined.

Lemma validate_file_configs_spec_witness :
  validate_file_configs {["spark.files" := "/" +:+ "etc/passwd" +:+ "#://"]} = Ok tt.
Proof. exact (proj2 (proj2 (validate_file_configs_spec ∅)) "etc/passwd" eq_refl). Defined.

Lemma no_eq_map (m : gmap string string) :
  bool_decide (map_Forall (fun k _ => has_char "=" k = false) m) = true -> no_eq m.
Proof. intros Hm%bool_decide_eq_true k v Hk. exact (Hm k v Hk). Qed.

Lemma submit_command_conf_witness :
  exists cmd args, build_submit_command launcher version 7 None "alice" "tok" a_user_config None = Ok (cmd, args) /\
    (TOKEN_CONFIG, "tok") ∈ conf_pairs args /\ last args = Some "/path/to/plugin".
Proof.
  eexists _, _. split; [reflexivity|].
  assert (Hv : version_no_eq version) by (split; [|split]; apply no_eq_map; vm_refl).
  assert (Hu : no_eq a_user_config) by (apply no_eq_map; vm_refl).
  destruct (submit_command_conf launcher version 7 None "alice" "tok" a_user_config None _ _ Hv Hu eq_refl)
    as (_ & Hi & Hl).
  split; [|exact Hl]. apply (Hi TOKEN_CONFIG "tok" "tok"); [left|reflexivity].
Defined.

Lemma conf_key_injection_witness :
  exists cmd args x,
    build_submit_command launcher version 7 None "alice" "tok" {[TOKEN_CONFIG +:+ "=" +:+ "evil" := ""]} None = Ok (cmd, args) /\
    (TOKEN_CONFIG, "evil" +:+ x) ∈ conf_pairs args.
Proof. exact (proj2 (conf_key_injection launcher version 7 None "alice" "tok" None "evil")). Defined.

Lemma launch_spawns_only_validated_witness :
  started launcher (run_trace (spark_launch launcher None 7 None "alice" "tok" a_user_config None) world3) 0.
Proof.
  exact (proj2 (launch_spawns_only_validated launcher None 7 None "alice" "tok" a_user_config None _ _
    (run_is_trace _ world3) (run_trace_lawful _ world3)) 0 eq_refl).
Defined.

Definition a_config : ProxyConfig :=
  mkProxyConfig None None None None None None None None None None None (Some [version]) None.

Lemma find_version_spec_witness :
  exists L, from_config a_config = Ok L /\ exists v vs, versions L = v :: vs /\ find_version L None = Ok v.
Proof.
  eexists. split; [reflexivity|]. exact (proj1 (find_version_spec a_config _ eq_refl)).
Defined.

(** ** Routes *)

Lemma get_app_spec_witness :
  let p := get_app a_config 1 (mkUserId "alice") in
  (run p world3).1 = Ok (application_info a_config app_running) /\ rows (run p world3).2 = rows world3.
Proof.
  intros p. pose proof (get_app_spec a_config world3 "alice" 1) as Hs. split; [vm_refl|].
  unfold p. destruct (run _ _). exact (proj1 Hs).
Defined.

Definition launching_filter : ListApplicationsRequest :=
  mkListApplicationsRequest (Some " LAUNCHING,") None (Some 30%Z).

Lemma list_apps_spec_witness :
  let p := list_apps a_config (mkUserId "alice") launching_filter in
  (run p world3).1 = Ok [application_info a_config app_launching] /\ cache (run p world3).2 = cache world3.
Proof.
  intros p. pose proof (list_apps_spec a_config world3 "alice" launching_filter) as Hs.
  split; [vm_refl|]. unfold p. destruct (run _ _). exact (proj1 (proj2 Hs)).
Defined.

Lemma delete_app_spec_witness :
  let p := delete_app 1 (mkUserId "alice") in
  (run p world3).1 = Ok tt /\
  exists before stop after, run_trace p world3 = before ++ stop ++ after /\ told_to_stop app_running stop (Ok tt).
Proof.
  intros p. pose proof (delete_app_spec world3 "alice" 1) as Hs. cbv zeta in Hs. fold p in Hs.
  assert (Hr : (run p world3).1 = Ok tt) by (vm_refl). split; [exact Hr|].
  destruct (run p world3) as [r w']. simpl in Hr. subst r.
  destruct Hs as [Hs|[Hs|(m & n & gone & stop & Ho & _ & _ & Ht & Hstop)]];
    [discriminate (proj1 Hs)|discriminate (proj1 Hs)|].
  assert (Hm : m = app_running).
  { pose proof (proj1 Ho) as Hm. assert (H1 : rows world3 !! 1%Z = Some app_running) by (vm_refl).
    rewrite H1 in Hm. injection Hm as Hm. symmetry. exact Hm. }
  subst m. eexists _, stop, _. split; [exact Ht|exact Hstop].
Defined.

Definition a_request : CreateApplicationRequest :=
  mkCreateApplicationRequest (Some "report") None (Some a_user_config) None.

Lemma create_app_spec_witness :
  let p := create_app launcher a_config (mkUserId "carol") a_request in
  is_ok (run p world3).1 = true /\
  exists m, created "carol" a_request (rows world3) m /\ rows (run p world3).2 = <[id m := m]> (rows world3).
Proof.
  intros p. pose proof (create_app_spec launcher a_config world3 "carol" a_request) as Hs. cbv zeta in Hs. fold p in Hs.
  assert (Hr : is_ok (run p world3).1 = true) by (vm_refl). split; [exact Hr|].
  destruct (run p world3) as [r w']. simpl in Hr. destruct (exec NewV4 world3) as [tok w0].
  destruct (exec (Db (Insert _)) w0) as [[m|e] w1]; destruct Hs as [_ Hs]; [|rewrite (proj1 Hs) in Hr; discriminate Hr].
  destruct Hs as (Hc & after & _ & Hs). exists m. split; [exact Hc|].
  destruct (run (launch _ _ _ _ _ _ _ _) w1).1; [exact (proj2 (proj2 Hs))|rewrite (proj1 Hs) in Hr; discriminate Hr].
Defined.

Definition a_callback : ApplicationCallbackRequest := mkApplicationCallbackRequest "10.0.0.2:4000" "app-2".

Lemma app_callback_spec_witness :
  let p := app_callback (mkBearerToken "tok-2") a_callback in
  (run p world3).1 = Ok tt /\ rows (run p world3).2 !! 2%Z = Some (running a_callback app_launching).
Proof.
  intros p. pose proof (app_callback_spec world3 "tok-2" a_callback) as Hs.
  assert (Hr : (run p world3).1 = Ok tt) by (vm_refl). split; [exact Hr|].
  unfold p in *. destruct (run _ _) as [r w']. simpl in Hr. subst r. destruct Hs as (_ & _ & Hs).
  cbn [snd]. rewrite (Hs 2%Z). vm_refl.
Defined.

Lemma app_callback_delete_spec_witness :
  let p := app_callback_delete (mkBearerToken "tok-1") in
  (run p world3).1 = Ok tt /\ rows (run p world3).2 !! 1%Z = Some (finished app_running).
Proof.
  intros p. pose proof (app_callback_delete_spec world3 "tok-1") as Hs.
  assert (Hr : (run p world3).1 = Ok tt) by (vm_refl). split; [exact Hr|].
  unfold p in *. destruct (run _ _) as [r w']. simpl in Hr. subst r. destruct Hs as (_ & Hs & _).
  cbn [snd]. rewrite (Hs 1%Z). vm_refl.
Defined.

Lemma launch_watch_spec_witness :
  healthy world3 /\ rows (run (launch_watch 0 2) world3).2 !! 2%Z = Some (with_state FAILED app_launching).
Proof.
  assert (Hw : healthy world3) by reflexivity. split; [exact Hw|].
  rewrite (proj2 (launch_watch_spec world3 0 2 Hw) 2%Z). vm_refl.
Defined.

Lemma deleted_app_comes_back_witness :
  let w1 := (run (delete_app 2 (mkUserId "alice")) world3).2 in
  let w2 := (run (app_callback (mkBearerToken "tok-2") a_callback) w1).2 in
  rows w1 !! 2%Z = Some (finished app_launching) /\ rows w2 !! 2%Z = Some (running a_callback app_launching).
Proof.
  refine (deleted_app_comes_back world3 "alice" app_launching a_callback _ _ _).
  - reflexivity.
  - split; vm_refl.
  - reflexivity.
Defined.

(** ** Access *)

Definition by_header : list UserAuthMethod := [RemoteUserAuth "X-User"].
Definition alice_headers : HeaderMap := [("x-user", "alice")].

Lemma serve_needs_authority_witness :
  let p := serve launcher a_config by_header (GetApp 1) [] in
  (run p world3).1 = Err UNAUTHORIZED /\ run_trace p world3 = [].
Proof.
  intros p. pose proof (serve_needs_authority launcher a_config by_header (GetApp 1) [] _ _ (run_is_trace p world3)) as Hs.
  destruct (proj2 Hs UNAUTHORIZED eq_refl) as (Ht & Hr & _). split; [|exact Ht].
  apply Hr. reflexivity.
Defined.

(** The event of index [n] of a trace. *)
Lemma event_at (h : list ev) (n : nat) (e : Eff) :
  ev_eff <$> h !! n = Some e -> exists x, h = take n h ++ x :: drop (S n) h /\ ev_eff x = e.
Proof.
  destruct (h !! n) as [x|] eqn:E; [|done]. intros [= <-]. exists x. split; [|done].
  symmetry. by apply take_drop_middle.
Qed.

Lemma first_event (h : list ev) x : head h = Some x -> h = x :: drop 1 h.
Proof. destruct h; [done|]. by intros [= ->]. Qed.

Lemma serve_scoped_witness :
  let t := run_trace (serve launcher a_config by_header (GetApp 1) alice_headers) world3 in
  exists x t2, t = x :: t2 /\ ev_eff x = Db (One [UsernameEq "alice"; IdEq 1]) /\ scoped (AsUser "alice") [] (ev_eff x).
Proof.
  intros t.
  pose proof (serve_scoped launcher a_config by_header (GetApp 1) alice_headers (AsUser "alice") _ _ eq_refl
    (run_is_trace _ world3) (run_trace_lawful _ world3)) as Hs.
  destruct (event_at t 0 (Db (One [UsernameEq "alice"; IdEq 1]))) as (x & Ht & Hx); [vm_refl|].
  exists x, (drop 1 t). split; [exact Ht|]. split; [exact Hx|]. exact (Hs _ _ _ Ht).
Defined.

Lemma tenant_isolation_witness :
  let p := serve launcher a_config by_header (DeleteApp 1) alice_headers in
  exists s r t2, run_trace p world3 = Ev (Db s) r :: t2 /\ revealed s r = [app_running] /\
    Forall (mine (AsUser "alice")) (revealed s r).
Proof.
  intros p. exists (One [UsernameEq "alice"; IdEq 1]), (Ok (Some app_running)), (drop 1 (run_trace p world3)).
  assert (Ht : run_trace p world3 =
    Ev (Db (One [UsernameEq "alice"; IdEq 1])) (Ok (Some app_running)) :: drop 1 (run_trace p world3))
    by (apply first_event; vm_refl).
  split; [exact Ht|]. split; [reflexivity|].
  refine (proj1 (tenant_isolation launcher a_config by_header (DeleteApp 1) alice_headers (AsUser "alice") _ _ eq_refl
    (run_is_trace p world3) (run_trace_lawful p world3) [] _ _ _ _)). exact Ht.
Defined.

(** ** Proxy *)

Lemma proxy_error_response_message_witness :
  exists message, proxy_error_response (Internal "100% lost") =
      mkResponse 200 [("content-type", "application/grpc"); ("grpc-status", "13"); ("grpc-message", message)] None /\
    percent_decode message = "internal error: 100% lost".
Proof.
  destruct (proxy_error_response_message (Internal "100% lost")) as (m & Hm & _ & Hd).
  exists m. split; [exact Hm|exact Hd].
Defined.

Definition spark_request (tok : string) : Request :=
  mkRequest _ POST "/spark.connect.SparkConnectService/ExecutePlan" [("authorization", "Bearer " +:+ tok)] 0.

(** A world in which one request for the running application waits in the queue. *)
Definition queue_world : World :=
  mkWorld (mem_db [app_running; app_launching; app_finished]) Cache.new [] [] [(spark_request "tok-1", 9)] 1000.

Definition a_dispatcher : prog unit := upstream_connection 1 1 0 "tok-1" None.

Lemma dispatcher_guarded_witness :
  let t := run_trace a_dispatcher queue_world in
  exists t1 x t2, t = t1 ++ x :: t2 /\ ev_eff x = TcpConnect "10.0.0.1:4000" /\ seen_running "tok-1" t1 "10.0.0.1:4000".
Proof.
  intros t.
  pose proof (dispatcher_guarded 1 1 0 "tok-1" _ _ (run_is_trace a_dispatcher queue_world) (run_trace_lawful a_dispatcher queue_world)) as Hs.
  destruct (event_at t 3 (TcpConnect "10.0.0.1:4000")) as (x & Ht & Hx); [vm_refl|].
  exists (take 3 t), x, (drop 4 t). split; [exact Ht|]. split; [exact Hx|].
  specialize (Hs _ _ _ Ht). rewrite Hx in Hs. exact Hs.
Defined.

Lemma dispatcher_answers_once_witness :
  let t := run_trace a_dispatcher queue_world in
  exists t1 x t2, t = t1 ++ x :: t2 /\ ev_eff x = Spawn (DeliverResponse 0 9) /\ taken t1 = replied t1 ++ [9].
Proof.
  intros t.
  pose proof (dispatcher_answers_once 1 1 0 "tok-1" _ _ (run_is_trace a_dispatcher queue_world) (run_trace_lawful a_dispatcher queue_world)) as Hs.
  destruct (event_at t 8 (Spawn (DeliverResponse 0 9))) as (x & Ht & Hx); [vm_refl|].
  exists (take 8 t), x, (drop 9 t). split; [exact Ht|]. split; [exact Hx|].
  specialize (Hs _ _ _ Ht). rewrite Hx in Hs. exact Hs.
Defined.

Lemma resolve_polls_until_launched_witness :
  let p := resolve_upstream_address 2 0 "tok-1" in
  (run p world3).1 = Some (Ok "10.0.0.1:4000") /\ (count launching_poll (run_trace p world3) < 2)%nat.
Proof.
  intros p.
  pose proof (resolve_polls_until_launched 2 0 "tok-1" _ _ (run_is_trace p world3) (run_trace_lawful p world3)) as Hs.
  assert (Hr : (run p world3).1 = Some (Ok "10.0.0.1:4000")) by (vm_refl).
  unfold p in *. rewrite Hr in Hs. split; [exact Hr|exact (proj1 Hs)].
Defined.

(** A world in which nothing listens. *)
Definition refusing_world : World :=
  let refused := Err (mkIoError OtherKind "connection refused") in
  mkWorld (mem_db [app_running]) Cache.new [] [refused; refused; refused; refused] [] 1000.

Lemma connect_attempts_bounded_witness :
  let p := resolve_upstream_connection 1 0 "tok-1" in
  count is_connect (run_trace p refusing_world) = 4 /\ count is_mark (run_trace p refusing_world) = 1.
Proof.
  intros p.
  destruct (connect_attempts_bounded 1 0 "tok-1" _ _ (run_is_trace p refusing_world) (run_trace_lawful p refusing_world))
    as (_ & _ & Hs).
  assert (Hr : (run p refusing_world).1 = Some (Err (UpstreamConnect (mkIoError OtherKind "connection refused"))))
    by (vm_refl).
  unfold p in *. rewrite Hr in Hs. specialize (Hs _ eq_refl).
  destruct Hs as (Hc & Hm & _); [vm_compute; lia|]. split; [exact Hc|exact Hm].
Defined.

Lemma single_flight_witness :
  let ops := [Cache.LookupOpen "tok-1"; Cache.GetOrInsert "tok-2"; Cache.GetOrInsert "tok-1"; Cache.Invalidate "tok-2"] in
  Cache.lookup_open "tok-1" (Cache.steps ops (Cache.get_or_insert "tok-1" Cache.new).2) = Some 0.
Proof.
  intros ops. refine (proj1 (single_flight "tok-1" Cache.new ops Cache.new_wf _)).
  repeat constructor. discriminate.
Defined.

Lemma reconnect_fresh_witness :
  exists c s', Cache.get_or_insert "tok-1" Cache.new = ((c, true), s') /\ Cache.lookup_open "tok-1" s' = Some c.
Proof.
  destruct (proj2 (reconnect_fresh "tok-1" Cache.new Cache.new_wf) eq_refl) as (c & s' & Hg & _ & _ & _ & Hl & _).
  exists c, s'. split; [exact Hg|exact Hl].
Defined.

Lemma sender_for_spec_witness :
  let p := sender_for "tok-1" in
  let raced := [Ev (CacheOp (Cache.LookupOpen "tok-1")) None; Ev (Db (One [TokenEq "tok-1"])) (Ok (Some app_running));
                Ev (CacheOp (Cache.GetOrInsert "tok-1")) (0, false)] in
  ((run p world3).1 = Ok 0 /\ Cache.lookup_open "tok-1" (cache (run p world3).2) = Some 0) /\
  sender_outcome "tok-1" Cache.new (Cache.get_or_insert "tok-1" Cache.new).2 raced (Ok 0).
Proof.
  intros p raced. destruct (sender_for_spec (W := World) "tok-1") as [Hany Hrun]. split.
  - specialize (Hrun world3 Cache.new_wf). fold p in Hrun.
    assert (Hr : (run p world3).1 = Ok 0) by (vm_refl). split; [exact Hr|].
    destruct (run p world3) as [r w']. simpl in Hr. subst r. exact (proj1 (proj2 (proj2 (proj2 (proj2 Hrun))))).
  - apply Hany; [exact (Cache.get_or_insert_wf "tok-1" Cache.new Cache.new_wf)| | |]; unfold raced, p.
    + do 3 (eapply trace_do; cbn). constructor.
    + repeat constructor.
    + repeat constructor.
Defined.

Definition a_router (_ : Request) : prog Response := Ret (mkResponse 404 [] None).

Lemma call_guarded_witness :
  let t := run_trace (call a_router (spark_request "tok-1")) world3 in
  exists t1 x t2, t = t1 ++ x :: t2 /\ ev_eff x = QueueSend 0 (spark_request "tok-1", 0) /\ handed "tok-1" t1 0.
Proof.
  intros t.
  pose proof (proj1 (call_guarded a_router (spark_request "tok-1") _ _ (run_is_trace _ world3) (run_trace_lawful _ world3))) as Hs.
  destruct (event_at t 5 (QueueSend 0 (spark_request "tok-1", 0))) as (x & Ht & Hx); [vm_refl|].
  exists (take 5 t), x, (drop 6 t). split; [exact Ht|]. split; [exact Hx|].
  specialize (Hs _ _ _ Ht). rewrite Hx in Hs. exact (proj1 Hs).
Defined.

Lemma bearer_readers_agree_witness :
  Proxy.extract_bearer_token (req_headers (spark_request "tok-1")) = Ok "tok-1" /\
  token_authorize (req_headers (spark_request "tok-1")) = Ok (mkBearerToken "tok-1").
Proof.
  split; [reflexivity|].
  exact (proj1 (proj1 (proj2 (bearer_readers_agree (req_headers (spark_request "tok-1")) "tok-1")) eq_refl)).
Defined.

(** ** Server *)
Import SampleTime.

Lemma prune_spec_witness :
  let p := prune 900 in
  is_ok (run p world3).1 = true /\ without (prunable 100000000000) (rows world3) (rows (run p world3).2).
Proof.
  intros p.
  pose proof (prune_spec world3 900 1000 world3 world3 eq_refl eq_refl) as Hs.
  assert (Hr : is_ok (run p world3).1 = true) by (vm_refl). split; [exact Hr|].
  unfold p in *. destruct (run _ _) as [r w']. simpl in Hr.
  destruct Hs as [[_ Hs]|[Hs _]]; [unfold TIMESTAMP_MAX; lia|lia|exact Hs|rewrite Hr in Hs; discriminate Hs].
Defined.

Lemma prune_wraps_witness :
  let p := prune (2 ^ 64 - 1) in
  without (fun m => state m = FAILED \/ state m = FINISHED) (rows world3) (rows (run p world3).2).
Proof.
  intros p. pose proof (prune_wraps world3 1000 1 world3 world3 eq_refl eq_refl) as Hs.
  unfold p. destruct (run _ _) as [r w']. apply Hs; try (unfold TIMESTAMP_MAX; lia); [reflexivity|].
  assert (Hall : bool_decide (map_Forall (fun _ m => created_at m <= 1000 * 1000000000)%Z (rows world3)) = true)
    by (vm_refl).
  apply bool_decide_eq_true in Hall. exact Hall.
Defined.

Lemma health_check_attempts_witness :
  let p := check_application_health "10.0.0.1:4000" "tok-1" in
  count good_answer (run_trace p world3) = 1.
Proof.
  intros p.
  exact (proj1 (proj2 (health_check_attempts "10.0.0.1:4000" "tok-1" _ _ (run_is_trace p world3) (run_trace_lawful p world3)) _ eq_refl)).
Defined.

(** A world whose applications do not answer. *)
Definition silent_world : World :=
  mkWorld (mem_db [app_running; app_launching]) Cache.new (replicate 4 (Err "timeout")) [] [] 1000.

Lemma check_spec_witness :
  (run check silent_world).1 = Ok tt /\ rows (run check silent_world).2 !! 2%Z = Some app_launching /\
  exists apps h ms, app_running ∈ apps /\ check_run apps h ms.
Proof.
  pose proof (check_spec silent_world silent_world eq_refl eq_refl) as Hs.
  destruct (run check silent_world) as [r w']. destruct Hs as (Hr & _ & apps & h & ms & _ & Hin & _ & Hc & _ & Hs).
  split; [exact Hr|]. split.
  - assert (H2 : rows silent_world !! 2%Z = Some app_launching) by (vm_refl).
    cbn [snd]. rewrite Hs; [exact H2|]. rewrite H2. intros m [= <-]. discriminate.
  - exists apps, h, ms. split; [|exact Hc]. apply Hin.
    split; [vm_refl|reflexivity].
Defined.



Lemma shutdown_completes_witness :
  exists s es' s', run_steps false run_start [Accepted; Signal] = Some s /\
    run_steps false s es' = Some s' /\ phase s' = Returned (Ok tt).
Proof.
  eexists. destruct (shutdown_completes false [Accepted; Signal] _ eq_refl eq_refl (or_introl eq_refl))
    as (es' & s' & Hs & Hp & _).
  exists es', s'. split; [reflexivity|]. split; [exact Hs|exact Hp].
Defined.

Lemma handshake_stops_server_witness :
  phase run_start = Accepting /\
  exists s', run_steps true run_start [Accepted; HandshakeEnds (Err "bad certificate")] = Some s' /\
    phase s' = Returned (Err "bad certificate").
Proof.
  split; [reflexivity|].
  destruct (proj1 (handshake_stops_server run_start "bad certificate" eq_refl)) as (s' & Hs & Hp & _).
  exists s'. split; [exact Hs|exact Hp].
Defined.

(** ** The system *)

Definition a_start : Table := keyed_rows [app_running; app_launching; app_finished].
Definition a_drawn : gset string := {["tok-1"; "tok-2"; "tok-3"]}.

Lemma a_start_good : good_start a_start a_drawn.
Proof.
  split; [apply keyed_rows_keyed|]. split.
  - intros k k' m m' Hm Hm' Ht.
    assert (Hu : bool_decide (map_Forall (fun k m => map_Forall (fun k' m' => token m = token m' -> k = k') a_start) a_start) = true)
      by (vm_refl).
    apply bool_decide_eq_true in Hu. exact (Hu k m Hm k' m' Hm' Ht).
  - intros k m Hm. unfold a_start, keyed_rows in Hm. simpl in Hm.
    repeat (apply lookup_insert_Some in Hm as [[<- <-]|[_ Hm]]; [split; [vm_compute; auto; split; by eexists|vm_refl]|]).
    discriminate Hm.
Qed.

(** The server has come up and a request of alice has joined. *)
Definition a_thread : Thread :=
  mkThread [] None (discard (serve launcher a_config by_header (GetApp 1) alice_headers)).
Definition a_sys : Sys := mkSys a_start Cache.new a_drawn [a_thread].

Lemma a_step : sys_step launcher a_config by_header (sys_start a_start a_drawn) a_sys.
Proof. apply (step_arrive _ _ _ (sys_start a_start a_drawn)). constructor. Qed.

Lemma a_sys_reachable : reachable launcher a_config by_header a_start a_drawn a_sys.
Proof. eapply reach_step; [apply reach_start|apply a_step]. Qed.

Lemma system_invariant_witness : Cache.wf (sys_cache a_sys) /\ id app_running = 1%Z.
Proof.
  pose proof (system_invariant launcher a_config by_header a_start a_drawn a_sys a_start_good a_sys_reachable) as Hs.
  split; [exact (proj2 (proj2 Hs))|]. exact (proj1 (proj1 Hs 1%Z app_running eq_refl)).
Defined.

(** The driver of the launching application is about to report in. *)
Definition a_driver : Thread :=
  mkThread [] None (discard (serve launcher a_config by_header (AppCallback a_callback) [("authorization", "Bearer tok-2")])).

Lemma a_report :
  exists s s', reachable launcher a_config by_header a_start a_drawn s /\ sys_step launcher a_config by_header s s' /\
    sys_rows s !! 2%Z = Some app_launching /\ sys_rows s' !! 2%Z = Some (running a_callback app_launching).
Proof.
  pose (s := mkSys a_start Cache.new a_drawn [a_driver]).
  assert (Hr : reachable launcher a_config by_header a_start a_drawn s).
  { eapply reach_step; [apply reach_start|]. apply (step_arrive _ _ _ (sys_start a_start a_drawn)). constructor. }
  pose (cols := [SetAddress (Some "10.0.0.2:4000"); SetState RUNNING; SetApplicationId (Some "app-2")]).
  assert (Hp : db_post (UpdateMany cols [TokenEq "tok-2"]) a_start (Ok 1%Z) (update_rows cols [TokenEq "tok-2"] a_start))
    by (split; [vm_refl|reflexivity]).
  eexists s, _. split; [exact Hr|].
  split; [exact (step_effect launcher a_config by_header s 0 a_driver (Db (UpdateMany cols [TokenEq "tok-2"])) _ (Ok 1%Z)
    _ _ _ [] eq_refl eq_refl (conj Hp (conj eq_refl eq_refl)) eq_refl)|].
  split; vm_refl.
Qed.

Lemma system_step_rows_witness :
  exists s s', reachable launcher a_config by_header a_start a_drawn s /\ sys_step launcher a_config by_header s s' /\
    sys_rows s' !! 2%Z = Some (running a_callback app_launching) /\ username (running a_callback app_launching) = "alice".
Proof.
  destruct a_report as (s & s' & Hr & Hstep & Hrow0 & Hrow). exists s, s'. split; [exact Hr|]. split; [exact Hstep|].
  split; [exact Hrow|].
  exact (proj1 (proj1 (system_step_rows launcher a_config by_header a_start a_drawn _ _ a_start_good Hr Hstep)
    2%Z app_launching _ Hrow0 Hrow)).
Defined.

(** One step of the first thread. *)
Lemma first_thread_step s th rest e k r t c d new :
  reachable launcher a_config by_header a_start a_drawn s ->
  sys_pool s = th :: rest -> th_prog th = Do e k -> effect e s r t c d -> spawned_by e new ->
  reachable launcher a_config by_header a_start a_drawn
    (mkSys t c d (mkThread (th_seen th ++ [Ev e r]) (th_serves th) (k r) :: rest ++ new)).
Proof.
  intros Hs Hpool Hp He Hn. eapply reach_step; [exact Hs|].
  pose proof (step_effect launcher a_config by_header s 0 th e k r t c d new) as Hstep.
  rewrite Hpool in Hstep. exact (Hstep eq_refl Hp He Hn).
Qed.

(** A request of alice's running application is about to be queued. *)
Lemma about_to_queue :
  exists s th k, reachable launcher a_config by_header a_start a_drawn s /\ sys_pool s !! 0 = Some th /\
    th_prog th = Do (QueueSend 0 (spark_request "tok-1", 5)) k.
Proof.
  pose proof (reach_start launcher a_config by_header a_start a_drawn) as R0.
  pose proof (reach_step _ _ _ _ _ _ _ R0
    (step_arrive _ _ _ _ _ (arrive_proxy launcher a_config by_header (spark_request "tok-1")))) as R1.
  pose proof (first_thread_step _ _ _ (CacheOp (Cache.LookupOpen "tok-1")) _ None _ _ _ [] R1 eq_refl eq_refl
    (conj eq_refl (conj eq_refl eq_refl)) eq_refl) as R2.
  assert (Hrow : db_post (One [TokenEq "tok-1"]) a_start (Ok (Some app_running)) a_start)
    by (split; [reflexivity|split; vm_refl]).
  pose proof (first_thread_step _ _ _ (Db (One [TokenEq "tok-1"])) _ (Ok (Some app_running)) _ _ _ [] R2 eq_refl eq_refl
    (conj Hrow (conj eq_refl eq_refl)) eq_refl) as R3.
  pose proof (first_thread_step _ _ _ (CacheOp (Cache.GetOrInsert "tok-1")) _ (0, true) _ _ _ [] R3 eq_refl eq_refl
    (conj eq_refl (conj eq_refl eq_refl)) eq_refl) as R4.
  pose proof (first_thread_step _ _ _ (Spawn (UpstreamConnection 0 "tok-1")) _ 0 _ _ _
    [mkThread [] (Some 0) (upstream_connection 1 1 0 "tok-1" None)] R4 eq_refl eq_refl
    (conj eq_refl (conj eq_refl eq_refl))
    (ex_intro _ _ (ex_intro _ _ (conj (tt_upstream 0 "tok-1" 1 1) eq_refl)))) as R5.
  pose proof (first_thread_step _ _ _ OneshotNew _ 5 _ _ _ [] R5 eq_refl eq_refl
    (conj eq_refl (conj eq_refl eq_refl)) eq_refl) as R6.
  eexists _, _, _. split; [exact R6|]. split; [reflexivity|]. reflexivity.
Qed.

Lemma queued_with_own_token_witness :
  exists s, reachable launcher a_config by_header a_start a_drawn s /\ Cache.workers (sys_cache s) !! 0 = Some "tok-1".
Proof.
  destruct about_to_queue as (s & th & k & Hr & Hi & Hp). exists s. split; [exact Hr|].
  destruct (queued_with_own_token launcher a_config by_header a_start a_drawn s 0 th 0 (spark_request "tok-1") 5 k
    a_start_good Hr Hi Hp) as (token & Ht & Hw).
  rewrite Hw. f_equal. injection Ht as <-. reflexivity.
Defined.

(** ** Start-up, migrations and the client *)

Definition tls_config : ProxyConfig :=
  mkProxyConfig None None None None None None None None None None
    (Some (mkTlsConfig "server.key" "server.pem")) (Some [version])
    (Some [mkAuthConfig "remote_user" (Some {["header" := "X-User"]})]).

Lemma server_from_config_spec_witness :
  exists server, server_from_config tls_config = Ok server /\
    server_user_auth server = [RemoteUserAuth "X-User"] /\ CurrentUserAuth ∉ server_user_auth server.
Proof.
  eexists. split; [reflexivity|]. split; [reflexivity|].
  lazymatch goal with
  | |- _ ∉ server_user_auth ?s =>
      assert (E : server_from_config tls_config = Ok s) by (vm_refl);
      destruct (server_from_config_spec tls_config s E) as (_ & _ & _ & _ & _ & _ & _ & Hc & _)
  end.
  intros Hin. by apply Hc in Hin.
Defined.



Definition an_info : ApplicationInfo :=
  mkApplicationInfo 7 None "tok" "RUNNING" true None (Some "http://log").

Lemma create_application_meets_api_witness :
  call_result (create_application (new_client "http://plug:8100") None ∅) (Ok (200%Z, Some (to_json an_info))) =
    Ok (mkApplication 7 "tok" true (Some "http://log")).
Proof.
  destruct (create_application_meets_api "http://plug:8100" None ∅) as (_ & _ & Hr & _).
  apply (Hr 200%Z an_info). by vm_compute.
Defined.

Lemma connection_string_reads_back_witness :
  exists s, connection_string (new_client "https://plug:8100") (mkApplication 7 "tok" true None) = Ok (Ok s) /\
    read_connection s = Some (mkConnection "plug:8100" [("token", "tok"); ("use_ssl", "true")]).
Proof.
  exact (connection_string_reads_back "https://plug:8100" (mkApplication 7 "tok" true None) eq_refl eq_refl).
Defined.

(** ** The components composed *)

#[export] Instance a_query : QueryLib := {
  query_params _ := Ok (mkListApplicationsRequest None None None)
}.

Definition a_base : string := "https://spark-plug:8100".
Definition carol_headers : HeaderMap := [("x-user", "carol")].
Definition carols_app : Application := mkApplication 4 "ttok-3tok-2tok-1" false None.
Definition a_call : prog (result Application string) :=
  exchange launcher a_config by_header a_base carol_headers (create_application (new_client a_base) None a_user_config).

Lemma session_end_to_end_witness :
  let w1 := (run a_call world3).2 in
  let w2 := (run (serve launcher a_config by_header (AppCallback a_callback)
                    [("authorization", "Bearer " +:+ app_token carols_app)]) w1).2 in
  (run a_call world3).1 = Ok carols_app /\
  (run (resolve_upstream_address 1 0 (app_token carols_app)) w2).1 = Some (Ok "10.0.0.2:4000").
Proof.
  intros w1 w2.
  assert (Hc : (run a_call world3).1 = Ok carols_app) by (vm_refl). split; [exact Hc|].
  assert (Hi : bool_decide (map_Forall (fun k _ => i32 k) (rows w1)) = true) by (vm_refl).
  apply bool_decide_eq_true in Hi.
  pose proof (session_end_to_end launcher a_config by_header a_base carol_headers "carol" None a_user_config
    [("authorization", "Bearer " +:+ app_token carols_app)] a_callback world3 w1 carols_app
    eq_refl eq_refl) as Hs.
  assert (Hrun : run a_call world3 = (Ok carols_app, w1)) by (rewrite <- Hc; apply surjective_pairing).
  specialize (Hs Hrun (fun k m Hm => Hi k m Hm) ltac:(vm_refl)).
  subst w2. destruct (run (serve _ _ _ _ _) w1) as [r w2].
  exact (proj1 (proj2 (proj2 Hs)) 0 0 eq_refl).
Defined.

(** The driver of the launching application has reported in. *)
Lemma system_refines_registry_witness :
  exists s, reachable launcher a_config by_header a_start a_drawn s /\
    rtc registry_step (registry a_start) (registry (sys_rows s)) /\
    registry (sys_rows s) !! 2%Z = Some (mkEntry "alice" None "tok-2" (Running "10.0.0.2:4000" "app-2")).
Proof.
  destruct a_report as (s & s' & Hr & Hstep & _ & Hrow). exists s'.
  assert (Hr' : reachable launcher a_config by_header a_start a_drawn s') by (eapply reach_step; [exact Hr|exact Hstep]).
  split; [exact Hr'|]. split.
  - exact (proj1 (system_refines_registry launcher a_config by_header a_start a_drawn s' a_start_good Hr')).
  - rewrite registry_lookup, Hrow. reflexivity.
Defined.

Lemma requests_terminate_witness :
  let t := run_trace (serve launcher a_config by_header (CreateApp a_request) alice_headers) world3 in
  length t = 5%nat /\ (length t <= 11)%nat.
Proof.
  intros t. split; [vm_refl|].
  exact (proj1 (requests_terminate launcher a_config by_header) _ _ _ _ (run_is_trace _ world3) (run_trace_lawful _ world3)).
Defined.

(** [GET] and [HEAD] of a percent-encoded id. *)
Lemma encoded_id : extract (mkApiRequest HEAD "/apps/%37" "" alice_headers None) = Some ("/apps/{app_id}", Ok (GetApp 7)).
Proof. vm_refl. Qed.

Lemma stop_application_meets_api_witness :
  extract (mkApiRequest DELETE "/apps/7" "" alice_headers None) = Some ("/apps/{app_id}", Ok (DeleteApp 7)) /\
  call_result (stop_application (new_client a_base) 7) (Ok (200%Z, None)) = Ok tt.
Proof.
  destruct (stop_application_meets_api a_base 7) as ((path & Hurl & He) & _ & _ & Ha). split.
  - apply (strip_prefix_Some a_base) in Hurl. vm_compute in Hurl. injection Hurl as <-. exact (He "" alice_headers None).
  - apply Ha. exists 200%Z, None. split; reflexivity.
Defined.

(** A request to a session, its dispatcher and the task that delivers the response, run
    until the response has come back. *)
Definition a_response : Response := mkResponse 200 [("grpc-status", "0")] None.
Definition a_net : Runtime :=
  run_schedule (driver_up (fun _ _ => Some (Ok a_response))) 2 2 30 [0; 1; 3; 0]
    (join (discard (dispatch_request (spark_request "tok-1")))
      (mkRuntime (mem_db [app_running; app_launching; app_finished]) Cache.new a_drawn [] no_wires)).

Lemma a_net_reachable : net_reachable launcher a_config by_header a_start a_drawn (net_of a_net).
Proof.
  eapply net_reachable_rtc; [|apply run_schedule_steps].
  eapply net_reach_step; [apply net_reach_start|].
  apply (join_step launcher a_config by_header _ (mkRuntime (mem_db [app_running; app_launching; app_finished]) Cache.new a_drawn [] no_wires)).
  constructor.
Qed.

(** What a history has put into queues, and the responses it has received. *)
Definition queued_ok (h : list ev) : list (Cache.chan * (Request * nat)) :=
  h ≫= fun x =>
    match ev_eff x as e return resp e -> list (Cache.chan * (Request * nat)) with
    | QueueSend c m => fun r => match r with Ok _ => [(c, m)] | Err _ => [] end
    | _ => fun _ => []
    end (ev_resp x).

Definition received_ok (h : list ev) : list (nat * Response) :=
  h ≫= fun x =>
    match ev_eff x as e return resp e -> list (nat * Response) with
    | OneshotRecv tx => fun r => match r with Some (Ok res) => [(tx, res)] | _ => [] end
    | _ => fun _ => []
    end (ev_resp x).

Lemma queued_event c m h : (c, m) ∈ queued_ok h -> Ev (QueueSend c m) (Ok tt) ∈ h.
Proof.
  intros ([e r] & Hin & Hx)%list_elem_of_bind. destruct e; try by apply elem_of_nil in Hin.
  destruct r as [[]|]; simpl in Hin; [|by apply elem_of_nil in Hin]. by apply list_elem_of_singleton in Hin as [= -> ->].
Qed.

Lemma received_event tx res h : (tx, res) ∈ received_ok h -> Ev (OneshotRecv tx) (Some (Ok res)) ∈ h.
Proof.
  intros ([e r] & Hin & Hx)%list_elem_of_bind. destruct e; try by apply elem_of_nil in Hin.
  destruct r as [[res'|]|]; simpl in Hin; try by apply elem_of_nil in Hin.
  by apply list_elem_of_singleton in Hin as [= -> ->].
Qed.

Lemma a_net_history :
  exists th, rt_pool a_net !! 0 = Some th /\
    Ev (QueueSend 0 (spark_request "tok-1", 0)) (Ok tt) ∈ th_seen th /\
    Ev (OneshotRecv 0) (Some (Ok a_response)) ∈ th_seen th.
Proof.
  assert (Hs : (fun th => (queued_ok (th_seen th), received_ok (th_seen th))) <$> rt_pool a_net !! 0 =
    Some ([(0, (spark_request "tok-1", 0))], [(0, a_response)])) by (vm_refl).
  revert Hs. generalize (rt_pool a_net !! 0). intros [th|] Hs; [|discriminate Hs].
  injection Hs as Hq Hr. exists th. split; [reflexivity|]. split.
  - apply queued_event. rewrite Hq. left.
  - apply received_event. rewrite Hr. left.
Qed.

Lemma responses_not_mixed_witness :
  exists n sender uri, wi_sent (rt_wires a_net) !! n = Some (sender, with_uri uri (spark_request "tok-1")) /\
    (n, Ok a_response) ∈ wi_answers (rt_wires a_net).
Proof.
  destruct a_net_history as (th & Hi & Hs & Hr).
  destruct (responses_not_mixed launcher a_config by_header a_start a_drawn (net_sys (net_of a_net)) (rt_wires a_net) 0 th 0
    (spark_request "tok-1") 0 a_response a_start_good a_net_reachable Hi Hs Hr)
    as (j & dispatcher & token & sender & addr & uri & n & _ & _ & _ & _ & Hn & Ha).
  exists n, sender, uri. split; [exact Hn|exact Ha].
Defined.

(** The first request to the running application, right after the server has come up. *)
Lemma running_application_served_witness :
  exists s' w' th c tx,
    rtc (net_step launcher a_config by_header) (mkNet (sys_start a_start a_drawn) no_wires) (mkNet s' w') /\
    sys_pool s' !! 0 = Some th /\ Ev (QueueSend c (spark_request "tok-1", tx)) (Ok tt) ∈ th_seen th /\
    Ev (OneshotRecv tx) (Some (Ok a_response)) ∈ th_seen th.
Proof.
  destruct (running_application_served launcher a_config by_header a_start a_drawn (sys_start a_start a_drawn) no_wires
    (spark_request "tok-1") "tok-1" app_running "10.0.0.1:4000"
    "http://10.0.0.1:4000/spark.connect.SparkConnectService/ExecutePlan" a_response
    a_start_good (net_reach_start _ _ _ _ _) eq_refl eq_refl eq_refl eq_refl eq_refl eq_refl eq_refl)
    as (s' & w' & th & c & tx & Hrun & _ & Hth & _ & Hq & Hr).
  exists s', w', th, c, tx. split; [exact Hrun|]. split; [exact Hth|]. split; [exact Hq|exact Hr].
Defined.
